(** * wrap_openpose: a shallow embedding of [src/wrap_openpose.py]

    The script groups OpenPose one-frame-per-file outputs by the metadata
    found in their file names, loads them, and writes one wrapper file per
    session in which keypoint lists are de-indented by a regular expression
    substitution over the pretty-printed JSON text.

    Python [str] values are modelled as lists of 8-bit characters (the
    Latin-1 range of Python 3's code points); integers are [Z]; [None] is
    [option]; exceptions are an explicit error type; dictionaries are
    association lists in insertion order (the iteration order of Python 3.7
    and later). *)

From Stdlib Require Import List Ascii String ZArith Lia Bool Arith.
From Stdlib Require Import DecimalString DecimalZ Sorting.Sorted Permutation.
Import ListNotations.

Set Warnings "-register-all".

Open Scope string_scope.
Open Scope list_scope.
Open Scope Z_scope.
Open Scope nat_scope.

(** ** Text *)

Abbreviation text := (list ascii).

Definition tx (s : string) : text := list_ascii_of_string s.

Definition text_eqb (a b : text) : bool :=
  if list_eq_dec ascii_dec a b then true else false.

Definition code (a : ascii) : nat := nat_of_ascii a.

Definition LF : ascii := ascii_of_nat 10.

(** The double quote. *)
Definition DQ : ascii := ascii_of_nat 34.

Definition in_range (lo hi : nat) (a : ascii) : bool :=
  (lo <=? code a) && (code a <=? hi).

Definition is_lit (c : ascii) (a : ascii) : bool := Ascii.eqb c a.

(** [\d] on the modelled character range: the decimal digits. *)
Definition is_digit (a : ascii) : bool := in_range 48 57 a.

(** [\w]: letters, digits and the underscore.  The pattern that uses it is
    applied to the output of [json.dumps], which is 7-bit text. *)
Definition is_word (a : ascii) : bool :=
  in_range 97 122 a || in_range 65 90 a || is_digit a || is_lit "_" a.

(** The white space that [str.strip()] removes, on the modelled range. *)
Definition is_space (a : ascii) : bool :=
  in_range 9 13 a || in_range 28 32 a || (code a =? 133) || (code a =? 160).

Fixpoint lstrip (s : text) : text :=
  match s with
  | a :: s' => if is_space a then lstrip s' else s
  | [] => []
  end.

Definition rstrip (s : text) : text := rev (lstrip (rev s)).

(** [s.strip()] *)
Definition strip (s : text) : text := rstrip (lstrip s).

(** [s.split(sep)] for a one-character separator: never returns the empty
    list, and keeps empty pieces. *)
Fixpoint split_on (sep : ascii) (s : text) : list text :=
  match s with
  | [] => [[]]
  | a :: s' =>
      if Ascii.eqb a sep then [] :: split_on sep s'
      else match split_on sep s' with
           | p :: ps => (a :: p) :: ps
           | [] => [[a]]
           end
  end.

(** [sep.join(items)] *)
Fixpoint join (sep : text) (items : list text) : text :=
  match items with
  | [] => []
  | [x] => x
  | x :: rest => x ++ sep ++ join sep rest
  end.

Fixpoint starts_with (p s : text) : bool :=
  match p, s with
  | [], _ => true
  | a :: p', b :: s' => Ascii.eqb a b && starts_with p' s'
  | _ :: _, [] => false
  end.

Definition ends_with (p s : text) : bool := starts_with (rev p) (rev s).


(** [str(n)] for an integer. *)
Definition str_of_Z (z : Z) : text :=
  tx (NilEmpty.string_of_int (Z.to_int z)).

(** ** Regular expressions

    A backtracking matcher in continuation-passing style with the priorities
    of Python's [re]: alternatives left to right, greedy repetition tries one
    more iteration first, lazy repetition tries the continuation first.  An
    iteration of a repetition that consumes nothing is not taken. *)

Inductive regex : Type :=
| Eps : regex
| Chr : (ascii -> bool) -> regex
| Cat : regex -> regex -> regex
| Alt : regex -> regex -> regex
| Star : bool -> regex -> regex
| Group : string -> regex -> regex
| Bol : regex
| Eol : regex.

Fixpoint Lit_list (s : text) : regex :=
  match s with
  | [] => Eps
  | [a] => Chr (is_lit a)
  | a :: s' => Cat (Chr (is_lit a)) (Lit_list s')
  end.

Definition Lit (s : string) : regex := Lit_list (tx s).

(** [r+] and [r+?] *)
Definition Plus (greedy : bool) (r : regex) : regex := Cat r (Star greedy r).

(** [r?] *)
Definition Opt (r : regex) : regex := Alt r Eps.

(** [.] without [re.DOTALL], and with it. *)
Definition dot (a : ascii) : bool := negb (Ascii.eqb a LF).
Definition dot_all (_ : ascii) : bool := true.

Fixpoint Seq (rs : list regex) : regex :=
  match rs with
  | [] => Eps
  | [r] => r
  | r :: rs' => Cat r (Seq rs')
  end.

Definition caps := list (string * option text).

Fixpoint set_cap (n : string) (v : text) (c : caps) : caps :=
  match c with
  | [] => []
  | (n', v') :: c' =>
      if String.eqb n n' then (n', Some v) :: c' else (n', v') :: set_cap n v c'
  end.

Fixpoint group_names (r : regex) : list string :=
  match r with
  | Cat a b | Alt a b => group_names a ++ group_names b
  | Star _ a => group_names a
  | Group n a => n :: group_names a
  | _ => []
  end.

Section Matcher.
Context {A : Type}.

(** The iterations of [r*] and [r*?], [body] matching [r]: at most [n]
    iterations, each of which has to move on. *)
Fixpoint star_loop
         (body : nat -> text -> caps -> (nat -> text -> caps -> option A) -> option A)
         (greedy : bool) (k : nat -> text -> caps -> option A)
         (n : nat) (i : nat) (s : text) (c : caps) {struct n} : option A :=
  match n with
  | O => k i s c
  | S n' =>
      if greedy then
        match body i s c
                (fun i' s' c' =>
                   if i <? i' then star_loop body greedy k n' i' s' c' else None) with
        | Some x => Some x
        | None => k i s c
        end
      else
        match k i s c with
        | Some x => Some x
        | None =>
            body i s c
              (fun i' s' c' =>
                 if i <? i' then star_loop body greedy k n' i' s' c' else None)
        end
  end.

(** [rmatch r i s c k]: match [r] at offset [i], where [s] is the text from
    [i] on and [c] the groups captured so far; [k] is what follows. *)
Fixpoint rmatch (r : regex) (i : nat) (s : text) (c : caps)
         (k : nat -> text -> caps -> option A) {struct r} : option A :=
  match r with
  | Eps => k i s c
  | Chr p =>
      match s with
      | a :: s' => if p a then k (S i) s' c else None
      | [] => None
      end
  | Cat r1 r2 => rmatch r1 i s c (fun i' s' c' => rmatch r2 i' s' c' k)
  | Alt r1 r2 =>
      match rmatch r1 i s c k with
      | Some x => Some x
      | None => rmatch r2 i s c k
      end
  | Star greedy r1 => star_loop (rmatch r1) greedy k (S (List.length s)) i s c
  | Group n r1 =>
      rmatch r1 i s c (fun i' s' c' => k i' s' (set_cap n (firstn (i' - i) s) c'))
  | Bol => if i =? 0 then k i s c else None
  | Eol =>
      match s with
      | [] => k i s c
      | [a] => if Ascii.eqb a LF then k i s c else None
      | _ => None
      end
  end.
End Matcher.

(** A match object: the span, the text after it, and the groups of the
    pattern ([None] for a group that did not take part in the match). *)
Record match_obj : Type := MkMatch {
  m_start : nat;
  m_end : nat;
  m_rest : text;
  m_groups : caps
}.

Definition init_caps (r : regex) : caps :=
  map (fun n => (n, @None text)) (group_names r).

(** [re.match] at offset [i] of the subject, [s] being the text from [i] on. *)
Definition match_at (r : regex) (i : nat) (s : text) : option match_obj :=
  rmatch r i s (init_caps r) (fun j s' c => Some (MkMatch i j s' c)).

Fixpoint search_from (r : regex) (i : nat) (s : text) : option match_obj :=
  match match_at r i s with
  | Some m => Some m
  | None =>
      match s with
      | [] => None
      | _ :: s' => search_from r (S i) s'
      end
  end.

(** [re.search(r, s)] *)
Definition re_search (r : regex) (s : text) : option match_obj :=
  search_from r 0 s.

(** The result of [m.group(name)]. *)
Inductive group_result : Type :=
| NoSuchGroup : group_result
| GroupValue : option text -> group_result.

Fixpoint lookup_cap (n : string) (c : caps) : group_result :=
  match c with
  | [] => NoSuchGroup
  | (n', v) :: c' => if String.eqb n n' then GroupValue v else lookup_cap n c'
  end.

Definition group (m : match_obj) (n : string) : group_result :=
  lookup_cap n (m_groups m).

(** [re.sub(r, f, s)] with a function as replacement.  After an empty match
    one character is copied and the scan moves on. *)
Fixpoint sub_fuel (r : regex) (f : match_obj -> text) (n : nat) (i : nat) (s : text)
  : text :=
  match n with
  | O => s
  | S n' =>
      match match_at r i s with
      | Some m =>
          if i <? m_end m then f m ++ sub_fuel r f n' (m_end m) (m_rest m)
          else match s with
               | [] => f m
               | a :: s' => f m ++ a :: sub_fuel r f n' (S i) s'
               end
      | None =>
          match s with
          | [] => []
          | a :: s' => a :: sub_fuel r f n' (S i) s'
          end
      end
  end.

Definition re_sub (r : regex) (f : match_obj -> text) (s : text) : text :=
  sub_fuel r f (S (List.length s)) 0 s.

(** ** The patterns of the script *)

(** [FILENAME_TEMPL.format(a, b, c)]:
    [^(?:.+/)*(?P<id>.+)_(?P<camera>.+){a}(?P<width>\d+)x(?P<height>\d+){b}(?P<frame>\d+){c}keypoints\.json$] *)
Definition FILENAME_TEMPL (a b c : regex) : regex :=
  Seq [ Bol;
        Star true (Cat (Plus true (Chr dot)) (Lit "/"));
        Group "id" (Plus true (Chr dot));
        Lit "_";
        Group "camera" (Plus true (Chr dot));
        a;
        Group "width" (Plus true (Chr is_digit));
        Lit "x";
        Group "height" (Plus true (Chr is_digit));
        b;
        Group "frame" (Plus true (Chr is_digit));
        c;
        Lit "keypoints.json";
        Eol ].

Definition FILENAME_EXTRACTOR_RE : regex :=
  FILENAME_TEMPL (Lit ".") (Lit ".frame_") (Lit ".").
Definition FILENAME_OPFILE_RE : regex :=
  FILENAME_TEMPL (Lit "_") (Lit "_") (Lit "_").
Definition FILENAME_OPDIR_RE : regex :=
  FILENAME_TEMPL (Lit "_") (Seq [Lit "/"; Star true (Chr dot); Lit "_"]) (Lit "_").

(** The class [[\n\d., -e]]: a line feed, a digit, a full stop, a comma, or
    any character from the space (32) to [e] (101) -- the hyphen between the
    space and [e] makes a range. *)
Definition kp_class (a : ascii) : bool :=
  is_lit LF a || is_digit a || is_lit "." a || is_lit "," a || in_range 32 101 a.

(** [("[\w_]+?_keypoints_\dd": \[)([\n\d., -e]+?)(])] *)
Definition KEYPOINTS_KEY_VALUE_RE : regex :=
  Seq [ Group "1" (Seq [ Chr (is_lit DQ);
                         Plus false (Chr (fun a => is_word a || is_lit "_" a));
                         Lit "_keypoints_";
                         Chr is_digit;
                         Lit "d"; Chr (is_lit DQ); Lit ": [" ]);
        Group "2" (Plus false (Chr kp_class));
        Group "3" (Lit "]") ].

(** ** Python values, exceptions and built-ins *)

Inductive py_error : Type :=
| ValueError : text -> py_error
| TypeError : text -> py_error
| IndexError : text -> py_error
| IOError : text -> py_error.

Inductive result (A : Type) : Type :=
| Ok : A -> result A
| Raise : py_error -> result A.
Arguments Ok {A} _.
Arguments Raise {A} _.

Definition bind {A B : Type} (r : result A) (f : A -> result B) : result B :=
  match r with
  | Ok a => f a
  | Raise e => Raise e
  end.

Notation "x <- r ;; k" := (bind r (fun x => k))
  (at level 61, r at next level, right associativity).
Notation "' p <- r ;; k" := (bind r (fun x => let 'p := x in k))
  (at level 61, p pattern, r at next level, right associativity).

(** The decimal digits of [int(s)], with the single underscores that
    Python allows between digits. *)
Fixpoint digits_val (acc : Z) (after_digit : bool) (s : text) : option Z :=
  match s with
  | [] => if after_digit then Some acc else None
  | a :: s' =>
      if is_digit a then digits_val (10 * acc + Z.of_nat (code a - 48)) true s'
      else if is_lit "_" a && after_digit then
             match s' with
             | [] => None
             | _ => digits_val acc false s'
             end
           else None
  end.

(** [int(s)] for a string: surrounding white space, an optional sign,
    decimal digits.  [None] stands for the [ValueError]. *)
Definition py_int (s : text) : option Z :=
  match strip s with
  | a :: r =>
      if is_lit "+" a then digits_val 0 false r
      else if is_lit "-" a then option_map Z.opp (digits_val 0 false r)
      else digits_val 0 false (a :: r)
  | [] => None
  end.

Definition hex_digit (n : nat) : ascii :=
  if n <? 10 then ascii_of_nat (48 + n) else ascii_of_nat (87 + n).

Definition is_printable (a : ascii) : bool :=
  in_range 32 126 a || (in_range 161 255 a && negb (code a =? 173)).

Definition BSL : ascii := ascii_of_nat 92.
Definition SQ : ascii := ascii_of_nat 39.

Definition repr_char (q : ascii) (a : ascii) : text :=
  if Ascii.eqb a q || Ascii.eqb a BSL then [BSL; a]
  else if code a =? 9 then [BSL; "t"%char]
  else if code a =? 10 then [BSL; "n"%char]
  else if code a =? 13 then [BSL; "r"%char]
  else if is_printable a then [a]
  else [BSL; "x"%char; hex_digit (code a / 16); hex_digit (code a mod 16)].

(** [repr(s)] for a string. *)
Definition py_repr (s : text) : text :=
  let q := if existsb (is_lit SQ) s && negb (existsb (is_lit DQ) s) then DQ else SQ in
  q :: flat_map (repr_char q) s ++ [q].

(** ['{}'.format(x)] for an optional string and an optional integer. *)
Definition fmt_text (o : option text) : text :=
  match o with
  | Some s => s
  | None => tx "None"
  end.

Definition fmt_Z (o : option Z) : text :=
  match o with
  | Some z => str_of_Z z
  | None => tx "None"
  end.

(** The values that meet in the membership test of [group_files]. *)
Inductive pyval : Type :=
| PyNone : pyval
| PyInt : Z -> pyval
| PyStr : text -> pyval
| PyTuple : list pyval -> pyval.

(** [a == b] *)
Fixpoint py_eq (a b : pyval) {struct a} : bool :=
  match a, b with
  | PyNone, PyNone => true
  | PyInt x, PyInt y => Z.eqb x y
  | PyStr s, PyStr t => text_eqb s t
  | PyTuple l, PyTuple l' =>
      (fix eql (l l' : list pyval) {struct l} : bool :=
         match l, l' with
         | [], [] => true
         | x :: l1, y :: l1' => py_eq x y && eql l1 l1'
         | _, _ => false
         end) l l'
  | _, _ => false
  end.

(** [x in l] for a list [l] *)
Definition py_in (x : pyval) (l : list pyval) : bool := existsb (py_eq x) l.

(** ** Identity extractor *)

Definition invalid_literal (t : text) : text :=
  tx "invalid literal for int() with base 10: " ++ py_repr t.

Definition int_of_none : text :=
  tx "int() argument must be a string, a bytes-like object or a real number, not 'NoneType'".

(** [try: x = m.group(name) except IndexError: x = None] *)
Definition group_text (m : match_obj) (n : string) : option text :=
  match group m n with
  | NoSuchGroup => None
  | GroupValue v => v
  end.

(** [try: x = int(m.group(name)) except IndexError: x = None] *)
Definition group_int (m : match_obj) (n : string) : result (option Z) :=
  match group m n with
  | NoSuchGroup => Ok None
  | GroupValue None => Raise (TypeError int_of_none)
  | GroupValue (Some t) =>
      match py_int t with
      | Some z => Ok (Some z)
      | None => Raise (ValueError (invalid_literal t))
      end
  end.

Record fields : Type := MkFields {
  f_session_id : option text;
  f_camera : option text;
  f_width : option Z;
  f_height : option Z;
  f_frame : option Z
}.

Definition extract_regex_group_fields (m : match_obj) : result fields :=
  let session_id := group_text m "id" in
  let camera := group_text m "camera" in
  width <- group_int m "width" ;;
  height <- group_int m "height" ;;
  frame <- group_int m "frame" ;;
  Ok (MkFields session_id camera width height frame).

(** ** Dictionaries *)

Definition dict (K V : Type) : Type := list (K * V).

Section Dict.
Context {K V : Type} (eqb : K -> K -> bool).

Fixpoint dict_get (d : dict K V) (k : K) : option V :=
  match d with
  | [] => None
  | (k', v) :: d' => if eqb k k' then Some v else dict_get d' k
  end.

(** [d[k] = v]: a present key keeps its place, a new key goes last. *)
Fixpoint dict_set (d : dict K V) (k : K) (v : V) : dict K V :=
  match d with
  | [] => [(k, v)]
  | (k', v') :: d' =>
      if eqb k k' then (k', v) :: d' else (k', v') :: dict_set d' k v
  end.

(** [d[k]] for a key that is present ([v] otherwise). *)
Definition dict_at (d : dict K V) (k : K) (v : V) : V :=
  match dict_get d k with
  | Some v' => v'
  | None => v
  end.

(** The value that [d.setdefault(k, v)] returns. *)
Definition setdefault_value (d : dict K V) (k : K) (v : V) : V :=
  match dict_get d k with
  | Some v' => v'
  | None => v
  end.
End Dict.

Definition opt_eqb {A : Type} (eqb : A -> A -> bool) (a b : option A) : bool :=
  match a, b with
  | Some x, Some y => eqb x y
  | None, None => true
  | _, _ => false
  end.

Definition key_eqb : option text -> option text -> bool := opt_eqb text_eqb.
Definition frame_eqb : option Z -> option Z -> bool := opt_eqb Z.eqb.

Definition resolution : Type := (option Z * option Z)%type.

Definition res_eqb (a b : resolution) : bool :=
  frame_eqb (fst a) (fst b) && frame_eqb (snd a) (snd b).

(** ** Grouping *)

(** A [(frame, filename)] tuple. *)
Definition entry : Type := (option Z * text)%type.

Definition frame_val (f : option Z) : pyval :=
  match f with
  | Some z => PyInt z
  | None => PyNone
  end.

Definition entry_val (e : entry) : pyval :=
  PyTuple [frame_val (fst e); PyStr (snd e)].

Definition entry_repr (e : entry) : text :=
  tx "(" ++ fmt_Z (fst e) ++ tx ", " ++ py_repr (snd e) ++ tx ")".

(** [l[i]] for a list [l] and the frame value as index. *)
Definition py_index (l : list entry) (i : option Z) : result entry :=
  match i with
  | None => Raise (TypeError (tx "list indices must be integers or slices, not NoneType"))
  | Some z =>
      let j := (if z <? 0 then Z.of_nat (List.length l) + z else z)%Z in
      if (j <? 0)%Z then Raise (IndexError (tx "list index out of range"))
      else match nth_error l (Z.to_nat j) with
           | Some e => Ok e
           | None => Raise (IndexError (tx "list index out of range"))
           end
  end.

(** The file system as the script sees it: which paths are regular files,
    and what [json.load] makes of their content ([None] when the file cannot
    be opened or parsed). *)
Inductive pykey : Type :=
| KStr : text -> pykey
| KInt : Z -> pykey
| KNone : pykey.

Inductive json : Type :=
| JNull : json
| JBool : bool -> json
| JInt : Z -> json
| JFloat : text -> json
| JStr : text -> json
| JArr : list json -> json
| JObj : list (pykey * json) -> json.

Record filesystem : Type := MkFs {
  isfile : text -> bool;
  load_json : text -> option json
}.

(** ** Effects

    What an invocation leaves behind: the lines printed, the warnings
    issued and the files written.  A computation threads this world and
    either returns or raises; the world at the raise is kept. *)
Record world : Type := MkWorld {
  printed : list text;
  warned : list text;
  written : list (text * text)
}.

Definition empty_world : world := MkWorld [] [] [].

Definition M (A : Type) : Type := world -> world * result A.

Definition ret {A : Type} (a : A) : M A := fun w => (w, Ok a).

Definition raise {A : Type} (e : py_error) : M A := fun w => (w, Raise e).

Definition mbind {A B : Type} (m : M A) (f : A -> M B) : M B :=
  fun w =>
    match m w with
    | (w', Ok a) => f a w'
    | (w', Raise e) => (w', Raise e)
    end.

Definition lift {A : Type} (r : result A) : M A := fun w => (w, r).

Definition print (line : text) : M unit :=
  fun w => (MkWorld (printed w ++ [line]) (warned w) (written w), Ok tt).

Definition warn (msg : text) : M unit :=
  fun w => (MkWorld (printed w) (warned w ++ [msg]) (written w), Ok tt).

Definition write_file (filename content : text) : M unit :=
  fun w => (MkWorld (printed w) (warned w) (written w ++ [(filename, content)]), Ok tt).

Definition when (b : bool) (m : M unit) : M unit := if b then m else ret tt.

Declare Scope m_scope.
Delimit Scope m_scope with M.
Notation "x <~ m ;; k" := (mbind m (fun x => k))
  (at level 61, m at next level, right associativity) : m_scope.
Notation "m ;;; k" := (mbind m (fun _ => k))
  (at level 61, right associativity) : m_scope.

Fixpoint for_each {A : Type} (l : list A) (body : A -> M unit) : M unit :=
  match l with
  | [] => ret tt
  | a :: l' => (body a ;;; for_each l' body)%M
  end.

Fixpoint fold_m {A S : Type} (body : S -> A -> M S) (st : S) (l : list A) : M S :=
  match l with
  | [] => ret st
  | a :: l' => (st' <~ body st a ;; fold_m body st' l')%M
  end.

(** ** Grouping, continued *)

(** The lists of tuples are objects shared between the index and
    [frame_file_lists]: they live in a store and both hold references. *)
Definition session_index (L : Type) : Type :=
  dict (option text) (dict (option text) (dict resolution L)).

Record gstate : Type := MkG {
  g_index : session_index nat;
  g_store : list (list entry);
  g_lists : list nat
}.

Fixpoint store_set (st : list (list entry)) (r : nat) (l : list entry)
  : list (list entry) :=
  match st, r with
  | [], _ => []
  | _ :: st', O => l :: st'
  | x :: st', S r' => x :: store_set st' r' l
  end.

Definition store_get (st : list (list entry)) (r : nat) : list entry :=
  nth r st [].

Definition duplicate_message (filename : text) (other : entry) : text :=
  tx "Multiple files match the same recording frame: " ++ [DQ] ++ filename ++ [DQ]
  ++ tx " vs " ++ [DQ] ++ entry_repr other ++ [DQ].

(** Lines 106-122: the tuple of a matched file goes into its list. *)
Definition group_insert (st : gstate) (filename : text) (f : fields) : result gstate :=
  let resolution := (f_width f, f_height f) in
  let cam2res := setdefault_value key_eqb (g_index st) (f_session_id f) [] in
  let res2tuples := setdefault_value key_eqb cam2res (f_camera f) [] in
  let '(r, res2tuples', store', lists') :=
    match dict_get res_eqb res2tuples resolution with
    | None =>
        let r := List.length (g_store st) in
        (r, dict_set res_eqb res2tuples resolution r,
         g_store st ++ [[]], g_lists st ++ [r])
    | Some r => (r, res2tuples, g_store st, g_lists st)
    end in
  let frame_file_tuples := store_get store' r in
  if py_in (frame_val (f_frame f)) (map entry_val frame_file_tuples) then
    other <- py_index frame_file_tuples (f_frame f) ;;
    Raise (ValueError (duplicate_message filename other))
  else
    Ok (MkG (dict_set key_eqb (g_index st) (f_session_id f)
               (dict_set key_eqb cam2res (f_camera f) res2tuples'))
            (store_set store' r (frame_file_tuples ++ [(f_frame f, filename)]))
            lists').

(** The body of the loop of [group_files] for one file name. *)
Definition group_step (fs : filesystem) (filename_re : regex) (verbose : bool)
           (st : gstate) (filename : text) : M gstate :=
  if isfile fs filename then
    match re_search filename_re filename with
    | Some filename_match =>
        (f <~ lift (extract_regex_group_fields filename_match) ;;
         lift (group_insert st filename f))%M
    | None =>
        (when verbose
           (print (tx "Ignored file not matching filename pattern: " ++ filename)) ;;;
         ret st)%M
    end
  else ret st.

(** Order of strings and of [(frame, filename)] tuples. *)
Fixpoint text_ltb (a b : text) : bool :=
  match a, b with
  | _, [] => false
  | [], _ :: _ => true
  | x :: a', y :: b' =>
      if code x <? code y then true
      else if code y <? code x then false
      else text_ltb a' b'
  end.

Definition frame_ltb (a b : option Z) : bool :=
  match a, b with
  | Some x, Some y => (x <? y)%Z
  | _, _ => false
  end.

Definition entry_ltb (a b : entry) : bool :=
  if frame_eqb (fst a) (fst b) then text_ltb (snd a) (snd b)
  else frame_ltb (fst a) (fst b).

Section Sort.
Context {A : Type} (ltb : A -> A -> bool).

(** [x] goes before the first element that is not smaller: equal
    elements keep their order, as in Python's stable sort. *)
Fixpoint insert_sorted (x : A) (l : list A) : list A :=
  match l with
  | [] => [x]
  | y :: l' => if ltb y x then y :: insert_sorted x l' else x :: l
  end.

Definition insertion_sort (l : list A) : list A :=
  fold_right insert_sorted [] l.
End Sort.

Definition is_none {A : Type} (o : option A) : bool :=
  match o with
  | None => true
  | Some _ => false
  end.

Definition mixed {A : Type} (l : list (option A)) : bool :=
  existsb is_none l && existsb (fun o => negb (is_none o)) l.

Definition unorderable : py_error :=
  TypeError (tx "'<' not supported between instances of 'NoneType' and 'int'").

(** [l.sort()] and [sorted(l)] on a list of tuples: Python 3 cannot order
    [None] and an integer, and a sort has to compare them when both occur. *)
Definition py_sort (l : list entry) : result (list entry) :=
  if mixed (map fst l) then Raise unorderable
  else Ok (insertion_sort entry_ltb l).

(** [for frame_file_tuples in frame_file_lists: frame_file_tuples.sort()] *)
Fixpoint sort_lists (store : list (list entry)) (refs : list nat)
  : result (list (list entry)) :=
  match refs with
  | [] => Ok store
  | r :: refs' =>
      l <- py_sort (store_get store r) ;;
      sort_lists (store_set store r l) refs'
  end.

Definition deref_index (store : list (list entry)) (idx : session_index nat)
  : session_index (list entry) :=
  map (fun sc =>
         (fst sc, map (fun cr =>
                         (fst cr, map (fun rl => (fst rl, store_get store (snd rl)))
                                      (snd cr)))
                      (snd sc)))
      idx.

Definition init_gstate : gstate := MkG [] [] [].

(** [group_files]: the index, its lists read from the store. *)
Definition group_files (fs : filesystem) (filenames : list text)
           (filename_re : regex) (verbose : bool)
  : M (session_index (list entry)) :=
  (st <~ fold_m (group_step fs filename_re verbose) init_gstate filenames ;;
   store <~ lift (sort_lists (g_store st) (g_lists st)) ;;
   ret (deref_index store (g_index st)))%M.

(** ** [json.dumps(recordings, sort_keys=False, indent=2)] *)

Definition hex4 (n : nat) : text :=
  [hex_digit (n / 4096 mod 16); hex_digit (n / 256 mod 16);
   hex_digit (n / 16 mod 16); hex_digit (n mod 16)].

(** One character of [encode_basestring_ascii]. *)
Definition escape_char (a : ascii) : text :=
  if Ascii.eqb a DQ then [BSL; DQ]
  else if Ascii.eqb a BSL then [BSL; BSL]
  else if code a =? 8 then [BSL; "b"%char]
  else if code a =? 12 then [BSL; "f"%char]
  else if code a =? 10 then [BSL; "n"%char]
  else if code a =? 13 then [BSL; "r"%char]
  else if code a =? 9 then [BSL; "t"%char]
  else if in_range 32 126 a then [a]
  else BSL :: "u"%char :: hex4 (code a).

Definition encode_string (s : text) : text :=
  DQ :: flat_map escape_char s ++ [DQ].

(** The string that the encoder makes of a dictionary key. *)
Definition key_text (k : pykey) : text :=
  match k with
  | KStr s => s
  | KInt z => str_of_Z z
  | KNone => tx "null"
  end.

Definition newline_indent (level : nat) : text :=
  LF :: repeat " "%char (2 * level).

Definition item_separator (level : nat) : text :=
  tx "," ++ newline_indent level.

(** A float is kept as the text that [float.__repr__] gives; the encoder
    writes [NaN], [Infinity] and [-Infinity] for the special values. *)
Fixpoint dumps_at (level : nat) (v : json) {struct v} : text :=
  match v with
  | JNull => tx "null"
  | JBool true => tx "true"
  | JBool false => tx "false"
  | JInt z => str_of_Z z
  | JFloat t => t
  | JStr s => encode_string s
  | JArr [] => tx "[]"
  | JArr l =>
      tx "[" ++ newline_indent (S level)
      ++ join (item_separator (S level)) (map (dumps_at (S level)) l)
      ++ newline_indent level ++ tx "]"
  | JObj [] => tx "{}"
  | JObj kvs =>
      tx "{" ++ newline_indent (S level)
      ++ join (item_separator (S level))
           (map (fun kv => encode_string (key_text (fst kv)) ++ tx ": "
                           ++ dumps_at (S level) (snd kv)) kvs)
      ++ newline_indent level ++ tx "}"
  end.

Definition json_dumps (v : json) : text := dumps_at 0 v.

(** ** Selective-indent serializer *)

(** The three groups of [KEYPOINTS_KEY_VALUE_RE] take part in every match. *)
Definition deindent_key_value (m : match_obj) : text :=
  let key_string := fmt_text (group_text m "1") in
  let array_content_string := fmt_text (group_text m "2") in
  let array_close_string := fmt_text (group_text m "3") in
  let deindented_content_items := map strip (split_on LF array_content_string) in
  let deindented_content_string := strip (join (tx " ") deindented_content_items) in
  key_string ++ deindented_content_string ++ array_close_string.

(** The text that [write_wrapper] writes. *)
Definition slimindent_json (recordings : list json) : text :=
  let fullindent_json := json_dumps (JArr recordings) in
  re_sub KEYPOINTS_KEY_VALUE_RE deindent_key_value fullindent_json.

(** [ensure_dir] ignores a failing [os.makedirs]; opening the output file is
    taken to succeed. *)
Definition write_wrapper (filename : text) (recordings : list json) (verbose : bool)
  : M unit :=
  (when verbose (print (tx "Write wrapper file: " ++ filename)) ;;;
   write_file filename (slimindent_json recordings))%M.

(** ** Consistency checker *)

Definition sanity_check_groups (idx : session_index (list entry)) : M unit :=
  for_each idx (fun sc =>
    for_each (snd sc) (fun cr =>
      if 1 <? List.length (snd cr) then
        let resolutions :=
          map (fun rl => fmt_Z (fst (fst rl)) ++ tx "x" ++ fmt_Z (snd (fst rl))) (snd cr) in
        warn (tx "Encountered multiple resolutions for recording " ++ [DQ]
              ++ fmt_text (fst cr) ++ [DQ] ++ tx " of session " ++ [DQ]
              ++ fmt_text (fst sc) ++ [DQ] ++ tx ": " ++ join (tx ", ") resolutions)
      else ret tt)).

(** ** Recording loader *)

Definition pykey_eqb (a b : pykey) : bool :=
  match a, b with
  | KStr s, KStr t => text_eqb s t
  | KInt x, KInt y => Z.eqb x y
  | KNone, KNone => true
  | _, _ => false
  end.

Definition frame_key (f : option Z) : pykey :=
  match f with
  | Some z => KInt z
  | None => KNone
  end.

Definition opt_item (k : string) (o : option json) : list (pykey * json) :=
  match o with
  | Some v => [(KStr (tx k), v)]
  | None => []
  end.

Definition load_recording (fs : filesystem) (frame_file_tuples : list entry)
           (session_id camera : option text) (width height : option Z)
           (verbose : bool) : M json :=
  (when verbose
     (print (tx "Loading " ++ str_of_Z (Z.of_nat (List.length frame_file_tuples))
             ++ tx " frames for recording " ++ [DQ] ++ fmt_text camera ++ [DQ]
             ++ tx " of session " ++ [DQ] ++ fmt_text session_id ++ [DQ])) ;;;
   let recording_dict :=
     opt_item "id" (option_map JStr session_id)
     ++ opt_item "camera" (option_map JStr camera)
     ++ opt_item "width" (option_map JInt width)
     ++ opt_item "height" (option_map JInt height) in
   sorted_tuples <~ lift (py_sort frame_file_tuples) ;;
   frame2data <~ fold_m (fun (frame2data : dict pykey json) (e : entry) =>
                           match load_json fs (snd e) with
                           | Some doc => ret (dict_set pykey_eqb frame2data (frame_key (fst e)) doc)
                           | None => raise (IOError (snd e))
                           end)
                        [] sorted_tuples ;;
   ret (JObj (recording_dict ++ [(KStr (tx "frames"), JObj frame2data)])))%M.

(** ** Session assembler *)

(** [', '.join(d)] over the keys of a dictionary. *)
Fixpoint join_keys (keys : list (option text)) : result (list text) :=
  match keys with
  | [] => Ok []
  | Some k :: keys' => ks <- join_keys keys' ;; Ok (k :: ks)
  | None :: _ => Raise (TypeError (tx "sequence item: expected str instance, NoneType found"))
  end.

Definition opt_text_ltb (a b : option text) : bool :=
  match a, b with
  | Some x, Some y => text_ltb x y
  | _, _ => false
  end.

(** [sorted(d)] over the keys of a dictionary. *)
Definition sorted_keys (keys : list (option text)) : result (list (option text)) :=
  if mixed keys then
    Raise (TypeError (tx "'<' not supported between instances of 'NoneType' and 'str'"))
  else Ok (insertion_sort opt_text_ltb keys).

(** [os.path.join(a, b)] on POSIX. *)
Definition path_join (a b : text) : text :=
  if starts_with (tx "/") b then b
  else match a with
       | [] => b
       | _ => if ends_with (tx "/") a then a ++ b else a ++ tx "/" ++ b
       end.

Definition output_name (session_id : option text) (output_dir : option text) : text :=
  let session_id := match session_id with
                    | None => tx "session"
                    | Some s => s
                    end in
  let output_filename := session_id ++ tx ".openpose.json" in
  match output_dir with
  | Some d => path_join d output_filename
  | None => output_filename
  end.

Definition wrap_session (fs : filesystem) (output_dir : option text) (verbose : bool)
           (sc : option text * dict (option text) (dict resolution (list entry)))
  : M unit :=
  let session_id := fst sc in
  let cam2res := snd sc in
  (when verbose
     (names <~ lift (join_keys (map fst cam2res)) ;;
      print (tx "Processing cameras for session " ++ [DQ] ++ fmt_text session_id ++ [DQ]
             ++ tx ": " ++ join (tx ", ") names)) ;;;
   cameras <~ lift (sorted_keys (map fst cam2res)) ;;
   recordings <~ fold_m (fun recordings camera =>
       let res2tuples := dict_at key_eqb cam2res camera [] in
       fold_m (fun recordings (rl : resolution * list entry) =>
                 recording <~ load_recording fs (snd rl) session_id camera
                                (fst (fst rl)) (snd (fst rl)) verbose ;;
                 ret (recordings ++ [recording]))
              recordings res2tuples)
     [] cameras ;;
   write_wrapper (output_name session_id output_dir) recordings verbose)%M.

Definition wrap_json_frames (fs : filesystem) (input_filenames : list text)
           (output_dir : option text) (filename_re : regex) (verbose : bool) : M unit :=
  (idx <~ group_files fs input_filenames filename_re verbose ;;
   sanity_check_groups idx ;;;
   for_each idx (wrap_session fs output_dir verbose))%M.

(** ** Vocabulary of the statements *)

(** The groups that [extract_regex_group_fields] converts with [int], in
    the order in which it does. *)
Definition numeric_groups : list string := ["width"; "height"; "frame"].

Definition error_message (e : py_error) : text :=
  match e with
  | ValueError msg | TypeError msg | IndexError msg | IOError msg => msg
  end.

(** What a successful run of a matcher tells: the continuation succeeded
    after [n] characters, with the same group names. *)
Definition returns_through {A : Type} (i : nat) (s : text) (c : caps)
           (k : nat -> text -> caps -> option A) (x : A) : Prop :=
  exists n c', n <= List.length s /\ k (i + n) (skipn n s) c' = Some x
               /\ map fst c' = map fst c.

Definition sound_matcher {A : Type}
  (body : nat -> text -> caps -> (nat -> text -> caps -> option A) -> option A) : Prop :=
  forall i s c k x, body i s c k = Some x -> returns_through i s c k x.

(** A pattern with optional groups, [(?P<id>a)?(?P<camera>b)?(?P<width>\d+)?x(?P<frame>\d+)],
    for the examples. *)
Definition optional_groups_re : regex :=
  Seq [ Opt (Group "id" (Lit "a")); Opt (Group "camera" (Lit "b"));
        Opt (Group "width" (Plus true (Chr is_digit))); Lit "x";
        Group "frame" (Plus true (Chr is_digit)) ].

(** A pattern whose [frame] group takes any text,
    [^(?P<id>.+)_(?P<frame>.+)_keypoints\.json$]. *)
Definition loose_frame_re : regex :=
  Seq [ Bol; Group "id" (Plus true (Chr dot)); Lit "_";
        Group "frame" (Plus true (Chr dot)); Lit "_keypoints.json"; Eol ].

(** A bucket of the index is named by session, camera and resolution. *)
Definition bucket_key : Type := (option text * option text * resolution)%type.

(** The buckets of an index, in the order in which iterating the three
    levels meets them. *)
Definition flat_index {L : Type} (idx : session_index L) : list (bucket_key * L) :=
  flat_map (fun sc =>
    flat_map (fun cr => map (fun rl => ((fst sc, fst cr, fst rl), snd rl)) (snd cr))
             (snd sc)) idx.

Definition fields_bucket (f : fields) : bucket_key :=
  (f_session_id f, f_camera f, (f_width f, f_height f)).

Definition bucket_eqb (a b : bucket_key) : bool :=
  key_eqb (fst (fst a)) (fst (fst b)) && key_eqb (snd (fst a)) (snd (fst b))
  && res_eqb (snd a) (snd b).

(** No dictionary of the index has a key twice. *)
Definition wf_index {L : Type} (idx : session_index L) : Prop :=
  NoDup (map fst idx)
  /\ Forall (fun sc => NoDup (map fst (snd sc))
                       /\ Forall (fun cr => NoDup (map fst (snd cr))) (snd sc)) idx.

(** The tuples that the inputs [fl] (fields and path, in input order) put
    into bucket [b]. *)
Definition bucket_entries (b : bucket_key) (fl : list (fields * text)) : list entry :=
  map (fun x => (f_frame (fst x), snd x))
      (filter (fun x => bucket_eqb (fields_bucket (fst x)) b) fl).

(** The three-level update of [group_insert]. *)
Definition index_set {L : Type} (idx : session_index L) (b : bucket_key) (v : L)
  : session_index L :=
  let cam2res := setdefault_value key_eqb idx (fst (fst b)) [] in
  let res2tuples := setdefault_value key_eqb cam2res (snd (fst b)) [] in
  dict_set key_eqb idx (fst (fst b))
    (dict_set key_eqb cam2res (snd (fst b)) (dict_set res_eqb res2tuples (snd b) v)).

Definition index_get {L : Type} (idx : session_index L) (b : bucket_key) : option L :=
  let cam2res := setdefault_value key_eqb idx (fst (fst b)) [] in
  let res2tuples := setdefault_value key_eqb cam2res (snd (fst b)) [] in
  dict_get res_eqb res2tuples (snd b).

(** Frames in strictly ascending order. *)
Definition frame_lt (a b : option Z) : Prop :=
  match a, b with
  | Some x, Some y => (x < y)%Z
  | _, _ => False
  end.

(** What the loop of [group_files] keeps true, [fl] being the inputs
    grouped so far. *)
Record grouped (fl : list (fields * text)) (st : gstate) : Prop := MkGrouped {
  grouped_wf : wf_index (g_index st);
  grouped_lists : g_lists st = seq 0 (List.length (g_store st));
  grouped_store : forall b r, In (b, r) (flat_index (g_index st)) ->
      r < List.length (g_store st)
      /\ store_get (g_store st) r = bucket_entries b fl
      /\ bucket_entries b fl <> [];
  grouped_inj : forall b b' r, In (b, r) (flat_index (g_index st)) ->
      In (b', r) (flat_index (g_index st)) -> b = b';
  grouped_all : forall x, In x fl ->
      exists r, In (fields_bucket (fst x), r) (flat_index (g_index st));
  grouped_cover : forall r, r < List.length (g_store st) ->
      exists b, In (b, r) (flat_index (g_index st))
}.

(** The inputs that [group_files] takes up: regular files that match the
    pattern, with the fields extracted from the match. *)
Definition taken_up (fs : filesystem) (filename_re : regex) (p : text)
  : list (fields * text) :=
  if isfile fs p then
    match re_search filename_re p with
    | Some m =>
        match extract_regex_group_fields m with
        | Ok f => [(f, p)]
        | Raise _ => []
        end
    | None => []
    end
  else [].

(** The extraction does not raise on [p]. *)
Definition extractable (fs : filesystem) (filename_re : regex) (p : text) : Prop :=
  isfile fs p = true ->
  forall m, re_search filename_re p = Some m ->
            exists f, extract_regex_group_fields m = Ok f.

(** The entries of an index with the key of their bucket: one
    [(fields, path)] for every tuple of every list. *)
Definition bucket_fields (b : bucket_key) (frame : option Z) : fields :=
  MkFields (fst (fst b)) (snd (fst b)) (fst (snd b)) (snd (snd b)) frame.

Definition index_entries (idx : session_index (list entry)) : list (fields * text) :=
  flat_map (fun bl => map (fun e => (bucket_fields (fst bl) (fst e), snd e)) (snd bl))
           (flat_index idx).

(** A path that [group_files] takes up, with the fields of its match. *)
Definition matches_with (fs : filesystem) (filename_re : regex) (p : text) (f : fields)
  : Prop :=
  isfile fs p = true
  /\ exists m, re_search filename_re p = Some m /\ extract_regex_group_fields m = Ok f.

(** No dictionary of the index is empty. *)
Definition full_index {L : Type} (idx : session_index L) : Prop :=
  Forall (fun sc => snd sc <> [] /\ Forall (fun cr => snd cr <> []) (snd sc)) idx.

(** Tuples in the order of their frames. *)
Definition entry_lt (a b : entry) : Prop := frame_lt (fst a) (fst b).

(** A file system in which every path is a regular file holding [doc]. *)
Definition fs_all (doc : json) : filesystem :=
  MkFs (fun _ => true) (fun _ => Some doc).

Definition three_files : list text :=
  [tx "A_cam1_640x480_1_keypoints.json"; tx "A_cam1_640x480_0_keypoints.json";
   tx "A_cam2_640x480_0_keypoints.json"].

Definition three_fields : list fields :=
  [MkFields (Some (tx "A")) (Some (tx "cam1")) (Some 640%Z) (Some 480%Z) (Some 1%Z);
   MkFields (Some (tx "A")) (Some (tx "cam1")) (Some 640%Z) (Some 480%Z) (Some 0%Z);
   MkFields (Some (tx "A")) (Some (tx "cam2")) (Some 640%Z) (Some 480%Z) (Some 0%Z)].

(** A computation that writes no file. *)
Definition keeps_written {A : Type} (m : M A) : Prop :=
  forall w w' r, m w = (w', r) -> written w' = written w.

(** A pattern with a [frame] group only, [(?P<frame>\d+)_keypoints\.json$]. *)
Definition frame_only_re : regex :=
  Seq [ Group "frame" (Plus true (Chr is_digit)); Lit "_keypoints.json"; Eol ].

Definition two_frames : list text :=
  [tx "0_keypoints.json"; tx "1_keypoints.json"].

(** Two files with the same session, camera, resolution and frame, and
    with different content. *)
Definition duplicate_files : list text :=
  [tx "A_cam1_640x480_0_keypoints.json"; tx "A_cam1_640x480_00_keypoints.json"].

Definition fs_duplicate : filesystem :=
  MkFs (fun _ => true)
       (fun p => if text_eqb p (tx "A_cam1_640x480_0_keypoints.json")
                 then Some (JObj [(KStr (tx "version"), JInt 1)])
                 else Some (JObj [(KStr (tx "version"), JInt 2)])).

(** ** The keypoints pattern, piece by piece *)

(** [p+?] followed by [k], written out: the shortest run comes first. *)
Fixpoint lazy_scan {A : Type} (p : ascii -> bool) (k : nat -> text -> caps -> option A)
         (i : nat) (s : text) (c : caps) : option A :=
  match s with
  | [] => None
  | a :: s' =>
      if p a then
        match k (S i) s' c with
        | Some x => Some x
        | None => lazy_scan p k (S i) s' c
        end
      else None
  end.

(** [[\w_]] *)
Definition kp_word (a : ascii) : bool := is_word a || is_lit "_" a.

(** The end of the first group: [_keypoints_], the digit [D], [d], the
    double quote, a colon, a space and the opening bracket. *)
Definition hdr_lit (D : ascii) : text :=
  tx "_keypoints_" ++ [D] ++ tx "d" ++ [DQ] ++ tx ": [".

(** The part of the pattern after [[\w_]+?] in the first group. *)
Definition hdr_re : regex :=
  Seq [ Lit "_keypoints_"; Chr is_digit; Lit "d"; Chr (is_lit DQ); Lit ": [" ].

(** What the second group can hold: a non-empty run of the class that
    stops before the first closing bracket after its first character. *)
Definition kp_span (g : text) : Prop :=
  g <> [] /\ forallb kp_class g = true /\ ~ In "]"%char (tl g).

(** The match object of the pattern for key prefix [u], digit [D] and
    content [g], at offset [i] and with [rest] after it. *)
Definition kp_match (i : nat) (u : text) (D : ascii) (g rest : text) : match_obj :=
  MkMatch i (i + (1 + List.length u + 17 + List.length g + 1)) rest
          [("1", Some (DQ :: u ++ hdr_lit D)); ("2", Some g); ("3", Some (tx "]"))].

(** The content of the second group after [deindent_key_value]. *)
Definition deindented (g : text) : text :=
  strip (join (tx " ") (map strip (split_on LF g))).

(** The substitution of [write_wrapper]. *)
Definition kp_sub (s : text) : text :=
  re_sub KEYPOINTS_KEY_VALUE_RE deindent_key_value s.

(** The first group for the key prefix [u] and the digit [D]. *)
Definition kp_header (u : text) (D : ascii) : text := DQ :: u ++ hdr_lit D.

(** ** Vocabulary of the statements on the serializer *)

(** The characters of a finite number as [json.dumps] writes it. *)
Definition num_char (a : ascii) : bool :=
  is_digit a || is_lit "-" a || is_lit "+" a || is_lit "." a || is_lit "e" a.

Definition num_token (t : text) : Prop := t <> [] /\ forallb num_char t = true.

(** An integer, or a float that is neither infinite nor a NaN. *)
Definition finite_number (v : json) : Prop :=
  match v with
  | JInt _ => True
  | JFloat t => num_token t
  | _ => False
  end.

(** The text of a number does not depend on the level. *)
Definition number_text (v : json) : text := dumps_at 0 v.

(** An array on one line: [[v0, v1, v2]]. *)
Definition flat_array (l : list json) : text :=
  tx "[" ++ join (tx ", ") (map number_text l) ++ tx "]".

(** The key [u_keypoints_Dd]. *)
Definition kp_key (u : text) (D : ascii) : text :=
  u ++ tx "_keypoints_" ++ [D] ++ tx "d".

(** [v] is the value of key [k] in an object somewhere in the document. *)
Inductive has_member : json -> pykey -> json -> Prop :=
| member_here : forall kvs k v,
    In (k, v) kvs -> has_member (JObj kvs) k v
| member_in_object : forall kvs k' x k v,
    In (k', x) kvs -> has_member x k v -> has_member (JObj kvs) k v
| member_in_array : forall l x k v,
    In x l -> has_member x k v -> has_member (JArr l) k v.

(** The text of an object member: the key, a colon and a space. *)
Definition member_key (k : pykey) : text := encode_string (key_text k) ++ tx ": ".

(** The lines of a pretty-printed list after [strip]: every item but the
    last with its comma, and the empty line before the closing bracket. *)
Fixpoint comma_lines (toks : list text) : list text :=
  match toks with
  | [] => [[]]
  | [t] => [t; []]
  | t :: rest => (t ++ tx ",") :: comma_lines rest
  end.

(** The text between the brackets of a pretty-printed non-empty list. *)
Definition array_body (level : nat) (toks : list text) : text :=
  newline_indent (S level) ++ join (item_separator (S level)) toks ++ newline_indent level.

(** Characters that [encode_basestring_ascii] leaves as they are. *)
Definition plain_char (a : ascii) : bool :=
  in_range 32 126 a && negb (Ascii.eqb a DQ) && negb (Ascii.eqb a BSL).

(** Documents for the examples: one object with one list. *)
Definition one_list_doc (key : string) (nums : list json) : json :=
  JObj [(KStr (tx key), JArr nums)].

(** The text around the member of [one_list_doc] in the pretty-printed
    list of recordings. *)
Definition one_list_pre : text :=
  tx "[" ++ newline_indent 1 ++ tx "{" ++ newline_indent 2.
Definition one_list_post : text :=
  newline_indent 1 ++ tx "}" ++ newline_indent 0 ++ tx "]".

(** ** Documents the serializer is written for, and their intended text *)


(** The text ends with [_keypoints_], a digit and [d]. *)
Definition kp_ending (s : text) : bool :=
  match rev s with
  | d :: D :: r =>
      is_lit "d" d && is_digit D && starts_with (rev (tx "_keypoints_")) r
  | _ => false
  end.

(** A key that the first group of the pattern takes from its opening quote:
    one or more letters, digits and underscores, then [_keypoints_], a
    digit and [d]. *)
Definition kp_name (k : pykey) : bool :=
  match k with
  | KStr s => kp_ending s && forallb kp_word s && (13 <? List.length s)
  | _ => false
  end.


















Definition all_chars : list ascii := map ascii_of_nat (seq 0 256).




(** ** [json.loads]

    The decoder of the standard library with its defaults, as far as the
    texts of the serializer go: [py_scanstring] in strict mode,
    [NUMBER_RE], [JSONArray], [JSONObject] and the scanner that ties them
    together.  Code points above 255 are outside the modelled characters;
    a float is the text of its token. *)













Section Scanner.
Variable scan : text -> option (json * text).


End Scanner.




(** ** Vocabulary of the round trip *)










(** ** Vocabulary of the further properties *)

(** A space or a line feed, and the text without them. *)
Definition is_blank (a : ascii) : bool := is_lit " " a || is_lit LF a.

Definition unblanked (s : text) : text := filter (fun a => negb (is_blank a)) s.

(** A computation that ends with [r] after printing [dp], warning [dw]
    and writing [df], in whatever world it starts. *)
Definition runs {A : Type} (m : M A) (dp dw : list text) (df : list (text * text))
           (r : result A) : Prop :=
  forall w, m w = (MkWorld (printed w ++ dp) (warned w ++ dw) (written w ++ df), r).

Definition uniform {A : Type} (m : M A) : Prop :=
  exists dp dw df r, runs m dp dw df r.

(** A computation that issues no warning. *)
Definition keeps_warned {A : Type} (m : M A) : Prop :=
  forall w w' r, m w = (w', r) -> warned w' = warned w.

(** Tuples in the order of [sorted]: by frame, then by file name. *)
Definition entry_leb (a b : entry) : bool := negb (entry_ltb b a).

(** ** Batch front end *)

(** [glob] is the function of the standard library: the paths that a
    pattern stands for, in the order in which the directory lists them. *)
Definition batch_wrap_json_frames (fs : filesystem) (glob : text -> list text)
           (input_batches : list text) (output_dir : option text)
           (filename_re : regex) (verbose : bool) : M unit :=
  let input_files := flat_map glob input_batches in
  (when verbose
     (print (tx "Preparing to wrap " ++ str_of_Z (Z.of_nat (List.length input_files))
             ++ tx " OpenPose frame files.")) ;;;
   wrap_json_frames fs (insertion_sort text_ltb input_files) output_dir filename_re verbose ;;;
   when verbose (print (tx "Completed extraction.")))%M.

(** ** Vocabulary of the properties of the invocation *)

(** The warning of [sanity_check_groups] for a recording and its
    resolutions. *)
Definition resolution_warning (session_id camera : option text)
           (resolutions : list resolution) : text :=
  tx "Encountered multiple resolutions for recording " ++ [DQ]
  ++ fmt_text camera ++ [DQ] ++ tx " of session " ++ [DQ]
  ++ fmt_text session_id ++ [DQ] ++ tx ": "
  ++ join (tx ", ") (map (fun q => fmt_Z (fst q) ++ tx "x" ++ fmt_Z (snd q)) resolutions).

(** What a pattern allows: [matches r i s n c c'] when [r], at offset [i]
    with [s] the text from [i] on, can take the next [n] characters and
    turn the groups [c] into [c'].  A repetition is a chain of iterations,
    each of which takes at least one character. *)
Inductive iterated (body : nat -> text -> nat -> caps -> caps -> Prop)
  : nat -> text -> nat -> caps -> caps -> Prop :=
| iterated_done : forall i s c, iterated body i s 0 c c
| iterated_more : forall i s n1 n2 c c1 c2,
    0 < n1 ->
    body i s n1 c c1 ->
    iterated body (i + n1) (skipn n1 s) n2 c1 c2 ->
    iterated body i s (n1 + n2) c c2.

Fixpoint matches (r : regex) (i : nat) (s : text) (n : nat) (c c' : caps) {struct r}
  : Prop :=
  match r with
  | Eps => n = 0 /\ c' = c
  | Chr p => n = 1 /\ c' = c /\ exists a, hd_error s = Some a /\ p a = true
  | Cat r1 r2 =>
      exists n1 n2 c1,
        n = n1 + n2 /\ matches r1 i s n1 c c1
        /\ matches r2 (i + n1) (skipn n1 s) n2 c1 c'
  | Alt r1 r2 => matches r1 i s n c c' \/ matches r2 i s n c c'
  | Star _ r1 => iterated (matches r1) i s n c c'
  | Group name r1 =>
      exists c1, matches r1 i s n c c1 /\ c' = set_cap name (firstn n s) c1
  | Bol => n = 0 /\ c' = c /\ i = 0
  | Eol => n = 0 /\ c' = c /\ (s = [] \/ s = [LF])
  end.

(** The name that OpenPose gives the file of a frame, after a directory:
    [dir] is empty or ends with a slash. *)
Definition openpose_name (dir session_id camera width height frame : text) : text :=
  dir ++ session_id ++ tx "_" ++ camera ++ tx "_" ++ width ++ tx "x" ++ height
  ++ tx "_" ++ frame ++ tx "_keypoints.json".

(** A text without the character [c]. *)
Definition no_char (c : ascii) (s : text) : bool :=
  forallb (fun a => negb (is_lit c a)) s.

(** A non-empty text of decimal digits. *)
Definition digits (s : text) : bool :=
  negb (Nat.eqb (List.length s) 0) && forallb is_digit s.

(** The default pattern, piece by piece: what follows the camera, and what
    follows the session id. *)
Definition opfile_after_camera : regex :=
  Seq [ Lit "_";
        Group "width" (Plus true (Chr is_digit));
        Lit "x";
        Group "height" (Plus true (Chr is_digit));
        Lit "_";
        Group "frame" (Plus true (Chr is_digit));
        Lit "_";
        Lit "keypoints.json";
        Eol ].

Definition opfile_after_id : regex :=
  Cat (Lit "_") (Cat (Group "camera" (Plus true (Chr dot))) opfile_after_camera).

(** The directories in front, [(?:.+/)*]. *)
Definition leading_dirs : regex :=
  Star true (Cat (Plus true (Chr dot)) (Lit "/")).

(** The number of underscores of a text. *)
Definition underscores (t : text) : nat := List.length (filter (is_lit "_") t).

(** Two computations that end alike and write and warn alike, whatever
    they print. *)
Definition same_outcome {A : Type} (m1 m2 : M A) : Prop :=
  forall w1 w2,
    written w1 = written w2 -> warned w1 = warned w2 ->
    snd (m1 w1) = snd (m2 w2)
    /\ written (fst (m1 w1)) = written (fst (m2 w2))
    /\ warned (fst (m1 w1)) = warned (fst (m2 w2)).

(** A computation that prints nothing. *)
Definition keeps_printed {A : Type} (m : M A) : Prop :=
  forall w w' r, m w = (w', r) -> printed w' = printed w.

(** The keys of a dictionary that is filled in the order of [l]: every key
    once, where it comes first. *)
Definition first_seen {K : Type} (eqb : K -> K -> bool) (l : list K) : list K :=
  fold_left (fun acc k => if existsb (eqb k) acc then acc else acc ++ [k]) l [].

(** The session ids of the inputs [fl], the cameras of those of session
    [s], and the resolutions of those of session [s] and camera [c], in
    input order. *)
Definition sessions_of (fl : list (fields * text)) : list (option text) :=
  map (fun x => f_session_id (fst x)) fl.

Definition cameras_of (s : option text) (fl : list (fields * text)) : list (option text) :=
  map (fun x => f_camera (fst x))
      (filter (fun x => key_eqb (f_session_id (fst x)) s) fl).

Definition resolutions_of (s c : option text) (fl : list (fields * text))
  : list resolution :=
  map (fun x => (f_width (fst x), f_height (fst x)))
      (filter (fun x => key_eqb (f_session_id (fst x)) s && key_eqb (f_camera (fst x)) c) fl).

(** The three levels of an index have their keys in the order in which
    the inputs [fl] bring them. *)
Definition in_input_order {L : Type} (fl : list (fields * text)) (idx : session_index L)
  : Prop :=
  map fst idx = first_seen key_eqb (sessions_of fl)
  /\ (forall s, map fst (setdefault_value key_eqb idx s [])
                = first_seen key_eqb (cameras_of s fl))
  /\ (forall s c,
         map fst (setdefault_value key_eqb (setdefault_value key_eqb idx s []) c [])
         = first_seen res_eqb (resolutions_of s c fl)).

(** The number of occurrences of a character in a text. *)
Definition occurrences (ch : ascii) (t : text) : nat := List.length (filter (is_lit ch) t).

(** The pattern for the files of the frame extractor, piece by piece, and
    the names it is written for. *)
Definition extractor_after_camera : regex :=
  Seq [ Lit ".";
        Group "width" (Plus true (Chr is_digit));
        Lit "x";
        Group "height" (Plus true (Chr is_digit));
        Lit ".frame_";
        Group "frame" (Plus true (Chr is_digit));
        Lit ".";
        Lit "keypoints.json";
        Eol ].

Definition extractor_after_id : regex :=
  Cat (Lit "_") (Cat (Group "camera" (Plus true (Chr dot))) extractor_after_camera).

Definition extractor_name (dir session_id camera width height frame : text) : text :=
  dir ++ session_id ++ tx "_" ++ camera ++ tx "." ++ width ++ tx "x" ++ height
  ++ tx ".frame_" ++ frame ++ tx ".keypoints.json".

(** The pattern for one directory for each recording, piece by piece, and
    the paths it is written for. *)
Definition opdir_after_height : regex :=
  Seq [ Seq [Lit "/"; Star true (Chr dot); Lit "_"];
        Group "frame" (Plus true (Chr is_digit));
        Lit "_";
        Lit "keypoints.json";
        Eol ].

Definition opdir_after_camera : regex :=
  Cat (Lit "_")
      (Cat (Group "width" (Plus true (Chr is_digit)))
           (Cat (Lit "x")
                (Cat (Group "height" (Plus true (Chr is_digit))) opdir_after_height))).

Definition opdir_after_id : regex :=
  Cat (Lit "_") (Cat (Group "camera" (Plus true (Chr dot))) opdir_after_camera).

Definition opdir_name (dir session_id camera width height video frame : text) : text :=
  dir ++ session_id ++ tx "_" ++ camera ++ tx "_" ++ width ++ tx "x" ++ height
  ++ tx "/" ++ video ++ tx "_" ++ frame ++ tx "_keypoints.json".

(** * Properties *)

(** ** The matcher *)

Lemma set_cap_names n v c : map fst (set_cap n v c) = map fst c.
Proof.
  induction c as [|[n' v'] c IH]; simpl; [reflexivity|].
  destruct (String.eqb n n'); simpl; [reflexivity|now rewrite IH].
Qed.

Lemma returns_through_here {A : Type} i s c (k : nat -> text -> caps -> option A) x :
  k i s c = Some x -> returns_through i s c k x.
Proof.
  intros H. exists 0, c. rewrite Nat.add_0_r. simpl. auto with arith.
Qed.

Lemma skipn_skipn_add {B : Type} (n m : nat) (l : list B) :
  skipn m (skipn n l) = skipn (n + m) l.
Proof.
  revert l; induction n; intros l; simpl; [reflexivity|].
  destruct l; [now rewrite skipn_nil|apply IHn].
Qed.

Lemma returns_through_trans {A : Type} i s c
      (k1 k : nat -> text -> caps -> option A) x :
  returns_through i s c k1 x ->
  (forall n c', n <= List.length s -> map fst c' = map fst c ->
                k1 (i + n) (skipn n s) c' = Some x ->
                returns_through (i + n) (skipn n s) c' k x) ->
  returns_through i s c k x.
Proof.
  intros (n & c' & Hn & Hk & Hc) H.
  destruct (H n c' Hn Hc Hk) as (m & c'' & Hm & Hk' & Hc').
  exists (n + m), c''. rewrite length_skipn in Hm.
  rewrite skipn_skipn_add in Hk'. rewrite Nat.add_assoc.
  repeat split; [lia|assumption|congruence].
Qed.

Lemma star_loop_sound {A : Type} body greedy (k : nat -> text -> caps -> option A) :
  sound_matcher body ->
  forall n i s c x, star_loop body greedy k n i s c = Some x ->
                    returns_through i s c k x.
Proof.
  intros Hb n; induction n as [|n IH]; intros i s c x H; simpl in H.
  - now apply returns_through_here.
  - assert (Hiter : body i s c
             (fun i' s' c' => if i <? i' then star_loop body greedy k n i' s' c' else None)
             = Some x -> returns_through i s c k x).
    { intros Hx. apply Hb in Hx. eapply returns_through_trans; [exact Hx|].
      intros m c' _ _ Hk. cbv beta in Hk.
      destruct (i <? i + m); [now apply IH|discriminate]. }
    destruct greedy.
    + destruct (body i s c _) eqn:E.
      * inversion H; subst. now apply Hiter.
      * now apply returns_through_here.
    + destruct (k i s c) eqn:E.
      * inversion H; subst. now apply returns_through_here.
      * now apply Hiter.
Qed.

Lemma rmatch_sound {A : Type} (r : regex) : sound_matcher (@rmatch A r).
Proof.
  induction r as [|p|r1 IH1 r2 IH2|r1 IH1 r2 IH2|g r IH|n r IH| |];
    intros i s c k x H; simpl in H.
  - now apply returns_through_here.
  - destruct s as [|a s']; [discriminate|].
    destruct (p a); [|discriminate].
    exists 1, c. simpl. rewrite Nat.add_1_r. repeat split; [lia|assumption].
  - apply IH1 in H. eapply returns_through_trans; [exact H|].
    intros n c' _ _ Hk. now apply IH2.
  - destruct (rmatch r1 i s c k) eqn:E.
    + inversion H; subst. now apply IH1.
    + now apply IH2.
  - apply (star_loop_sound _ g k IH (S (List.length s))). exact H.
  - apply IH in H. eapply returns_through_trans; [exact H|].
    intros m c' _ Hc Hk.
    exists 0, (set_cap n (firstn (i + m - i) s) c').
    rewrite Nat.add_0_r. simpl. repeat split; [lia|assumption|].
    now rewrite set_cap_names.
  - destruct (i =? 0); [now apply returns_through_here|discriminate].
  - destruct s as [|a [|b s']]; [now apply returns_through_here| |discriminate].
    destruct (Ascii.eqb a LF); [now apply returns_through_here|discriminate].
Qed.

Lemma init_caps_names r : map fst (init_caps r) = group_names r.
Proof.
  unfold init_caps. rewrite map_map. simpl. apply map_id.
Qed.

Lemma match_at_inv r i s m :
  match_at r i s = Some m ->
  exists n, n <= List.length s /\ m_start m = i /\ m_end m = i + n
            /\ m_rest m = skipn n s /\ map fst (m_groups m) = group_names r.
Proof.
  unfold match_at. intros H. apply rmatch_sound in H.
  destruct H as (n & c' & Hn & Hk & Hc). inversion Hk; subst; simpl.
  exists n. rewrite Hc, init_caps_names. auto.
Qed.

Lemma search_from_names r : forall s i m,
  search_from r i s = Some m -> map fst (m_groups m) = group_names r.
Proof.
  induction s as [|a s IH]; intros i m H; simpl in H.
  - destruct (match_at r i []) eqn:E; [|discriminate].
    inversion H; subst. apply match_at_inv in E. now destruct E as (n & _ & _ & _ & _ & E).
  - destruct (match_at r i (a :: s)) eqn:E.
    + inversion H; subst. apply match_at_inv in E. now destruct E as (n & _ & _ & _ & _ & E).
    + eapply IH; eassumption.
Qed.

Lemma re_search_names r s m :
  re_search r s = Some m -> map fst (m_groups m) = group_names r.
Proof. apply search_from_names. Qed.

Lemma lookup_cap_none n c : lookup_cap n c = NoSuchGroup <-> ~ In n (map fst c).
Proof.
  induction c as [|[n' v] c IH]; simpl.
  - tauto.
  - destruct (String.eqb_spec n n') as [->|Hne].
    + split; [discriminate|]. intros H; exfalso; apply H; now left.
    + rewrite IH. split; [intros H [E|E]; [congruence|tauto]|tauto].
Qed.

(** A pattern without a group of that name: [m.group(name)] raises
    [IndexError] on every match object that the pattern yields. *)
Lemma group_absent r s m n :
  re_search r s = Some m -> ~ In n (group_names r) -> group m n = NoSuchGroup.
Proof.
  intros H Hn. unfold group. apply lookup_cap_none.
  now rewrite (re_search_names _ _ _ H).
Qed.

Lemma group_present r s m n :
  re_search r s = Some m -> In n (group_names r) -> exists v, group m n = GroupValue v.
Proof.
  intros H Hn. unfold group.
  destruct (lookup_cap n (m_groups m)) eqn:E; [|eauto].
  apply lookup_cap_none in E. now rewrite (re_search_names _ _ _ H) in E.
Qed.

(** ** Extraction of the fields *)

Lemma fold_m_app {A S : Type} (body : S -> A -> M S) l1 l2 st w :
  fold_m body st (l1 ++ l2) w =
  match fold_m body st l1 w with
  | (w1, Ok st1) => fold_m body st1 l2 w1
  | (w1, Raise e) => (w1, Raise e)
  end.
Proof.
  revert st w; induction l1 as [|a l1 IH]; intros st w; simpl; [reflexivity|].
  unfold mbind. destruct (body st a w) as [w1 [st1|e]]; [apply IH|reflexivity].
Qed.

(** The first numeric group that cannot be converted decides how
    [extract_regex_group_fields] ends. *)
Lemma extract_first_failure m before n after e :
  numeric_groups = before ++ n :: after ->
  (forall b, In b before -> exists v, group_int m b = Ok v) ->
  group_int m n = Raise e ->
  extract_regex_group_fields m = Raise e.
Proof.
  intros Hsplit Hbefore Hn. unfold extract_regex_group_fields, numeric_groups in *.
  destruct before as [|b1 [|b2 [|b3 before]]]; simpl in Hsplit.
  - inversion Hsplit; subst. now rewrite Hn.
  - inversion Hsplit; subst.
    destruct (Hbefore "width" (or_introl eq_refl)) as [v Hv].
    rewrite Hv; simpl. now rewrite Hn.
  - inversion Hsplit; subst.
    destruct (Hbefore "width" (or_introl eq_refl)) as [v Hv].
    destruct (Hbefore "height" (or_intror (or_introl eq_refl))) as [v' Hv'].
    rewrite Hv; simpl. rewrite Hv'; simpl. now rewrite Hn.
  - inversion Hsplit as [[E1 E2 E3 E4]]. destruct before; discriminate.
Qed.

Lemma group_step_written fs re verbose st p w w' r :
  group_step fs re verbose st p w = (w', r) -> written w' = written w.
Proof.
  unfold group_step. destruct (isfile fs p).
  - destruct (re_search re p).
    + unfold mbind, lift. destruct (extract_regex_group_fields m); intros H; now inversion H.
    + unfold mbind, when, print, ret. destruct verbose; intros H; now inversion H.
  - unfold ret. intros H; now inversion H.
Qed.

Lemma group_loop_written fs re verbose l : forall st w w' r,
  fold_m (group_step fs re verbose) st l w = (w', r) -> written w' = written w.
Proof.
  induction l as [|p l IH]; intros st w w' r H; simpl in H.
  - inversion H; reflexivity.
  - unfold mbind in H.
    destruct (group_step fs re verbose st p w) as [w1 [st1|e]] eqn:E.
    + apply IH in H. rewrite H. eapply group_step_written; eassumption.
    + inversion H; subst. eapply group_step_written; eassumption.
Qed.

(** An exception of the extraction is not caught anywhere: it ends
    [wrap_json_frames], and no file has been written by then. *)
Lemma extraction_error_aborts fs re verbose out l1 p l2 w w1 st m e :
  fold_m (group_step fs re verbose) init_gstate l1 w = (w1, Ok st) ->
  isfile fs p = true ->
  re_search re p = Some m ->
  extract_regex_group_fields m = Raise e ->
  wrap_json_frames fs (l1 ++ p :: l2) out re verbose w = (w1, Raise e)
  /\ written w1 = written w.
Proof.
  intros Hl1 Hfile Hm He. split.
  - unfold wrap_json_frames, group_files, mbind.
    rewrite fold_m_app, Hl1. simpl. unfold mbind, group_step.
    rewrite Hfile, Hm. unfold mbind, lift. now rewrite He.
  - eapply group_loop_written; eassumption.
Qed.

(** C10: a numeric group of the pattern that took no part in the match
    makes the extraction raise the [TypeError] of [int(None)], which nothing
    catches; a group [id] or [camera] that took no part in the match gives
    [None], and the extraction returns. *)
Theorem unmatched_group_handling :
  (forall re path m before n after,
      re_search re path = Some m ->
      numeric_groups = before ++ n :: after ->
      (forall b, In b before -> exists v, group_int m b = Ok v) ->
      group m n = GroupValue None ->
      extract_regex_group_fields m = Raise (TypeError int_of_none)
      /\ forall fs verbose out l1 l2 w w1 st,
          fold_m (group_step fs re verbose) init_gstate l1 w = (w1, Ok st) ->
          isfile fs path = true ->
          wrap_json_frames fs (l1 ++ path :: l2) out re verbose w
          = (w1, Raise (TypeError int_of_none)))
  /\ (forall m w h fr,
         group_int m "width" = Ok w ->
         group_int m "height" = Ok h ->
         group_int m "frame" = Ok fr ->
         exists f, extract_regex_group_fields m = Ok f
                   /\ f_width f = w /\ f_height f = h /\ f_frame f = fr
                   /\ (group m "id" = GroupValue None -> f_session_id f = None)
                   /\ (group m "camera" = GroupValue None -> f_camera f = None)).
Proof.
  split.
  - intros re path m before n after Hm Hsplit Hbefore Hn.
    assert (He : extract_regex_group_fields m = Raise (TypeError int_of_none)).
    { eapply extract_first_failure; try eassumption.
      unfold group_int. now rewrite Hn. }
    split; [exact He|].
    intros fs verbose out l1 l2 w w1 st Hl1 Hfile.
    eapply extraction_error_aborts; eassumption.
  - intros m w h fr Hw Hh Hf. unfold extract_regex_group_fields.
    rewrite Hw, Hh, Hf. simpl. eexists; repeat split; simpl.
    + unfold group_text. now intros ->.
    + unfold group_text. now intros ->.
Qed.

Lemma unmatched_group_handling_witness :
  (extract_regex_group_fields
     (MkMatch 0 2 [] [("id", None); ("camera", None); ("width", None);
                      ("frame", Some (tx "7"))])
   = Raise (TypeError int_of_none))
  /\ (exists f, extract_regex_group_fields
                  (MkMatch 0 2 [] [("id", None); ("camera", None); ("frame", Some (tx "7"))])
                = Ok f /\ f_session_id f = None /\ f_camera f = None).
Proof.
  split.
  - refine (proj1 (proj1 unmatched_group_handling optional_groups_re (tx "x7")
                     (MkMatch 0 2 [] [("id", None); ("camera", None); ("width", None);
                                      ("frame", Some (tx "7"))])
                     [] "width" ["height"; "frame"] _ _ _ _)).
    + vm_compute. reflexivity.
    + reflexivity.
    + intros b [].
    + reflexivity.
  - destruct (proj2 unmatched_group_handling
                (MkMatch 0 2 [] [("id", None); ("camera", None); ("frame", Some (tx "7"))])
                None None (Some 7%Z) eq_refl eq_refl eq_refl)
      as (f & Hf & _ & _ & _ & Hid & Hcam).
    exists f. split; [exact Hf|]. split; [apply Hid|apply Hcam]; reflexivity.
Defined.




(** ** Paths that are not files *)

(** C9: a path that is not a regular file is passed over by the loop of
    [group_files] without any effect, so that the invocation with it and
    the invocation without it end in the same way, in the same world. *)
Theorem missing_file_is_skipped :
  forall fs re verbose out l1 p l2 w,
    isfile fs p = false ->
    (forall st, group_step fs re verbose st p w = (w, Ok st))
    /\ group_files fs (l1 ++ p :: l2) re verbose w = group_files fs (l1 ++ l2) re verbose w
    /\ wrap_json_frames fs (l1 ++ p :: l2) out re verbose w
       = wrap_json_frames fs (l1 ++ l2) out re verbose w.
Proof.
  intros fs re verbose out l1 p l2 w Hp.
  assert (Hstep : forall st w', group_step fs re verbose st p w' = (w', Ok st)).
  { intros st w'. unfold group_step. now rewrite Hp. }
  assert (Hloop : fold_m (group_step fs re verbose) init_gstate (l1 ++ p :: l2) w
                  = fold_m (group_step fs re verbose) init_gstate (l1 ++ l2) w).
  { rewrite !fold_m_app.
    destruct (fold_m (group_step fs re verbose) init_gstate l1 w) as [w1 [st1|e]];
      [|reflexivity].
    simpl. unfold mbind. now rewrite Hstep. }
  split; [intros st; apply Hstep|].
  assert (Hg : group_files fs (l1 ++ p :: l2) re verbose w
               = group_files fs (l1 ++ l2) re verbose w).
  { unfold group_files, mbind. now rewrite Hloop. }
  split; [exact Hg|].
  unfold wrap_json_frames, mbind. now rewrite Hg.
Qed.

Lemma missing_file_is_skipped_witness :
  wrap_json_frames (MkFs (fun p => negb (text_eqb p (tx "B_c_1x1_0_keypoints.json")))
                         (fun _ => Some JNull))
    ([tx "A_c_1x1_0_keypoints.json"] ++ tx "B_c_1x1_0_keypoints.json" :: [tx "notes.txt"])
    None FILENAME_OPFILE_RE true empty_world
  = wrap_json_frames (MkFs (fun p => negb (text_eqb p (tx "B_c_1x1_0_keypoints.json")))
                           (fun _ => Some JNull))
      ([tx "A_c_1x1_0_keypoints.json"] ++ [tx "notes.txt"])
      None FILENAME_OPFILE_RE true empty_world.
Proof.
  apply (missing_file_is_skipped
           (MkFs (fun p => negb (text_eqb p (tx "B_c_1x1_0_keypoints.json")))
                 (fun _ => Some JNull))
           FILENAME_OPFILE_RE true None
           [tx "A_c_1x1_0_keypoints.json"] (tx "B_c_1x1_0_keypoints.json") [tx "notes.txt"]
           empty_world).
  vm_compute. reflexivity.
Defined.

(** ** Dictionaries *)

Lemma text_eqb_eq a b : text_eqb a b = true <-> a = b.
Proof.
  unfold text_eqb. destruct (list_eq_dec ascii_dec a b); split; congruence.
Qed.

Lemma opt_eqb_eq {A : Type} (eqb : A -> A -> bool) :
  (forall a b, eqb a b = true <-> a = b) ->
  forall a b, opt_eqb eqb a b = true <-> a = b.
Proof.
  intros H [a|] [b|]; simpl; try (split; congruence).
  rewrite H. split; congruence.
Qed.

Lemma key_eqb_eq a b : key_eqb a b = true <-> a = b.
Proof. apply opt_eqb_eq, text_eqb_eq. Qed.

Lemma frame_eqb_eq a b : frame_eqb a b = true <-> a = b.
Proof. apply opt_eqb_eq, Z.eqb_eq. Qed.

Lemma res_eqb_eq a b : res_eqb a b = true <-> a = b.
Proof.
  unfold res_eqb. rewrite andb_true_iff, !frame_eqb_eq.
  destruct a, b; simpl. split; [intros [-> ->]; reflexivity|intros H; inversion H; auto].
Qed.

Lemma bucket_eqb_eq a b : bucket_eqb a b = true <-> a = b.
Proof.
  unfold bucket_eqb. rewrite !andb_true_iff, !key_eqb_eq, res_eqb_eq.
  destruct a as [[s c] q], b as [[s' c'] q']; simpl.
  split; [intros [[-> ->] ->]; reflexivity|intros H; inversion H; auto].
Qed.

Section DictFacts.
Context {K V : Type} (eqb : K -> K -> bool).
Hypothesis eqb_eq : forall a b, eqb a b = true <-> a = b.

Lemma eqb_refl k : eqb k k = true.
Proof. now apply eqb_eq. Qed.

Lemma eqb_neq a b : a <> b -> eqb a b = false.
Proof.
  intros H. destruct (eqb a b) eqn:E; [|reflexivity]. now apply eqb_eq in E.
Qed.

Lemma dict_get_in (d : dict K V) k v : dict_get eqb d k = Some v -> In (k, v) d.
Proof.
  induction d as [|[k' v'] d IH]; simpl; [discriminate|].
  destruct (eqb k k') eqn:E.
  - apply eqb_eq in E. intros H; inversion H; subst. now left.
  - intros H. right. now apply IH.
Qed.

Lemma dict_get_none (d : dict K V) k : dict_get eqb d k = None <-> ~ In k (map fst d).
Proof.
  induction d as [|[k' v'] d IH]; simpl; [tauto|].
  destruct (eqb k k') eqn:E.
  - apply eqb_eq in E. subst. split; [discriminate|tauto].
  - rewrite IH. split; [|tauto]. intros H [H'|H']; [|tauto].
    subst. now rewrite eqb_refl in E.
Qed.

Lemma in_dict_get (d : dict K V) k v :
  NoDup (map fst d) -> In (k, v) d -> dict_get eqb d k = Some v.
Proof.
  induction d as [|[k' v'] d IH]; simpl; [tauto|].
  intros Hnd [H|H]; inversion Hnd; subst.
  - inversion H; subst. now rewrite eqb_refl.
  - destruct (eqb k k') eqn:E; [|now apply IH].
    apply eqb_eq in E. subst. exfalso. apply H2.
    change k' with (fst (k', v)). now apply in_map.
Qed.

Lemma dict_set_keys (d : dict K V) k v :
  map fst (dict_set eqb d k v)
  = match dict_get eqb d k with
    | Some _ => map fst d
    | None => map fst d ++ [k]
    end.
Proof.
  induction d as [|[k' v'] d IH]; simpl; [reflexivity|].
  destruct (eqb k k') eqn:E; simpl; [reflexivity|].
  rewrite IH. now destruct (dict_get eqb d k).
Qed.

Lemma dict_set_nodup (d : dict K V) k v :
  NoDup (map fst d) -> NoDup (map fst (dict_set eqb d k v)).
Proof.
  intros H. rewrite dict_set_keys. destruct (dict_get eqb d k) eqn:E; [assumption|].
  apply dict_get_none in E. apply NoDup_app; [assumption|repeat constructor; tauto|].
  intros x Hx [<-|[]]. contradiction.
Qed.

Lemma in_dict_set (d : dict K V) k v k' v' :
  NoDup (map fst d) ->
  In (k', v') (dict_set eqb d k v)
  <-> (k' = k /\ v' = v) \/ (k' <> k /\ In (k', v') d).
Proof.
  induction d as [|[k0 v0] d IH]; simpl; intros Hnd.
  - split.
    + intros [H|[]]. inversion H; auto.
    + intros [[-> ->]|[_ []]]; auto.
  - inversion Hnd as [|? ? Hnotin Hnd']; subst.
    destruct (eqb k k0) eqn:E; simpl.
    + apply eqb_eq in E. subst k0. split.
      * intros [H|H].
        -- inversion H; auto.
        -- right. split; [|auto]. intros ->. apply Hnotin.
           change k with (fst (k, v')). now apply in_map.
      * intros [[-> ->]|[Hne [H|H]]]; auto. inversion H; congruence.
    + rewrite (IH Hnd'). split.
      * intros [H|H]; [|tauto]. inversion H; subst. right. split; [|auto].
        intros ->. rewrite eqb_refl in E. discriminate.
      * tauto.
Qed.

Lemma dict_set_same (d : dict K V) k v :
  dict_get eqb d k = Some v -> dict_set eqb d k v = d.
Proof.
  induction d as [|[k0 v0] d IH]; simpl; [discriminate|].
  destruct (eqb k k0) eqn:E.
  - intros H; inversion H; reflexivity.
  - intros H. now rewrite IH.
Qed.
End DictFacts.

(** ** The index *)

Lemma in_flat_index {L : Type} (idx : session_index L) s c q v :
  In ((s, c, q), v) (flat_index idx)
  <-> exists cams ress, In (s, cams) idx /\ In (c, ress) cams /\ In (q, v) ress.
Proof.
  unfold flat_index. rewrite in_flat_map. split.
  - intros ([s' cams] & Hs & H). rewrite in_flat_map in H.
    destruct H as ([c' ress] & Hc & H). rewrite in_map_iff in H.
    destruct H as ([q' v''] & E & Hq). simpl in E. inversion E; subst.
    exists cams, ress. auto.
  - intros (cams & ress & Hs & Hc & Hq).
    exists (s, cams). split; [assumption|]. rewrite in_flat_map.
    exists (c, ress). split; [assumption|]. rewrite in_map_iff.
    exists (q, v). auto.
Qed.

Lemma setdefault_value_in {K E : Type} (eqb : K -> K -> bool)
      (eqb_eq : forall a b, eqb a b = true <-> a = b) (d : dict K (list E)) k x :
  In x (setdefault_value eqb d k []) -> exists v, In (k, v) d /\ In x v.
Proof.
  unfold setdefault_value. destruct (dict_get eqb d k) eqn:G; [|intros []].
  intros H. exists l. split; [|assumption]. now apply (dict_get_in eqb eqb_eq).
Qed.

Lemma setdefault_value_eq {K V : Type} (eqb : K -> K -> bool)
      (eqb_eq : forall a b, eqb a b = true <-> a = b) (d : dict K V) k v dflt :
  NoDup (map fst d) -> In (k, v) d -> setdefault_value eqb d k dflt = v.
Proof.
  intros Hnd Hin. unfold setdefault_value.
  now rewrite (in_dict_get eqb eqb_eq d k v Hnd Hin).
Qed.

Lemma wf_cams {L : Type} (idx : session_index L) s :
  wf_index idx ->
  let cams := setdefault_value key_eqb idx s [] in
  NoDup (map fst cams) /\ Forall (fun cr => NoDup (map fst (snd cr))) cams.
Proof.
  intros [Hnd Hall]. unfold setdefault_value.
  destruct (dict_get key_eqb idx s) eqn:G.
  - apply (dict_get_in key_eqb key_eqb_eq) in G.
    rewrite Forall_forall in Hall. apply (Hall _ G).
  - simpl. split; constructor.
Qed.

Lemma wf_ress {L : Type} (idx : session_index L) s c :
  wf_index idx ->
  NoDup (map fst (setdefault_value key_eqb (setdefault_value key_eqb idx s []) c [])).
Proof.
  intros Hwf. destruct (wf_cams idx s Hwf) as [Hnd Hall].
  unfold setdefault_value at 1.
  destruct (dict_get key_eqb _ c) eqn:G.
  - apply (dict_get_in key_eqb key_eqb_eq) in G.
    rewrite Forall_forall in Hall. apply (Hall _ G).
  - constructor.
Qed.

Lemma index_get_in {L : Type} (idx : session_index L) b (v : L) :
  wf_index idx -> (index_get idx b = Some v <-> In (b, v) (flat_index idx)).
Proof.
  intros Hwf. destruct b as [[s c] q]. unfold index_get; simpl.
  rewrite in_flat_index. split.
  - intros H. apply (dict_get_in res_eqb res_eqb_eq) in H.
    apply (setdefault_value_in key_eqb key_eqb_eq) in H. destruct H as (ress & Hc & Hq).
    apply (setdefault_value_in key_eqb key_eqb_eq) in Hc. destruct Hc as (cams & Hs & Hc).
    eauto.
  - intros (cams & ress & Hs & Hc & Hq).
    pose proof (wf_cams idx s Hwf) as [Hndc _].
    pose proof (wf_ress idx s c Hwf) as Hndr.
    rewrite (setdefault_value_eq key_eqb key_eqb_eq idx s cams [] (proj1 Hwf) Hs) in *.
    rewrite (setdefault_value_eq key_eqb key_eqb_eq cams c ress [] Hndc Hc) in *.
    now apply (in_dict_get res_eqb res_eqb_eq).
Qed.

Lemma wf_index_set {L : Type} (idx : session_index L) b (v : L) :
  wf_index idx -> wf_index (index_set idx b v).
Proof.
  intros Hwf. destruct b as [[s c] q]. unfold index_set; simpl.
  pose proof (wf_cams idx s Hwf) as [Hndc Hallc].
  pose proof (wf_ress idx s c Hwf) as Hndr.
  destruct Hwf as [Hnd Hall]. split.
  - now apply dict_set_nodup; [apply key_eqb_eq|].
  - rewrite Forall_forall in *. intros [s' cams'] Hin.
    apply (in_dict_set key_eqb key_eqb_eq) in Hin; [|assumption].
    destruct Hin as [[-> ->]|[_ Hin]]; [|now apply Hall].
    simpl. split.
    + now apply dict_set_nodup; [apply key_eqb_eq|].
    + rewrite Forall_forall in *. intros [c' ress'] Hin.
      apply (in_dict_set key_eqb key_eqb_eq) in Hin; [|assumption].
      destruct Hin as [[-> ->]|[_ Hin]]; [|now apply Hallc].
      simpl. now apply dict_set_nodup; [apply res_eqb_eq|].
Qed.

Lemma in_index_set {L : Type} (idx : session_index L) b (v : L) b' v' :
  wf_index idx ->
  In (b', v') (flat_index (index_set idx b v))
  <-> (b' = b /\ v' = v) \/ (b' <> b /\ In (b', v') (flat_index idx)).
Proof.
  intros Hwf. destruct b as [[s c] q], b' as [[s' c'] q'].
  pose proof (wf_cams idx s Hwf) as [Hndc Hallc].
  pose proof (wf_ress idx s c Hwf) as Hndr.
  pose proof (proj1 Hwf) as Hnd.
  rewrite !in_flat_index. unfold index_set; simpl.
  set (cam2res := setdefault_value key_eqb idx s []) in *.
  set (res2 := setdefault_value key_eqb cam2res c []) in *.
  split.
  - intros (cams & ress & Hs & Hc & Hq).
    apply (in_dict_set key_eqb key_eqb_eq) in Hs; [|assumption].
    destruct Hs as [[-> ->]|[Hne Hs]].
    + apply (in_dict_set key_eqb key_eqb_eq) in Hc; [|assumption].
      destruct Hc as [[-> ->]|[Hne Hc]].
      * apply (in_dict_set res_eqb res_eqb_eq) in Hq; [|assumption].
        destruct Hq as [[-> ->]|[Hne Hq]]; [now left|].
        right. split; [congruence|].
        apply (setdefault_value_in key_eqb key_eqb_eq) in Hq. destruct Hq as (ress & Hc & Hq).
        apply (setdefault_value_in key_eqb key_eqb_eq) in Hc. destruct Hc as (cams & Hs & Hc).
        eauto.
      * right. split; [congruence|].
        unfold cam2res in Hc.
        apply (setdefault_value_in key_eqb key_eqb_eq) in Hc. destruct Hc as (cams & Hs & Hc).
        eauto.
    + right. split; [congruence|]. eauto.
  - intros [[E ->]|[Hne (cams & ress & Hs & Hc & Hq)]].
    + inversion E; subst.
      exists (dict_set key_eqb cam2res c (dict_set res_eqb res2 q v)),
             (dict_set res_eqb res2 q v).
      split; [|split].
      * apply (in_dict_set key_eqb key_eqb_eq); auto.
      * apply (in_dict_set key_eqb key_eqb_eq); auto.
      * apply (in_dict_set res_eqb res_eqb_eq); auto.
    + destruct (key_eqb s' s) eqn:Es.
      * apply key_eqb_eq in Es. subst s'.
        assert (Ecams : cam2res = cams)
          by (apply (setdefault_value_eq key_eqb key_eqb_eq); assumption).
        destruct (key_eqb c' c) eqn:Ec.
        -- apply key_eqb_eq in Ec. subst c'.
           assert (Eress : res2 = ress).
           { unfold res2. rewrite Ecams.
             apply (setdefault_value_eq key_eqb key_eqb_eq); [|assumption].
             now rewrite <- Ecams. }
           exists (dict_set key_eqb cam2res c (dict_set res_eqb res2 q v)),
                  (dict_set res_eqb res2 q v).
           split; [|split].
           ++ apply (in_dict_set key_eqb key_eqb_eq); auto.
           ++ apply (in_dict_set key_eqb key_eqb_eq); auto.
           ++ apply (in_dict_set res_eqb res_eqb_eq); [assumption|].
              right. split; [congruence|]. now rewrite Eress.
        -- exists (dict_set key_eqb cam2res c (dict_set res_eqb res2 q v)), ress.
           split; [|split; [|assumption]].
           ++ apply (in_dict_set key_eqb key_eqb_eq); auto.
           ++ apply (in_dict_set key_eqb key_eqb_eq); [assumption|].
              right. split; [|now rewrite Ecams].
              intros ->. rewrite (proj2 (key_eqb_eq c c) eq_refl) in Ec. discriminate.
      * exists cams, ress. split; [|auto].
        apply (in_dict_set key_eqb key_eqb_eq); [assumption|].
        right. split; [|assumption].
        intros ->. rewrite (proj2 (key_eqb_eq s s) eq_refl) in Es. discriminate.
Qed.

Lemma index_set_same {L : Type} (idx : session_index L) b (v : L) :
  index_get idx b = Some v -> index_set idx b v = idx.
Proof.
  destruct b as [[s c] q]. unfold index_get, index_set; simpl. intros H.
  rewrite (dict_set_same res_eqb _ _ _ H).
  unfold setdefault_value in *.
  destruct (dict_get key_eqb idx s) as [cams|] eqn:G; [|discriminate].
  destruct (dict_get key_eqb cams c) as [ress|] eqn:G'; [|discriminate].
  rewrite (dict_set_same key_eqb _ _ _ G'). now apply dict_set_same.
Qed.

(** ** The loop of [group_files] *)

(** The membership test of line 118 compares a frame index with
    [(frame, filename)] tuples: it never holds. *)
Lemma frame_never_in_tuples (frame : option Z) (l : list entry) :
  py_in (frame_val frame) (map entry_val l) = false.
Proof.
  unfold py_in. induction l as [|e l IH]; simpl; [reflexivity|].
  rewrite IH. now destruct frame.
Qed.

Lemma length_store_set st r l : List.length (store_set st r l) = List.length st.
Proof.
  revert r; induction st as [|x st IH]; intros [|r]; simpl; auto.
Qed.

Lemma store_get_set_eq st r l :
  r < List.length st -> store_get (store_set st r l) r = l.
Proof.
  unfold store_get. revert r; induction st as [|x st IH]; intros [|r] H; simpl in *;
    try lia; [reflexivity|]. apply IH. lia.
Qed.

Lemma store_get_set_neq st r r' l :
  r <> r' -> store_get (store_set st r l) r' = store_get st r'.
Proof.
  unfold store_get. revert r r'; induction st as [|x st IH]; intros [|r] [|r'] H; simpl;
    try reflexivity; try congruence. apply IH. congruence.
Qed.

Lemma store_get_app st x r :
  r < List.length st -> store_get (st ++ x) r = store_get st r.
Proof. intros H. unfold store_get. now apply app_nth1. Qed.

Lemma store_get_last st x : store_get (st ++ [x]) (List.length st) = x.
Proof. unfold store_get. rewrite app_nth2, Nat.sub_diag; [reflexivity|lia]. Qed.

Lemma group_insert_eq st p f :
  group_insert st p f =
  Ok (match index_get (g_index st) (fields_bucket f) with
      | None =>
          MkG (index_set (g_index st) (fields_bucket f) (List.length (g_store st)))
              (store_set (g_store st ++ [[]]) (List.length (g_store st)) [(f_frame f, p)])
              (g_lists st ++ [List.length (g_store st)])
      | Some r =>
          MkG (g_index st)
              (store_set (g_store st) r (store_get (g_store st) r ++ [(f_frame f, p)]))
              (g_lists st)
      end).
Proof.
  unfold group_insert.
  change (dict_get res_eqb
            (setdefault_value key_eqb
               (setdefault_value key_eqb (g_index st) (f_session_id f) [])
               (f_camera f) []) (f_width f, f_height f))
    with (index_get (g_index st) (fields_bucket f)).
  destruct (index_get (g_index st) (fields_bucket f)) as [r|] eqn:G.
  - rewrite frame_never_in_tuples. f_equal. f_equal.
    pose proof (index_set_same _ _ _ G) as E. unfold index_set in E. simpl in E.
    unfold index_get in G. simpl in G.
    rewrite (dict_set_same res_eqb _ _ _ G) in E. exact E.
  - rewrite frame_never_in_tuples. rewrite store_get_last. reflexivity.
Qed.

Lemma bucket_entries_app b fl x :
  bucket_entries b (fl ++ [x])
  = bucket_entries b fl
    ++ (if bucket_eqb (fields_bucket (fst x)) b then [(f_frame (fst x), snd x)] else []).
Proof.
  unfold bucket_entries. rewrite filter_app, map_app. simpl.
  now destruct (bucket_eqb (fields_bucket (fst x)) b).
Qed.

Lemma bucket_entries_in b fl e :
  In e (bucket_entries b fl)
  <-> exists f, In (f, snd e) fl /\ fields_bucket f = b /\ f_frame f = fst e.
Proof.
  unfold bucket_entries. rewrite in_map_iff. split.
  - intros ([f p] & E & H). apply filter_In in H. destruct H as [Hin Hb].
    apply bucket_eqb_eq in Hb. subst e. simpl in *. eauto.
  - intros (f & Hin & Hb & Hf). exists (f, snd e). simpl. split.
    + destruct e; simpl in *; congruence.
    + apply filter_In. split; [assumption|]. now apply bucket_eqb_eq.
Qed.

Lemma bucket_eqb_refl b : bucket_eqb b b = true.
Proof. now apply bucket_eqb_eq. Qed.

Lemma bucket_eqb_neq a b : a <> b -> bucket_eqb a b = false.
Proof.
  intros H. destruct (bucket_eqb a b) eqn:E; [|reflexivity]. now apply bucket_eqb_eq in E.
Qed.

Lemma grouped_init : grouped [] init_gstate.
Proof.
  constructor; simpl.
  - split; constructor.
  - reflexivity.
  - intros b r [].
  - intros b b' r [].
  - intros x [].
  - intros r H. inversion H.
Qed.

Lemma grouped_step fl st p f :
  grouped fl st ->
  exists st', group_insert st p f = Ok st' /\ grouped (fl ++ [(f, p)]) st'.
Proof.
  intros [Hwf Hlists Hstore Hinj Hall Hcover]. rewrite group_insert_eq.
  eexists; split; [reflexivity|].
  set (b := fields_bucket f).
  destruct (index_get (g_index st) b) as [r|] eqn:G.
  - (* the bucket exists *)
    apply (index_get_in _ _ _ Hwf) in G.
    destruct (Hstore _ _ G) as (Hr & Hget & Hne).
    constructor; simpl.
    + assumption.
    + now rewrite length_store_set.
    + intros b' r' Hin. rewrite length_store_set.
      destruct (Hstore _ _ Hin) as (Hr' & Hget' & Hne').
      split; [assumption|]. rewrite bucket_entries_app. simpl. fold b.
      destruct (Nat.eq_dec r r') as [<-|Hrr].
      * assert (b = b') by (eapply Hinj; eassumption). subst b'.
        rewrite bucket_eqb_refl, store_get_set_eq, Hget by assumption.
        split; [reflexivity|]. intros E. now apply app_eq_nil in E.
      * assert (b <> b').
        { intros <-. apply Hrr.
          apply (index_get_in _ _ _ Hwf) in G, Hin. congruence. }
        rewrite bucket_eqb_neq, store_get_set_neq, app_nil_r by assumption. auto.
    + assumption.
    + intros x Hx. apply in_app_iff in Hx. destruct Hx as [Hx|[<-|[]]]; [now apply Hall|].
      simpl. eauto.
    + intros r'. rewrite length_store_set. apply Hcover.
  - (* a new bucket *)
    assert (Hnew : forall r, ~ In (b, r) (flat_index (g_index st))).
    { intros r Hin. apply (index_get_in _ _ _ Hwf) in Hin. congruence. }
    assert (Hempty : bucket_entries b fl = []).
    { destruct (bucket_entries b fl) as [|e l] eqn:E; [reflexivity|].
      assert (Hin : In e (bucket_entries b fl)) by (rewrite E; now left).
      apply bucket_entries_in in Hin. destruct Hin as (f' & Hin & Hb & _).
      destruct (Hall _ Hin) as [r Hr]. simpl in Hr. rewrite Hb in Hr.
      now apply Hnew in Hr. }
    constructor; simpl.
    + now apply wf_index_set.
    + rewrite length_store_set, length_app, Hlists. simpl.
      rewrite Nat.add_1_r, seq_S. reflexivity.
    + intros b' r' Hin. rewrite length_store_set, length_app. simpl.
      apply in_index_set in Hin; [|assumption].
      rewrite bucket_entries_app. simpl. fold b.
      destruct Hin as [[-> ->]|[Hne Hin]].
      * rewrite bucket_eqb_refl, Hempty, store_get_set_eq
          by (rewrite length_app; simpl; lia).
        repeat split; [lia|discriminate].
      * destruct (Hstore _ _ Hin) as (Hr' & Hget' & Hne').
        rewrite bucket_eqb_neq, app_nil_r by congruence.
        rewrite store_get_set_neq, store_get_app by lia. auto with arith.
    + intros b1 b2 r Hin1 Hin2.
      apply in_index_set in Hin1; [|assumption].
      apply in_index_set in Hin2; [|assumption].
      destruct Hin1 as [[-> ->]|[Hne1 Hin1]], Hin2 as [[-> Hr]|[Hne2 Hin2]].
      * reflexivity.
      * destruct (Hstore _ _ Hin2) as (Hr' & _). lia.
      * destruct (Hstore _ _ Hin1) as (Hr' & _). lia.
      * eapply Hinj; eassumption.
    + intros x Hx. apply in_app_iff in Hx.
      destruct (bucket_eqb (fields_bucket (fst x)) b) eqn:E.
      * apply bucket_eqb_eq in E. rewrite E. exists (List.length (g_store st)).
        apply in_index_set; auto.
      * destruct Hx as [Hx|[<-|[]]].
        -- destruct (Hall _ Hx) as [r Hr]. exists r.
           apply in_index_set; [assumption|]. right. split; [|assumption].
           intros E'. rewrite E', bucket_eqb_refl in E. discriminate.
        -- simpl in E. unfold b in E. rewrite bucket_eqb_refl in E. discriminate.
    + intros r'. rewrite length_store_set, length_app. simpl. intros Hr'.
      destruct (Nat.eq_dec r' (List.length (g_store st))) as [->|Hne].
      * exists b. apply in_index_set; auto.
      * destruct (Hcover r') as [b' Hb']; [lia|]. exists b'.
        apply in_index_set; [assumption|]. right. split; [|assumption].
        intros ->. now apply Hnew in Hb'.
Qed.

Lemma group_step_taken fs re verbose st p w fl :
  extractable fs re p ->
  grouped fl st ->
  exists w' st', group_step fs re verbose st p w = (w', Ok st')
                 /\ grouped (fl ++ taken_up fs re p) st'.
Proof.
  intros Hex Hg. unfold group_step, taken_up, extractable in *.
  destruct (isfile fs p).
  - destruct (re_search re p) as [m|].
    + destruct (Hex eq_refl m eq_refl) as [f Hf]. unfold mbind, lift. rewrite Hf.
      destruct (grouped_step fl st p f Hg) as (st' & -> & Hg'). eauto.
    + rewrite app_nil_r. unfold mbind, when, print, ret. destruct verbose; eauto.
  - rewrite app_nil_r. unfold ret. eauto.
Qed.

Lemma group_loop_taken fs re verbose files : forall st w fl,
  Forall (extractable fs re) files ->
  grouped fl st ->
  exists w' st', fold_m (group_step fs re verbose) st files w = (w', Ok st')
                 /\ grouped (fl ++ flat_map (taken_up fs re) files) st'.
Proof.
  induction files as [|p files IH]; intros st w fl Hex Hg; simpl.
  - rewrite app_nil_r. unfold ret. eauto.
  - inversion Hex as [|? ? Hp Hrest]; subst.
    destruct (group_step_taken fs re verbose st p w fl Hp Hg) as (w1 & st1 & E & Hg1).
    unfold mbind. rewrite E.
    destruct (IH st1 w1 _ Hrest Hg1) as (w' & st' & E' & Hg').
    rewrite app_assoc. eauto.
Qed.

(** ** Sorting *)

Lemma extract_ok_inv m f :
  extract_regex_group_fields m = Ok f ->
  f_session_id f = group_text m "id" /\ f_camera f = group_text m "camera"
  /\ group_int m "width" = Ok (f_width f) /\ group_int m "height" = Ok (f_height f)
  /\ group_int m "frame" = Ok (f_frame f).
Proof.
  unfold extract_regex_group_fields.
  destruct (group_int m "width") as [w|]; simpl; [|discriminate].
  destruct (group_int m "height") as [h|]; simpl; [|discriminate].
  destruct (group_int m "frame") as [fr|]; simpl; [|discriminate].
  intros H; inversion H; subst; simpl. auto.
Qed.

Lemma taken_up_inv fs re p f p' :
  In (f, p') (taken_up fs re p) ->
  p' = p /\ isfile fs p = true
  /\ exists m, re_search re p = Some m /\ extract_regex_group_fields m = Ok f.
Proof.
  unfold taken_up. destruct (isfile fs p); [|intros []].
  destruct (re_search re p) as [m|]; [|intros []].
  destruct (extract_regex_group_fields m) as [f0|] eqn:E; [|intros []].
  intros [H|[]]. inversion H; subst. eauto.
Qed.

(** Whether the frame is [None] is decided by the pattern alone. *)
Lemma taken_up_frame fs re p f p' :
  In (f, p') (taken_up fs re p) ->
  is_none (f_frame f) = negb (existsb (String.eqb "frame") (group_names re)).
Proof.
  intros H. apply taken_up_inv in H. destruct H as (_ & _ & m & Hm & He).
  apply extract_ok_inv in He. destruct He as (_ & _ & _ & _ & Hf).
  unfold group_int in Hf.
  destruct (existsb (String.eqb "frame") (group_names re)) eqn:Ex; simpl.
  - apply existsb_exists in Ex. destruct Ex as (n & Hn & En).
    apply String.eqb_eq in En. subst n.
    destruct (group_present _ _ _ _ Hm Hn) as [v Hv]. rewrite Hv in Hf.
    destruct v as [t|]; [|discriminate].
    destruct (py_int t); [|discriminate]. now inversion Hf.
  - rewrite (group_absent _ _ _ "frame" Hm) in Hf; [now inversion Hf|].
    intros Hin. assert (existsb (String.eqb "frame") (group_names re) = true).
    { apply existsb_exists. exists "frame". split; [assumption|apply String.eqb_refl]. }
    congruence.
Qed.

Lemma not_mixed_uniform {A : Type} (l : list (option A)) v :
  Forall (fun o => is_none o = v) l -> mixed l = false.
Proof.
  intros H. unfold mixed. destruct v.
  - assert (existsb (fun o : option A => negb (is_none o)) l = false).
    { induction H as [|o l Ho _ IH]; simpl; [reflexivity|]. now rewrite Ho, IH. }
    rewrite H0. apply andb_false_r.
  - assert (existsb (@is_none A) l = false).
    { induction H as [|o l Ho _ IH]; simpl; [reflexivity|]. now rewrite Ho, IH. }
    now rewrite H0.
Qed.

Lemma bucket_not_mixed fs re files b :
  mixed (map fst (bucket_entries b (flat_map (taken_up fs re) files))) = false.
Proof.
  apply not_mixed_uniform
    with (v := negb (existsb (String.eqb "frame") (group_names re))).
  rewrite Forall_forall. intros o Ho. rewrite in_map_iff in Ho.
  destruct Ho as (e & <- & He). apply bucket_entries_in in He.
  destruct He as (f & Hin & _ & <-). rewrite in_flat_map in Hin.
  destruct Hin as (p & _ & Hin). eapply taken_up_frame; eassumption.
Qed.

Lemma sort_lists_sorted : forall refs store,
  NoDup refs ->
  (forall r, In r refs ->
             r < List.length store /\ mixed (map fst (store_get store r)) = false) ->
  exists store',
    sort_lists store refs = Ok store'
    /\ List.length store' = List.length store
    /\ (forall r, In r refs ->
                  store_get store' r = insertion_sort entry_ltb (store_get store r))
    /\ (forall r, ~ In r refs -> store_get store' r = store_get store r).
Proof.
  induction refs as [|r refs IH]; intros store Hnd H; simpl.
  - exists store. repeat split; auto. intros r [].
  - inversion Hnd as [|? ? Hnotin Hnd']; subst.
    destruct (H r (or_introl eq_refl)) as [Hr Hmixed].
    unfold py_sort. rewrite Hmixed. simpl.
    destruct (IH (store_set store r (insertion_sort entry_ltb (store_get store r))) Hnd')
      as (store' & E & Hlen & Hin & Hout).
    { intros r' Hr'. rewrite length_store_set.
      destruct (H r' (or_intror Hr')) as [Hlt Hm]. split; [assumption|].
      rewrite store_get_set_neq; [assumption|]. intros ->. contradiction. }
    exists store'. rewrite length_store_set in Hlen. repeat split; try assumption.
    + intros r' [<-|Hr'].
      * rewrite Hout by assumption. now apply store_get_set_eq.
      * rewrite Hin by assumption. rewrite store_get_set_neq; [reflexivity|].
        intros ->. contradiction.
    + intros r' Hr'. rewrite Hout by tauto. apply store_get_set_neq. tauto.
Qed.

Lemma flat_index_deref store idx :
  flat_index (deref_index store idx)
  = map (fun br => (fst br, store_get store (snd br))) (flat_index idx).
Proof.
  unfold flat_index, deref_index.
  induction idx as [|[s cams] idx IH]; simpl; [reflexivity|].
  rewrite map_app, IH. f_equal. clear IH.
  induction cams as [|[c ress] cams IH]; simpl; [reflexivity|].
  rewrite map_app, IH. f_equal. rewrite !map_map. reflexivity.
Qed.

Lemma wf_deref store idx : wf_index idx -> wf_index (deref_index store idx).
Proof.
  intros [Hnd Hall]. unfold deref_index. split.
  - rewrite map_map. simpl. exact Hnd.
  - rewrite Forall_map. rewrite Forall_forall in *. intros [s cams] Hin.
    destruct (Hall _ Hin) as [Hndc Hallc]. simpl in *. split.
    + rewrite map_map. simpl. exact Hndc.
    + rewrite Forall_map. rewrite Forall_forall in *. intros [c ress] Hin'.
      simpl. rewrite map_map. simpl. apply (Hallc _ Hin').
Qed.

(** What [group_files] returns when no extraction raises: one bucket for
    every key that occurs, holding the sorted tuples of its inputs. *)
Lemma group_files_grouped fs re verbose files w :
  Forall (extractable fs re) files ->
  exists w' idx,
    group_files fs files re verbose w = (w', Ok idx)
    /\ written w' = written w
    /\ wf_index idx
    /\ forall b l,
        In (b, l) (flat_index idx)
        <-> l = insertion_sort entry_ltb
                  (bucket_entries b (flat_map (taken_up fs re) files))
            /\ bucket_entries b (flat_map (taken_up fs re) files) <> [].
Proof.
  intros Hex.
  destruct (group_loop_taken fs re verbose files init_gstate w [] Hex grouped_init)
    as (w' & st & E & Hg).
  simpl in Hg. destruct Hg as [Hwf Hlists Hstore Hinj Hall Hcover].
  destruct (sort_lists_sorted (g_lists st) (g_store st)) as (store' & Es & Hlen & Hin & _).
  { rewrite Hlists. apply seq_NoDup. }
  { intros r Hr. rewrite Hlists in Hr. apply in_seq in Hr. split; [lia|].
    destruct (Hcover r) as [b Hb]; [lia|].
    destruct (Hstore _ _ Hb) as (_ & -> & _). apply bucket_not_mixed. }
  exists w', (deref_index store' (g_index st)).
  split; [|split; [|split]].
  - unfold group_files, mbind, lift, ret. now rewrite E, Es.
  - eapply group_loop_written; eassumption.
  - now apply wf_deref.
  - intros b l. rewrite flat_index_deref, in_map_iff. split.
    + intros ([b' r] & Eq & Hb). simpl in Eq. inversion Eq; subst.
      destruct (Hstore _ _ Hb) as (Hr & Hget & Hne).
      rewrite Hin, Hget; [auto|]. rewrite Hlists. apply in_seq. lia.
    + intros [-> Hne].
      destruct (bucket_entries b (flat_map (taken_up fs re) files)) as [|e l'] eqn:Eb;
        [congruence|].
      assert (He : In e (bucket_entries b (flat_map (taken_up fs re) files)))
        by (rewrite Eb; now left).
      apply bucket_entries_in in He. destruct He as (f & Hf & Hfb & _).
      destruct (Hall _ Hf) as [r Hr]. simpl in Hr. rewrite Hfb in Hr.
      exists (b, r). split; [|assumption]. simpl.
      destruct (Hstore _ _ Hr) as (Hlt & Hget & _).
      rewrite Hin, Hget, Eb; [reflexivity|]. rewrite Hlists. apply in_seq. lia.
Qed.

Lemma insert_sorted_in {A : Type} (ltb : A -> A -> bool) x l e :
  In e (insert_sorted ltb x l) <-> e = x \/ In e l.
Proof.
  induction l as [|y l IH]; simpl; [intuition congruence|].
  destruct (ltb y x); simpl; [rewrite IH|]; intuition congruence.
Qed.

Lemma insertion_sort_in {A : Type} (ltb : A -> A -> bool) l e :
  In e (insertion_sort ltb l) <-> In e l.
Proof.
  induction l as [|x l IH]; simpl; [tauto|].
  rewrite insert_sorted_in, IH. intuition congruence.
Qed.

Lemma insert_sorted_perm {A : Type} (ltb : A -> A -> bool) x l :
  Permutation (insert_sorted ltb x l) (x :: l).
Proof.
  induction l as [|y l IH]; simpl; [reflexivity|].
  destruct (ltb y x); [|reflexivity].
  rewrite IH. apply perm_swap.
Qed.

Lemma insertion_sort_perm {A : Type} (ltb : A -> A -> bool) l :
  Permutation (insertion_sort ltb l) l.
Proof.
  induction l as [|x l IH]; simpl; [reflexivity|].
  rewrite insert_sorted_perm. now constructor.
Qed.

Lemma entry_ltb_frames a b :
  entry_lt a b \/ entry_lt b a ->
  entry_ltb a b = true <-> entry_lt a b.
Proof.
  destruct a as [[x|] p], b as [[y|] q]; unfold entry_lt, entry_ltb; simpl;
    try tauto.
  intros H. destruct (Z.eqb_spec x y) as [->|Hne]; [lia|].
  apply Z.ltb_lt.
Qed.

Lemma entry_lt_trans a b c : entry_lt a b -> entry_lt b c -> entry_lt a c.
Proof.
  destruct a as [[x|] p], b as [[y|] q], c as [[z|] r]; unfold entry_lt; simpl;
    try tauto. lia.
Qed.

Lemma insert_sorted_strongly x l :
  StronglySorted entry_lt l ->
  Forall (fun y => entry_lt x y \/ entry_lt y x) l ->
  StronglySorted entry_lt (insert_sorted entry_ltb x l).
Proof.
  induction l as [|y l IH]; intros Hs Hc; simpl.
  - repeat constructor.
  - inversion Hs as [|? ? Hs' Hy]; subst. inversion Hc as [|? ? Hxy Hc']; subst.
    destruct (entry_ltb y x) eqn:E.
    + apply entry_ltb_frames in E; [|tauto].
      constructor; [now apply IH|].
      rewrite Forall_forall in *. intros e He. apply insert_sorted_in in He.
      destruct He as [->|He]; auto.
    + assert (Hlt : entry_lt x y).
      { destruct Hxy as [H|H]; [assumption|].
        apply entry_ltb_frames in H; [congruence|tauto]. }
      constructor; [assumption|]. constructor; [assumption|].
      rewrite Forall_forall in *. intros e He. eapply entry_lt_trans; eauto.
Qed.

Lemma insertion_sort_strongly l :
  ForallOrdPairs (fun a b => entry_lt a b \/ entry_lt b a) l ->
  StronglySorted entry_lt (insertion_sort entry_ltb l).
Proof.
  induction 1 as [|x l Hx Hl IH]; simpl; [constructor|].
  apply insert_sorted_strongly; [assumption|].
  rewrite Forall_forall in *. intros e He. apply insertion_sort_in in He. auto.
Qed.

Lemma StronglySorted_map {A B : Type} (R : B -> B -> Prop) (f : A -> B) l :
  StronglySorted (fun a b => R (f a) (f b)) l -> StronglySorted R (map f l).
Proof.
  induction 1 as [|x l Hs IH Hx]; simpl; constructor; [assumption|].
  now rewrite Forall_map.
Qed.

Lemma mixed_cons {A : Type} (o : option A) l :
  mixed (o :: l)
  = (is_none o || existsb is_none l) && (negb (is_none o) || existsb (fun o => negb (is_none o)) l).
Proof. reflexivity. Qed.

Lemma mixed_tail {A : Type} (o : option A) l : mixed (o :: l) = false -> mixed l = false.
Proof.
  rewrite mixed_cons. unfold mixed.
  destruct (existsb is_none l); [|reflexivity].
  destruct (existsb (fun o => negb (is_none o)) l); [|reflexivity].
  now rewrite !orb_true_r.
Qed.

(** Tuples with pairwise different frames that are all integers or all
    [None] (then there is at most one) can be compared two by two. *)
Lemma comparable_frames (l : list entry) :
  NoDup (map fst l) -> mixed (map fst l) = false ->
  ForallOrdPairs (fun a b => entry_lt a b \/ entry_lt b a) l.
Proof.
  induction l as [|a l IH]; intros Hnd Hm; [constructor|].
  simpl in Hnd. inversion Hnd as [|? ? Hnotin Hnd']; subst.
  change (map fst (a :: l)) with (fst a :: map fst l) in Hm.
  pose proof (mixed_tail _ _ Hm) as Hm'.
  constructor; [|now apply IH].
  rewrite Forall_forall. intros b Hb.
  assert (Hfb : In (fst b) (map fst l)) by now apply in_map.
  rewrite mixed_cons in Hm.
  destruct a as [[x|] p], b as [[y|] q]; unfold entry_lt; simpl in *.
  - assert (x <> y) by congruence. lia.
  - exfalso.
    assert (H : existsb is_none (map fst l) = true).
    { apply existsb_exists. exists None. auto. }
    rewrite H in Hm. discriminate.
  - exfalso.
    assert (H : existsb (fun o : option Z => negb (is_none o)) (map fst l) = true).
    { apply existsb_exists. exists (Some y). auto. }
    rewrite H in Hm. simpl in Hm. discriminate.
  - contradiction.
Qed.

(** ** Distinct inputs *)

Lemma taken_up_matches fs re : forall files fl,
  Forall2 (matches_with fs re) files fl ->
  flat_map (taken_up fs re) files = combine fl files
  /\ Forall (extractable fs re) files.
Proof.
  induction 1 as [|p f files fl (Hfile & m & Hm & He) _ [IH1 IH2]]; simpl.
  - split; [reflexivity|constructor].
  - split.
    + unfold taken_up at 1. rewrite Hfile, Hm, He. simpl. now rewrite IH1.
    + constructor; [|assumption]. intros _ m' Hm'. exists f. congruence.
Qed.

Lemma map_fst_combine {A B : Type} (l : list A) (l' : list B) :
  List.length l = List.length l' -> map fst (combine l l') = l.
Proof.
  revert l'; induction l as [|a l IH]; intros [|b l'] H; simpl in *;
    try reflexivity; try discriminate.
  f_equal. apply IH. lia.
Qed.

Lemma fields_eq_bucket_frame f g :
  fields_bucket f = fields_bucket g -> f_frame f = f_frame g -> f = g.
Proof.
  destruct f, g; unfold fields_bucket; simpl. intros H1 H2. inversion H1; subst.
  reflexivity.
Qed.

Lemma NoDup_map_in {A B : Type} (f : A -> B) (l : list A) :
  NoDup l -> (forall x y, In x l -> In y l -> f x = f y -> x = y) -> NoDup (map f l).
Proof.
  induction 1 as [|a l Ha Hl IH]; intros Hinj; simpl; constructor.
  - rewrite in_map_iff. intros (y & E & Hy).
    assert (y = a) by (apply Hinj; simpl; auto). subst. contradiction.
  - apply IH. intros x y Hx Hy. apply Hinj; simpl; auto.
Qed.

Lemma bucket_frames_nodup b (fl : list fields) (files : list text) :
  List.length fl = List.length files -> NoDup fl ->
  NoDup (map fst (bucket_entries b (combine fl files))).
Proof.
  intros Hlen Hnd. unfold bucket_entries. rewrite map_map. simpl.
  set (L := filter (fun x : fields * text => bucket_eqb (fields_bucket (fst x)) b)
                   (combine fl files)).
  assert (HL : NoDup (map fst L)).
  { unfold L. clear L.
    assert (E : forall l : list (fields * text),
             map fst (filter (fun x => bucket_eqb (fields_bucket (fst x)) b) l)
             = filter (fun f => bucket_eqb (fields_bucket f) b) (map fst l)).
    { induction l as [|x l IH]; simpl; [reflexivity|].
      destruct (bucket_eqb (fields_bucket (fst x)) b); simpl; now rewrite IH. }
    rewrite E, map_fst_combine by assumption. now apply NoDup_filter. }
  rewrite <- (map_map fst f_frame). apply NoDup_map_in; [assumption|].
  intros f g Hf Hg Efr. rewrite in_map_iff in Hf, Hg.
  destruct Hf as (x & <- & Hx), Hg as (y & <- & Hy).
  unfold L in Hx, Hy. apply filter_In in Hx, Hy.
  destruct Hx as [_ Hx], Hy as [_ Hy]. apply bucket_eqb_eq in Hx, Hy.
  apply fields_eq_bucket_frame; congruence.
Qed.

Lemma NoDup_flat_map_disjoint {A B : Type} (f : A -> list B) (l : list A) :
  NoDup l ->
  (forall x, In x l -> NoDup (f x)) ->
  (forall x y z, In x l -> In y l -> In z (f x) -> In z (f y) -> x = y) ->
  NoDup (flat_map f l).
Proof.
  induction 1 as [|a l Ha Hl IH]; intros Hf Hd; simpl; [constructor|].
  apply NoDup_app.
  - apply Hf. now left.
  - apply IH; [intros x Hx; apply Hf; now right|].
    intros x y z Hx Hy. apply Hd; now right.
  - intros z Hz Hz'. apply in_flat_map in Hz'. destruct Hz' as (y & Hy & Hzy).
    assert (a = y) by (apply (Hd a y z); simpl; auto). subst. contradiction.
Qed.

Lemma nodup_keys_eq {K V : Type} (d : dict K V) x y :
  NoDup (map fst d) -> In x d -> In y d -> fst x = fst y -> x = y.
Proof.
  induction d as [|z d IH]; simpl; [tauto|].
  intros Hnd [Hx|Hx] [Hy|Hy] E; inversion Hnd as [|? ? Hnotin Hnd']; subst.
  - reflexivity.
  - exfalso. apply Hnotin. rewrite E. now apply in_map.
  - exfalso. apply Hnotin. rewrite <- E. now apply in_map.
  - now apply IH.
Qed.

Lemma flat_index_nodup {L : Type} (idx : session_index L) :
  wf_index idx -> NoDup (flat_index idx).
Proof.
  intros [Hnd Hall]. rewrite Forall_forall in Hall. unfold flat_index.
  apply NoDup_flat_map_disjoint.
  - eapply NoDup_map_inv; eassumption.
  - intros [s cams] Hs. destruct (Hall _ Hs) as [Hndc Hallc]. simpl in *.
    rewrite Forall_forall in Hallc.
    apply NoDup_flat_map_disjoint.
    + eapply NoDup_map_inv; eassumption.
    + intros [c ress] Hc. simpl. apply NoDup_map_in.
      * eapply NoDup_map_inv. apply (Hallc _ Hc).
      * intros [q v] [q' v'] _ _ E. simpl in E. now inversion E.
    + intros [c ress] [c' ress'] z Hc Hc' Hz Hz'. simpl in *.
      rewrite in_map_iff in Hz, Hz'.
      destruct Hz as (rl & Ez & _), Hz' as (rl' & Ez' & _).
      apply (nodup_keys_eq cams); try assumption. simpl.
      rewrite <- Ez in Ez'. now inversion Ez'.
  - intros [s cams] [s' cams'] z Hs Hs' Hz Hz'. simpl in *.
    rewrite in_flat_map in Hz, Hz'.
    destruct Hz as (cr & _ & Hz), Hz' as (cr' & _ & Hz').
    rewrite in_map_iff in Hz, Hz'.
    destruct Hz as (rl & Ez & _), Hz' as (rl' & Ez' & _).
    apply (nodup_keys_eq idx); try assumption. simpl.
    rewrite <- Ez in Ez'. now inversion Ez'.
Qed.

Lemma flat_index_functional {L : Type} (idx : session_index L) b (l l' : L) :
  wf_index idx -> In (b, l) (flat_index idx) -> In (b, l') (flat_index idx) -> l = l'.
Proof.
  intros Hwf H H'. apply (index_get_in _ _ _ Hwf) in H, H'. congruence.
Qed.

Lemma strongly_sorted_nodup (l : list entry) :
  StronglySorted entry_lt l -> NoDup l.
Proof.
  induction 1 as [|a l Hs IH Ha]; constructor; [|assumption].
  intros Hin. rewrite Forall_forall in Ha. specialize (Ha _ Hin).
  destruct a as [[x|] p]; unfold entry_lt in Ha; simpl in Ha; [lia|assumption].
Qed.

Lemma bucket_fields_bucket b fr : fields_bucket (bucket_fields b fr) = b.
Proof. now destruct b as [[s c] [w h]]. Qed.

Lemma bucket_fields_eq f : bucket_fields (fields_bucket f) (f_frame f) = f.
Proof. now destruct f. Qed.

(** C6: when the inputs are regular files that match, with pairwise
    different fields, [group_files] returns an index whose entries are the
    inputs, each once, and every list of the index has its frames in
    strictly ascending order. *)
Theorem distinct_inputs_grouped_and_sorted :
  forall fs re verbose files fl w,
    Forall2 (matches_with fs re) files fl ->
    NoDup fl ->
    exists w' idx,
      group_files fs files re verbose w = (w', Ok idx)
      /\ wf_index idx
      /\ Permutation (index_entries idx) (combine fl files)
      /\ forall b l, In (b, l) (flat_index idx) -> StronglySorted frame_lt (map fst l).
Proof.
  intros fs re verbose files fl w Hmatch Hnd.
  destruct (taken_up_matches fs re files fl Hmatch) as [Etaken Hex].
  assert (Hlen : List.length fl = List.length files)
    by (symmetry; eapply Forall2_length; eassumption).
  destruct (group_files_grouped fs re verbose files w Hex) as (w' & idx & E & _ & Hwf & Hin).
  rewrite Etaken in Hin.
  assert (Hsorted : forall b l, In (b, l) (flat_index idx) -> StronglySorted entry_lt l).
  { intros b l Hl. apply Hin in Hl. destruct Hl as [-> _].
    apply insertion_sort_strongly, comparable_frames.
    - now apply bucket_frames_nodup.
    - rewrite <- Etaken. apply bucket_not_mixed. }
  exists w', idx. split; [exact E|]. split; [exact Hwf|]. split.
  - apply NoDup_Permutation.
    + unfold index_entries. apply NoDup_flat_map_disjoint.
      * now apply flat_index_nodup.
      * intros [b l] Hl. simpl. apply NoDup_map_in.
        -- eapply strongly_sorted_nodup, Hsorted; eassumption.
        -- intros [fr p] [fr' p'] _ _ Eq. simpl in Eq. inversion Eq; subst.
           destruct b as [[s c] [wd ht]]. unfold bucket_fields in *. simpl in *.
           congruence.
      * intros [b l] [b' l'] z Hl Hl' Hz Hz'. simpl in *.
        rewrite in_map_iff in Hz, Hz'.
        destruct Hz as (e & <- & _), Hz' as (e' & Eq & _).
        assert (b = b').
        { apply (f_equal fst) in Eq. simpl in Eq.
          apply (f_equal fields_bucket) in Eq.
          now rewrite !bucket_fields_bucket in Eq. }
        subst b'. f_equal. eapply flat_index_functional; eassumption.
    + eapply NoDup_map_inv with (f := fst). now rewrite map_fst_combine.
    + intros [f p]. unfold index_entries. rewrite in_flat_map. split.
      * intros ([b l] & Hl & Hfp). simpl in Hfp. rewrite in_map_iff in Hfp.
        destruct Hfp as (e & Eq & He). inversion Eq; subst.
        apply Hin in Hl. destruct Hl as [-> _].
        apply insertion_sort_in, bucket_entries_in in He.
        destruct He as (f' & Hf' & <- & <-). now rewrite bucket_fields_eq.
      * intros Hfp.
        assert (He : In (f_frame f, p) (bucket_entries (fields_bucket f) (combine fl files))).
        { apply bucket_entries_in. exists f. auto. }
        exists (fields_bucket f,
                insertion_sort entry_ltb (bucket_entries (fields_bucket f) (combine fl files))).
        split.
        -- apply Hin. split; [reflexivity|]. intros Eq. now rewrite Eq in He.
        -- simpl. rewrite in_map_iff. exists (f_frame f, p). simpl.
           rewrite bucket_fields_eq. split; [reflexivity|]. now apply insertion_sort_in.
  - intros b l Hl. apply StronglySorted_map. apply (Hsorted b l Hl).
Qed.

Lemma distinct_inputs_grouped_and_sorted_witness :
  exists w' idx,
    group_files (fs_all JNull) three_files FILENAME_OPFILE_RE false empty_world = (w', Ok idx)
    /\ wf_index idx
    /\ Permutation (index_entries idx) (combine three_fields three_files)
    /\ forall b l, In (b, l) (flat_index idx) -> StronglySorted frame_lt (map fst l).
Proof.
  apply (distinct_inputs_grouped_and_sorted (fs_all JNull) FILENAME_OPFILE_RE false
           three_files three_fields empty_world).
  - repeat constructor; eexists; split; vm_compute; reflexivity.
  - repeat constructor; simpl; intuition discriminate.
Defined.

(** ** Effects of the stages *)

Lemma mbind_inv {A B : Type} (m : M A) (f : A -> M B) w w' r :
  mbind m f w = (w', r) ->
  (exists w1 a, m w = (w1, Ok a) /\ f a w1 = (w', r))
  \/ (exists e, m w = (w', Raise e) /\ r = Raise e).
Proof.
  unfold mbind. destruct (m w) as [w1 [a|e]]; intros H.
  - left. eauto.
  - right. inversion H; subst. eauto.
Qed.

Lemma keeps_ret {A : Type} (a : A) : keeps_written (ret a).
Proof. intros w w' r H. now inversion H. Qed.

Lemma keeps_raise {A : Type} e : keeps_written (@raise A e).
Proof. intros w w' r H. now inversion H. Qed.

Lemma keeps_lift {A : Type} (x : result A) : keeps_written (lift x).
Proof. intros w w' r H. now inversion H. Qed.

Lemma keeps_print line : keeps_written (print line).
Proof. intros w w' r H. now inversion H. Qed.

Lemma keeps_warn msg : keeps_written (warn msg).
Proof. intros w w' r H. now inversion H. Qed.

Lemma keeps_bind {A B : Type} (m : M A) (f : A -> M B) :
  keeps_written m -> (forall a, keeps_written (f a)) -> keeps_written (mbind m f).
Proof.
  intros Hm Hf w w' r H. apply mbind_inv in H.
  destruct H as [(w1 & a & H1 & H2)|(e & H1 & _)].
  - apply Hf in H2. apply Hm in H1. congruence.
  - now apply Hm in H1.
Qed.

Lemma keeps_when b m : keeps_written m -> keeps_written (when b m).
Proof. intros H. destruct b; [exact H|apply keeps_ret]. Qed.

Lemma keeps_for_each {A : Type} (l : list A) body :
  (forall a, keeps_written (body a)) -> keeps_written (for_each l body).
Proof.
  intros H. induction l as [|a l IH]; simpl; [apply keeps_ret|].
  apply keeps_bind; auto.
Qed.

Lemma keeps_fold_m {A S : Type} (body : S -> A -> M S) l :
  (forall st a, keeps_written (body st a)) -> forall st, keeps_written (fold_m body st l).
Proof.
  intros H. induction l as [|a l IH]; intros st; simpl; [apply keeps_ret|].
  apply keeps_bind; auto.
Qed.

Lemma keeps_group_files fs files re verbose :
  keeps_written (group_files fs files re verbose).
Proof.
  unfold group_files. apply keeps_bind.
  - apply keeps_fold_m. intros st p w w' r H. eapply group_step_written; eassumption.
  - intros st. apply keeps_bind; [apply keeps_lift|]. intros store. apply keeps_ret.
Qed.

Lemma keeps_sanity_check idx : keeps_written (sanity_check_groups idx).
Proof.
  unfold sanity_check_groups. apply keeps_for_each. intros sc.
  apply keeps_for_each. intros cr.
  destruct (1 <? List.length (snd cr)); [apply keeps_warn|apply keeps_ret].
Qed.

Lemma keeps_load_recording fs tuples sid cam wd ht verbose :
  keeps_written (load_recording fs tuples sid cam wd ht verbose).
Proof.
  unfold load_recording. apply keeps_bind; [apply keeps_when, keeps_print|].
  intros _. apply keeps_bind; [apply keeps_lift|]. intros sorted.
  apply keeps_bind; [|intros; apply keeps_ret].
  apply keeps_fold_m. intros st e.
  destruct (load_json fs (snd e)); [apply keeps_ret|apply keeps_raise].
Qed.

(** A session ends with its file written under its name, or with an
    exception and nothing written. *)
Lemma wrap_session_written fs out verbose sc w w' r :
  wrap_session fs out verbose sc w = (w', r) ->
  (r = Ok tt /\ exists recordings,
      written w' = written w ++ [(output_name (fst sc) out, slimindent_json recordings)])
  \/ ((exists e, r = Raise e) /\ written w' = written w).
Proof.
  unfold wrap_session. intros H.
  apply mbind_inv in H. destruct H as [(w1 & [] & H1 & H)|(e & H1 & ->)].
  2:{ right. split; [eauto|]. revert H1. apply keeps_when.
      apply keeps_bind; [apply keeps_lift|intros; apply keeps_print]. }
  assert (E1 : written w1 = written w).
  { revert H1. apply keeps_when.
    apply keeps_bind; [apply keeps_lift|intros; apply keeps_print]. }
  apply mbind_inv in H. destruct H as [(w2 & cameras & H2 & H)|(e & H2 & ->)].
  2:{ right. split; [eauto|]. apply keeps_lift in H2. congruence. }
  apply keeps_lift in H2.
  apply mbind_inv in H. destruct H as [(w3 & recordings & H3 & H)|(e & H3 & ->)].
  - assert (E3 : written w3 = written w2).
    { revert H3. apply keeps_fold_m. intros recs camera.
      apply keeps_fold_m. intros recs' rl.
      apply keeps_bind; [apply keeps_load_recording|intros; apply keeps_ret]. }
    left. unfold write_wrapper in H.
    apply mbind_inv in H. destruct H as [(w4 & [] & H4 & H)|(e & H4 & ->)].
    + assert (E4 : written w4 = written w3).
      { revert H4. apply keeps_when, keeps_print. }
      unfold write_file in H. inversion H; subst. simpl.
      split; [reflexivity|]. exists recordings. congruence.
    + exfalso. unfold when, print, ret in H4. destruct verbose; discriminate.
  - right. split; [eauto|].
    assert (E3 : written w' = written w2).
    { revert H3. apply keeps_fold_m. intros recs camera.
      apply keeps_fold_m. intros recs' rl.
      apply keeps_bind; [apply keeps_load_recording|intros; apply keeps_ret]. }
    congruence.
Qed.

Lemma for_each_sessions_written fs out verbose : forall idx w w' r,
  for_each idx (wrap_session fs out verbose) w = (w', r) ->
  exists k, k <= List.length idx
            /\ map fst (written w')
               = map fst (written w)
                 ++ map (fun sc => output_name (fst sc) out) (firstn k idx)
            /\ (r = Ok tt -> k = List.length idx).
Proof.
  induction idx as [|sc idx IH]; intros w w' r H; simpl in H.
  - inversion H; subst. exists 0. simpl. rewrite app_nil_r. auto.
  - apply mbind_inv in H. destruct H as [(w1 & [] & H1 & H)|(e & H1 & ->)].
    + apply wrap_session_written in H1.
      destruct H1 as [(_ & recs & E1)|((e & He) & _)]; [|discriminate].
      apply IH in H. destruct H as (k & Hk & E & Hr).
      exists (S k). simpl. split; [lia|]. split; [|intros Hok; f_equal; auto].
      rewrite E, E1, map_app. simpl. now rewrite <- app_assoc.
    + apply wrap_session_written in H1.
      destruct H1 as [(Hok & _)|(_ & E1)]; [discriminate|].
      exists 0. simpl. rewrite app_nil_r, E1. split; [lia|]. split; [reflexivity|].
      discriminate.
Qed.

(** ** Patterns without [id] and [camera] *)

Lemma in_dict_set_weak {K V : Type} (eqb : K -> K -> bool)
      (eqb_eq : forall a b, eqb a b = true <-> a = b) (d : dict K V) k v x :
  In x (dict_set eqb d k v) -> x = (k, v) \/ In x d.
Proof.
  induction d as [|[k0 v0] d IH]; simpl.
  - intros [H|[]]; auto.
  - destruct (eqb k k0) eqn:E; simpl.
    + apply eqb_eq in E. subst. intros [H|H]; auto.
    + intros [H|H]; auto. apply IH in H. tauto.
Qed.

Lemma dict_set_nonempty {K V : Type} (eqb : K -> K -> bool) (d : dict K V) k v :
  dict_set eqb d k v <> [].
Proof.
  destruct d as [|[k0 v0] d]; simpl; [discriminate|].
  destruct (eqb k k0); discriminate.
Qed.

Lemma full_index_set {L : Type} (idx : session_index L) b (v : L) :
  full_index idx -> full_index (index_set idx b v).
Proof.
  unfold full_index. intros H. rewrite Forall_forall in *.
  intros sc Hsc. unfold index_set in Hsc.
  apply (in_dict_set_weak key_eqb key_eqb_eq) in Hsc.
  destruct Hsc as [->|Hsc]; [|now apply H]. simpl.
  split; [apply dict_set_nonempty|].
  rewrite Forall_forall. intros cr Hcr.
  apply (in_dict_set_weak key_eqb key_eqb_eq) in Hcr.
  destruct Hcr as [->|Hcr]; [simpl; apply dict_set_nonempty|].
  apply (setdefault_value_in key_eqb key_eqb_eq) in Hcr.
  destruct Hcr as (cams & Hs & Hc). destruct (H _ Hs) as [_ Hall].
  rewrite Forall_forall in Hall. now apply Hall.
Qed.

Lemma fold_m_invariant {A S : Type} (body : S -> A -> M S) (P : S -> Prop) :
  (forall st a w w' st', P st -> body st a w = (w', Ok st') -> P st') ->
  forall l st w w' st', P st -> fold_m body st l w = (w', Ok st') -> P st'.
Proof.
  intros Hbody. induction l as [|a l IH]; intros st w w' st' HP H; simpl in H.
  - now inversion H; subst.
  - apply mbind_inv in H. destruct H as [(w1 & st1 & H1 & H)|(e & _ & ?)]; [|discriminate].
    eapply IH; [|eassumption]. eapply Hbody; eassumption.
Qed.

Lemma full_deref store idx : full_index idx -> full_index (deref_index store idx).
Proof.
  unfold full_index, deref_index. intros H.
  rewrite Forall_map. rewrite Forall_forall in *. intros [s cams] Hs.
  destruct (H _ Hs) as [Hne Hall]. simpl in *. split.
  - destruct cams; [congruence|discriminate].
  - rewrite Forall_map. rewrite Forall_forall in *. intros [c ress] Hc.
    specialize (Hall _ Hc). simpl in *. destruct ress; [congruence|discriminate].
Qed.

Lemma group_files_full fs files re verbose w w' idx :
  group_files fs files re verbose w = (w', Ok idx) -> full_index idx.
Proof.
  unfold group_files. intros H.
  apply mbind_inv in H. destruct H as [(w1 & st & H1 & H)|(e & _ & ?)]; [|discriminate].
  apply mbind_inv in H. destruct H as [(w2 & store & H2 & H)|(e & _ & ?)]; [|discriminate].
  inversion H; subst. apply full_deref.
  apply (fold_m_invariant _ (fun st => full_index (g_index st))) in H1; [assumption| |constructor].
  clear. intros st p w w' st' HP H. unfold group_step in H.
  destruct (isfile fs p); [|now inversion H; subst].
  destruct (re_search re p) as [m|].
  - apply mbind_inv in H. destruct H as [(w1 & f & _ & H)|(e & _ & ?)]; [|discriminate].
    unfold lift in H. rewrite group_insert_eq in H. inversion H; subst.
    destruct (index_get (g_index st) (fields_bucket f)) eqn:G; simpl; [assumption|].
    now apply full_index_set.
  - apply mbind_inv in H. destruct H as [(w1 & [] & _ & H)|(e & _ & ?)]; [|discriminate].
    now inversion H; subst.
Qed.

Lemma nodup_constant_length {A : Type} (l : list A) a :
  NoDup l -> (forall x, In x l -> x = a) -> List.length l <= 1.
Proof.
  intros Hnd H. destruct l as [|x [|y l]]; simpl; try lia.
  exfalso. inversion Hnd as [|? ? Hnotin _]; subst. apply Hnotin.
  rewrite (H x), (H y); simpl; auto.
Qed.

Lemma taken_up_no_id_camera fs re p f p' :
  ~ In "id" (group_names re) -> ~ In "camera" (group_names re) ->
  In (f, p') (taken_up fs re p) -> f_session_id f = None /\ f_camera f = None.
Proof.
  intros Hid Hcam H. apply taken_up_inv in H. destruct H as (_ & _ & m & Hm & He).
  apply extract_ok_inv in He. destruct He as (-> & -> & _).
  unfold group_text.
  now rewrite (group_absent _ _ _ "id" Hm Hid), (group_absent _ _ _ "camera" Hm Hcam).
Qed.

(** C7: whatever [wrap_json_frames] has written when it ends, it has
    written for the sessions of the index, in their order, under the names
    [output_name] gives them: the session id, or [session] when it is
    [None], followed by [.openpose.json] (joined to the output directory
    when there is one).  With a pattern that has neither an [id] nor a
    [camera] group the index has only the session [None] with only the
    camera [None], and every input taken up is in one of its lists. *)
Theorem session_file_names_and_implicit_bucket :
  (forall fs files out re verbose w w' r,
      wrap_json_frames fs files out re verbose w = (w', r) ->
      ((exists wg e, group_files fs files re verbose w = (wg, Raise e))
       /\ written w' = written w)
      \/ (exists wg idx k,
             group_files fs files re verbose w = (wg, Ok idx)
             /\ k <= List.length idx
             /\ map fst (written w')
                = map fst (written w)
                  ++ map (fun sc => output_name (fst sc) out) (firstn k idx)
             /\ (r = Ok tt -> k = List.length idx)))
  /\ (forall s, output_name (Some s) None = s ++ tx ".openpose.json")
  /\ output_name None None = tx "session.openpose.json"
  /\ (forall sid d, output_name sid (Some d) = path_join d (output_name sid None))
  /\ (forall fs files re verbose w,
         ~ In "id" (group_names re) ->
         ~ In "camera" (group_names re) ->
         Forall (extractable fs re) files ->
         exists w' idx,
           group_files fs files re verbose w = (w', Ok idx)
           /\ List.length idx <= 1
           /\ (forall s cams, In (s, cams) idx ->
                 s = None /\ List.length cams <= 1
                 /\ forall c ress, In (c, ress) cams -> c = None)
           /\ (forall f p, In (f, p) (flat_map (taken_up fs re) files) ->
                 exists l, In ((None, None, (f_width f, f_height f)), l) (flat_index idx)
                           /\ In (f_frame f, p) l)).
Proof.
  split; [|split; [|split; [|split]]]; try reflexivity.
  - intros fs files out re verbose w w' r H. unfold wrap_json_frames in H.
    apply mbind_inv in H. destruct H as [(w1 & idx & H1 & H)|(e & H1 & ->)].
    + right. exists w1, idx.
      apply mbind_inv in H. destruct H as [(w2 & [] & H2 & H)|(e & H2 & ->)].
      * apply for_each_sessions_written in H. destruct H as (k & Hk & E & Hr).
        exists k. split; [assumption|]. split; [assumption|]. split; [|assumption].
        apply keeps_sanity_check in H2.
        pose proof (keeps_group_files _ _ _ _ _ _ _ H1) as K1.
        rewrite E. congruence.
      * exists 0. simpl. rewrite app_nil_r.
        apply keeps_sanity_check in H2.
        pose proof (keeps_group_files _ _ _ _ _ _ _ H1) as K1.
        split; [assumption|]. split; [lia|]. split; [congruence|discriminate].
    + left. split; [eauto|]. now apply keeps_group_files in H1.
  - intros fs files re verbose w Hid Hcam Hex.
    destruct (group_files_grouped fs re verbose files w Hex)
      as (w' & idx & E & _ & Hwf & Hin).
    pose proof (group_files_full _ _ _ _ _ _ _ E) as Hfull.
    unfold full_index in Hfull. rewrite Forall_forall in Hfull.
    assert (Hkeys : forall s c q l, In ((s, c, q), l) (flat_index idx) ->
                                    s = None /\ c = None).
    { intros s c q l Hl. apply Hin in Hl. destruct Hl as [_ Hne].
      destruct (bucket_entries (s, c, q) (flat_map (taken_up fs re) files))
        as [|e l'] eqn:Eb; [congruence|].
      assert (He : In e (bucket_entries (s, c, q) (flat_map (taken_up fs re) files)))
        by (rewrite Eb; now left).
      apply bucket_entries_in in He. destruct He as (f & Hf & Hb & _).
      rewrite in_flat_map in Hf. destruct Hf as (p & _ & Hf).
      destruct (taken_up_no_id_camera _ _ _ _ _ Hid Hcam Hf) as [Es Ec].
      unfold fields_bucket in Hb. inversion Hb; subst. auto. }
    assert (Hcams : forall s cams c ress, In (s, cams) idx -> In (c, ress) cams ->
                                          s = None /\ c = None).
    { intros s cams c ress Hs Hc. destruct (Hfull _ Hs) as [_ Hall].
      rewrite Forall_forall in Hall. specialize (Hall _ Hc). simpl in Hall.
      destruct ress as [|[q l] ress]; [exfalso; now apply Hall|].
      apply (Hkeys s c q l). apply in_flat_index. exists cams, ((q, l) :: ress).
      simpl. auto. }
    assert (Hsess : forall s cams, In (s, cams) idx -> s = None).
    { intros s cams Hs. destruct (Hfull _ Hs) as [Hne _]. simpl in Hne.
      destruct cams as [|[c ress] cams]; [exfalso; now apply Hne|].
      apply (Hcams s _ c ress Hs). now left. }
    exists w', idx. split; [exact E|]. split; [|split].
    + rewrite <- (length_map fst). apply nodup_constant_length with (a := None).
      * apply Hwf.
      * intros s Hs. rewrite in_map_iff in Hs. destruct Hs as ([s' cams] & <- & Hs).
        simpl. eapply Hsess; eassumption.
    + intros s cams Hs. split; [eapply Hsess; eassumption|]. split.
      * rewrite <- (length_map fst). apply nodup_constant_length with (a := None).
        -- destruct Hwf as [_ Hall]. rewrite Forall_forall in Hall. apply (Hall _ Hs).
        -- intros c Hc. rewrite in_map_iff in Hc. destruct Hc as ([c' ress] & <- & Hc).
           simpl. eapply Hcams; eassumption.
      * intros c ress Hc. eapply Hcams; eassumption.
    + intros f p Hf.
      assert (Hb : fields_bucket f = (None, None, (f_width f, f_height f))).
      { rewrite in_flat_map in Hf. destruct Hf as (p0 & _ & Hf).
        destruct (taken_up_no_id_camera _ _ _ _ _ Hid Hcam Hf) as [Es Ec].
        unfold fields_bucket. now rewrite Es, Ec. }
      assert (He : In (f_frame f, p)
                      (bucket_entries (fields_bucket f) (flat_map (taken_up fs re) files))).
      { apply bucket_entries_in. exists f. auto. }
      rewrite <- Hb. eexists. split.
      * apply Hin. split; [reflexivity|]. intros Eq. now rewrite Eq in He.
      * now apply insertion_sort_in.
Qed.

Lemma session_file_names_and_implicit_bucket_witness :
  (map fst (written (fst (wrap_json_frames (fs_all JNull) two_frames None frame_only_re
                            false empty_world)))
   = [tx "session.openpose.json"])
  /\ exists w' idx,
      group_files (fs_all JNull) two_frames frame_only_re false empty_world = (w', Ok idx)
      /\ List.length idx <= 1
      /\ (forall s cams, In (s, cams) idx ->
            s = None /\ List.length cams <= 1
            /\ forall c ress, In (c, ress) cams -> c = None)
      /\ (forall f p, In (f, p) (flat_map (taken_up (fs_all JNull) frame_only_re) two_frames) ->
            exists l, In ((None, None, (f_width f, f_height f)), l) (flat_index idx)
                      /\ In (f_frame f, p) l).
Proof.
  split.
  - destruct (proj1 session_file_names_and_implicit_bucket (fs_all JNull) two_frames None
                frame_only_re false empty_world
                (fst (wrap_json_frames (fs_all JNull) two_frames None frame_only_re
                        false empty_world))
                (snd (wrap_json_frames (fs_all JNull) two_frames None frame_only_re
                        false empty_world))
                (surjective_pairing _))
      as [((wg & e & Hg) & _)|(wg & idx & k & Hg & _ & E & Hk)].
    + vm_compute in Hg. discriminate.
    + rewrite E. vm_compute in Hg. inversion Hg; subst.
      rewrite (Hk eq_refl). reflexivity.
  - apply (proj2 (proj2 (proj2 (proj2 session_file_names_and_implicit_bucket)))).
    + simpl. intros [H|[]]. discriminate.
    + simpl. intros [H|[]]. discriminate.
    + repeat constructor; intros _ m Hm; vm_compute in Hm; inversion Hm; subst;
        eexists; vm_compute; reflexivity.
Defined.

(** ** Duplicate frames *)

(** C1, on the code: two files with the same session, camera, resolution
    and frame are both put into the list of their bucket, no exception is
    raised, and the file of the session is written, its frame being the
    document of the file that sorts last. *)
Theorem duplicate_frame_is_not_detected :
  group_files fs_duplicate duplicate_files FILENAME_OPFILE_RE false empty_world
  = (empty_world,
     Ok [(Some (tx "A"),
          [(Some (tx "cam1"),
            [((Some 640%Z, Some 480%Z),
              [(Some 0%Z, tx "A_cam1_640x480_00_keypoints.json");
               (Some 0%Z, tx "A_cam1_640x480_0_keypoints.json")])])])])
  /\ wrap_json_frames fs_duplicate duplicate_files None FILENAME_OPFILE_RE false empty_world
     = (MkWorld [] []
          [(tx "A.openpose.json",
            slimindent_json
              [JObj [(KStr (tx "id"), JStr (tx "A")); (KStr (tx "camera"), JStr (tx "cam1"));
                     (KStr (tx "width"), JInt 640); (KStr (tx "height"), JInt 480);
                     (KStr (tx "frames"),
                      JObj [(KInt 0, JObj [(KStr (tx "version"), JInt 1)])])]])],
        Ok tt).
Proof.
  split; vm_compute; reflexivity.
Qed.

(** The loop of [group_files] never raises the error for duplicate frames:
    putting a tuple into its list always succeeds. *)
Lemma group_insert_never_raises st p f : exists st', group_insert st p f = Ok st'.
Proof. rewrite group_insert_eq. eauto. Qed.

(** ** The keypoints pattern *)

Lemma starts_with_app l s : starts_with l (l ++ s) = true.
Proof.
  induction l as [|a l IH]; simpl; [reflexivity|].
  now rewrite Ascii.eqb_refl, IH.
Qed.

Lemma starts_with_inv l : forall s,
  starts_with l s = true -> s = l ++ skipn (List.length l) s.
Proof.
  induction l as [|a l IH]; intros [|b s] H; simpl in *; try reflexivity; try discriminate.
  apply andb_true_iff in H. destruct H as [E H]. apply Ascii.eqb_eq in E. subst.
  f_equal. now apply IH.
Qed.

Lemma rmatch_lit {A : Type} (l : text) : forall i s c (k : nat -> text -> caps -> option A),
  rmatch (Lit_list l) i s c k
  = if starts_with l s then k (i + List.length l) (skipn (List.length l) s) c else None.
Proof.
  induction l as [|a l IH]; intros i s c k.
  - simpl. now rewrite Nat.add_0_r.
  - destruct l as [|b l].
    + simpl. destruct s as [|x s]; [reflexivity|].
      unfold is_lit. destruct (Ascii.eqb a x); simpl; [|reflexivity].
      now rewrite Nat.add_1_r.
    + change (Lit_list (a :: b :: l)) with (Cat (Chr (is_lit a)) (Lit_list (b :: l))).
      cbn [rmatch]. destruct s as [|x s]; [reflexivity|].
      unfold is_lit at 1. cbn [starts_with]. destruct (Ascii.eqb a x); simpl andb; cbv iota.
      * rewrite IH. cbn [List.length skipn starts_with].
        replace (S i + S (List.length l)) with (i + S (S (List.length l))) by lia.
        reflexivity.
      * reflexivity.
Qed.

Lemma star_lazy_chr {A : Type} (p : ascii -> bool) (k : nat -> text -> caps -> option A) :
  forall n s i c,
    List.length s < n ->
    star_loop (rmatch (Chr p)) false k n i s c
    = match k i s c with
      | Some x => Some x
      | None => lazy_scan p k i s c
      end.
Proof.
  induction n as [|n IH]; intros s i c Hn; [lia|].
  cbn [star_loop]. destruct (k i s c); [reflexivity|].
  cbn [rmatch]. destruct s as [|a s]; [reflexivity|]. cbn [lazy_scan].
  destruct (p a); [|reflexivity].
  assert (E : (i <? S i) = true) by (apply Nat.ltb_lt; lia). rewrite E.
  apply IH. simpl in Hn. lia.
Qed.

Lemma rmatch_plus_lazy {A : Type} (p : ascii -> bool) i s c
      (k : nat -> text -> caps -> option A) :
  rmatch (Plus false (Chr p)) i s c k = lazy_scan p k i s c.
Proof.
  unfold Plus. cbn [rmatch]. destruct s as [|a s]; [reflexivity|]. cbn [lazy_scan].
  destruct (p a); [|reflexivity].
  apply star_lazy_chr. lia.
Qed.

Lemma lazy_scan_inv {A : Type} p (k : nat -> text -> caps -> option A) c x :
  forall s i,
    lazy_scan p k i s c = Some x ->
    exists u s', s = u ++ s' /\ u <> [] /\ forallb p u = true
                 /\ k (i + List.length u) s' c = Some x
                 /\ forall u1 u2, u = u1 ++ u2 -> u1 <> [] -> u2 <> [] ->
                                  k (i + List.length u1) (u2 ++ s') c = None.
Proof.
  induction s as [|a s IH]; intros i H; simpl in H; [discriminate|].
  destruct (p a) eqn:Pa; [|discriminate].
  destruct (k (S i) s c) eqn:Ek.
  - inversion H; subst. exists [a], s. simpl. rewrite Pa, Nat.add_1_r.
    repeat split; try assumption; try discriminate.
    intros [|b [|b' u1]] [|b2 u2] E H1 H2; try congruence; discriminate.
  - apply IH in H. destruct H as (u & s' & -> & Hu & Hp & Hk & Hmin).
    exists (a :: u), s'. simpl. rewrite Pa, Hp.
    rewrite Nat.add_succ_r, <- Nat.add_succ_l.
    repeat split; try assumption; try discriminate.
    intros [|b u1] u2 E H1 H2; [congruence|]. simpl in E. inversion E; subst.
    destruct u1 as [|b' u1].
    + simpl. rewrite Nat.add_1_r. exact Ek.
    + simpl. rewrite Nat.add_succ_r, <- Nat.add_succ_l.
      apply (Hmin (b' :: u1) u2); [reflexivity|discriminate|assumption].
Qed.

Lemma lazy_scan_intro {A : Type} p (k : nat -> text -> caps -> option A) c x s' :
  forall u i,
    u <> [] -> forallb p u = true ->
    k (i + List.length u) s' c = Some x ->
    (forall u1 u2, u = u1 ++ u2 -> u1 <> [] -> u2 <> [] ->
                   k (i + List.length u1) (u2 ++ s') c = None) ->
    lazy_scan p k i (u ++ s') c = Some x.
Proof.
  induction u as [|a u IH]; intros i Hu Hp Hk Hmin; [congruence|].
  simpl in *. apply andb_true_iff in Hp. destruct Hp as [Pa Hp]. rewrite Pa.
  destruct u as [|b u].
  - simpl in *. rewrite Nat.add_1_r in Hk. now rewrite Hk.
  - pose proof (Hmin [a] (b :: u) eq_refl ltac:(discriminate) ltac:(discriminate)) as H0.
    simpl in H0. rewrite Nat.add_1_r in H0. simpl. rewrite H0.
    specialize (IH (S i)).
    rewrite Nat.add_succ_r, <- Nat.add_succ_l in Hk.
    apply IH; try assumption; try discriminate.
    intros u1 u2 E H1 H2.
    specialize (Hmin (a :: u1) u2). simpl in Hmin.
    rewrite Nat.add_succ_r, <- Nat.add_succ_l in Hmin.
    apply Hmin; [now rewrite E|discriminate|assumption].
Qed.

Lemma skipn_length_app {B : Type} (l r : list B) : skipn (List.length l) (l ++ r) = r.
Proof. induction l; simpl; auto. Qed.

Lemma firstn_length_app {B : Type} (l r : list B) : firstn (List.length l) (l ++ r) = l.
Proof. induction l; simpl; [reflexivity|]. now f_equal. Qed.

Lemma rmatch_hdr_some {A : Type} D i s2 c (k : nat -> text -> caps -> option A) :
  is_digit D = true ->
  rmatch hdr_re i (hdr_lit D ++ s2) c k = k (i + 17) s2 c.
Proof.
  intros HD. unfold hdr_re, hdr_lit. cbn [Seq rmatch].
  unfold Lit. rewrite rmatch_lit. rewrite <- app_assoc, starts_with_app, skipn_length_app.
  cbn [app tx list_ascii_of_string]. rewrite HD.
  rewrite rmatch_lit. cbn [starts_with]. rewrite Ascii.eqb_refl. cbn [andb skipn List.length].
  unfold is_lit. rewrite Ascii.eqb_refl.
  rewrite rmatch_lit. cbn. f_equal. lia.
Qed.

Lemma rmatch_hdr_inv {A : Type} i s c (k : nat -> text -> caps -> option A) x :
  rmatch hdr_re i s c k = Some x ->
  exists D s2, s = hdr_lit D ++ s2 /\ is_digit D = true /\ k (i + 17) s2 c = Some x.
Proof.
  unfold hdr_re. cbn [Seq rmatch]. unfold Lit. rewrite rmatch_lit.
  destruct (starts_with (tx "_keypoints_") s) eqn:E1; [|discriminate].
  apply starts_with_inv in E1. set (s1 := skipn (List.length (tx "_keypoints_")) s) in *.
  destruct s1 as [|D s1]; [discriminate|].
  destruct (is_digit D) eqn:HD; [|discriminate].
  rewrite rmatch_lit.
  destruct (starts_with (tx "d") s1) eqn:E2; [|discriminate].
  apply starts_with_inv in E2. set (s2 := skipn (List.length (tx "d")) s1) in *.
  destruct s2 as [|q s2]; [discriminate|].
  unfold is_lit at 1. destruct (Ascii.eqb_spec DQ q) as [<-|]; [|discriminate].
  rewrite rmatch_lit.
  destruct (starts_with (tx ": [") s2) eqn:E3; [|discriminate].
  apply starts_with_inv in E3. set (s3 := skipn (List.length (tx ": [")) s2) in *.
  intros Hk. exists D, s3. split; [|split; [assumption|]].
  - rewrite E1, E2, E3. unfold hdr_lit. now rewrite <- !app_assoc.
  - rewrite <- Hk. f_equal. simpl. lia.
Qed.

(** A run of word characters followed by the end of the first group has a
    character other than the double quote thirteen places after each of
    its positions but the last: the end of the first group cannot start
    earlier. *)
Lemma no_early_hdr u2 D t D' t' :
  u2 <> [] -> forallb kp_word u2 = true -> is_digit D = true ->
  u2 ++ hdr_lit D ++ t <> hdr_lit D' ++ t'.
Proof.
  intros Hne Hw HD E.
  assert (Hq : forall w : text, forallb (fun a => negb (Ascii.eqb a DQ)) w = true ->
                 forall r, nth_error (w ++ r) 13 = Some DQ -> 13 >= List.length w).
  { induction w as [|a w IH] using rev_ind; intros Hall r Hn; [simpl; lia|].
    rewrite forallb_app in Hall. apply andb_true_iff in Hall. destruct Hall as [Hall Ha].
    simpl in Ha. rewrite andb_true_r in Ha.
    destruct (Nat.eq_dec (List.length w) 13) as [E13|N13].
    - exfalso. rewrite <- app_assoc in Hn. rewrite <- E13 in Hn.
      rewrite nth_error_app2 in Hn by lia. rewrite Nat.sub_diag in Hn. simpl in Hn.
      inversion Hn; subst. now rewrite Ascii.eqb_refl in Ha.
    - rewrite <- app_assoc in Hn. specialize (IH Hall _ Hn).
      rewrite length_app. simpl. lia. }
  specialize (Hq (u2 ++ tx "_keypoints_" ++ [D] ++ tx "d")).
  assert (Hall : forallb (fun a => negb (Ascii.eqb a DQ))
                         (u2 ++ tx "_keypoints_" ++ [D] ++ tx "d") = true).
  { rewrite forallb_app. apply andb_true_iff. split.
    - rewrite forallb_forall in *. intros a Ha. specialize (Hw _ Ha).
      destruct (Ascii.eqb_spec a DQ) as [->|]; [discriminate|reflexivity].
    - simpl. rewrite andb_true_r.
      destruct (Ascii.eqb_spec D DQ) as [->|]; [discriminate|reflexivity]. }
  specialize (Hq Hall ([DQ] ++ tx ": [" ++ t)).
  assert (Hn : nth_error ((u2 ++ tx "_keypoints_" ++ [D] ++ tx "d") ++ [DQ] ++ tx ": [" ++ t) 13
               = Some DQ).
  { replace ((u2 ++ tx "_keypoints_" ++ [D] ++ tx "d") ++ [DQ] ++ tx ": [" ++ t)
      with (u2 ++ hdr_lit D ++ t)
      by (unfold hdr_lit; now rewrite <- !app_assoc).
    rewrite E. reflexivity. }
  specialize (Hq Hn). rewrite length_app in Hq. simpl in Hq.
  destruct u2; [congruence|]. simpl in Hq. lia.
Qed.

Lemma match_at_kp_unfold i s :
  match_at KEYPOINTS_KEY_VALUE_RE i s
  = match s with
    | [] => None
    | q :: s1 =>
        if is_lit DQ q then
          lazy_scan kp_word
            (fun i1 s1' c1 =>
               rmatch hdr_re i1 s1' c1
                 (fun i2 s2 c2 =>
                    rmatch (Plus false (Chr kp_class)) i2 s2
                      (set_cap "1" (firstn (i2 - i) s) c2)
                      (fun i3 s3 c3 =>
                         rmatch (Lit "]") i3 s3 (set_cap "2" (firstn (i3 - i2) s2) c3)
                           (fun i4 s4 c4 =>
                              Some (MkMatch i i4 s4
                                      (set_cap "3" (firstn (i4 - i3) s3) c4))))))
            (S i) s1 (init_caps KEYPOINTS_KEY_VALUE_RE)
        else None
    end.
Proof.
  unfold match_at. destruct s as [|q s1]; [reflexivity|].
  unfold KEYPOINTS_KEY_VALUE_RE at 1. cbn [Seq]. cbn [rmatch].
  destruct (is_lit DQ q); [|reflexivity].
  change (Cat (Chr (fun a : ascii => is_word a || is_lit "_" a))
              (Star false (Chr (fun a : ascii => is_word a || is_lit "_" a))))
    with (Plus false (Chr kp_word)).
  rewrite rmatch_plus_lazy. reflexivity.
Qed.

Lemma kp_span_cons a g :
  kp_span (a :: g) <-> kp_class a = true /\ forallb kp_class g = true /\ ~ In "]"%char g.
Proof.
  unfold kp_span. simpl. rewrite andb_true_iff. split.
  - intros (_ & [Ha Hg] & Hn). auto.
  - intros (Ha & Hg & Hn). repeat split; try assumption. discriminate.
Qed.

(** The pattern matches at a text exactly when the text starts with a
    double quote, word characters, the end of the first group, and a span
    of the class up to a closing bracket. *)
Lemma length_hdr_lit D : List.length (hdr_lit D) = 17.
Proof. reflexivity. Qed.

Lemma match_at_kp_inv i s m :
  match_at KEYPOINTS_KEY_VALUE_RE i s = Some m ->
  exists u D g rest,
    s = DQ :: u ++ hdr_lit D ++ g ++ "]"%char :: rest
    /\ u <> [] /\ forallb kp_word u = true /\ is_digit D = true /\ kp_span g
    /\ m = kp_match i u D g rest.
Proof.
  rewrite match_at_kp_unfold. destruct s as [|q s1]; [discriminate|].
  unfold is_lit at 1. destruct (Ascii.eqb_spec DQ q) as [<-|]; [|discriminate].
  intros H. apply lazy_scan_inv in H.
  destruct H as (u & s1' & -> & Hu & Hw & H & _).
  apply rmatch_hdr_inv in H. destruct H as (D & s2 & -> & HD & H).
  rewrite rmatch_plus_lazy in H. apply lazy_scan_inv in H.
  destruct H as (g & s3 & -> & Hg & Hc & H & Hmin).
  unfold Lit in H. rewrite rmatch_lit in H.
  destruct s3 as [|b rest]; [discriminate|].
  cbn [tx list_ascii_of_string starts_with] in H.
  destruct (Ascii.eqb_spec "]"%char b) as [<-|]; [|discriminate].
  cbn [andb skipn List.length] in H.
  exists u, D, g, rest.
  split; [reflexivity|]. split; [assumption|]. split; [assumption|].
  split; [assumption|]. split.
  - destruct g as [|a g]; [congruence|]. apply kp_span_cons.
    simpl in Hc. apply andb_true_iff in Hc. destruct Hc as [Ha Hc].
    split; [assumption|]. split; [assumption|].
    intros Hin. apply in_split in Hin. destruct Hin as (g1 & g2 & ->).
    specialize (Hmin (a :: g1) ("]"%char :: g2) eq_refl
                     ltac:(discriminate) ltac:(discriminate)).
    unfold Lit in Hmin. rewrite rmatch_lit in Hmin. simpl in Hmin. discriminate.
  - clear Hmin.
    replace (S i + List.length u + 17 + List.length g + 1
             - (S i + List.length u + 17 + List.length g)) with 1 in H by lia.
    replace (S i + List.length u + 17 + List.length g - (S i + List.length u + 17))
      with (List.length g) in H by lia.
    replace (S i + List.length u + 17 - i)
      with (List.length (DQ :: u ++ hdr_lit D)) in H
      by (cbn [List.length]; rewrite length_app, length_hdr_lit; lia).
    rewrite firstn_length_app in H.
    replace (DQ :: u ++ hdr_lit D ++ g ++ "]"%char :: rest)
      with ((DQ :: u ++ hdr_lit D) ++ g ++ "]"%char :: rest) in H
      by (simpl; now rewrite <- app_assoc).
    rewrite firstn_length_app in H.
    injection H as <-. unfold kp_match. f_equal. lia.
Qed.

Lemma kp_final i u D g rest :
  MkMatch i (S i + List.length u + 17 + List.length g + 1) rest
    (set_cap "3"
       (firstn (S i + List.length u + 17 + List.length g + 1
                - (S i + List.length u + 17 + List.length g)) ("]"%char :: rest))
       (set_cap "2"
          (firstn (S i + List.length u + 17 + List.length g - (S i + List.length u + 17))
                  (g ++ "]"%char :: rest))
          (set_cap "1"
             (firstn (S i + List.length u + 17 - i)
                     (DQ :: u ++ hdr_lit D ++ g ++ "]"%char :: rest))
             (init_caps KEYPOINTS_KEY_VALUE_RE))))
  = kp_match i u D g rest.
Proof.
  replace (S i + List.length u + 17 + List.length g + 1
           - (S i + List.length u + 17 + List.length g)) with 1 by lia.
  replace (S i + List.length u + 17 + List.length g - (S i + List.length u + 17))
    with (List.length g) by lia.
  replace (S i + List.length u + 17 - i)
    with (List.length (DQ :: u ++ hdr_lit D))
    by (cbn [List.length]; rewrite length_app, length_hdr_lit; lia).
  rewrite firstn_length_app.
  replace (DQ :: u ++ hdr_lit D ++ g ++ "]"%char :: rest)
    with ((DQ :: u ++ hdr_lit D) ++ g ++ "]"%char :: rest)
    by (simpl; now rewrite <- app_assoc).
  rewrite firstn_length_app. unfold kp_match. f_equal. lia.
Qed.

Lemma match_at_kp_intro i u D g rest :
  u <> [] -> forallb kp_word u = true -> is_digit D = true -> kp_span g ->
  match_at KEYPOINTS_KEY_VALUE_RE i (DQ :: u ++ hdr_lit D ++ g ++ "]"%char :: rest)
  = Some (kp_match i u D g rest).
Proof.
  intros Hu Hw HD Hg. rewrite match_at_kp_unfold.
  unfold is_lit at 1. rewrite Ascii.eqb_refl.
  apply lazy_scan_intro; try assumption.
  - rewrite rmatch_hdr_some by assumption. rewrite rmatch_plus_lazy.
    destruct g as [|a g]; [now destruct Hg|].
    apply kp_span_cons in Hg. destruct Hg as (Ha & Hc & Hn).
    apply lazy_scan_intro.
    + discriminate.
    + simpl. now rewrite Ha, Hc.
    + unfold Lit. rewrite rmatch_lit. cbn [tx list_ascii_of_string starts_with].
      rewrite Ascii.eqb_refl. cbn [andb skipn List.length]. f_equal.
      apply (kp_final i u D (a :: g) rest).
    + intros g1 g2 E H1 H2. unfold Lit. rewrite rmatch_lit.
      destruct g2 as [|b g2]; [congruence|].
      cbn [tx list_ascii_of_string starts_with app].
      destruct (Ascii.eqb_spec "]"%char b) as [<-|]; [|reflexivity].
      exfalso. apply Hn. destruct g1 as [|a1 g1]; [congruence|].
      simpl in E. inversion E; subst. apply in_or_app. right. now left.
  - intros u1 u2 E H1 H2.
    match goal with |- ?X = None => destruct X eqn:Ek; [|reflexivity] end.
    exfalso. apply rmatch_hdr_inv in Ek. destruct Ek as (D' & s2 & Eq & _).
    assert (Hw2 : forallb kp_word u2 = true).
    { rewrite E, forallb_app in Hw. now apply andb_true_iff in Hw. }
    eapply (no_early_hdr u2 D); eassumption.
Qed.

(** The offset of a match attempt only shows in the offsets of the match
    object. *)
Lemma match_at_kp_shift i j s :
  match_at KEYPOINTS_KEY_VALUE_RE j s
  = option_map (fun m => MkMatch j (m_end m - i + j) (m_rest m) (m_groups m))
               (match_at KEYPOINTS_KEY_VALUE_RE i s).
Proof.
  destruct (match_at KEYPOINTS_KEY_VALUE_RE i s) as [m|] eqn:Ei; simpl.
  - apply match_at_kp_inv in Ei.
    destruct Ei as (u & D & g & rest & -> & Hu & Hw & HD & Hg & ->).
    rewrite match_at_kp_intro by assumption. unfold kp_match. simpl. f_equal. f_equal. lia.
  - destruct (match_at KEYPOINTS_KEY_VALUE_RE j s) as [m|] eqn:Ej; [|reflexivity].
    apply match_at_kp_inv in Ej.
    destruct Ej as (u & D & g & rest & -> & Hu & Hw & HD & Hg & ->).
    rewrite match_at_kp_intro in Ei by assumption. discriminate.
Qed.

(** ** The substitution *)

Lemma deindent_kp_match i u D g rest :
  deindent_key_value (kp_match i u D g rest) = kp_header u D ++ deindented g ++ tx "]".
Proof. reflexivity. Qed.

Lemma sub_fuel_kp_indep : forall n1 n2 i1 i2 s,
  List.length s < n1 -> List.length s < n2 ->
  sub_fuel KEYPOINTS_KEY_VALUE_RE deindent_key_value n1 i1 s
  = sub_fuel KEYPOINTS_KEY_VALUE_RE deindent_key_value n2 i2 s.
Proof.
  induction n1 as [|n1 IH]; intros n2 i1 i2 s H1 H2; [lia|].
  destruct n2 as [|n2]; [lia|]. cbn [sub_fuel].
  rewrite (match_at_kp_shift i1 i2 s).
  destruct (match_at KEYPOINTS_KEY_VALUE_RE i1 s) as [m|] eqn:E; simpl.
  - apply match_at_kp_inv in E.
    destruct E as (u & D & g & rest & -> & Hu & Hw & HD & Hg & ->).
    cbn [kp_match m_end m_rest m_groups].
    assert (E1 : (i1 <? i1 + (1 + List.length u + 17 + List.length g + 1)) = true)
      by (apply Nat.ltb_lt; lia).
    assert (E2 : (i2 <? i1 + (1 + List.length u + 17 + List.length g + 1) - i1 + i2) = true)
      by (apply Nat.ltb_lt; lia).
    rewrite E1, E2. f_equal.
    apply IH; simpl in *; rewrite !length_app in *; simpl in *;
      rewrite !length_app in *; simpl in *; lia.
  - destruct s as [|a s]; [reflexivity|]. f_equal. apply IH; simpl in *; lia.
Qed.

Lemma kp_sub_nil : kp_sub [] = [].
Proof. reflexivity. Qed.

Lemma kp_header_app u D t : kp_header u D ++ t = DQ :: u ++ hdr_lit D ++ t.
Proof. unfold kp_header. simpl. now rewrite <- app_assoc. Qed.

Lemma kp_sub_match u D g rest :
  u <> [] -> forallb kp_word u = true -> is_digit D = true -> kp_span g ->
  kp_sub (kp_header u D ++ g ++ "]"%char :: rest)
  = kp_header u D ++ deindented g ++ "]"%char :: kp_sub rest.
Proof.
  intros Hu Hw HD Hg. rewrite kp_header_app.
  unfold kp_sub at 1, re_sub. cbn [sub_fuel].
  rewrite match_at_kp_intro by assumption.
  cbn [kp_match m_end m_rest]. cbn [Nat.ltb Nat.leb Nat.add].
  rewrite deindent_kp_match.
  rewrite <- !app_assoc. f_equal. f_equal. cbn [tx list_ascii_of_string app]. f_equal.
  apply sub_fuel_kp_indep; [|simpl; lia].
  simpl. rewrite !length_app. simpl. rewrite length_app. simpl. lia.
Qed.

Lemma kp_sub_nomatch a s :
  match_at KEYPOINTS_KEY_VALUE_RE 0 (a :: s) = None ->
  kp_sub (a :: s) = a :: kp_sub s.
Proof.
  intros H. unfold kp_sub at 1, re_sub. cbn [sub_fuel]. rewrite H. f_equal.
  apply sub_fuel_kp_indep; simpl; lia.
Qed.

(** ** A match does not run into the next key *)

Lemma elem_split {B : Type} (l1 l2 p q : list B) (c : B) :
  l1 ++ l2 = p ++ c :: q ->
  (exists q1, l1 = p ++ c :: q1 /\ q = q1 ++ l2)
  \/ (exists p2, p = l1 ++ p2 /\ l2 = p2 ++ c :: q).
Proof.
  revert p; induction l1 as [|a l1 IH]; intros p H; simpl in H.
  - right. exists p. auto.
  - destruct p as [|b p]; simpl in H; inversion H; subst.
    + left. exists l1. auto.
    + destruct (IH p H2) as [(q1 & -> & ->)|(p2 & -> & ->)].
      * left. exists q1. auto.
      * right. exists p2. auto.
Qed.

Lemma prefix_no_elem {B : Type} (w y q r : list B) (c : B) :
  ~ In c w -> w ++ y = q ++ c :: r -> exists q', q = w ++ q'.
Proof.
  revert q; induction w as [|a w IH]; intros q Hn H; simpl in *.
  - exists q. reflexivity.
  - destruct q as [|b q]; simpl in H; inversion H; subst.
    + exfalso. apply Hn. now left.
    + destruct (IH q) as [q' ->]; [tauto|assumption|]. exists q'. reflexivity.
Qed.

Lemma hdr_lit_split_quote D p q :
  is_digit D = true -> hdr_lit D = p ++ DQ :: q -> q = tx ": [".
Proof.
  intros HD H. unfold hdr_lit in H. cbn in H.
  repeat (destruct p as [|? p]; cbn in H;
          [ try discriminate;
            try (exfalso; inversion H; subst; discriminate);
            try (inversion H; reflexivity)
          | injection H as _ H ]).
  destruct p; discriminate.
Qed.

Lemma kp_word_not_quote a : kp_word a = true -> a <> DQ.
Proof. intros H ->. discriminate. Qed.

Lemma forallb_in (p : ascii -> bool) (l : text) a :
  forallb p l = true -> In a l -> p a = true.
Proof. intros H Hin. rewrite forallb_forall in H. auto. Qed.

(** A match that starts before a key of the form [u_keypoints_Dd] with
    an array value ends before the quote that opens the key. *)
Lemma match_ends_before_key pre1 u D t u' D' g' rest' :
  pre1 <> [] ->
  u <> [] -> forallb kp_word u = true ->
  forallb kp_word u' = true -> is_digit D' = true -> kp_span g' ->
  pre1 ++ DQ :: u ++ hdr_lit D ++ t = DQ :: u' ++ hdr_lit D' ++ g' ++ "]"%char :: rest' ->
  exists pre2, pre1 = DQ :: u' ++ hdr_lit D' ++ g' ++ "]"%char :: pre2
               /\ rest' = pre2 ++ DQ :: u ++ hdr_lit D ++ t.
Proof.
  intros Hpre Hu Hw Hw' HD' Hg' E.
  symmetry in E.
  change (DQ :: u' ++ hdr_lit D' ++ g' ++ "]"%char :: rest')
    with ((DQ :: u') ++ hdr_lit D' ++ g' ++ "]"%char :: rest') in E.
  apply elem_split in E. destruct E as [(q1 & E1 & _)|(p2 & -> & E)].
  { (* the quote of the key among the word characters *)
    exfalso. destruct pre1 as [|a pre1]; [congruence|].
    simpl in E1. inversion E1; subst.
    assert (kp_word DQ = true) by (eapply forallb_in; [eassumption|]; apply in_elt).
    discriminate. }
  apply elem_split in E. destruct E as [(q1 & E1 & E2)|(p3 & -> & E)].
  { (* the quote of the key is the quote of the first group *)
    exfalso. apply hdr_lit_split_quote in E1; [|assumption]. subst q1.
    destruct u as [|b u]; [congruence|]. simpl in E2. inversion E2; subst.
    simpl in Hw. discriminate. }
  apply elem_split in E. destruct E as [(q1 & E1 & E2)|(p4 & -> & E)].
  { (* the quote of the key in the span *)
    exfalso. destruct Hg' as (_ & Hc & Hn).
    assert (Hq1 : forallb kp_class q1 = true /\ ~ In "]"%char q1).
    { subst g'. rewrite forallb_app in Hc. apply andb_true_iff in Hc.
      destruct Hc as [_ Hc]. simpl in Hc. split; [exact Hc|].
      intros Hin. apply Hn. destruct p3 as [|b p3]; simpl; [assumption|].
      apply in_or_app. right. now right. }
    destruct Hq1 as [Hc1 Hn1].
    assert (E3 : (u ++ tx "_k") ++ (tx "eypoints_" ++ [D] ++ tx "d" ++ [DQ] ++ tx ": [" ++ t)
                 = q1 ++ "]"%char :: rest').
    { rewrite <- E2. unfold hdr_lit. rewrite <- !app_assoc. reflexivity. }
    apply prefix_no_elem in E3.
    - destruct E3 as [q' ->].
      assert (Hk : kp_class "k"%char = true).
      { eapply forallb_in; [exact Hc1|].
        apply in_or_app. left. apply in_or_app. right. simpl. auto. }
      discriminate.
    - intros Hin. apply in_app_or in Hin. simpl in Hin.
      destruct Hin as [Hin|[Hin|[Hin|[]]]]; try discriminate.
      assert (kp_word "]"%char = true) by apply (forallb_in kp_word u _ Hw Hin).
      discriminate. }
  destruct p4 as [|b p4]; simpl in E; inversion E; subst.
  exists p4. split; [|reflexivity].
  simpl. repeat rewrite <- app_assoc. reflexivity.
Qed.

Lemma kp_text_app u D g rest x :
  (DQ :: u ++ hdr_lit D ++ g ++ "]"%char :: rest) ++ x
  = DQ :: u ++ hdr_lit D ++ g ++ "]"%char :: (rest ++ x).
Proof. cbn [app]. now rewrite <- !app_assoc. Qed.

(** The substitution treats the text before such a key on its own. *)
Lemma kp_sub_before_key u D t :
  u <> [] -> forallb kp_word u = true ->
  forall pre, kp_sub (pre ++ DQ :: u ++ hdr_lit D ++ t)
              = kp_sub pre ++ kp_sub (DQ :: u ++ hdr_lit D ++ t).
Proof.
  intros Hu Hw pre.
  remember (List.length pre) as n eqn:Hn. revert pre Hn.
  induction n as [n IH] using lt_wf_ind. intros pre Hn.
  destruct pre as [|a pre]; [reflexivity|].
  destruct (match_at KEYPOINTS_KEY_VALUE_RE 0 ((a :: pre) ++ DQ :: u ++ hdr_lit D ++ t))
    as [m|] eqn:Em.
  - apply match_at_kp_inv in Em.
    destruct Em as (u' & D' & g' & rest' & E & Hu' & Hw' & HD' & Hg' & ->).
    apply match_ends_before_key in E; try assumption; [|discriminate].
    destruct E as (pre2 & Epre & ->).
    rewrite Epre.
    replace ((DQ :: u' ++ hdr_lit D' ++ g' ++ "]"%char :: pre2) ++ DQ :: u ++ hdr_lit D ++ t)
      with (kp_header u' D' ++ g' ++ "]"%char :: (pre2 ++ DQ :: u ++ hdr_lit D ++ t))
      by (now rewrite kp_header_app, kp_text_app).
    replace (DQ :: u' ++ hdr_lit D' ++ g' ++ "]"%char :: pre2)
      with (kp_header u' D' ++ g' ++ "]"%char :: pre2)
      by (now rewrite kp_header_app).
    rewrite !kp_sub_match by assumption.
    rewrite (IH (List.length pre2)); [|rewrite Hn, Epre; simpl; rewrite !length_app;
                                       simpl; rewrite length_app; simpl; lia|reflexivity].
    rewrite <- !app_assoc. simpl. rewrite <- !app_assoc. reflexivity.
  - assert (Em' : match_at KEYPOINTS_KEY_VALUE_RE 0 (a :: pre) = None).
    { destruct (match_at KEYPOINTS_KEY_VALUE_RE 0 (a :: pre)) as [m|] eqn:E; [|reflexivity].
      apply match_at_kp_inv in E.
      destruct E as (u' & D' & g' & rest' & E & Hu' & Hw' & HD' & Hg' & ->).
      rewrite E, kp_text_app in Em.
      rewrite match_at_kp_intro in Em by assumption. discriminate. }
    cbn [app] in Em. cbn [app]. rewrite (kp_sub_nomatch _ _ Em), (kp_sub_nomatch _ _ Em').
    simpl. f_equal. apply (IH (List.length pre)); [simpl in Hn; lia|reflexivity].
Qed.

(** ** De-indenting a list of numbers *)

Lemma lstrip_spaces sp r :
  forallb is_space sp = true -> lstrip (sp ++ r) = lstrip r.
Proof.
  induction sp as [|a sp IH]; simpl; [reflexivity|].
  intros H. apply andb_true_iff in H. destruct H as [Ha H]. rewrite Ha. auto.
Qed.

Lemma lstrip_nonspace a r : is_space a = false -> lstrip (a :: r) = a :: r.
Proof. intros H. simpl. now rewrite H. Qed.

Lemma lstrip_all_spaces sp : forallb is_space sp = true -> lstrip sp = [].
Proof.
  intros H. rewrite <- (app_nil_r sp). now rewrite lstrip_spaces.
Qed.

Lemma forallb_rev_eq (p : ascii -> bool) (l : text) : forallb p (rev l) = forallb p l.
Proof.
  induction l as [|a l IH]; simpl; [reflexivity|].
  rewrite forallb_app, IH. simpl. rewrite andb_true_r. apply andb_comm.
Qed.

Lemma rev_last_removelast {B : Type} (l : list B) (d : B) :
  l <> [] -> rev l = last l d :: rev (removelast l).
Proof.
  intros H. rewrite (app_removelast_last d H) at 1.
  rewrite rev_app_distr. reflexivity.
Qed.

(** A text that begins and ends with something else than white space is
    what [strip] leaves of it with white space around. *)
Lemma strip_ends sp1 sp2 J d :
  forallb is_space sp1 = true -> forallb is_space sp2 = true ->
  J <> [] -> is_space (hd d J) = false -> is_space (last J d) = false ->
  strip (sp1 ++ J ++ sp2) = J.
Proof.
  intros H1 H2 HJ Ha Hb. unfold strip, rstrip.
  rewrite lstrip_spaces by assumption.
  assert (E : lstrip (J ++ sp2) = J ++ sp2).
  { destruct J as [|a j]; [congruence|]. simpl in Ha. cbn [app].
    now apply lstrip_nonspace. }
  rewrite E, rev_app_distr.
  rewrite (lstrip_spaces (rev sp2) (rev J)) by (rewrite forallb_rev_eq; exact H2).
  rewrite (rev_last_removelast J d HJ).
  rewrite lstrip_nonspace by assumption.
  rewrite <- (rev_last_removelast J d HJ). apply rev_involutive.
Qed.

Lemma strip_spaces sp : forallb is_space sp = true -> strip sp = [].
Proof.
  intros H. unfold strip, rstrip. rewrite (lstrip_all_spaces sp) by assumption. reflexivity.
Qed.

Lemma num_char_props a :
  num_char a = true ->
  is_space a = false /\ a <> LF /\ a <> "]"%char /\ a <> DQ /\ kp_class a = true.
Proof.
  destruct a as [[] [] [] [] [] [] [] []]; vm_compute; intros H; try discriminate H;
    repeat split; discriminate.
Qed.

Lemma split_on_nosep sep x : ~ In sep x -> split_on sep x = [x].
Proof.
  induction x as [|a x IH]; simpl; [reflexivity|].
  intros H. destruct (Ascii.eqb_spec a sep) as [->|Hne]; [tauto|].
  rewrite IH by tauto. reflexivity.
Qed.

Lemma split_on_app sep x y :
  ~ In sep x -> split_on sep (x ++ sep :: y) = x :: split_on sep y.
Proof.
  induction x as [|a x IH]; simpl.
  - now rewrite Ascii.eqb_refl.
  - intros H. destruct (Ascii.eqb_spec a sep) as [->|Hne]; [tauto|].
    rewrite IH by tauto. reflexivity.
Qed.

Lemma spaces_are_space n : forallb is_space (repeat " "%char n) = true.
Proof. induction n; simpl; auto. Qed.

Lemma spaces_no_lf n : ~ In LF (repeat " "%char n).
Proof. intros H. apply repeat_spec in H. discriminate. Qed.

Lemma num_token_no a t : num_token t -> In a t -> num_char a = true.
Proof. intros [_ H] Hin. eapply forallb_in; eassumption. Qed.

Lemma num_token_ends t d :
  num_token t -> is_space (hd d t) = false /\ is_space (last t d) = false.
Proof.
  intros Ht. pose proof (proj1 Ht) as Hne. split.
  - destruct t as [|a t]; [congruence|]. simpl.
    apply (num_char_props a). apply (num_token_no a _ Ht). now left.
  - apply (num_char_props (last t d)). apply (num_token_no _ _ Ht).
    rewrite (app_removelast_last d Hne) at 2. apply in_or_app. right. now left.
Qed.

Lemma comma_lines_of_body n m : forall toks,
  toks <> [] -> Forall num_token toks ->
  map strip (split_on LF (repeat " "%char (2 * S n)
                          ++ join (item_separator (S n)) toks ++ newline_indent m))
  = comma_lines toks.
Proof.
  induction toks as [|t toks IH]; intros Hne Hall; [congruence|].
  inversion Hall as [|? ? Ht Hall']; subst.
  assert (Hnolf : ~ In LF t).
  { intros Hin. apply (num_token_no _ _ Ht) in Hin. now apply num_char_props in Hin. }
  destruct (num_token_ends t " "%char Ht) as [Hhd Hlast].
  destruct toks as [|t' toks].
  - cbn [join comma_lines]. unfold newline_indent. rewrite app_assoc.
    rewrite split_on_app.
    + rewrite split_on_nosep by apply spaces_no_lf. cbn [map]. f_equal.
      * rewrite <- (app_nil_r t) at 1.
        apply strip_ends with (d := " "%char);
          [apply spaces_are_space|reflexivity|apply Ht|assumption|assumption].
      * f_equal. apply strip_spaces, spaces_are_space.
    + intros Hin. apply in_app_or in Hin. destruct Hin as [Hin|Hin]; [|tauto].
      now apply spaces_no_lf in Hin.
  - change (join (item_separator (S n)) (t :: t' :: toks))
      with (t ++ item_separator (S n) ++ join (item_separator (S n)) (t' :: toks)).
    change (comma_lines (t :: t' :: toks)) with ((t ++ tx ",") :: comma_lines (t' :: toks)).
    unfold item_separator at 1. unfold newline_indent at 1.
    replace (repeat " "%char (2 * S n)
             ++ (t ++ (tx "," ++ LF :: repeat " "%char (2 * S n))
                   ++ join (item_separator (S n)) (t' :: toks))
             ++ newline_indent m)
      with ((repeat " "%char (2 * S n) ++ t ++ tx ",")
            ++ LF :: (repeat " "%char (2 * S n)
                      ++ join (item_separator (S n)) (t' :: toks) ++ newline_indent m))
      by (repeat rewrite <- app_assoc; cbn [tx list_ascii_of_string app];
          repeat rewrite <- app_assoc; reflexivity).
    rewrite split_on_app.
    + cbn [map]. rewrite IH by (try discriminate; assumption). f_equal.
      rewrite <- (app_nil_r (t ++ tx ",")) at 1.
      apply strip_ends with (d := " "%char).
      * apply spaces_are_space.
      * reflexivity.
      * destruct t; discriminate.
      * destruct t as [|a t]; [now destruct Ht|]. exact Hhd.
      * change (tx ",") with [","%char]. rewrite last_last. reflexivity.
    + intros Hin. apply in_app_or in Hin. destruct Hin as [Hin|Hin].
      * now apply spaces_no_lf in Hin.
      * apply in_app_or in Hin. destruct Hin as [Hin|[Hin|[]]]; [tauto|discriminate].
Qed.

Lemma join_comma_lines : forall toks,
  toks <> [] -> join (tx " ") (comma_lines toks) = join (tx ", ") toks ++ tx " ".
Proof.
  induction toks as [|t toks IH]; intros Hne; [congruence|].
  destruct toks as [|t' toks].
  - cbn [comma_lines join]. now rewrite app_nil_r.
  - change (comma_lines (t :: t' :: toks)) with ((t ++ tx ",") :: comma_lines (t' :: toks)).
    change (join (tx ", ") (t :: t' :: toks))
      with (t ++ tx ", " ++ join (tx ", ") (t' :: toks)).
    assert (E : join (tx " ") ((t ++ tx ",") :: comma_lines (t' :: toks))
                = (t ++ tx ",") ++ tx " " ++ join (tx " ") (comma_lines (t' :: toks))).
    { destruct toks; reflexivity. }
    rewrite E, IH by discriminate. rewrite <- !app_assoc. reflexivity.
Qed.

Lemma last_app_nonempty {B : Type} (l1 l2 : list B) d :
  l2 <> [] -> last (l1 ++ l2) d = last l2 d.
Proof.
  intros H. induction l1 as [|a l1 IH]; [reflexivity|].
  simpl. destruct (l1 ++ l2) eqn:E; [|exact IH].
  apply app_eq_nil in E. tauto.
Qed.

Lemma join_nonempty_ends sep d : forall toks,
  toks <> [] -> Forall num_token toks ->
  join sep toks <> []
  /\ hd d (join sep toks) = hd d (hd [] toks)
  /\ last (join sep toks) d = last (last toks []) d.
Proof.
  induction toks as [|t toks IH]; intros Hne Hall; [congruence|].
  inversion Hall as [|? ? Ht Hall']; subst.
  destruct t as [|a t]; [now destruct Ht|].
  destruct toks as [|t' toks].
  - cbn [join hd last]. repeat split. discriminate.
  - change (join sep ((a :: t) :: t' :: toks))
      with ((a :: t) ++ sep ++ join sep (t' :: toks)).
    destruct (IH ltac:(discriminate) Hall') as (Hj & _ & Hl).
    repeat split; [discriminate|].
    rewrite app_assoc, last_app_nonempty by assumption.
    rewrite Hl. reflexivity.
Qed.

(** The lines of a pretty-printed list of numbers collapse to the items
    separated by a comma and a space. *)
Lemma deindented_array level toks :
  toks <> [] -> Forall num_token toks ->
  deindented (array_body level toks) = join (tx ", ") toks.
Proof.
  intros Hne Hall. unfold deindented, array_body.
  unfold newline_indent at 1. cbn [app split_on]. rewrite Ascii.eqb_refl.
  cbn [map]. rewrite comma_lines_of_body by assumption.
  assert (Es : strip [] = []) by reflexivity. rewrite Es.
  assert (Ej : join (tx " ") ([] :: comma_lines toks)
               = tx " " ++ join (tx " ") (comma_lines toks)).
  { destruct toks as [|t [|t' toks]]; [congruence|reflexivity|reflexivity]. }
  rewrite Ej, join_comma_lines by assumption.
  destruct (join_nonempty_ends (tx ", ") " "%char toks Hne Hall) as (Hj & Hhd & Hlast).
  apply strip_ends with (d := " "%char); try reflexivity; try assumption.
  - rewrite Hhd. destruct toks as [|t toks]; [congruence|]. simpl.
    inversion Hall; subst. now apply num_token_ends.
  - rewrite Hlast. apply num_token_ends.
    assert (Hin : In (last toks []) toks).
    { rewrite (app_removelast_last [] Hne) at 2. apply in_or_app. right. now left. }
    rewrite Forall_forall in Hall. now apply Hall.
Qed.

(** ** Keys and numbers in the pretty-printed text *)

Lemma escape_plain_char a : plain_char a = true -> escape_char a = [a].
Proof.
  destruct a as [[] [] [] [] [] [] [] []]; vm_compute; intros H;
    try discriminate H; reflexivity.
Qed.

Lemma kp_word_plain a : kp_word a = true -> plain_char a = true.
Proof.
  destruct a as [[] [] [] [] [] [] [] []]; vm_compute; intros H;
    try discriminate H; reflexivity.
Qed.

Lemma digit_props a :
  is_digit a = true -> plain_char a = true /\ kp_word a = true /\ num_char a = true.
Proof.
  destruct a as [[] [] [] [] [] [] [] []]; vm_compute; intros H;
    try discriminate H; auto.
Qed.

Lemma escape_plain s : forallb plain_char s = true -> flat_map escape_char s = s.
Proof.
  induction s as [|a s IH]; simpl; [reflexivity|].
  intros H. apply andb_true_iff in H. destruct H as [Ha H].
  rewrite escape_plain_char by assumption. simpl. now rewrite IH.
Qed.

Lemma kp_key_plain u D :
  forallb kp_word u = true -> is_digit D = true -> forallb plain_char (kp_key u D) = true.
Proof.
  intros Hw HD. unfold kp_key. rewrite forallb_app. apply andb_true_iff. split.
  - rewrite forallb_forall in *. intros a Ha. apply kp_word_plain. auto.
  - simpl. destruct (digit_props D HD) as [-> _]. reflexivity.
Qed.

(** The key, the colon, the space and the opening bracket of its list
    are the first group of the pattern. *)
Lemma member_key_header u D t :
  forallb kp_word u = true -> is_digit D = true ->
  member_key (KStr (kp_key u D)) ++ "["%char :: t = DQ :: u ++ hdr_lit D ++ t.
Proof.
  intros Hw HD. unfold member_key, encode_string. cbn [key_text].
  rewrite escape_plain by now apply kp_key_plain.
  unfold kp_key, hdr_lit. cbn [app]. repeat rewrite <- app_assoc. reflexivity.
Qed.

Lemma string_of_uint_digits d :
  forallb num_char (tx (NilEmpty.string_of_uint d)) = true.
Proof. induction d; simpl; auto. Qed.

Lemma string_of_uint_nonnil d : d <> Decimal.Nil -> tx (NilEmpty.string_of_uint d) <> [].
Proof. destruct d; simpl; congruence. Qed.

Lemma str_of_Z_token z : num_token (str_of_Z z).
Proof.
  unfold str_of_Z, num_token. destruct z as [|p|p]; simpl.
  - split; [discriminate|reflexivity].
  - split; [apply string_of_uint_nonnil, DecimalPos.Unsigned.to_uint_nonnil
           |apply string_of_uint_digits].
  - split; [discriminate|]. apply string_of_uint_digits.
Qed.

Lemma finite_number_token v : finite_number v -> num_token (number_text v).
Proof.
  destruct v; simpl; try tauto. intros _. apply str_of_Z_token.
Qed.

Lemma finite_number_text level v : finite_number v -> dumps_at level v = number_text v.
Proof. destruct v; simpl; tauto. Qed.

Lemma dumps_numbers level nums :
  nums <> [] -> Forall finite_number nums ->
  dumps_at level (JArr nums)
  = "["%char :: array_body level (map number_text nums) ++ tx "]".
Proof.
  intros Hne Hall.
  assert (E : map (dumps_at (S level)) nums = map number_text nums).
  { apply map_ext_in. intros x Hx. rewrite Forall_forall in Hall.
    now apply finite_number_text, Hall. }
  destruct nums as [|v nums]; [congruence|].
  cbn [dumps_at]. rewrite E. unfold array_body. cbn [tx list_ascii_of_string app].
  repeat rewrite <- app_assoc. reflexivity.
Qed.

Lemma tokens_of_numbers nums :
  Forall finite_number nums -> Forall num_token (map number_text nums).
Proof.
  intros H. rewrite Forall_map. rewrite Forall_forall in *. intros v Hv.
  now apply finite_number_token, H.
Qed.

Lemma forallb_join sep (p : ascii -> bool) : forall toks,
  forallb p sep = true -> Forall (fun t => forallb p t = true) toks ->
  forallb p (join sep toks) = true.
Proof.
  induction toks as [|t toks IH]; intros Hs Hall; [reflexivity|].
  inversion Hall; subst. destruct toks as [|t' toks]; [assumption|].
  change (join sep (t :: t' :: toks)) with (t ++ sep ++ join sep (t' :: toks)).
  rewrite !forallb_app. rewrite IH by assumption. now rewrite H1, Hs.
Qed.

Lemma forallb_spaces (p : ascii -> bool) n :
  p " "%char = true -> forallb p (repeat " "%char n) = true.
Proof. intros H. induction n; simpl; [reflexivity|]. now rewrite H. Qed.

(** The body of a pretty-printed list of numbers is a span of the second
    group. *)
Lemma array_body_span level toks :
  Forall num_token toks -> kp_span (array_body level toks).
Proof.
  intros Hall. unfold array_body, newline_indent. cbn [app].
  apply kp_span_cons.
  set (q := fun a => kp_class a && negb (Ascii.eqb a "]"%char)).
  assert (H : forallb q (repeat " "%char (2 * S level)
                         ++ join (item_separator (S level)) toks
                         ++ LF :: repeat " "%char (2 * level)) = true).
  { rewrite !forallb_app. cbn [forallb].
    rewrite !forallb_spaces by reflexivity.
    rewrite forallb_join.
    - reflexivity.
    - unfold item_separator, newline_indent. cbn [tx list_ascii_of_string app forallb].
      rewrite forallb_spaces by reflexivity. reflexivity.
    - rewrite Forall_forall in *. intros t Ht. apply forallb_forall. intros a Ha.
      pose proof (num_token_no a t (Hall t Ht) Ha) as Hc.
      apply num_char_props in Hc. destruct Hc as (_ & _ & Hb & _ & Hk).
      unfold q. rewrite Hk. cbn [andb].
      destruct (Ascii.eqb_spec a "]"%char); [contradiction|reflexivity]. }
  split; [reflexivity|]. split.
  - rewrite forallb_forall in *. intros a Ha. specialize (H a Ha). unfold q in H.
    now apply andb_true_iff in H.
  - intros Hin. rewrite forallb_forall in H. specialize (H _ Hin). discriminate.
Qed.

Lemma match_at_kp_needs_quote i a s :
  a <> DQ -> match_at KEYPOINTS_KEY_VALUE_RE i (a :: s) = None.
Proof.
  intros H. rewrite match_at_kp_unfold. unfold is_lit.
  destruct (Ascii.eqb_spec DQ a); [congruence|reflexivity].
Qed.

Lemma kp_sub_skip w t : ~ In DQ w -> kp_sub (w ++ t) = w ++ kp_sub t.
Proof.
  induction w as [|a w IH]; intros H; [reflexivity|]. simpl in *.
  rewrite kp_sub_nomatch by (apply match_at_kp_needs_quote; tauto).
  rewrite IH by tauto. reflexivity.
Qed.

(** A list of numbers under a keypoints key comes out on one line, and
    the substitution goes on after it. *)
Lemma kp_sub_numbers pre post u D level nums :
  u <> [] -> forallb kp_word u = true -> is_digit D = true ->
  nums <> [] -> Forall finite_number nums ->
  kp_sub (pre ++ member_key (KStr (kp_key u D)) ++ dumps_at level (JArr nums) ++ post)
  = kp_sub pre ++ member_key (KStr (kp_key u D)) ++ flat_array nums ++ kp_sub post.
Proof.
  intros Hu Hw HD Hne Hall.
  rewrite dumps_numbers by assumption. cbn [app].
  rewrite member_key_header by assumption.
  rewrite (kp_sub_before_key u D _ Hu Hw pre).
  f_equal. rewrite <- kp_header_app.
  cbn [tx list_ascii_of_string app]. rewrite <- app_assoc. cbn [app].
  rewrite kp_sub_match; try assumption;
    [|apply array_body_span; now apply tokens_of_numbers].
  rewrite deindented_array;
    [|destruct nums; [congruence|discriminate]|now apply tokens_of_numbers].
  rewrite kp_header_app. rewrite <- (member_key_header u D _ Hw HD).
  unfold flat_array. cbn [tx list_ascii_of_string app].
  repeat rewrite <- app_assoc. reflexivity.
Qed.

(** ** The empty list *)

Lemma kp_header_unique u D X u' D' Y :
  u <> [] -> forallb kp_word u = true -> is_digit D = true ->
  u' <> [] -> forallb kp_word u' = true -> is_digit D' = true ->
  u ++ hdr_lit D ++ X = u' ++ hdr_lit D' ++ Y -> u = u' /\ D = D' /\ X = Y.
Proof.
  intros Hu Hw HD Hu' Hw' HD' E.
  assert (Hsame : forall Z1 Z2 d1 d2, hdr_lit d1 ++ Z1 = hdr_lit d2 ++ Z2 -> d1 = d2 /\ Z1 = Z2).
  { intros Z1 Z2 d1 d2 H. unfold hdr_lit in H. cbn in H. inversion H. auto. }
  apply app_eq_app in E. destruct E as (E0 & [[-> E]|[-> E]]).
  - destruct E0 as [|a E0].
    + rewrite app_nil_r. simpl in E. apply Hsame in E. destruct E as [-> ->]. auto.
    + exfalso. rewrite forallb_app in Hw. apply andb_true_iff in Hw.
      symmetry in E.
      exact (no_early_hdr (a :: E0) D X D' Y ltac:(discriminate) (proj2 Hw) HD E).
  - destruct E0 as [|a E0].
    + rewrite app_nil_r. simpl in E. apply Hsame in E. destruct E as [-> ->]. auto.
    + exfalso. rewrite forallb_app in Hw'. apply andb_true_iff in Hw'.
      symmetry in E.
      exact (no_early_hdr (a :: E0) D' Y D X ltac:(discriminate) (proj2 Hw') HD' E).
Qed.

Lemma lstrip_snoc l a : is_space a = false -> exists y, lstrip (l ++ [a]) = y ++ [a].
Proof.
  intros Ha. induction l as [|b l IH]; simpl.
  - rewrite Ha. exists []. reflexivity.
  - destruct (is_space b); [exact IH|]. exists (b :: l). reflexivity.
Qed.

Lemma strip_head a l : is_space a = false -> exists r, strip (a :: l) = a :: r.
Proof.
  intros Ha. unfold strip, rstrip. rewrite lstrip_nonspace by assumption.
  simpl rev. destruct (lstrip_snoc (rev l) a Ha) as [y ->].
  rewrite rev_app_distr. simpl. eauto.
Qed.

Lemma split_on_head sep a s :
  a <> sep -> exists p ps, split_on sep (a :: s) = (a :: p) :: ps.
Proof.
  intros H. simpl. destruct (Ascii.eqb_spec a sep); [contradiction|].
  destruct (split_on sep s); eauto.
Qed.

Lemma deindented_bracket g : exists r, deindented ("]"%char :: g) = "]"%char :: r.
Proof.
  unfold deindented.
  destruct (split_on_head LF "]"%char g ltac:(discriminate)) as (p & ps & ->).
  cbn [map]. destruct (strip_head "]"%char p eq_refl) as [r ->].
  assert (E : exists r', join (tx " ") (("]"%char :: r) :: map strip ps) = "]"%char :: r').
  { destruct (map strip ps); simpl; eauto. }
  destruct E as [r' ->]. now apply strip_head.
Qed.

Lemma kp_key_no_quote u D :
  forallb kp_word u = true -> is_digit D = true -> ~ In DQ (kp_key u D).
Proof.
  intros Hw HD Hin. pose proof (kp_key_plain u D Hw HD) as Hp.
  apply (forallb_in _ _ _ Hp) in Hin. discriminate.
Qed.

(** An empty list under a keypoints key stays as it is; what comes
    after it may be taken into a match. *)
Lemma kp_sub_empty_array pre post u D level :
  u <> [] -> forallb kp_word u = true -> is_digit D = true ->
  exists out,
    kp_sub (pre ++ member_key (KStr (kp_key u D)) ++ dumps_at level (JArr []) ++ post)
    = kp_sub pre ++ member_key (KStr (kp_key u D)) ++ flat_array [] ++ out.
Proof.
  intros Hu Hw HD. cbn [dumps_at tx list_ascii_of_string app].
  rewrite member_key_header by assumption.
  rewrite (kp_sub_before_key u D _ Hu Hw pre).
  assert (Hflat : forall out, member_key (KStr (kp_key u D)) ++ flat_array [] ++ out
                              = DQ :: u ++ hdr_lit D ++ "]"%char :: out).
  { intros out. rewrite <- member_key_header by assumption. reflexivity. }
  destruct (match_at KEYPOINTS_KEY_VALUE_RE 0 (DQ :: u ++ hdr_lit D ++ "]"%char :: post))
    as [m|] eqn:Em.
  - apply match_at_kp_inv in Em.
    destruct Em as (u' & D' & g' & rest' & E & Hu' & Hw' & HD' & Hg' & _).
    inversion E as [E']. apply kp_header_unique in E'; try assumption.
    destruct E' as (<- & <- & E').
    destruct g' as [|b g']; [now destruct Hg'|]. simpl in E'. inversion E'; subst.
    rewrite E. rewrite <- kp_header_app. rewrite kp_sub_match by assumption.
    destruct (deindented_bracket g') as [r ->].
    exists (r ++ "]"%char :: kp_sub rest'). f_equal.
    rewrite Hflat, kp_header_app. reflexivity.
  - exists (kp_sub post). f_equal. rewrite Hflat.
    rewrite kp_sub_nomatch by assumption. f_equal.
    replace (u ++ hdr_lit D ++ "]"%char :: post)
      with (kp_key u D ++ DQ :: tx ": []" ++ post)
      by (unfold kp_key, hdr_lit; repeat rewrite <- app_assoc; reflexivity).
    rewrite kp_sub_skip by now apply kp_key_no_quote.
    rewrite kp_sub_nomatch.
    + rewrite kp_sub_skip by (simpl; intuition discriminate).
      unfold kp_key, hdr_lit. repeat rewrite <- app_assoc. reflexivity.
    + destruct (match_at KEYPOINTS_KEY_VALUE_RE 0 (DQ :: tx ": []" ++ post)) as [m|] eqn:E;
        [|reflexivity].
      apply match_at_kp_inv in E.
      destruct E as (u' & D' & g' & rest' & E & Hu' & Hw' & _).
      destruct u' as [|b u']; [congruence|]. simpl in E. inversion E; subst.
      simpl in Hw'. discriminate.
Qed.

(** ** Members of a document in its text *)

Lemma join_split sep : forall (l1 l2 : list text) x,
  exists A B, join sep (l1 ++ x :: l2) = A ++ x ++ B.
Proof.
  induction l1 as [|y l1 IH]; intros l2 x.
  - destruct l2 as [|z l2].
    + exists [], []. simpl. now rewrite app_nil_r.
    + exists [], (sep ++ join sep (z :: l2)). reflexivity.
  - destruct (IH l2 x) as (A & B & E).
    exists (y ++ sep ++ A), B.
    assert (E' : join sep ((y :: l1) ++ x :: l2) = y ++ sep ++ join sep (l1 ++ x :: l2)).
    { simpl. destruct (l1 ++ x :: l2) eqn:El; [|reflexivity].
      apply app_eq_nil in El. destruct El; discriminate. }
    rewrite E', E. repeat rewrite <- app_assoc. reflexivity.
Qed.

Lemma dumps_member V k v :
  has_member V k v ->
  forall level, exists pre post level',
    dumps_at level V = pre ++ member_key k ++ dumps_at level' v ++ post.
Proof.
  induction 1 as [kvs k v Hin|kvs k' x k v Hin Hx IH|l x k v Hin Hx IH]; intros level.
  - apply in_split in Hin. destruct Hin as (l1 & l2 & ->).
    destruct (join_split (item_separator (S level))
                (map (fun kv => encode_string (key_text (fst kv)) ++ tx ": "
                                ++ dumps_at (S level) (snd kv)) l1)
                (map (fun kv => encode_string (key_text (fst kv)) ++ tx ": "
                                ++ dumps_at (S level) (snd kv)) l2)
                (encode_string (key_text k) ++ tx ": " ++ dumps_at (S level) v))
      as (A & B & E).
    exists (tx "{" ++ newline_indent (S level) ++ A),
           (B ++ newline_indent level ++ tx "}"), (S level).
    assert (Ed : dumps_at level (JObj (l1 ++ (k, v) :: l2))
                 = tx "{" ++ newline_indent (S level)
                   ++ join (item_separator (S level))
                        (map (fun kv => encode_string (key_text (fst kv)) ++ tx ": "
                                        ++ dumps_at (S level) (snd kv))
                             (l1 ++ (k, v) :: l2))
                   ++ newline_indent level ++ tx "}").
    { destruct l1; reflexivity. }
    rewrite Ed, map_app. cbn [map fst snd]. rewrite E.
    unfold member_key. repeat rewrite <- app_assoc. reflexivity.
  - destruct (IH (S level)) as (pre & post & level' & E).
    apply in_split in Hin. destruct Hin as (l1 & l2 & ->).
    destruct (join_split (item_separator (S level))
                (map (fun kv => encode_string (key_text (fst kv)) ++ tx ": "
                                ++ dumps_at (S level) (snd kv)) l1)
                (map (fun kv => encode_string (key_text (fst kv)) ++ tx ": "
                                ++ dumps_at (S level) (snd kv)) l2)
                (encode_string (key_text k') ++ tx ": " ++ dumps_at (S level) x))
      as (A & B & E').
    exists (tx "{" ++ newline_indent (S level) ++ A ++ encode_string (key_text k')
            ++ tx ": " ++ pre),
           (post ++ B ++ newline_indent level ++ tx "}"), level'.
    assert (Ed : dumps_at level (JObj (l1 ++ (k', x) :: l2))
                 = tx "{" ++ newline_indent (S level)
                   ++ join (item_separator (S level))
                        (map (fun kv => encode_string (key_text (fst kv)) ++ tx ": "
                                        ++ dumps_at (S level) (snd kv))
                             (l1 ++ (k', x) :: l2))
                   ++ newline_indent level ++ tx "}").
    { destruct l1; reflexivity. }
    rewrite Ed, map_app. cbn [map fst snd]. rewrite E', E.
    repeat rewrite <- app_assoc. reflexivity.
  - destruct (IH (S level)) as (pre & post & level' & E).
    apply in_split in Hin. destruct Hin as (l1 & l2 & ->).
    destruct (join_split (item_separator (S level))
                (map (dumps_at (S level)) l1) (map (dumps_at (S level)) l2)
                (dumps_at (S level) x))
      as (A & B & E').
    exists (tx "[" ++ newline_indent (S level) ++ A ++ pre),
           (post ++ B ++ newline_indent level ++ tx "]"), level'.
    assert (Ed : dumps_at level (JArr (l1 ++ x :: l2))
                 = tx "[" ++ newline_indent (S level)
                   ++ join (item_separator (S level))
                        (map (dumps_at (S level)) (l1 ++ x :: l2))
                   ++ newline_indent level ++ tx "]").
    { destruct l1; reflexivity. }
    rewrite Ed, map_app. cbn [map]. rewrite E', E.
    repeat rewrite <- app_assoc. reflexivity.
Qed.

(** ** Lists under keypoints keys *)

Lemma flat_array_no_newline nums :
  Forall finite_number nums -> ~ In LF (flat_array nums).
Proof.
  intros Hall Hin. unfold flat_array in Hin.
  assert (H : forallb (fun a => negb (Ascii.eqb a LF))
                      (tx "[" ++ join (tx ", ") (map number_text nums) ++ tx "]") = true).
  { rewrite !forallb_app. rewrite forallb_join; [reflexivity|reflexivity|].
    apply tokens_of_numbers in Hall. rewrite Forall_forall in *. intros t Ht.
    apply forallb_forall. intros a Ha.
    pose proof (num_token_no a t (Hall t Ht) Ha) as Hc.
    apply num_char_props in Hc. destruct Hc as (_ & Hlf & _).
    destruct (Ascii.eqb_spec a LF); [contradiction|reflexivity]. }
  apply (forallb_in _ _ _ H) in Hin. discriminate.
Qed.

Lemma kp_sub_list pre post u D level nums :
  u <> [] -> forallb kp_word u = true -> is_digit D = true ->
  Forall finite_number nums ->
  exists out,
    kp_sub (pre ++ member_key (KStr (kp_key u D)) ++ dumps_at level (JArr nums) ++ post)
    = kp_sub pre ++ member_key (KStr (kp_key u D)) ++ flat_array nums ++ out
    /\ (nums <> [] -> out = kp_sub post).
Proof.
  intros Hu Hw HD Hall. destruct nums as [|v nums].
  - destruct (kp_sub_empty_array pre post u D level Hu Hw HD) as [out E].
    exists out. split; [exact E|congruence].
  - exists (kp_sub post). split; [|reflexivity].
    apply kp_sub_numbers; try assumption. discriminate.
Qed.

Lemma slim_member recordings u D nums :
  u <> [] -> forallb kp_word u = true -> is_digit D = true ->
  Forall finite_number nums ->
  has_member (JArr recordings) (KStr (kp_key u D)) (JArr nums) ->
  exists pre post level out,
    json_dumps (JArr recordings)
    = pre ++ member_key (KStr (kp_key u D)) ++ dumps_at level (JArr nums) ++ post
    /\ slimindent_json recordings
       = kp_sub pre ++ member_key (KStr (kp_key u D)) ++ flat_array nums ++ out.
Proof.
  intros Hu Hw HD Hall Hm.
  destruct (dumps_member _ _ _ Hm 0) as (pre & post & level & E).
  destruct (kp_sub_list pre post u D level nums Hu Hw HD Hall) as (out & Eo & _).
  exists pre, post, level, out. split; [exact E|].
  unfold slimindent_json. fold (kp_sub (json_dumps (JArr recordings))).
  unfold json_dumps. rewrite E. exact Eo.
Qed.

(** C3, as the code has it: under a key made of letters, digits and
    underscores followed by [_keypoints_], one digit and [d], a list of
    finite numbers is written on one line, its items separated by a comma
    and a space, whatever its length and wherever it stands: the text
    before the key is rewritten on its own, and so is the text after a
    list that is not empty. *)
Theorem keypoints_list_on_one_line :
  forall u D nums,
    u <> [] -> forallb kp_word u = true -> is_digit D = true ->
    Forall finite_number nums ->
    (forall pre post level,
        exists out,
          kp_sub (pre ++ member_key (KStr (kp_key u D)) ++ dumps_at level (JArr nums) ++ post)
          = kp_sub pre ++ member_key (KStr (kp_key u D)) ++ flat_array nums ++ out
          /\ (nums <> [] -> out = kp_sub post))
    /\ (forall recordings,
           has_member (JArr recordings) (KStr (kp_key u D)) (JArr nums) ->
           exists pre post level out,
             json_dumps (JArr recordings)
             = pre ++ member_key (KStr (kp_key u D)) ++ dumps_at level (JArr nums) ++ post
             /\ slimindent_json recordings
                = kp_sub pre ++ member_key (KStr (kp_key u D)) ++ flat_array nums ++ out).
Proof.
  intros u D nums Hu Hw HD Hall. split.
  - intros pre post level. now apply kp_sub_list.
  - intros recordings Hm. now apply slim_member.
Qed.

Lemma keypoints_list_on_one_line_witness :
  exists pre post level out,
    json_dumps (JArr [one_list_doc "pose_keypoints_3d"
                        [JFloat (tx "1.5"); JInt (-2); JFloat (tx "1e-05")]])
    = pre ++ member_key (KStr (kp_key (tx "pose") "3"))
          ++ dumps_at level (JArr [JFloat (tx "1.5"); JInt (-2); JFloat (tx "1e-05")]) ++ post
    /\ slimindent_json [one_list_doc "pose_keypoints_3d"
                          [JFloat (tx "1.5"); JInt (-2); JFloat (tx "1e-05")]]
       = kp_sub pre ++ member_key (KStr (kp_key (tx "pose") "3"))
         ++ flat_array [JFloat (tx "1.5"); JInt (-2); JFloat (tx "1e-05")] ++ out.
Proof.
  apply (proj2 (keypoints_list_on_one_line (tx "pose") "3"
                  [JFloat (tx "1.5"); JInt (-2); JFloat (tx "1e-05")]
                  ltac:(discriminate) eq_refl eq_refl
                  ltac:(repeat constructor; discriminate))).
  apply member_in_array with (x := one_list_doc "pose_keypoints_3d"
                                     [JFloat (tx "1.5"); JInt (-2); JFloat (tx "1e-05")]).
  - now left.
  - apply member_here. now left.
Defined.

(** C3, as stated, fails for a digit group of two digits: the list under
    [pose_keypoints_10d] keeps its lines. *)
Lemma two_digit_key_counterexample :
  slimindent_json [one_list_doc "pose_keypoints_10d" [JInt 1; JInt 2]]
  = one_list_pre ++ member_key (KStr (tx "pose_keypoints_10d"))
    ++ dumps_at 2 (JArr [JInt 1; JInt 2]) ++ one_list_post
  /\ dumps_at 2 (JArr [JInt 1; JInt 2])
     = tx "[" ++ newline_indent 3 ++ tx "1," ++ newline_indent 3 ++ tx "2"
       ++ newline_indent 2 ++ tx "]"
  /\ In LF (dumps_at 2 (JArr [JInt 1; JInt 2]))
  /\ dumps_at 2 (JArr [JInt 1; JInt 2]) <> flat_array [JInt 1; JInt 2].
Proof.
  split; [vm_compute; reflexivity|]. split; [vm_compute; reflexivity|].
  split; [vm_compute; tauto|]. vm_compute. discriminate.
Qed.

(** C4, as the code has it: a list of finite numbers under a key made of
    letters, digits and underscores followed by [_keypoints_2d] is
    written without a line feed in it, whatever its length. *)
Theorem keypoints_2d_list_has_no_newline :
  forall u nums,
    u <> [] -> forallb kp_word u = true ->
    Forall finite_number nums ->
    forall recordings,
      has_member (JArr recordings) (KStr (u ++ tx "_keypoints_2d")) (JArr nums) ->
      exists pre post level arr out,
        json_dumps (JArr recordings)
        = pre ++ member_key (KStr (u ++ tx "_keypoints_2d"))
              ++ dumps_at level (JArr nums) ++ post
        /\ slimindent_json recordings
           = kp_sub pre ++ member_key (KStr (u ++ tx "_keypoints_2d")) ++ arr ++ out
        /\ arr = tx "[" ++ join (tx ", ") (map number_text nums) ++ tx "]"
        /\ ~ In LF arr.
Proof.
  intros u nums Hu Hw Hall recordings Hm.
  change (u ++ tx "_keypoints_2d") with (kp_key u "2") in *.
  destruct (slim_member recordings u "2" nums Hu Hw eq_refl Hall Hm)
    as (pre & post & level & out & E1 & E2).
  exists pre, post, level, (flat_array nums), out.
  split; [exact E1|]. split; [exact E2|]. split; [reflexivity|].
  now apply flat_array_no_newline.
Qed.

Lemma keypoints_2d_list_has_no_newline_witness :
  exists pre post level arr out,
    json_dumps (JArr [one_list_doc "hand_left_keypoints_2d" [JInt (-7); JFloat (tx "2.5e+16")]])
    = pre ++ member_key (KStr (tx "hand_left" ++ tx "_keypoints_2d"))
          ++ dumps_at level (JArr [JInt (-7); JFloat (tx "2.5e+16")]) ++ post
    /\ slimindent_json [one_list_doc "hand_left_keypoints_2d"
                          [JInt (-7); JFloat (tx "2.5e+16")]]
       = kp_sub pre ++ member_key (KStr (tx "hand_left" ++ tx "_keypoints_2d")) ++ arr ++ out
    /\ arr = tx "[" ++ join (tx ", ") (map number_text [JInt (-7); JFloat (tx "2.5e+16")])
             ++ tx "]"
    /\ ~ In LF arr.
Proof.
  apply (keypoints_2d_list_has_no_newline (tx "hand_left") [JInt (-7); JFloat (tx "2.5e+16")]
           ltac:(discriminate) eq_refl ltac:(repeat constructor; discriminate)).
  apply member_in_array with (x := one_list_doc "hand_left_keypoints_2d"
                                     [JInt (-7); JFloat (tx "2.5e+16")]).
  - now left.
  - apply member_here. now left.
Defined.

(** C4, as stated, fails for a key that ends in [_keypoints_2d] after
    something else than letters, digits and underscores: the list under
    [left-hand_keypoints_2d] keeps its line feeds. *)
Lemma hyphen_key_counterexample :
  ends_with (tx "_keypoints_2d") (tx "left-hand_keypoints_2d") = true
  /\ slimindent_json [one_list_doc "left-hand_keypoints_2d" [JInt 1; JFloat (tx "-2.5")]]
     = one_list_pre ++ member_key (KStr (tx "left-hand_keypoints_2d"))
       ++ dumps_at 2 (JArr [JInt 1; JFloat (tx "-2.5")]) ++ one_list_post
  /\ In LF (dumps_at 2 (JArr [JInt 1; JFloat (tx "-2.5")])).
Proof.
  split; [vm_compute; reflexivity|]. split; [vm_compute; reflexivity|].
  vm_compute. tauto.
Qed.

(** ** Text outside the keypoints lists *)

Lemma all_chars_check (p : ascii -> bool) :
  forallb p all_chars = true -> forall c, p c = true.
Proof.
  intros H c. rewrite forallb_forall in H. apply H.
  unfold all_chars. rewrite <- (ascii_nat_embedding c). apply in_map.
  apply in_seq. pose proof (nat_ascii_bounded c). lia.
Qed.















Lemma kp_name_ending k : kp_name k = true -> kp_ending (key_text k) = true.
Proof.
  destruct k as [s| |]; try discriminate. simpl. intros H.
  apply andb_true_iff in H. destruct H as [H _].
  now apply andb_true_iff in H.
Qed.





(** ** The whole document *)











Lemma join_cons sep x y (l : list text) :
  join sep (x :: y :: l) = x ++ sep ++ join sep (y :: l).
Proof. reflexivity. Qed.




(** ** The empty list under a keypoints key *)









(** ** The members of an object *)







(** ** Where a member stands in the text *)





















(** ** Reading back what the encoder writes *)



(** ** Numbers *)

















(** ** White space and the loops over items *)











(** ** The dictionary of an object *)






(** ** One value *)












(** ** The whole text *)


















(** * Further properties *)

(** ** The substitution on any text *)

(** One step of the scan: the end, a character copied, or a match
    rewritten. *)
Lemma kp_sub_cases s :
  s = []
  \/ (exists a s', s = a :: s' /\ kp_sub s = a :: kp_sub s')
  \/ (exists u D g rest,
         s = kp_header u D ++ g ++ "]"%char :: rest
         /\ kp_span g
         /\ kp_sub s = kp_header u D ++ deindented g ++ "]"%char :: kp_sub rest).
Proof.
  destruct s as [|a s]; [now left|right].
  destruct (match_at KEYPOINTS_KEY_VALUE_RE 0 (a :: s)) as [m|] eqn:E.
  - right. apply match_at_kp_inv in E.
    destruct E as (u & D & g & rest & Hs & Hu & Hw & HD & Hg & _).
    exists u, D, g, rest. rewrite Hs. rewrite <- kp_header_app.
    split; [reflexivity|]. split; [exact Hg|]. now apply kp_sub_match.
  - left. exists a, s. split; [reflexivity|]. now apply kp_sub_nomatch.
Qed.

Lemma kp_sub_induction (P : text -> Prop) :
  P [] ->
  (forall a s, P s -> kp_sub (a :: s) = a :: kp_sub s -> P (a :: s)) ->
  (forall u D g rest,
      kp_span g -> P rest ->
      kp_sub (kp_header u D ++ g ++ "]"%char :: rest)
      = kp_header u D ++ deindented g ++ "]"%char :: kp_sub rest ->
      P (kp_header u D ++ g ++ "]"%char :: rest)) ->
  forall s, P s.
Proof.
  intros H0 H1 H2 s.
  assert (K : forall n s, List.length s <= n -> P s).
  { induction n as [|n IH]; intros s' Hn.
    - destruct s'; [exact H0|simpl in Hn; lia].
    - destruct (kp_sub_cases s') as [->|[(a & t & -> & E)|(u & D & g & rest & -> & Hg & E)]].
      + exact H0.
      + apply H1; [|exact E]. apply IH. simpl in Hn. lia.
      + apply H2; [exact Hg| |exact E]. apply IH.
        rewrite !length_app in Hn. simpl in Hn. lia. }
  exact (K (List.length s) s (le_n _)).
Qed.

Lemma unblanked_app a b : unblanked (a ++ b) = unblanked a ++ unblanked b.
Proof. apply filter_app. Qed.

Lemma unblanked_cons a x :
  unblanked (a :: x) = (if negb (is_blank a) then [a] else []) ++ unblanked x.
Proof. unfold unblanked. cbn [filter]. now destruct (negb (is_blank a)). Qed.

Lemma space_in_class a : is_space a = true -> kp_class a = true -> is_blank a = true.
Proof.
  intros H1 H2.
  pose proof (all_chars_check
                (fun a => implb (is_space a && kp_class a) (is_blank a))
                ltac:(vm_compute; reflexivity) a) as K.
  cbv beta in K. now rewrite H1, H2 in K.
Qed.

Lemma unblanked_lstrip : forall x,
  forallb kp_class x = true -> unblanked (lstrip x) = unblanked x.
Proof.
  induction x as [|a x IH]; intros H; [reflexivity|].
  cbn [forallb] in H. apply andb_true_iff in H. destruct H as [Ha Hx].
  cbn [lstrip]. destruct (is_space a) eqn:E; [|reflexivity].
  rewrite (IH Hx). unfold unblanked. cbn [filter].
  now rewrite (space_in_class a E Ha).
Qed.

Lemma unblanked_rev x : unblanked (rev x) = rev (unblanked x).
Proof.
  induction x as [|a x IH]; [reflexivity|].
  cbn [rev]. rewrite unblanked_app, IH. unfold unblanked at 2 3. cbn [filter].
  destruct (negb (is_blank a)); cbn [rev app]; [reflexivity|now rewrite app_nil_r].
Qed.

Lemma forallb_lstrip (p : ascii -> bool) : forall x,
  forallb p x = true -> forallb p (lstrip x) = true.
Proof.
  induction x as [|a x IH]; intros H; [reflexivity|].
  cbn [lstrip]. destruct (is_space a); [|exact H].
  cbn [forallb] in H. apply andb_true_iff in H. now apply IH.
Qed.

Lemma unblanked_strip x :
  forallb kp_class x = true -> unblanked (strip x) = unblanked x.
Proof.
  intros H. unfold strip, rstrip.
  rewrite unblanked_rev, unblanked_lstrip, unblanked_rev, rev_involutive.
  - now apply unblanked_lstrip.
  - rewrite forallb_rev_eq. now apply forallb_lstrip.
Qed.

Lemma forallb_strip (p : ascii -> bool) x :
  forallb p x = true -> forallb p (strip x) = true.
Proof.
  intros H. unfold strip, rstrip. rewrite forallb_rev_eq.
  apply forallb_lstrip. rewrite forallb_rev_eq. now apply forallb_lstrip.
Qed.

Lemma unblanked_join_blank sep : forall ps,
  unblanked sep = [] -> unblanked (join sep ps) = flat_map unblanked ps.
Proof.
  intros ps Hs. induction ps as [|p ps IH]; [reflexivity|].
  destruct ps as [|q ps].
  - cbn [join flat_map]. now rewrite app_nil_r.
  - rewrite join_cons, !unblanked_app, Hs, IH. reflexivity.
Qed.

Lemma split_on_nonempty sep s : split_on sep s <> [].
Proof.
  destruct s as [|a s]; [discriminate|]. cbn [split_on].
  destruct (Ascii.eqb a sep); [discriminate|].
  destruct (split_on sep s); discriminate.
Qed.

Lemma unblanked_pieces : forall g, flat_map unblanked (split_on LF g) = unblanked g.
Proof.
  induction g as [|a g IH]; [reflexivity|].
  cbn [split_on]. destruct (Ascii.eqb a LF) eqn:E.
  - apply Ascii.eqb_eq in E. subst a. cbn [flat_map]. rewrite IH. reflexivity.
  - destruct (split_on LF g) as [|p ps] eqn:Es; [now apply split_on_nonempty in Es|].
    cbn [flat_map] in *. rewrite !unblanked_cons, <- IH. now rewrite app_assoc.
Qed.

Lemma forallb_pieces (p : ascii -> bool) : forall g,
  forallb p g = true -> Forall (fun x => forallb p x = true) (split_on LF g).
Proof.
  induction g as [|a g IH]; intros H; [now repeat constructor|].
  cbn [forallb] in H. apply andb_true_iff in H. destruct H as [Ha Hg].
  specialize (IH Hg). cbn [split_on]. destruct (Ascii.eqb a LF).
  - now constructor.
  - destruct (split_on LF g) as [|x xs]; [now repeat constructor; cbn; rewrite Ha|].
    inversion IH; subst. constructor; [|assumption]. cbn [forallb]. now rewrite Ha.
Qed.

Lemma unblanked_deindented g :
  forallb kp_class g = true -> unblanked (deindented g) = unblanked g.
Proof.
  intros H. unfold deindented.
  pose proof (forallb_pieces kp_class g H) as Hp.
  rewrite unblanked_strip.
  - rewrite unblanked_join_blank by reflexivity.
    rewrite <- unblanked_pieces. rewrite flat_map_concat_map, map_map.
    rewrite <- flat_map_concat_map.
    induction Hp as [|x xs Hx _ IH]; [reflexivity|].
    cbn [flat_map]. now rewrite IH, unblanked_strip.
  - apply forallb_join; [reflexivity|]. rewrite Forall_map.
    apply Forall_impl with (2 := Hp). intros x. apply forallb_strip.
Qed.

Lemma kp_span_class g : kp_span g -> forallb kp_class g = true.
Proof. intros (_ & H & _). exact H. Qed.

Lemma kp_sub_unblanked : forall s, unblanked (kp_sub s) = unblanked s.
Proof.
  induction s as [|a s IH E|u D g rest Hg IH E] using kp_sub_induction.
  - now rewrite kp_sub_nil.
  - rewrite E. unfold unblanked in *. cbn [filter]. now rewrite IH.
  - rewrite E. rewrite !unblanked_app.
    change ("]"%char :: kp_sub rest) with (["]"%char] ++ kp_sub rest).
    change ("]"%char :: rest) with (["]"%char] ++ rest).
    rewrite !unblanked_app, IH, unblanked_deindented by now apply kp_span_class.
    reflexivity.
Qed.

(** ** The length of the rewritten text *)

Lemma length_lstrip : forall x, List.length (lstrip x) <= List.length x.
Proof.
  induction x as [|a x IH]; [simpl; lia|].
  cbn [lstrip]. destruct (is_space a); simpl in *; lia.
Qed.

Lemma length_strip x : List.length (strip x) <= List.length x.
Proof.
  unfold strip, rstrip. rewrite length_rev.
  pose proof (length_lstrip (rev (lstrip x))) as H1.
  pose proof (length_lstrip x) as H2. rewrite length_rev in H1. lia.
Qed.

Lemma length_join_map sep (f : text -> text) : forall ps,
  (forall x, List.length (f x) <= List.length x) ->
  List.length (join sep (map f ps)) <= List.length (join sep ps).
Proof.
  intros ps Hf. induction ps as [|p ps IH]; [simpl; lia|].
  destruct ps as [|q ps].
  - cbn [map join]. apply Hf.
  - change (map f (p :: q :: ps)) with (f p :: f q :: map f ps).
    rewrite !join_cons, !length_app. specialize (Hf p).
    change (f q :: map f ps) with (map f (q :: ps)). lia.
Qed.

Lemma length_join_sep (sep sep' : text) : forall ps : list text,
  List.length sep = List.length sep' ->
  List.length (join sep ps) = List.length (join sep' ps).
Proof.
  intros ps Hs. induction ps as [|p ps IH]; [reflexivity|].
  destruct ps as [|q ps]; [reflexivity|].
  rewrite !join_cons, !length_app. lia.
Qed.

Lemma join_pieces : forall g, join [LF] (split_on LF g) = g.
Proof.
  induction g as [|a g IH]; [reflexivity|].
  cbn [split_on]. destruct (Ascii.eqb a LF) eqn:E.
  - apply Ascii.eqb_eq in E. subst a.
    destruct (split_on LF g) as [|p ps] eqn:Es; [now apply split_on_nonempty in Es|].
    rewrite join_cons. cbn [app]. now rewrite IH.
  - destruct (split_on LF g) as [|p ps] eqn:Es; [now apply split_on_nonempty in Es|].
    destruct ps as [|q ps].
    + cbn [join] in *. now rewrite IH.
    + rewrite join_cons in *. cbn [app] in *. now rewrite IH.
Qed.

Lemma length_deindented g : List.length (deindented g) <= List.length g.
Proof.
  unfold deindented.
  pose proof (length_strip (join (tx " ") (map strip (split_on LF g)))) as H1.
  pose proof (length_join_map (tx " ") strip (split_on LF g) length_strip) as H2.
  pose proof (length_join_sep (tx " ") [LF] (split_on LF g) eq_refl) as H3.
  rewrite join_pieces in H3. lia.
Qed.

Lemma kp_sub_length : forall s, List.length (kp_sub s) <= List.length s.
Proof.
  induction s as [|a s IH E|u D g rest Hg IH E] using kp_sub_induction.
  - rewrite kp_sub_nil. lia.
  - rewrite E. simpl. lia.
  - rewrite E. rewrite !length_app. pose proof (length_deindented g). simpl. lia.
Qed.

(** X1.  The substitution of [write_wrapper] changes nothing but spaces
    and line feeds: on every text, and so on the pretty print of every
    list of recordings, the characters other than spaces and line feeds
    are the same, in the same order, before and after. *)
Theorem rewrite_changes_only_blanks :
  (forall s, unblanked (re_sub KEYPOINTS_KEY_VALUE_RE deindent_key_value s) = unblanked s)
  /\ (forall recordings,
         unblanked (slimindent_json recordings) = unblanked (json_dumps (JArr recordings))).
Proof.
  split.
  - exact kp_sub_unblanked.
  - intros recordings. apply kp_sub_unblanked.
Qed.

(** X2.  The text that [write_wrapper] writes is never longer than the
    pretty print it starts from. *)
Theorem rewrite_never_longer :
  forall recordings,
    List.length (slimindent_json recordings) <= List.length (json_dumps (JArr recordings)).
Proof. intros recordings. apply kp_sub_length. Qed.

(** ** What the replacement function returns *)

Lemma pieces_no_lf : forall g,
  Forall (fun x => no_char LF x = true) (split_on LF g).
Proof.
  induction g as [|a g IH]; [now repeat constructor|].
  cbn [split_on]. destruct (Ascii.eqb a LF) eqn:E.
  - now constructor.
  - assert (Ha : negb (is_lit LF a) = true).
    { unfold is_lit. now rewrite Ascii.eqb_sym, E. }
    destruct (split_on LF g) as [|x xs].
    + repeat constructor. unfold no_char. cbn [forallb]. now rewrite Ha.
    + inversion IH; subst. constructor; [|assumption].
      unfold no_char in *. cbn [forallb]. now rewrite Ha.
Qed.

Lemma deindented_no_lf g : no_char LF (deindented g) = true.
Proof.
  unfold deindented, no_char. apply forallb_strip. apply forallb_join; [reflexivity|].
  rewrite Forall_map. apply Forall_impl with (2 := pieces_no_lf g).
  intros x. apply forallb_strip.
Qed.

Lemma lstrip_idem : forall x, lstrip (lstrip x) = lstrip x.
Proof.
  induction x as [|a x IH]; [reflexivity|].
  cbn [lstrip]. destruct (is_space a) eqn:E; [exact IH|].
  cbn [lstrip]. now rewrite E.
Qed.

Lemma lstrip_cases : forall x,
  lstrip x = [] \/ exists a r, lstrip x = a :: r /\ is_space a = false.
Proof.
  induction x as [|a x IH]; [now left|].
  cbn [lstrip]. destruct (is_space a) eqn:E; [exact IH|]. right. eauto.
Qed.

Lemma rstrip_idem x : rstrip (rstrip x) = rstrip x.
Proof. unfold rstrip. now rewrite rev_involutive, lstrip_idem. Qed.

Lemma rstrip_head a r : is_space a = false -> exists r', rstrip (a :: r) = a :: r'.
Proof.
  intros H. unfold rstrip. cbn [rev].
  destruct (lstrip_snoc (rev r) a H) as [y ->].
  rewrite rev_app_distr. cbn [rev app]. eauto.
Qed.

Lemma strip_idem x : strip (strip x) = strip x.
Proof.
  assert (E0 : strip x = rstrip (lstrip x)) by reflexivity. rewrite E0.
  destruct (lstrip_cases x) as [E|(a & r & E & Ha)]; rewrite E; [reflexivity|].
  destruct (rstrip_head a r Ha) as [r' E'].
  assert (E1 : strip (rstrip (a :: r)) = rstrip (rstrip (a :: r))).
  { rewrite E' at 1. unfold strip. rewrite lstrip_nonspace by assumption.
    now rewrite E'. }
  rewrite E1. apply rstrip_idem.
Qed.

(** X3.  For every match of the keypoints pattern, [deindent_key_value]
    returns the first group, the content of the list on one line and the
    closing bracket: the new content holds no line feed, has no white space
    at either end, and has the characters of the old content other than
    spaces and line feeds, in their order. *)
Theorem deindent_puts_content_on_one_line :
  forall i s m,
    match_at KEYPOINTS_KEY_VALUE_RE i s = Some m ->
    exists key content rest,
      s = key ++ content ++ "]"%char :: rest
      /\ group_text m "1" = Some key
      /\ group_text m "2" = Some content
      /\ group_text m "3" = Some (tx "]")
      /\ deindent_key_value m = key ++ deindented content ++ tx "]"
      /\ no_char LF (deindented content) = true
      /\ strip (deindented content) = deindented content
      /\ unblanked (deindented content) = unblanked content.
Proof.
  intros i s m H. apply match_at_kp_inv in H.
  destruct H as (u & D & g & rest & -> & Hu & Hw & HD & Hg & ->).
  exists (kp_header u D), g, rest.
  split; [now rewrite kp_header_app|].
  split; [reflexivity|]. split; [reflexivity|]. split; [reflexivity|].
  split; [apply deindent_kp_match|].
  split; [apply deindented_no_lf|].
  split; [apply strip_idem|].
  apply unblanked_deindented. now apply kp_span_class.
Qed.

Lemma deindent_puts_content_on_one_line_witness :
  exists key content rest,
    DQ :: tx "pose_keypoints_2d" ++ [DQ] ++ tx ": [" ++ [LF] ++ tx "  1," ++ [LF] ++ tx "  2"
       ++ [LF] ++ tx "]}"
    = key ++ content ++ "]"%char :: rest
    /\ deindented content = tx "1, 2".
Proof.
  destruct (deindent_puts_content_on_one_line 0
              (DQ :: tx "pose_keypoints_2d" ++ [DQ] ++ tx ": [" ++ [LF] ++ tx "  1," ++ [LF]
                  ++ tx "  2" ++ [LF] ++ tx "]}")
              (kp_match 0 (tx "pose") "2"%char ([LF] ++ tx "  1," ++ [LF] ++ tx "  2" ++ [LF])
                        (tx "}")))
    as (key & content & rest & E & _ & E2 & _).
  - vm_compute. reflexivity.
  - exists key, content, rest. split; [exact E|].
    vm_compute in E2. inversion E2; subst content. vm_compute. reflexivity.
Defined.

(** ** Computations do not read the world *)

Lemma runs_ret {A : Type} (a : A) : runs (ret a) [] [] [] (Ok a).
Proof. intros [p wn wr]. unfold ret. simpl. now rewrite !app_nil_r. Qed.

Lemma runs_raise {A : Type} e : runs (@raise A e) [] [] [] (Raise e).
Proof. intros [p wn wr]. unfold raise. simpl. now rewrite !app_nil_r. Qed.

Lemma runs_lift {A : Type} (x : result A) : runs (lift x) [] [] [] x.
Proof. intros [p wn wr]. unfold lift. simpl. now rewrite !app_nil_r. Qed.

Lemma runs_print line : runs (print line) [line] [] [] (Ok tt).
Proof. intros [p wn wr]. unfold print. simpl. now rewrite !app_nil_r. Qed.

Lemma runs_warn msg : runs (warn msg) [] [msg] [] (Ok tt).
Proof. intros [p wn wr]. unfold warn. simpl. now rewrite !app_nil_r. Qed.

Lemma runs_write_file name content : runs (write_file name content) [] [] [(name, content)] (Ok tt).
Proof. intros [p wn wr]. unfold write_file. simpl. now rewrite !app_nil_r. Qed.

Lemma runs_bind_ok {A B : Type} (m : M A) (f : A -> M B) dp dw df a dp' dw' df' r :
  runs m dp dw df (Ok a) -> runs (f a) dp' dw' df' r ->
  runs (mbind m f) (dp ++ dp') (dw ++ dw') (df ++ df') r.
Proof.
  intros Hm Hf w. unfold mbind. rewrite Hm, Hf. simpl. now rewrite !app_assoc.
Qed.

Lemma runs_bind_raise {A B : Type} (m : M A) (f : A -> M B) dp dw df e :
  runs m dp dw df (Raise e) -> runs (mbind m f) dp dw df (Raise e).
Proof. intros Hm w. unfold mbind. now rewrite Hm. Qed.

Lemma uniform_ret {A : Type} (a : A) : uniform (ret a).
Proof. repeat eexists. apply runs_ret. Qed.

Lemma uniform_raise {A : Type} e : uniform (@raise A e).
Proof. repeat eexists. apply runs_raise. Qed.

Lemma uniform_lift {A : Type} (x : result A) : uniform (lift x).
Proof. repeat eexists. apply runs_lift. Qed.

Lemma uniform_print line : uniform (print line).
Proof. repeat eexists. apply runs_print. Qed.

Lemma uniform_warn msg : uniform (warn msg).
Proof. repeat eexists. apply runs_warn. Qed.

Lemma uniform_write_file name content : uniform (write_file name content).
Proof. repeat eexists. apply runs_write_file. Qed.

Lemma uniform_bind {A B : Type} (m : M A) (f : A -> M B) :
  uniform m -> (forall a, uniform (f a)) -> uniform (mbind m f).
Proof.
  intros (dp & dw & df & [a|e] & Hm) Hf.
  - destruct (Hf a) as (dp' & dw' & df' & r & Ha).
    repeat eexists. eapply runs_bind_ok; eassumption.
  - repeat eexists. eapply runs_bind_raise; eassumption.
Qed.

Lemma uniform_when b m : uniform m -> uniform (when b m).
Proof. intros H. destruct b; [exact H|apply uniform_ret]. Qed.

Lemma uniform_for_each {A : Type} (l : list A) body :
  (forall a, uniform (body a)) -> uniform (for_each l body).
Proof.
  intros H. induction l as [|a l IH]; simpl; [apply uniform_ret|].
  apply uniform_bind; auto.
Qed.

Lemma uniform_fold_m {A S : Type} (body : S -> A -> M S) l :
  (forall st a, uniform (body st a)) -> forall st, uniform (fold_m body st l).
Proof.
  intros H. induction l as [|a l IH]; intros st; simpl; [apply uniform_ret|].
  apply uniform_bind; auto.
Qed.

Lemma uniform_group_step fs re verbose st p : uniform (group_step fs re verbose st p).
Proof.
  unfold group_step. destruct (isfile fs p); [|apply uniform_ret].
  destruct (re_search re p).
  - apply uniform_bind; [apply uniform_lift|intros; apply uniform_lift].
  - apply uniform_bind; [apply uniform_when, uniform_print|intros; apply uniform_ret].
Qed.

Lemma uniform_sanity_check idx : uniform (sanity_check_groups idx).
Proof.
  unfold sanity_check_groups. apply uniform_for_each. intros sc.
  apply uniform_for_each. intros cr.
  destruct (1 <? List.length (snd cr)); [apply uniform_warn|apply uniform_ret].
Qed.

Lemma uniform_load_recording fs tuples sid cam wd ht verbose :
  uniform (load_recording fs tuples sid cam wd ht verbose).
Proof.
  unfold load_recording. apply uniform_bind; [apply uniform_when, uniform_print|].
  intros _. apply uniform_bind; [apply uniform_lift|]. intros sorted.
  apply uniform_bind; [|intros; apply uniform_ret].
  apply uniform_fold_m. intros st e.
  destruct (load_json fs (snd e)); [apply uniform_ret|apply uniform_raise].
Qed.

Lemma uniform_write_wrapper name recordings verbose :
  uniform (write_wrapper name recordings verbose).
Proof.
  unfold write_wrapper. apply uniform_bind; [apply uniform_when, uniform_print|].
  intros _. apply uniform_write_file.
Qed.

Lemma uniform_wrap_session fs out verbose sc : uniform (wrap_session fs out verbose sc).
Proof.
  unfold wrap_session. apply uniform_bind.
  { apply uniform_when, uniform_bind; [apply uniform_lift|intros; apply uniform_print]. }
  intros _. apply uniform_bind; [apply uniform_lift|]. intros cameras.
  apply uniform_bind; [|intros; apply uniform_write_wrapper].
  apply uniform_fold_m. intros recs camera. apply uniform_fold_m. intros recs' rl.
  apply uniform_bind; [apply uniform_load_recording|intros; apply uniform_ret].
Qed.

(** What follows the loop of [group_files] in an invocation. *)
Lemma wrap_json_frames_loop fs files out re verbose w :
  wrap_json_frames fs files out re verbose w
  = mbind (fold_m (group_step fs re verbose) init_gstate files)
      (fun st => mbind (mbind (lift (sort_lists (g_store st) (g_lists st)))
                          (fun store => ret (deref_index store (g_index st))))
                   (fun idx => mbind (sanity_check_groups idx)
                                 (fun _ => for_each idx (wrap_session fs out verbose)))) w.
Proof.
  unfold wrap_json_frames, group_files, mbind.
  destruct (fold_m (group_step fs re verbose) init_gstate files w) as [w1 [st|e]];
    reflexivity.
Qed.

Lemma uniform_after_loop fs out verbose st :
  uniform (mbind (mbind (lift (sort_lists (g_store st) (g_lists st)))
                    (fun store => ret (deref_index store (g_index st))))
             (fun idx => mbind (sanity_check_groups idx)
                           (fun _ => for_each idx (wrap_session fs out verbose)))).
Proof.
  apply uniform_bind.
  - apply uniform_bind; [apply uniform_lift|intros; apply uniform_ret].
  - intros idx. apply uniform_bind; [apply uniform_sanity_check|].
    intros _. apply uniform_for_each. intros sc. apply uniform_wrap_session.
Qed.

Lemma uniform_wrap_json_frames_from fs out re verbose files st :
  uniform (mbind (fold_m (group_step fs re verbose) st files)
      (fun st => mbind (mbind (lift (sort_lists (g_store st) (g_lists st)))
                          (fun store => ret (deref_index store (g_index st))))
                   (fun idx => mbind (sanity_check_groups idx)
                                 (fun _ => for_each idx (wrap_session fs out verbose))))).
Proof.
  apply uniform_bind.
  - apply uniform_fold_m. intros st' p. apply uniform_group_step.
  - intros st'. apply uniform_after_loop.
Qed.

Lemma mbind_fold_app {A S B : Type} (body : S -> A -> M S) (K : S -> M B) l1 l2 st w :
  mbind (fold_m body st (l1 ++ l2)) K w
  = match fold_m body st l1 w with
    | (w1, Ok st1) => mbind (fold_m body st1 l2) K w1
    | (w1, Raise e) => (w1, Raise e)
    end.
Proof.
  unfold mbind. rewrite fold_m_app.
  destruct (fold_m body st l1 w) as [w1 [st1|e]]; reflexivity.
Qed.

Lemma mbind_fold_cons {A S B : Type} (body : S -> A -> M S) (K : S -> M B) a l st w :
  mbind (fold_m body st (a :: l)) K w
  = match body st a w with
    | (w1, Ok st1) => mbind (fold_m body st1 l) K w1
    | (w1, Raise e) => (w1, Raise e)
    end.
Proof.
  unfold mbind. cbn [fold_m]. unfold mbind.
  destruct (body st a w) as [w1 [st1|e]]; reflexivity.
Qed.

(** ** Files that do not match the pattern *)

(** X4.  A regular file whose name the pattern does not match is passed
    over: the invocation with it ends as the invocation without it, with
    the same files written and the same warnings.  In verbose mode the
    loop prints one line for it, which is the only difference; otherwise
    there is none. *)
Theorem unmatched_file_is_ignored :
  forall fs re verbose out l1 p l2 w,
    isfile fs p = true ->
    re_search re p = None ->
    let line := tx "Ignored file not matching filename pattern: " ++ p in
    let with_p := wrap_json_frames fs (l1 ++ p :: l2) out re verbose w in
    let without := wrap_json_frames fs (l1 ++ l2) out re verbose w in
    (forall st w0,
        group_step fs re verbose st p w0
        = (if verbose then MkWorld (printed w0 ++ [line]) (warned w0) (written w0) else w0,
           Ok st))
    /\ snd with_p = snd without
    /\ written (fst with_p) = written (fst without)
    /\ warned (fst with_p) = warned (fst without)
    /\ (verbose = false -> with_p = without)
    /\ exists before shown after,
        printed (fst without) = before ++ after
        /\ printed (fst with_p) = before ++ shown ++ after
        /\ (shown = [] \/ (verbose = true /\ shown = [line])).
Proof.
  intros fs re verbose out l1 p l2 w Hfile Hre line with_p without.
  assert (Hstep : forall st w0,
    group_step fs re verbose st p w0
    = (if verbose then MkWorld (printed w0 ++ [line]) (warned w0) (written w0) else w0,
       Ok st)).
  { intros st w0. unfold group_step. rewrite Hfile, Hre.
    unfold mbind, when, print, ret. now destruct verbose. }
  split; [exact Hstep|].
  subst with_p without. rewrite !wrap_json_frames_loop, !mbind_fold_app.
  destruct (fold_m (group_step fs re verbose) init_gstate l1 w) as [w1 [st1|e]].
  2:{ simpl. repeat split; try reflexivity.
      exists (printed w1), [], []. simpl. rewrite app_nil_r. auto. }
  rewrite mbind_fold_cons, Hstep.
  destruct (uniform_wrap_json_frames_from fs out re verbose l2 st1)
    as (dp & dw & df & r & Hr).
  rewrite !Hr. cbn [fst snd printed warned written].
  destruct verbose; cbn [printed warned written].
  - repeat split; try reflexivity; [discriminate|].
    exists (printed w1), [line], dp. rewrite <- app_assoc. auto.
  - repeat split; try reflexivity.
    exists (printed w1), [], dp. auto.
Qed.

Lemma unmatched_file_is_ignored_witness :
  snd (wrap_json_frames (fs_all JNull)
         ([tx "A_c_1x1_0_keypoints.json"] ++ tx "notes.txt" :: [tx "A_c_1x1_1_keypoints.json"])
         None FILENAME_OPFILE_RE true empty_world)
  = snd (wrap_json_frames (fs_all JNull)
           ([tx "A_c_1x1_0_keypoints.json"] ++ [tx "A_c_1x1_1_keypoints.json"])
           None FILENAME_OPFILE_RE true empty_world).
Proof.
  apply (unmatched_file_is_ignored (fs_all JNull) FILENAME_OPFILE_RE true None
           [tx "A_c_1x1_0_keypoints.json"] (tx "notes.txt") [tx "A_c_1x1_1_keypoints.json"]
           empty_world).
  - reflexivity.
  - vm_compute. reflexivity.
Defined.

(** ** Errors of the grouping *)

Lemma group_step_raise fs re verbose st p w w' e :
  group_step fs re verbose st p w = (w', Raise e) ->
  isfile fs p = true
  /\ exists m, re_search re p = Some m /\ extract_regex_group_fields m = Raise e.
Proof.
  unfold group_step. destruct (isfile fs p); [|discriminate].
  destruct (re_search re p) as [m|].
  - unfold mbind, lift. destruct (extract_regex_group_fields m) as [f|e'] eqn:E.
    + rewrite group_insert_eq. discriminate.
    + intros H; inversion H; subst. eauto.
  - unfold mbind, when, print, ret. destruct verbose; discriminate.
Qed.

Lemma group_step_ok fs re verbose st p w w' st' :
  group_step fs re verbose st p w = (w', Ok st') -> extractable fs re p.
Proof.
  unfold group_step, extractable. intros H Hf m Hm. rewrite Hf, Hm in H.
  unfold mbind, lift in H.
  destruct (extract_regex_group_fields m) as [f|e]; [eauto|discriminate].
Qed.

Lemma group_loop_raise fs re verbose : forall l st w w' e,
  fold_m (group_step fs re verbose) st l w = (w', Raise e) ->
  exists p m, In p l /\ isfile fs p = true /\ re_search re p = Some m
              /\ extract_regex_group_fields m = Raise e.
Proof.
  induction l as [|p l IH]; intros st w w' e H; simpl in H; [discriminate|].
  apply mbind_inv in H. destruct H as [(w1 & st1 & _ & H)|(e' & H & E)].
  - destruct (IH _ _ _ _ H) as (q & m & Hq & Hrest). exists q, m. split; [now right|exact Hrest].
  - inversion E; subst e'. apply group_step_raise in H. destruct H as (Hf & m & Hm & He).
    exists p, m. split; [now left|auto].
Qed.

Lemma group_loop_ok fs re verbose : forall l st w w' st',
  fold_m (group_step fs re verbose) st l w = (w', Ok st') ->
  Forall (extractable fs re) l.
Proof.
  induction l as [|p l IH]; intros st w w' st' H; simpl in H; [constructor|].
  apply mbind_inv in H. destruct H as [(w1 & st1 & H1 & H)|(e' & _ & E)]; [|discriminate].
  constructor; [eapply group_step_ok; eassumption|eapply IH; eassumption].
Qed.

Lemma group_files_ok fs files re verbose w w' idx :
  group_files fs files re verbose w = (w', Ok idx) -> Forall (extractable fs re) files.
Proof.
  unfold group_files. intros H.
  apply mbind_inv in H. destruct H as [(w1 & st & H1 & _)|(e & _ & ?)]; [|discriminate].
  eapply group_loop_ok; eassumption.
Qed.

Lemma group_int_raise m n e :
  group_int m n = Raise e ->
  e = TypeError int_of_none \/ exists t, e = ValueError (invalid_literal t).
Proof.
  unfold group_int. destruct (group m n) as [|[t|]]; [discriminate| |].
  - destruct (py_int t); [discriminate|]. intros H; inversion H; eauto.
  - intros H; inversion H; auto.
Qed.

Lemma extract_raise_inv m e :
  extract_regex_group_fields m = Raise e ->
  e = TypeError int_of_none \/ exists t, e = ValueError (invalid_literal t).
Proof.
  unfold extract_regex_group_fields.
  destruct (group_int m "width") as [wd|e1] eqn:E1; simpl.
  2:{ intros H; inversion H; subst. eapply group_int_raise; eassumption. }
  destruct (group_int m "height") as [ht|e2] eqn:E2; simpl.
  2:{ intros H; inversion H; subst. eapply group_int_raise; eassumption. }
  destruct (group_int m "frame") as [fr|e3] eqn:E3; simpl; [discriminate|].
  intros H; inversion H; subst. eapply group_int_raise; eassumption.
Qed.

(** X5.  [group_files] raises only what the extraction of the fields
    raises on one of its inputs: the error for two files of the same
    frame is never raised, whatever the inputs. *)
Theorem grouping_raises_only_from_extraction :
  forall fs files re verbose w w' e,
    group_files fs files re verbose w = (w', Raise e) ->
    (exists p m, In p files /\ isfile fs p = true /\ re_search re p = Some m
                 /\ extract_regex_group_fields m = Raise e)
    /\ (forall filename other, e <> ValueError (duplicate_message filename other)).
Proof.
  intros fs files re verbose w w' e H.
  assert (Hex : exists p m, In p files /\ isfile fs p = true /\ re_search re p = Some m
                            /\ extract_regex_group_fields m = Raise e).
  { unfold group_files in H.
    apply mbind_inv in H. destruct H as [(w1 & st & H1 & H)|(e' & H1 & E)].
    - exfalso. pose proof (group_loop_ok _ _ _ _ _ _ _ _ H1) as Hall.
      destruct (group_files_grouped fs re verbose files w Hall) as (w2 & idx & G & _).
      unfold group_files in G.
      apply mbind_inv in G. destruct G as [(w3 & st3 & G1 & G)|(e' & _ & ?)]; [|discriminate].
      apply mbind_inv in H. destruct H as [(w4 & store & _ & H)|(e' & H2 & _)];
        [unfold ret in H; discriminate|].
      apply mbind_inv in G. destruct G as [(w5 & store & G2 & _)|(e'' & _ & ?)];
        [|discriminate].
      rewrite H1 in G1. inversion G1; subst. unfold lift in *. congruence.
    - inversion E; subst e'. eapply group_loop_raise; eassumption. }
  split; [exact Hex|].
  destruct Hex as (p & m & _ & _ & _ & He). intros filename other ->.
  apply extract_raise_inv in He. destruct He as [He|[t He]]; [discriminate|].
  apply (f_equal (fun x => hd " "%char (error_message x))) in He.
  vm_compute in He. discriminate.
Qed.

Lemma grouping_raises_only_from_extraction_witness :
  exists p m, In p [tx "A_x_keypoints.json"] /\ isfile (fs_all JNull) p = true
              /\ re_search loose_frame_re p = Some m
              /\ extract_regex_group_fields m = Raise (ValueError (invalid_literal (tx "x"))).
Proof.
  apply (grouping_raises_only_from_extraction (fs_all JNull) [tx "A_x_keypoints.json"]
           loose_frame_re false empty_world empty_world
           (ValueError (invalid_literal (tx "x")))).
  vm_compute. reflexivity.
Defined.

(** ** Verbose mode and the camera names *)

Lemma for_each_returns {A : Type} (body : A -> M unit) :
  (forall a w, exists w', body a w = (w', Ok tt)) ->
  forall l w, exists w', for_each l body w = (w', Ok tt).
Proof.
  intros H. induction l as [|a l IH]; intros w; simpl.
  - unfold ret. eauto.
  - unfold mbind. destruct (H a w) as [w1 ->]. apply IH.
Qed.

Lemma sanity_check_returns idx w :
  exists w', sanity_check_groups idx w = (w', Ok tt).
Proof.
  unfold sanity_check_groups. apply for_each_returns. intros sc w0.
  apply for_each_returns. intros cr w1.
  destruct (1 <? List.length (snd cr)); unfold warn, ret; eauto.
Qed.

(** A file that is taken up has its bucket in the index. *)
Lemma matched_file_taken fs re p :
  extractable fs re p -> isfile fs p = true -> re_search re p <> None ->
  exists f, taken_up fs re p = [(f, p)].
Proof.
  intros Hex Hf Hm. unfold taken_up. rewrite Hf.
  destruct (re_search re p) as [m|] eqn:E; [|congruence].
  destruct (Hex Hf m E) as [f ->]. eauto.
Qed.

Lemma taken_up_no_camera fs re p f p' :
  ~ In "camera" (group_names re) ->
  In (f, p') (taken_up fs re p) -> f_camera f = None.
Proof.
  intros Hcam H. apply taken_up_inv in H. destruct H as (_ & _ & m & Hm & He).
  apply extract_ok_inv in He. destruct He as (_ & -> & _).
  unfold group_text. now rewrite (group_absent _ _ _ "camera" Hm Hcam).
Qed.

(** X6.  With a pattern that has no [camera] group, an invocation in
    verbose mode that takes up at least one file raises and writes
    nothing: joining the camera names of the first session for the
    progress line fails on the name [None]. *)
Theorem verbose_needs_camera_names :
  forall fs files out re w,
    ~ In "camera" (group_names re) ->
    (exists p, In p files /\ isfile fs p = true /\ re_search re p <> None) ->
    exists w' e,
      wrap_json_frames fs files out re true w = (w', Raise e)
      /\ written w' = written w
      /\ (Forall (extractable fs re) files -> exists msg, e = TypeError msg).
Proof.
  intros fs files out re w Hcam (p & Hp & Hfile & Hmatch).
  destruct (group_files fs files re true w) as [w1 [idx|e]] eqn:G.
  2:{ exists w1, e. split; [|split].
      - unfold wrap_json_frames, mbind. now rewrite G.
      - eapply keeps_group_files; eassumption.
      - intros Hall. destruct (group_files_grouped fs re true files w Hall)
          as (w2 & idx & G' & _). congruence. }
  pose proof (group_files_ok _ _ _ _ _ _ _ G) as Hall.
  pose proof (group_files_full _ _ _ _ _ _ _ G) as Hfull.
  destruct (group_files_grouped fs re true files w Hall) as (w2 & idx' & G' & Hw & _ & Hin).
  rewrite G in G'. inversion G'; subst w2 idx'. clear G'.
  destruct (sanity_check_returns idx w1) as [w2 Hs].
  pose proof (keeps_sanity_check _ _ _ _ Hs) as Hw2.
  unfold wrap_json_frames, mbind. rewrite G. cbv beta iota. rewrite Hs. clear Hs.
  assert (Hne : idx <> []).
  { rewrite Forall_forall in Hall.
    destruct (matched_file_taken fs re p (Hall p Hp) Hfile Hmatch) as [f Hf].
    assert (Hb : In (f_frame f, p)
                    (bucket_entries (fields_bucket f) (flat_map (taken_up fs re) files))).
    { apply bucket_entries_in. exists f. simpl. split; [|auto].
      apply in_flat_map. exists p. split; [assumption|]. rewrite Hf. now left. }
    assert (Hl : In (fields_bucket f,
                     insertion_sort entry_ltb
                       (bucket_entries (fields_bucket f) (flat_map (taken_up fs re) files)))
                    (flat_index idx)).
    { apply Hin. split; [reflexivity|]. intros E. now rewrite E in Hb. }
    intros ->. exact Hl. }
  destruct idx as [|[s cams] idx]; [congruence|].
  inversion Hfull as [|? ? [Hcams Hress] _]; subst. simpl in Hcams, Hress.
  destruct cams as [|[c ress] cams]; [now elim Hcams|].
  inversion Hress as [|? ? Hr _]; subst. simpl in Hr.
  destruct ress as [|[q l] ress]; [now elim Hr|].
  assert (Hc : c = None).
  { assert (Hl : In ((s, c, q), l) (flat_index ((s, (c, (q, l) :: ress) :: cams) :: idx))).
    { apply in_flat_index. exists ((c, (q, l) :: ress) :: cams), ((q, l) :: ress).
      simpl. auto. }
    apply Hin in Hl. destruct Hl as [_ Hl].
    destruct (bucket_entries (s, c, q) (flat_map (taken_up fs re) files)) as [|e0 l0] eqn:Eb;
      [congruence|].
    assert (He0 : In e0 (bucket_entries (s, c, q) (flat_map (taken_up fs re) files)))
      by (rewrite Eb; now left).
    apply bucket_entries_in in He0. destruct He0 as (f0 & Hf0 & Hb0 & _).
    apply in_flat_map in Hf0. destruct Hf0 as (p0 & _ & Hf0).
    apply taken_up_no_camera in Hf0; [|assumption].
    unfold fields_bucket in Hb0. inversion Hb0; subst. assumption. }
  subst c.
  exists w2. eexists. split; [|split].
  - cbn [for_each].
    unfold mbind, wrap_session. cbn [fst snd map when join_keys]. unfold mbind, lift.
    reflexivity.
  - congruence.
  - intros _. eauto.
Qed.

Lemma verbose_needs_camera_names_witness :
  exists w' e,
    wrap_json_frames (fs_all JNull) two_frames None frame_only_re true empty_world
    = (w', Raise e)
    /\ written w' = written empty_world
    /\ (Forall (extractable (fs_all JNull) frame_only_re) two_frames
        -> exists msg, e = TypeError msg).
Proof.
  apply (verbose_needs_camera_names (fs_all JNull) two_frames None frame_only_re empty_world).
  - simpl. intros [H|[]]. discriminate.
  - exists (tx "0_keypoints.json"). split; [now left|]. split; [reflexivity|].
    vm_compute. discriminate.
Defined.

(** ** Warnings *)

Lemma quiet_ret {A : Type} (a : A) : keeps_warned (ret a).
Proof. intros w w' r H. now inversion H. Qed.

Lemma quiet_raise {A : Type} e : keeps_warned (@raise A e).
Proof. intros w w' r H. now inversion H. Qed.

Lemma quiet_lift {A : Type} (x : result A) : keeps_warned (lift x).
Proof. intros w w' r H. now inversion H. Qed.

Lemma quiet_print line : keeps_warned (print line).
Proof. intros w w' r H. now inversion H. Qed.

Lemma quiet_write_file name content : keeps_warned (write_file name content).
Proof. intros w w' r H. now inversion H. Qed.

Lemma quiet_bind {A B : Type} (m : M A) (f : A -> M B) :
  keeps_warned m -> (forall a, keeps_warned (f a)) -> keeps_warned (mbind m f).
Proof.
  intros Hm Hf w w' r H. apply mbind_inv in H.
  destruct H as [(w1 & a & H1 & H2)|(e & H1 & _)].
  - apply Hf in H2. apply Hm in H1. congruence.
  - now apply Hm in H1.
Qed.

Lemma quiet_when b m : keeps_warned m -> keeps_warned (when b m).
Proof. intros H. destruct b; [exact H|apply quiet_ret]. Qed.

Lemma quiet_for_each {A : Type} (l : list A) body :
  (forall a, keeps_warned (body a)) -> keeps_warned (for_each l body).
Proof.
  intros H. induction l as [|a l IH]; simpl; [apply quiet_ret|].
  apply quiet_bind; auto.
Qed.

Lemma quiet_fold_m {A S : Type} (body : S -> A -> M S) l :
  (forall st a, keeps_warned (body st a)) -> forall st, keeps_warned (fold_m body st l).
Proof.
  intros H. induction l as [|a l IH]; intros st; simpl; [apply quiet_ret|].
  apply quiet_bind; auto.
Qed.

Lemma quiet_group_files fs files re verbose :
  keeps_warned (group_files fs files re verbose).
Proof.
  unfold group_files. apply quiet_bind.
  - apply quiet_fold_m. intros st p. unfold group_step.
    destruct (isfile fs p); [|apply quiet_ret].
    destruct (re_search re p).
    + apply quiet_bind; [apply quiet_lift|intros; apply quiet_lift].
    + apply quiet_bind; [apply quiet_when, quiet_print|intros; apply quiet_ret].
  - intros st. apply quiet_bind; [apply quiet_lift|]. intros store. apply quiet_ret.
Qed.

Lemma quiet_load_recording fs tuples sid cam wd ht verbose :
  keeps_warned (load_recording fs tuples sid cam wd ht verbose).
Proof.
  unfold load_recording. apply quiet_bind; [apply quiet_when, quiet_print|].
  intros _. apply quiet_bind; [apply quiet_lift|]. intros sorted.
  apply quiet_bind; [|intros; apply quiet_ret].
  apply quiet_fold_m. intros st e.
  destruct (load_json fs (snd e)); [apply quiet_ret|apply quiet_raise].
Qed.

Lemma quiet_wrap_session fs out verbose sc : keeps_warned (wrap_session fs out verbose sc).
Proof.
  unfold wrap_session. apply quiet_bind.
  { apply quiet_when, quiet_bind; [apply quiet_lift|intros; apply quiet_print]. }
  intros _. apply quiet_bind; [apply quiet_lift|]. intros cameras.
  apply quiet_bind.
  - apply quiet_fold_m. intros recs camera. apply quiet_fold_m. intros recs' rl.
    apply quiet_bind; [apply quiet_load_recording|intros; apply quiet_ret].
  - intros recs. unfold write_wrapper.
    apply quiet_bind; [apply quiet_when, quiet_print|intros; apply quiet_write_file].
Qed.

(** The warnings of one session, and of the index. *)
Lemma session_warnings s : forall cams w,
  exists msgs,
    for_each cams (fun cr =>
      if 1 <? List.length (snd cr) then
        warn (resolution_warning s (fst cr) (map fst (snd cr)))
      else ret tt) w
    = (MkWorld (printed w) (warned w ++ msgs) (written w), Ok tt)
    /\ forall msg, In msg msgs <->
         exists c (ress : dict resolution (list entry)),
           In (c, ress) cams /\ 1 < List.length ress
           /\ msg = resolution_warning s c (map fst ress).
Proof.
  induction cams as [|[c ress] cams IH]; intros w.
  - exists []. simpl. unfold ret. rewrite app_nil_r. split; [now destruct w|].
    intros msg. split; [intros []|intros (c & ress & [] & _)].
  - cbn [for_each]. unfold mbind. cbn [fst snd].
    destruct (1 <? List.length ress) eqn:E.
    + unfold warn at 1.
      destruct (IH (MkWorld (printed w) (warned w ++ [resolution_warning s c (map fst ress)])
                            (written w))) as (msgs & -> & Hm).
      exists (resolution_warning s c (map fst ress) :: msgs). cbn [printed warned written].
      rewrite <- app_assoc. split; [reflexivity|].
      intros msg. simpl. rewrite Hm. split.
      * intros [<-|(c' & ress' & Hin & Hlen & ->)].
        -- exists c, ress. apply Nat.ltb_lt in E. auto.
        -- exists c', ress'. auto.
      * intros (c' & ress' & [Eq|Hin] & Hlen & ->).
        -- inversion Eq; subst. now left.
        -- right. exists c', ress'. auto.
    + unfold ret at 1. destruct (IH w) as (msgs & -> & Hm).
      exists msgs. split; [reflexivity|].
      intros msg. rewrite Hm. split.
      * intros (c' & ress' & Hin & Hlen & ->). exists c', ress'. simpl. auto.
      * intros (c' & ress' & [Eq|Hin] & Hlen & ->).
        -- inversion Eq; subst. apply Nat.ltb_ge in E. lia.
        -- exists c', ress'. auto.
Qed.

Lemma sanity_check_body_eq sc cr :
  (if 1 <? List.length (snd cr) then
     let resolutions :=
       map (fun rl : resolution * list entry =>
              fmt_Z (fst (fst rl)) ++ tx "x" ++ fmt_Z (snd (fst rl))) (snd cr) in
     warn (tx "Encountered multiple resolutions for recording " ++ [DQ]
           ++ fmt_text (fst cr) ++ [DQ] ++ tx " of session " ++ [DQ]
           ++ fmt_text (fst sc) ++ [DQ] ++ tx ": " ++ join (tx ", ") resolutions)
   else ret tt)
  = (if 1 <? List.length (snd cr) then
       warn (resolution_warning (@fst (option text) (dict (option text) (dict resolution (list entry))) sc)
               (fst cr) (map fst (snd cr)))
     else ret tt).
Proof.
  destruct (1 <? List.length (snd cr)); [|reflexivity].
  unfold resolution_warning. now rewrite map_map.
Qed.

Lemma for_each_ext {A : Type} (f g : A -> M unit) l w :
  (forall a w, f a w = g a w) -> for_each l f w = for_each l g w.
Proof.
  intros H. revert w. induction l as [|a l IH]; intros w; simpl; [reflexivity|].
  unfold mbind. rewrite H. destruct (g a w) as [w1 [[]|e]]; [apply IH|reflexivity].
Qed.

Lemma sanity_check_warnings : forall idx w,
  exists msgs,
    sanity_check_groups idx w
    = (MkWorld (printed w) (warned w ++ msgs) (written w), Ok tt)
    /\ forall msg, In msg msgs <->
         exists s cams c (ress : dict resolution (list entry)),
           In (s, cams) idx /\ In (c, ress) cams /\ 1 < List.length ress
           /\ msg = resolution_warning s c (map fst ress).
Proof.
  unfold sanity_check_groups.
  induction idx as [|[s cams] idx IH]; intros w.
  - exists []. simpl. unfold ret. rewrite app_nil_r. split; [now destruct w|].
    intros msg. split; [intros []|intros (s & cams & c & ress & [] & _)].
  - cbn [for_each]. unfold mbind at 1. cbn [fst snd].
    destruct (session_warnings s cams w) as (m1 & E1 & H1).
    set (X := for_each cams _ w).
    assert (EX : X = (MkWorld (printed w) (warned w ++ m1) (written w), Ok tt)).
    { subst X. rewrite <- E1. apply for_each_ext. intros cr w0.
      exact (f_equal (fun m : M unit => m w0) (sanity_check_body_eq (s, cams) cr)). }
    rewrite EX. clear X EX E1.
    destruct (IH (MkWorld (printed w) (warned w ++ m1) (written w))) as (m2 & -> & H2).
    exists (m1 ++ m2). cbn [printed warned written]. rewrite <- app_assoc.
    split; [reflexivity|].
    intros msg. rewrite in_app_iff, H1, H2. split.
    + intros [(c & ress & Hc & Hlen & ->)|(s' & cams' & c & ress & Hs & Hc & Hlen & ->)].
      * exists s, cams, c, ress. simpl. auto.
      * exists s', cams', c, ress. simpl. auto.
    + intros (s' & cams' & c & ress & [Eq|Hs] & Hc & Hlen & ->).
      * inversion Eq; subst. left. eauto.
      * right. exists s', cams', c, ress. auto.
Qed.

(** The resolutions under a recording of the index are those of the
    inputs taken up for it. *)
Lemma index_resolutions fs re files (idx : session_index (list entry)) s cams c ress :
  wf_index idx ->
  (forall b l, In (b, l) (flat_index idx)
     <-> l = insertion_sort entry_ltb (bucket_entries b (flat_map (taken_up fs re) files))
         /\ bucket_entries b (flat_map (taken_up fs re) files) <> []) ->
  In (s, cams) idx -> In (c, ress) cams ->
  forall q, In q (map fst ress)
            <-> exists f p, In (f, p) (flat_map (taken_up fs re) files)
                            /\ fields_bucket f = (s, c, q).
Proof.
  intros Hwf Hin Hs Hc q. split.
  - intros Hq. apply in_map_iff in Hq. destruct Hq as ([q' l] & <- & Hq). simpl.
    assert (Hl : In ((s, c, q'), l) (flat_index idx)).
    { apply in_flat_index. eauto. }
    apply Hin in Hl. destruct Hl as [_ Hne].
    destruct (bucket_entries (s, c, q') (flat_map (taken_up fs re) files)) as [|e l'] eqn:Eb;
      [congruence|].
    assert (He : In e (bucket_entries (s, c, q') (flat_map (taken_up fs re) files)))
      by (rewrite Eb; now left).
    apply bucket_entries_in in He. destruct He as (f & Hf & Hb & _). eauto.
  - intros (f & p & Hf & Hb).
    assert (He : In (f_frame f, p)
                    (bucket_entries (s, c, q) (flat_map (taken_up fs re) files))).
    { apply bucket_entries_in. exists f. simpl. auto. }
    assert (Hl : In ((s, c, q),
                     insertion_sort entry_ltb
                       (bucket_entries (s, c, q) (flat_map (taken_up fs re) files)))
                    (flat_index idx)).
    { apply Hin. split; [reflexivity|]. intros E. now rewrite E in He. }
    apply in_flat_index in Hl. destruct Hl as (cams' & ress' & Hs' & Hc' & Hq).
    destruct Hwf as [Hnd Hall]. rewrite Forall_forall in Hall.
    assert (E1 : (s, cams') = (s, cams)) by (apply (nodup_keys_eq idx); auto).
    inversion E1; subst cams'.
    destruct (Hall _ Hs) as [Hndc _]. simpl in Hndc.
    assert (E2 : (c, ress') = (c, ress)) by (apply (nodup_keys_eq cams); auto).
    inversion E2; subst ress'.
    apply in_map_iff. exists (q, insertion_sort entry_ltb
                                   (bucket_entries (s, c, q) (flat_map (taken_up fs re) files))).
    auto.
Qed.

Lemma two_members_length {A : Type} (l : list A) a b :
  In a l -> In b l -> a <> b -> 1 < List.length l.
Proof.
  destruct l as [|x [|y l]]; simpl; [tauto| |lia].
  intros [<-|[]] [<-|[]] H. congruence.
Qed.

(** X7.  When no extraction raises, the warnings of an invocation are
    those of [sanity_check_groups], one for a recording with more than
    one resolution: each names a session and a camera and lists, once
    each, the resolutions of the inputs taken up for them, which are at
    least two; and every two inputs of one session and camera with
    different resolutions have their warning. *)
Theorem resolution_warnings :
  forall fs files out re verbose w,
    Forall (extractable fs re) files ->
    exists msgs,
      warned (fst (wrap_json_frames fs files out re verbose w)) = warned w ++ msgs
      /\ (forall msg, In msg msgs ->
            exists s c qs,
              msg = resolution_warning s c qs /\ NoDup qs /\ 1 < List.length qs
              /\ forall q, In q qs
                           <-> exists f p, In (f, p) (flat_map (taken_up fs re) files)
                                           /\ fields_bucket f = (s, c, q))
      /\ (forall f1 p1 f2 p2,
            In (f1, p1) (flat_map (taken_up fs re) files) ->
            In (f2, p2) (flat_map (taken_up fs re) files) ->
            f_session_id f1 = f_session_id f2 ->
            f_camera f1 = f_camera f2 ->
            (f_width f1, f_height f1) <> (f_width f2, f_height f2) ->
            exists qs, In (resolution_warning (f_session_id f1) (f_camera f1) qs) msgs).
Proof.
  intros fs files out re verbose w Hex.
  destruct (group_files_grouped fs re verbose files w Hex) as (w1 & idx & G & _ & Hwf & Hin).
  pose proof (quiet_group_files _ _ _ _ _ _ _ G) as Q1.
  destruct (sanity_check_warnings idx w1) as (msgs & E & Hmsgs).
  exists msgs. split; [|split].
  - unfold wrap_json_frames, mbind. rewrite G. cbv beta iota. rewrite E.
    destruct (for_each idx (wrap_session fs out verbose) _) as [w3 r] eqn:F.
    apply quiet_for_each in F; [|intros; apply quiet_wrap_session].
    simpl in *. congruence.
  - intros msg Hmsg. apply Hmsgs in Hmsg.
    destruct Hmsg as (s & cams & c & ress & Hs & Hc & Hlen & ->).
    exists s, c, (map fst ress). split; [reflexivity|].
    destruct Hwf as [Hnd Hall]. pose proof Hall as Hall'. rewrite Forall_forall in Hall'.
    destruct (Hall' _ Hs) as [_ Hndr]. simpl in Hndr. rewrite Forall_forall in Hndr.
    split; [apply (Hndr _ Hc)|]. split; [now rewrite length_map|].
    eapply index_resolutions; try eassumption. now split.
  - intros f1 p1 f2 p2 H1 H2 Es Ec Hq.
    assert (K : forall f p, In (f, p) (flat_map (taken_up fs re) files) ->
                exists cams ress, In (f_session_id f, cams) idx /\ In (f_camera f, ress) cams
                                  /\ In (f_width f, f_height f) (map fst ress)).
    { intros f p Hf.
      assert (He : In (f_frame f, p)
                      (bucket_entries (fields_bucket f) (flat_map (taken_up fs re) files))).
      { apply bucket_entries_in. exists f. simpl. auto. }
      assert (Hl : In (fields_bucket f,
                       insertion_sort entry_ltb
                         (bucket_entries (fields_bucket f) (flat_map (taken_up fs re) files)))
                      (flat_index idx)).
      { apply Hin. split; [reflexivity|]. intros E'. now rewrite E' in He. }
      apply in_flat_index in Hl. destruct Hl as (cams & ress & Hs & Hc & Hr).
      exists cams, ress. split; [assumption|]. split; [assumption|].
      apply in_map_iff. eexists. split; [|exact Hr]. reflexivity. }
    destruct (K _ _ H1) as (cams & ress & Hs & Hc & Hr).
    destruct (K _ _ H2) as (cams' & ress' & Hs' & Hc' & Hr').
    rewrite <- Es in Hs'. rewrite <- Ec in Hc'.
    destruct Hwf as [Hnd Hall]. rewrite Forall_forall in Hall.
    assert (E1 : (f_session_id f1, cams') = (f_session_id f1, cams))
      by (apply (nodup_keys_eq idx); auto).
    inversion E1; subst cams'.
    destruct (Hall _ Hs) as [Hndc _]. simpl in Hndc.
    assert (E2 : (f_camera f1, ress') = (f_camera f1, ress))
      by (apply (nodup_keys_eq cams); auto).
    inversion E2; subst ress'.
    exists (map fst ress). apply Hmsgs.
    exists (f_session_id f1), cams, (f_camera f1), ress.
    split; [assumption|]. split; [assumption|]. split; [|reflexivity].
    rewrite <- (length_map fst). exact (two_members_length _ _ _ Hr Hr' Hq).
Qed.

Lemma resolution_warnings_witness :
  exists msgs,
    warned (fst (wrap_json_frames (fs_all JNull)
                   [tx "A_c_1x1_0_keypoints.json"; tx "A_c_2x2_1_keypoints.json"]
                   None FILENAME_OPFILE_RE false empty_world))
    = warned empty_world ++ msgs
    /\ msgs <> [].
Proof.
  destruct (resolution_warnings (fs_all JNull)
              [tx "A_c_1x1_0_keypoints.json"; tx "A_c_2x2_1_keypoints.json"]
              None FILENAME_OPFILE_RE false empty_world) as (msgs & E & _ & H).
  - repeat constructor; intros _ m Hm; vm_compute in Hm; inversion Hm; subst;
      eexists; vm_compute; reflexivity.
  - exists msgs. split; [exact E|].
    destruct (H (MkFields (Some (tx "A")) (Some (tx "c")) (Some 1%Z) (Some 1%Z) (Some 0%Z))
                (tx "A_c_1x1_0_keypoints.json")
                (MkFields (Some (tx "A")) (Some (tx "c")) (Some 2%Z) (Some 2%Z) (Some 1%Z))
                (tx "A_c_2x2_1_keypoints.json")) as [qs Hqs].
    + vm_compute. auto.
    + vm_compute. auto.
    + reflexivity.
    + reflexivity.
    + discriminate.
    + intros ->. exact Hqs.
Defined.

(** ** Order of sorted lists *)

Section SortFacts.
Context {A : Type} (ltb : A -> A -> bool) (Q : A -> Prop).
Hypothesis asym : forall a b, Q a -> Q b -> ltb a b = true -> ltb b a = false.
Hypothesis trans : forall a b c, Q a -> Q b -> Q c ->
  ltb b a = false -> ltb c b = false -> ltb c a = false.

Lemma insert_sorted_le x l :
  Q x -> Forall Q l ->
  StronglySorted (fun a b => ltb b a = false) l ->
  StronglySorted (fun a b => ltb b a = false) (insert_sorted ltb x l).
Proof.
  intros Hx. induction l as [|y l IH]; intros HQ Hs; simpl.
  - repeat constructor.
  - inversion Hs as [|? ? Hs' Hy]; subst. inversion HQ as [|? ? Qy HQ']; subst.
    destruct (ltb y x) eqn:E.
    + constructor; [now apply IH|].
      rewrite Forall_forall in *. intros e He. apply insert_sorted_in in He.
      destruct He as [->|He]; auto.
    + constructor; [assumption|]. constructor; [assumption|].
      rewrite Forall_forall in *. intros e He.
      apply (trans x y e); auto.
Qed.

Lemma insertion_sort_le l :
  Forall Q l -> StronglySorted (fun a b => ltb b a = false) (insertion_sort ltb l).
Proof.
  induction 1 as [|x l Hx Hl IH]; simpl; [constructor|].
  apply insert_sorted_le; [assumption| |assumption].
  rewrite Forall_forall in *. intros e He. apply insertion_sort_in in He. auto.
Qed.
End SortFacts.

Lemma sorted_perm_eq {A : Type} (le : A -> A -> Prop) :
  (forall a b, le a b -> le b a -> a = b) ->
  forall l l', StronglySorted le l -> StronglySorted le l' -> Permutation l l' -> l = l'.
Proof.
  intros anti. induction l as [|a l IH]; intros l' Hs Hs' Hp.
  - apply Permutation_nil in Hp. now subst.
  - destruct l' as [|b l'].
    + apply Permutation_sym, Permutation_nil in Hp. discriminate.
    + inversion Hs as [|? ? Hs1 Ha]; subst. inversion Hs' as [|? ? Hs1' Hb]; subst.
      rewrite Forall_forall in Ha, Hb.
      assert (E : a = b).
      { assert (Ha' : In a (b :: l')) by (eapply Permutation_in; [exact Hp|now left]).
        assert (Hb' : In b (a :: l))
          by (eapply Permutation_in; [apply Permutation_sym; exact Hp|now left]).
        destruct Ha' as [->|Ha']; [reflexivity|].
        destruct Hb' as [->|Hb']; [reflexivity|].
        apply anti; auto. }
      subst b. f_equal. apply IH; try assumption.
      eapply Permutation_cons_inv; eassumption.
Qed.

Lemma code_inj a b : code a = code b -> a = b.
Proof.
  unfold code. intros H.
  rewrite <- (ascii_nat_embedding a), <- (ascii_nat_embedding b). now rewrite H.
Qed.

Lemma text_ltb_irrefl a : text_ltb a a = false.
Proof.
  induction a as [|x a IH]; simpl; [reflexivity|].
  now rewrite Nat.ltb_irrefl.
Qed.

Lemma text_ltb_trans : forall a b c,
  text_ltb a b = true -> text_ltb b c = true -> text_ltb a c = true.
Proof.
  induction a as [|x a IH]; intros [|y b] [|z c]; simpl; try discriminate; auto.
  destruct (Nat.ltb_spec (code x) (code y)), (Nat.ltb_spec (code y) (code x)),
           (Nat.ltb_spec (code y) (code z)), (Nat.ltb_spec (code z) (code y)),
           (Nat.ltb_spec (code x) (code z)), (Nat.ltb_spec (code z) (code x));
    try discriminate; try lia; auto.
  apply IH.
Qed.

Lemma text_ltb_asym a b : text_ltb a b = true -> text_ltb b a = false.
Proof.
  intros H. destruct (text_ltb b a) eqn:E; [|reflexivity].
  pose proof (text_ltb_trans _ _ _ H E) as K. now rewrite text_ltb_irrefl in K.
Qed.

Lemma text_ltb_total : forall a b,
  text_ltb a b = false -> text_ltb b a = false -> a = b.
Proof.
  induction a as [|x a IH]; intros [|y b]; simpl; try discriminate; auto.
  destruct (Nat.ltb_spec (code x) (code y)), (Nat.ltb_spec (code y) (code x));
    try discriminate; try lia.
  intros H1 H2. f_equal; [apply code_inj; lia|now apply IH].
Qed.

Lemma text_le_trans a b c :
  text_ltb b a = false -> text_ltb c b = false -> text_ltb c a = false.
Proof.
  intros H1 H2. destruct (text_ltb c a) eqn:E; [|reflexivity].
  destruct (text_ltb a b) eqn:E'.
  - pose proof (text_ltb_trans _ _ _ E E'). congruence.
  - assert (a = b) by now apply text_ltb_total. subst. congruence.
Qed.

Lemma sorted_texts l :
  StronglySorted (fun a b => text_ltb b a = false) (insertion_sort text_ltb l).
Proof.
  apply (insertion_sort_le text_ltb (fun _ => True)).
  - intros a b _ _. apply text_ltb_asym.
  - intros a b c _ _ _. apply text_le_trans.
  - rewrite Forall_forall. auto.
Qed.

(** The sorted list depends on the elements only, not on their order. *)
Lemma sorted_texts_perm l l' :
  Permutation l l' -> insertion_sort text_ltb l = insertion_sort text_ltb l'.
Proof.
  intros Hp.
  apply (sorted_perm_eq (fun a b => text_ltb b a = false)).
  - intros a b H1 H2. symmetry. now apply text_ltb_total.
  - apply sorted_texts.
  - apply sorted_texts.
  - rewrite !insertion_sort_perm. exact Hp.
Qed.

(** ** The batch front end *)

Lemma Permutation_flat_map_in {A B : Type} (f : A -> list B) l l' :
  Permutation l l' -> Permutation (flat_map f l) (flat_map f l').
Proof.
  induction 1 as [|x l l' _ IH|x y l|l l' l'' _ IH1 _ IH2]; simpl.
  - reflexivity.
  - now apply Permutation_app_head.
  - rewrite !app_assoc. apply Permutation_app_tail, Permutation_app_comm.
  - etransitivity; eassumption.
Qed.

(** X8.  [batch_wrap_json_frames] sorts the paths before it wraps them:
    what it does depends neither on the order in which the batches are
    given nor on the order in which [glob] lists the files of a batch. *)
Theorem batch_order_is_irrelevant :
  forall fs glob glob' batches batches' out re verbose w,
    Permutation (flat_map glob batches) (flat_map glob' batches') ->
    batch_wrap_json_frames fs glob batches out re verbose w
    = batch_wrap_json_frames fs glob' batches' out re verbose w.
Proof.
  intros fs glob glob' batches batches' out re verbose w Hp.
  unfold batch_wrap_json_frames.
  rewrite (sorted_texts_perm _ _ Hp), (Permutation_length Hp). reflexivity.
Qed.

Lemma batch_order_is_irrelevant_witness :
  batch_wrap_json_frames (fs_all JNull)
    (fun b => [b ++ tx "_0_keypoints.json"; b ++ tx "_1_keypoints.json"])
    [tx "A_c_1x1"; tx "B_c_1x1"] None FILENAME_OPFILE_RE true empty_world
  = batch_wrap_json_frames (fs_all JNull)
      (fun b => [b ++ tx "_1_keypoints.json"; b ++ tx "_0_keypoints.json"])
      [tx "B_c_1x1"; tx "A_c_1x1"] None FILENAME_OPFILE_RE true empty_world.
Proof.
  apply (batch_order_is_irrelevant (fs_all JNull)
           (fun b => [b ++ tx "_0_keypoints.json"; b ++ tx "_1_keypoints.json"])
           (fun b => [b ++ tx "_1_keypoints.json"; b ++ tx "_0_keypoints.json"])
           [tx "A_c_1x1"; tx "B_c_1x1"] [tx "B_c_1x1"; tx "A_c_1x1"]
           None FILENAME_OPFILE_RE true empty_world).
  cbn [flat_map app].
  eapply Permutation_trans; [apply (Permutation_app_comm [_; _] [_; _])|].
  cbn [app]. eapply Permutation_trans; [apply perm_swap|].
  do 2 apply perm_skip. apply perm_swap.
Defined.

(** ** The frames of a recording *)

Lemma pykey_eqb_eq a b : pykey_eqb a b = true <-> a = b.
Proof.
  destruct a as [s|x|], b as [t|y|]; simpl; try (split; [discriminate|congruence]).
  - rewrite text_eqb_eq. split; congruence.
  - rewrite Z.eqb_eq. split; congruence.
  - tauto.
Qed.

Lemma frame_key_inj a b : frame_key a = frame_key b -> a = b.
Proof. destruct a, b; simpl; congruence. Qed.

Lemma dict_get_set {K V : Type} (eqb : K -> K -> bool) :
  (forall a b, eqb a b = true <-> a = b) ->
  forall (d : dict K V) k v k',
    dict_get eqb (dict_set eqb d k v) k' = if eqb k' k then Some v else dict_get eqb d k'.
Proof.
  intros eqb_eq. induction d as [|[k0 v0] d IH]; intros k v k'; simpl; [reflexivity|].
  destruct (eqb k k0) eqn:E; simpl.
  - apply eqb_eq in E. subst k0. now destruct (eqb k' k).
  - destruct (eqb k' k0) eqn:E'.
    + apply eqb_eq in E'. subst k0.
      assert (Hne : k' <> k).
      { intros ->. rewrite (eqb_refl eqb eqb_eq) in E. discriminate. }
      now rewrite (eqb_neq eqb eqb_eq k' k Hne).
    + apply IH.
Qed.

Lemma last_occurrence {A : Type} (P : A -> bool) : forall l,
  existsb P l = true ->
  exists l1 e l2, l = l1 ++ e :: l2 /\ P e = true /\ forallb (fun x => negb (P x)) l2 = true.
Proof.
  induction l as [|x l IH]; simpl; [discriminate|].
  intros H. destruct (existsb P l) eqn:E.
  - destruct (IH eq_refl) as (l1 & e & l2 & -> & He & Hl2).
    exists (x :: l1), e, l2. auto.
  - rewrite orb_false_r in H. exists [], x, l. split; [reflexivity|]. split; [assumption|].
    clear -E. induction l as [|y l IH]; simpl in *; [reflexivity|].
    apply orb_false_iff in E. destruct E as [-> E]. simpl. now apply IH.
Qed.

Lemma sorted_before {A : Type} (R : A -> A -> Prop) l1 e l2 :
  StronglySorted R (l1 ++ e :: l2) -> Forall (fun x => R x e) l1.
Proof.
  induction l1 as [|x l1 IH]; simpl; intros H; [constructor|].
  inversion H as [|? ? Hs Hx]; subst. constructor; [|now apply IH].
  rewrite Forall_forall in Hx. apply Hx. apply in_or_app. right. now left.
Qed.

Lemma sorted_snoc {A : Type} (R : A -> A -> Prop) l x :
  StronglySorted R l -> Forall (fun y => R y x) l -> StronglySorted R (l ++ [x]).
Proof.
  induction 1 as [|y l Hs IH Hy]; intros Hx; simpl.
  - repeat constructor.
  - inversion Hx as [|? ? Hyx Hx']; subst. constructor; [now apply IH|].
    apply Forall_app. split; [assumption|]. now repeat constructor.
Qed.

Lemma uniform_frames {A : Type} (l : list (option A)) :
  mixed l = false -> exists v, Forall (fun o => is_none o = v) l.
Proof.
  unfold mixed. intros H. apply andb_false_iff in H. destruct H as [H|H].
  - exists false. rewrite Forall_forall. intros o Ho.
    destruct (is_none o) eqn:E; [|reflexivity].
    assert (existsb is_none l = true) by (apply existsb_exists; eauto). congruence.
  - exists true. rewrite Forall_forall. intros o Ho.
    destruct (is_none o) eqn:E; [reflexivity|].
    assert (existsb (fun o => negb (is_none o)) l = true).
    { apply existsb_exists. exists o. now rewrite E. }
    congruence.
Qed.

Lemma entry_ltb_asym a b :
  entry_ltb a b = true -> entry_ltb b a = false.
Proof.
  destruct a as [[x|] p], b as [[y|] q]; unfold entry_ltb; simpl; try discriminate.
  - rewrite (Z.eqb_sym y x). destruct (Z.eqb_spec x y) as [->|Hne].
    + apply text_ltb_asym.
    + intros H. apply Z.ltb_lt in H. apply Z.ltb_ge. lia.
  - apply text_ltb_asym.
Qed.

Lemma entry_le_trans v a b c :
  is_none (fst a) = v -> is_none (fst b) = v -> is_none (fst c) = v ->
  entry_ltb b a = false -> entry_ltb c b = false -> entry_ltb c a = false.
Proof.
  destruct a as [[x|] p], b as [[y|] q], c as [[z|] r]; unfold entry_ltb; simpl;
    intros Ha Hb Hc; subst v; try discriminate.
  - destruct (Z.eqb_spec y x) as [E1|H1], (Z.eqb_spec z y) as [E2|H2].
    + subst. rewrite Z.eqb_refl. apply text_le_trans.
    + subst. intros _ H. destruct (Z.eqb_spec z x); [congruence|assumption].
    + subst. intros H _. rewrite (proj2 (Z.eqb_neq _ _) H1). assumption.
    + intros H H'. apply Z.ltb_ge in H, H'.
      destruct (Z.eqb_spec z x); [lia|]. apply Z.ltb_ge. lia.
  - apply text_le_trans.
Qed.

Lemma sorted_tuples (l : list entry) :
  mixed (map fst l) = false ->
  StronglySorted (fun a b => entry_ltb b a = false) (insertion_sort entry_ltb l).
Proof.
  intros Hm. destruct (uniform_frames _ Hm) as [v Hv].
  apply (insertion_sort_le entry_ltb (fun e => is_none (fst e) = v)).
  - intros a b _ _. apply entry_ltb_asym.
  - intros a b c. apply entry_le_trans.
  - rewrite Forall_forall in *. intros e He. apply Hv. now apply in_map.
Qed.

Lemma entry_le_frames v (a b : entry) :
  is_none (fst a) = v -> is_none (fst b) = v ->
  entry_ltb b a = false -> fst a = fst b \/ frame_lt (fst a) (fst b).
Proof.
  destruct a as [[x|] p], b as [[y|] q]; unfold entry_ltb; simpl;
    intros Ha Hb; subst v; try discriminate; [|auto].
  destruct (Z.eqb_spec y x) as [->|Hne]; [auto|].
  intros H. apply Z.ltb_ge in H. right. lia.
Qed.

(** The dictionary that the loop of [load_recording] builds. *)
Lemma load_loop_values fs : forall l (d : dict pykey json) w,
  (forall e, In e l -> load_json fs (snd e) <> None) ->
  exists d',
    fold_m (fun (frame2data : dict pykey json) (e : entry) =>
              match load_json fs (snd e) with
              | Some doc => ret (dict_set pykey_eqb frame2data (frame_key (fst e)) doc)
              | None => raise (IOError (snd e))
              end) d l w = (w, Ok d')
    /\ forall k doc,
         dict_get pykey_eqb d' k = Some doc
         <-> (exists l1 e l2,
                 l = l1 ++ e :: l2 /\ frame_key (fst e) = k
                 /\ load_json fs (snd e) = Some doc
                 /\ forall e', In e' l2 -> frame_key (fst e') <> k)
             \/ ((forall e', In e' l -> frame_key (fst e') <> k)
                 /\ dict_get pykey_eqb d k = Some doc).
Proof.
  induction l as [|e0 l IH]; intros d w Hload.
  - exists d. split; [reflexivity|]. intros k doc. split.
    + intros H. right. split; [intros e' []|assumption].
    + intros [(l1 & e & l2 & E & _)|[_ H]]; [|assumption].
      destruct l1; discriminate.
  - cbn [fold_m]. unfold mbind.
    destruct (load_json fs (snd e0)) as [doc0|] eqn:E0.
    2:{ exfalso. apply (Hload e0); [now left|assumption]. }
    unfold ret at 1.
    destruct (IH (dict_set pykey_eqb d (frame_key (fst e0)) doc0) w) as (d' & -> & Hd').
    { intros e He. apply Hload. now right. }
    exists d'. split; [reflexivity|]. intros k doc. rewrite Hd'. clear Hd'.
    rewrite (dict_get_set pykey_eqb pykey_eqb_eq). split.
    + intros [(l1 & e & l2 & -> & Hk & He & Hl2)|[Hl H]].
      * left. exists (e0 :: l1), e, l2. auto.
      * destruct (pykey_eqb k (frame_key (fst e0))) eqn:Ek.
        -- apply pykey_eqb_eq in Ek. inversion H; subst. left.
           exists [], e0, l. auto.
        -- right. split; [|assumption]. intros e' [<-|He'].
           ++ intros Eq. rewrite Eq in Ek.
              now rewrite (proj2 (pykey_eqb_eq k k) eq_refl) in Ek.
           ++ now apply Hl.
    + intros [(l1 & e & l2 & E & Hk & He & Hl2)|[Hl H]].
      * destruct l1 as [|x l1]; simpl in E; inversion E; subst.
        -- right. split; [assumption|].
           rewrite (proj2 (pykey_eqb_eq _ _) eq_refl). congruence.
        -- left. exists l1, e, l2. auto.
      * right. split; [intros e' He'; apply Hl; now right|].
        destruct (pykey_eqb k (frame_key (fst e0))) eqn:Ek; [|assumption].
        apply pykey_eqb_eq in Ek. exfalso. apply (Hl e0); [now left|congruence].
Qed.

Lemma load_loop_keys fs v : forall l (d : dict pykey json) frs w w' d',
  Forall (fun e : entry => is_none (fst e) = v) l ->
  StronglySorted (fun a b => entry_ltb b a = false) l ->
  map fst d = map frame_key frs ->
  StronglySorted frame_lt frs ->
  (forall fr e, In fr frs -> In e l -> fr = fst e \/ frame_lt fr (fst e)) ->
  fold_m (fun (frame2data : dict pykey json) (e : entry) =>
            match load_json fs (snd e) with
            | Some doc => ret (dict_set pykey_eqb frame2data (frame_key (fst e)) doc)
            | None => raise (IOError (snd e))
            end) d l w = (w', Ok d') ->
  exists frs', map fst d' = map frame_key frs' /\ StronglySorted frame_lt frs'.
Proof.
  induction l as [|e l IH]; intros d frs w w' d' Hv Hs Hd Hfrs Hle H.
  - inversion H; subst. eauto.
  - cbn [fold_m] in H. apply mbind_inv in H.
    destruct H as [(w1 & d1 & H1 & H)|(e' & _ & ?)]; [|discriminate].
    destruct (load_json fs (snd e)) as [doc|]; [|discriminate].
    inversion H1; subst w1 d1. clear H1.
    inversion Hv as [|? ? Hve Hv']; subst. inversion Hs as [|? ? Hs' He]; subst.
    rewrite Forall_forall in He.
    destruct (dict_get pykey_eqb d (frame_key (fst e))) as [old|] eqn:G.
    + apply (IH _ frs _ _ _ Hv' Hs') in H; auto.
      * rewrite dict_set_keys, G. assumption.
      * intros fr e' Hfr He'. apply Hle; [assumption|now right].
    + assert (Hnew : ~ In (fst e) frs).
      { intros Hin. apply (dict_get_none pykey_eqb pykey_eqb_eq) in G. apply G.
        rewrite Hd. now apply in_map. }
      apply (IH _ (frs ++ [fst e]) _ _ _ Hv' Hs') in H; auto.
      * rewrite dict_set_keys, G, map_app, Hd. reflexivity.
      * apply sorted_snoc; [assumption|]. rewrite Forall_forall. intros fr Hfr.
        destruct (Hle fr e Hfr (or_introl eq_refl)) as [->|Hlt]; [contradiction|assumption].
      * intros fr e' Hfr He'. apply in_app_or in Hfr. destruct Hfr as [Hfr|[<-|[]]].
        -- apply Hle; [assumption|now right].
        -- rewrite Forall_forall in Hv'.
           apply (entry_le_frames (is_none (fst e))); auto.
Qed.

(** The frames of a recording whose files all load. *)
Lemma load_recording_frames :
  forall fs tuples sid cam wd ht verbose w,
    mixed (map fst tuples) = false ->
    (forall e, In e tuples -> load_json fs (snd e) <> None) ->
    exists frames frs,
      load_recording fs tuples sid cam wd ht verbose w
      = ((if verbose
          then MkWorld (printed w
                        ++ [tx "Loading " ++ str_of_Z (Z.of_nat (List.length tuples))
                            ++ tx " frames for recording " ++ [DQ] ++ fmt_text cam ++ [DQ]
                            ++ tx " of session " ++ [DQ] ++ fmt_text sid ++ [DQ]])
                       (warned w) (written w)
          else w), Ok (JObj ((opt_item "id" (option_map JStr sid)
                        ++ opt_item "camera" (option_map JStr cam)
                        ++ opt_item "width" (option_map JInt wd)
                        ++ opt_item "height" (option_map JInt ht))
                       ++ [(KStr (tx "frames"), JObj frames)])))
      /\ map fst frames = map frame_key frs
      /\ StronglySorted frame_lt frs
      /\ forall fr doc,
           dict_get pykey_eqb frames (frame_key fr) = Some doc
           <-> exists p, In (fr, p) tuples /\ load_json fs p = Some doc
                         /\ forall p', In (fr, p') tuples -> text_ltb p p' = false.
Proof.
  intros fs tuples sid cam wd ht verbose w Hm Hload.
  pose proof (sorted_tuples tuples Hm) as Hs.
  destruct (uniform_frames _ Hm) as [v Hv].
  set (L := insertion_sort entry_ltb tuples) in *.
  assert (HL : forall e, In e L <-> In e tuples) by (intros e; apply insertion_sort_in).
  set (w1 := if verbose
             then MkWorld (printed w ++ [tx "Loading " ++ str_of_Z (Z.of_nat (List.length tuples))
                             ++ tx " frames for recording " ++ [DQ] ++ fmt_text cam ++ [DQ]
                             ++ tx " of session " ++ [DQ] ++ fmt_text sid ++ [DQ]])
                          (warned w) (written w)
             else w).
  destruct (load_loop_values fs L [] w1) as (frames & E & Hget).
  { intros e He. apply Hload. now apply HL. }
  destruct (load_loop_keys fs v L [] [] w1 w1 frames) as (frs & Hk & Hfrs); auto.
  { rewrite Forall_forall in *. intros e He. apply Hv. apply in_map. now apply HL. }
  { constructor. }
  { intros fr e []. }
  exists frames, frs. split; [|split; [assumption|split; [assumption|]]].
  - unfold load_recording, mbind, py_sort, lift. rewrite Hm.
    subst w1. destruct verbose; cbn [when]; unfold print, ret in *;
      cbv beta iota; fold L;
      match goal with
      | |- context [fold_m ?b ?d L ?w0] =>
          replace (fold_m b d L w0) with (w0, @Ok (dict pykey json) frames)
            by (symmetry; exact E)
      end; reflexivity.
  - intros fr doc. rewrite Hget. clear Hget E. split.
    + intros [(l1 & e & l2 & EL & Hkey & He & Hl2)|[_ H]]; [|discriminate].
      apply frame_key_inj in Hkey. destruct e as [fr' p]. simpl in *. subst fr'.
      exists p. split; [|split; [assumption|]].
      * apply HL. rewrite EL. apply in_or_app. right. now left.
      * intros p' Hp'. apply HL in Hp'. rewrite EL in Hp', Hs.
        apply in_app_or in Hp'. destruct Hp' as [Hp'|[Hp'|Hp']].
        -- apply sorted_before in Hs. rewrite Forall_forall in Hs.
           specialize (Hs _ Hp'). unfold entry_ltb in Hs. simpl in Hs.
           now rewrite (proj2 (frame_eqb_eq fr fr) eq_refl) in Hs.
        -- inversion Hp'; subst. apply text_ltb_irrefl.
        -- exfalso. apply (Hl2 _ Hp'). reflexivity.
    + intros (p & Hp & Hdoc & Hmax). left.
      destruct (last_occurrence (fun e : entry => frame_eqb (fst e) fr) L)
        as (l1 & e & l2 & EL & He & Hl2).
      { apply existsb_exists. exists (fr, p). split; [now apply HL|].
        now apply frame_eqb_eq. }
      apply frame_eqb_eq in He. destruct e as [fr' p2]. simpl in He. subst fr'.
      assert (Hp2 : In (fr, p2) tuples).
      { apply HL. rewrite EL. apply in_or_app. right. now left. }
      assert (Epp : p = p2).
      { apply text_ltb_total; [now apply Hmax|].
        apply HL in Hp. rewrite EL in Hp, Hs.
        apply in_app_or in Hp. destruct Hp as [Hp|[Hp|Hp]].
        - apply sorted_before in Hs. rewrite Forall_forall in Hs.
          specialize (Hs _ Hp). unfold entry_ltb in Hs. simpl in Hs.
          now rewrite (proj2 (frame_eqb_eq fr fr) eq_refl) in Hs.
        - inversion Hp; subst. apply text_ltb_irrefl.
        - exfalso. rewrite forallb_forall in Hl2. specialize (Hl2 _ Hp). simpl in Hl2.
          now rewrite (proj2 (frame_eqb_eq fr fr) eq_refl) in Hl2. }
      subst p2. exists l1, (fr, p), l2. split; [assumption|]. split; [reflexivity|].
      split; [assumption|].
      intros e' He' Eq. apply frame_key_inj in Eq.
      rewrite forallb_forall in Hl2. specialize (Hl2 _ He').
      rewrite (proj2 (frame_eqb_eq _ _) Eq) in Hl2. discriminate.
Qed.

(** X9.  A recording whose frame files all load has, under [frames], one
    entry for every frame of its tuples, in ascending order of the frames;
    where several files have the same frame, the entry holds the document
    of the one whose name sorts last. *)
Theorem recording_frames_last_file_wins :
  forall fs tuples sid cam wd ht verbose w,
    mixed (map fst tuples) = false ->
    (forall e, In e tuples -> load_json fs (snd e) <> None) ->
    exists w' frames frs,
      load_recording fs tuples sid cam wd ht verbose w
      = (w', Ok (JObj ((opt_item "id" (option_map JStr sid)
                        ++ opt_item "camera" (option_map JStr cam)
                        ++ opt_item "width" (option_map JInt wd)
                        ++ opt_item "height" (option_map JInt ht))
                       ++ [(KStr (tx "frames"), JObj frames)])))
      /\ map fst frames = map frame_key frs
      /\ StronglySorted frame_lt frs
      /\ forall fr doc,
           dict_get pykey_eqb frames (frame_key fr) = Some doc
           <-> exists p, In (fr, p) tuples /\ load_json fs p = Some doc
                         /\ forall p', In (fr, p') tuples -> text_ltb p p' = false.
Proof.
  intros fs tuples sid cam wd ht verbose w Hm Hload.
  destruct (load_recording_frames fs tuples sid cam wd ht verbose w Hm Hload)
    as (frames & frs & H).
  eexists. exists frames, frs. exact H.
Qed.

Lemma recording_frames_last_file_wins_witness :
  exists w' frames,
    load_recording fs_duplicate
      [(Some 0%Z, tx "A_cam1_640x480_00_keypoints.json");
       (Some 0%Z, tx "A_cam1_640x480_0_keypoints.json")]
      (Some (tx "A")) None None None false empty_world
    = (w', Ok (JObj ((opt_item "id" (option_map JStr (Some (tx "A")))
                      ++ opt_item "camera" (option_map JStr None)
                      ++ opt_item "width" (option_map JInt None)
                      ++ opt_item "height" (option_map JInt None))
                     ++ [(KStr (tx "frames"), JObj frames)])))
    /\ dict_get pykey_eqb frames (frame_key (Some 0%Z))
       = Some (JObj [(KStr (tx "version"), JInt 1)]).
Proof.
  destruct (recording_frames_last_file_wins fs_duplicate
              [(Some 0%Z, tx "A_cam1_640x480_00_keypoints.json");
               (Some 0%Z, tx "A_cam1_640x480_0_keypoints.json")]
              (Some (tx "A")) None None None false empty_world)
    as (w' & frames & frs & E & _ & _ & H).
  - reflexivity.
  - intros e _. simpl. destruct (text_eqb (snd e) _); discriminate.
  - exists w', frames. split; [exact E|].
    apply H. exists (tx "A_cam1_640x480_0_keypoints.json").
    split; [simpl; auto|]. split; [reflexivity|].
    intros p' [Hp|[Hp|[]]]; inversion Hp; subst; vm_compute; reflexivity.
Defined.

(** ** The index holds the inputs *)

Lemma filter_split_perm {A : Type} (f : A -> bool) l :
  Permutation (filter f l ++ filter (fun x => negb (f x)) l) l.
Proof.
  induction l as [|x l IH]; simpl; [reflexivity|].
  destruct (f x); simpl.
  - now constructor.
  - apply Permutation_sym. apply Permutation_cons_app. now apply Permutation_sym.
Qed.

Lemma filter_twice {A : Type} (f g : A -> bool) l :
  (forall x, f x = true -> g x = true) ->
  filter f (filter g l) = filter f l.
Proof.
  intros H. induction l as [|x l IH]; simpl; [reflexivity|].
  destruct (g x) eqn:G; simpl.
  - now rewrite IH.
  - rewrite IH. destruct (f x) eqn:F; [|reflexivity].
    apply H in F. congruence.
Qed.

Lemma flat_map_ext_in {A B : Type} (f g : A -> list B) l :
  (forall a, In a l -> f a = g a) -> flat_map f l = flat_map g l.
Proof.
  induction l as [|a l IH]; intros H; simpl; [reflexivity|].
  rewrite (H a) by now left. rewrite IH; [reflexivity|].
  intros b Hb. apply H. now right.
Qed.

Lemma flat_map_perm_in {A B : Type} (f g : A -> list B) l :
  (forall a, In a l -> Permutation (f a) (g a)) ->
  Permutation (flat_map f l) (flat_map g l).
Proof.
  induction l as [|a l IH]; intros H; simpl; [reflexivity|].
  apply Permutation_app; [apply H; now left|].
  apply IH. intros b Hb. apply H. now right.
Qed.

Lemma flat_map_of_map {A B C : Type} (g : A -> B) (f : B -> list C) l :
  flat_map f (map g l) = flat_map (fun a => f (g a)) l.
Proof. induction l as [|a l IH]; simpl; [reflexivity|]. now rewrite IH. Qed.

Lemma sorted_impl {A : Type} (R R' : A -> A -> Prop) l :
  (forall a b, R a b -> R' a b) -> StronglySorted R l -> StronglySorted R' l.
Proof.
  intros H. induction 1 as [|x l Hs IH Hx]; constructor; [assumption|].
  rewrite Forall_forall in *. auto.
Qed.

(** The classes of a list under a key, taken for every key once, make
    up the list. *)
Lemma classes_perm {A K : Type} (eqb : K -> K -> bool) (key : A -> K) :
  (forall a b, eqb a b = true <-> a = b) ->
  forall keys l,
    NoDup keys ->
    (forall x, In x l -> In (key x) keys) ->
    Permutation (flat_map (fun k => filter (fun x => eqb (key x) k) l) keys) l.
Proof.
  intros eqb_eq. induction keys as [|k keys IH]; intros l Hnd Hcover.
  - destruct l as [|x l]; [reflexivity|]. destruct (Hcover x (or_introl eq_refl)).
  - inversion Hnd as [|? ? Hk Hnd']; subst. cbn [flat_map].
    rewrite (flat_map_ext_in _
               (fun k' => filter (fun x => eqb (key x) k')
                            (filter (fun x => negb (eqb (key x) k)) l))).
    + rewrite IH; [apply filter_split_perm|assumption|].
      intros x Hx. apply filter_In in Hx. destruct Hx as [Hx Hne].
      destruct (Hcover x Hx) as [E|H]; [|assumption].
      rewrite <- E, (proj2 (eqb_eq k k) eq_refl) in Hne. discriminate.
    + intros k' Hk'. symmetry. apply filter_twice. intros x Hx.
      apply eqb_eq in Hx. subst k'.
      destruct (eqb (key x) k) eqn:E; [|reflexivity].
      apply eqb_eq in E. subst k. contradiction.
Qed.

Lemma bucket_entries_fields b fl :
  map (fun e : entry => (bucket_fields b (fst e), snd e)) (bucket_entries b fl)
  = filter (fun x => bucket_eqb (fields_bucket (fst x)) b) fl.
Proof.
  unfold bucket_entries. induction fl as [|[f p] fl IH]; simpl; [reflexivity|].
  destruct (bucket_eqb (fields_bucket f) b) eqn:E; simpl; [|assumption].
  apply bucket_eqb_eq in E. subst b. now rewrite bucket_fields_eq, IH.
Qed.

(** X10.  Whenever [group_files] returns an index, the tuples of the index
    are the inputs taken up, each as many times as it was given and under
    the session, camera and resolution of its match; and every list of the
    index is in ascending order of frame and, for the same frame, of file
    name. *)
Theorem index_holds_the_inputs :
  forall fs files re verbose w w' idx,
    group_files fs files re verbose w = (w', Ok idx) ->
    Permutation (index_entries idx) (flat_map (taken_up fs re) files)
    /\ forall b l, In (b, l) (flat_index idx) ->
                   StronglySorted (fun x y => entry_leb x y = true) l.
Proof.
  intros fs files re verbose w w' idx G.
  pose proof (group_files_ok _ _ _ _ _ _ _ G) as Hex.
  destruct (group_files_grouped fs re verbose files w Hex) as (w2 & idx' & G' & _ & Hwf & Hin).
  rewrite G in G'. inversion G'; subst w2 idx'. clear G'.
  set (fl := flat_map (taken_up fs re) files) in *.
  split.
  - unfold index_entries.
    transitivity (flat_map (fun bl : bucket_key * list entry =>
                              filter (fun x => bucket_eqb (fields_bucket (fst x)) (fst bl)) fl)
                           (flat_index idx)).
    + apply flat_map_perm_in. intros [b l] Hl. simpl.
      apply Hin in Hl. destruct Hl as [-> _].
      rewrite <- bucket_entries_fields. apply Permutation_map, insertion_sort_perm.
    + rewrite <- (flat_map_of_map fst
                    (fun b => filter (fun x : fields * text =>
                                        bucket_eqb (fields_bucket (fst x)) b) fl)).
      apply (classes_perm bucket_eqb (fun x : fields * text => fields_bucket (fst x))
               bucket_eqb_eq).
      * apply NoDup_map_in; [now apply flat_index_nodup|].
        intros [b l] [b' l'] Hl Hl' E. simpl in E. subst b'. f_equal.
        eapply flat_index_functional; eassumption.
      * intros [f p] Hx. simpl.
        assert (He : In (f_frame f, p) (bucket_entries (fields_bucket f) fl)).
        { apply bucket_entries_in. exists f. simpl. auto. }
        apply in_map_iff.
        exists (fields_bucket f, insertion_sort entry_ltb (bucket_entries (fields_bucket f) fl)).
        split; [reflexivity|]. apply Hin. split; [reflexivity|].
        intros E. now rewrite E in He.
  - intros b l Hl. apply Hin in Hl. destruct Hl as [-> _].
    pose proof (sorted_tuples _ (bucket_not_mixed fs re files b)) as Hs.
    fold fl in Hs. revert Hs. apply sorted_impl.
    intros x y H. unfold entry_leb. now rewrite H.
Qed.

Lemma index_holds_the_inputs_witness :
  Permutation
    (index_entries
       [(Some (tx "A"),
         [(Some (tx "cam1"),
           [((Some 640%Z, Some 480%Z),
             [(Some 0%Z, tx "A_cam1_640x480_00_keypoints.json");
              (Some 0%Z, tx "A_cam1_640x480_0_keypoints.json")])])])])
    (flat_map (taken_up fs_duplicate FILENAME_OPFILE_RE) duplicate_files).
Proof.
  apply (index_holds_the_inputs fs_duplicate duplicate_files FILENAME_OPFILE_RE false
           empty_world empty_world).
  vm_compute. reflexivity.
Defined.

(** ** Frame files that cannot be loaded *)

Lemma fold_m_raises {A S : Type} (body : S -> A -> M S) a :
  (forall st w, exists w' e, body st a w = (w', Raise e)) ->
  forall l, In a l ->
  forall st w, exists w' e, fold_m body st l w = (w', Raise e).
Proof.
  intros Ha. induction l as [|x l IH]; intros Hin st w; [destruct Hin|].
  cbn [fold_m]. unfold mbind.
  destruct (body st x w) as [w1 [st1|e]] eqn:E; [|eauto].
  destruct Hin as [->|Hin]; [|now apply IH].
  destruct (Ha st w) as (w' & e & E'). congruence.
Qed.

Lemma for_each_raises {A : Type} (body : A -> M unit) a :
  (forall w, exists w' e, body a w = (w', Raise e)) ->
  forall l, In a l ->
  forall w, exists w' e, for_each l body w = (w', Raise e).
Proof.
  intros Ha. induction l as [|x l IH]; intros Hin w; [destruct Hin|].
  cbn [for_each]. unfold mbind.
  destruct (body x w) as [w1 [[]|e]] eqn:E; [|eauto].
  destruct Hin as [->|Hin]; [|now apply IH].
  destruct (Ha w) as (w' & e & E'). congruence.
Qed.

Lemma load_recording_raises fs tuples sid cam wd ht verbose e w :
  In e tuples -> load_json fs (snd e) = None ->
  exists w' err, load_recording fs tuples sid cam wd ht verbose w = (w', Raise err).
Proof.
  intros He Hload. unfold load_recording, mbind.
  destruct (when verbose _ w) as [w1 [[]|err]] eqn:E1; [|eauto].
  unfold lift, py_sort. destruct (mixed (map fst tuples)); [eauto|].
  destruct (fold_m_raises
              (fun (frame2data : dict pykey json) (e : entry) =>
                 match load_json fs (snd e) with
                 | Some doc => ret (dict_set pykey_eqb frame2data (frame_key (fst e)) doc)
                 | None => raise (IOError (snd e))
                 end) e) with (l := insertion_sort entry_ltb tuples) (st := @nil (pykey * json))
                              (w := w1) as (w' & err & E).
  - intros st w0. rewrite Hload. unfold raise. eauto.
  - now apply insertion_sort_in.
  - match goal with
    | |- context [fold_m ?b ?d ?l ?w0] =>
        replace (fold_m b d l w0) with (w', @Raise (dict pykey json) err)
          by (symmetry; exact E)
    end. eauto.
Qed.

Lemma wrap_session_raises fs out verbose s cams c ress q l e w :
  NoDup (map fst cams) ->
  In (c, ress) cams -> In (q, l) ress -> In e l -> load_json fs (snd e) = None ->
  exists w' err, wrap_session fs out verbose (s, cams) w = (w', Raise err).
Proof.
  intros Hnd Hc Hq He Hload. unfold wrap_session. cbn [fst snd].
  unfold mbind at 1.
  destruct (when verbose _ w) as [w1 [[]|err]] eqn:E1; [|eauto].
  unfold mbind at 1. unfold lift, sorted_keys.
  match goal with |- context [if ?b then _ else _] => destruct b end; [eauto|].
  unfold mbind at 1.
  destruct (fold_m_raises
              (fun recordings camera =>
                 let res2tuples := dict_at key_eqb cams camera [] in
                 fold_m (fun recordings (rl : resolution * list entry) =>
                           mbind (load_recording fs (snd rl) s camera
                                    (fst (fst rl)) (snd (fst rl)) verbose)
                                 (fun recording => ret (recordings ++ [recording])))
                        recordings res2tuples) c)
    with (l := insertion_sort opt_text_ltb (map fst cams)) (st := @nil json) (w := w1)
    as (w' & err & E).
  - intros st w0. cbv zeta.
    assert (Eat : dict_at key_eqb cams c [] = ress).
    { unfold dict_at. now rewrite (in_dict_get key_eqb key_eqb_eq cams c ress Hnd Hc). }
    rewrite Eat.
    apply (fold_m_raises _ (q, l)); [|assumption].
    intros st' w'. unfold mbind. cbn [fst snd].
    destruct (load_recording_raises fs l s c (fst q) (snd q) verbose e w' He Hload)
      as (w2 & err & ->). eauto.
  - apply insertion_sort_in. apply in_map_iff. exists (c, ress). auto.
  - match goal with
    | |- context [fold_m ?b ?d ?l0 ?w0] =>
        replace (fold_m b d l0 w0) with (w', @Raise (list json) err)
          by (symmetry; exact E)
    end. eauto.
Qed.

(** X11.  No frame file is passed over: when the file of an input that
    was taken up cannot be loaded, the invocation raises. *)
Theorem unloadable_frame_file_raises :
  forall fs files out re verbose w f p,
    Forall (extractable fs re) files ->
    In (f, p) (flat_map (taken_up fs re) files) ->
    load_json fs p = None ->
    exists w' e, wrap_json_frames fs files out re verbose w = (w', Raise e).
Proof.
  intros fs files out re verbose w f p Hex Hf Hload.
  destruct (group_files_grouped fs re verbose files w Hex) as (w1 & idx & G & _ & Hwf & Hin).
  unfold wrap_json_frames, mbind. rewrite G. cbv beta iota.
  destruct (sanity_check_returns idx w1) as [w2 ->].
  assert (He : In (f_frame f, p)
                  (bucket_entries (fields_bucket f) (flat_map (taken_up fs re) files))).
  { apply bucket_entries_in. exists f. simpl. auto. }
  assert (Hl : In (fields_bucket f,
                   insertion_sort entry_ltb
                     (bucket_entries (fields_bucket f) (flat_map (taken_up fs re) files)))
                  (flat_index idx)).
  { apply Hin. split; [reflexivity|]. intros E. now rewrite E in He. }
  apply in_flat_index in Hl. destruct Hl as (cams & ress & Hs & Hc & Hq).
  destruct Hwf as [_ Hall]. rewrite Forall_forall in Hall.
  destruct (Hall _ Hs) as [Hndc _]. simpl in Hndc.
  apply (for_each_raises _ (f_session_id f, cams)); [|assumption].
  intros w0.
  apply (wrap_session_raises fs out verbose (f_session_id f) cams (f_camera f) ress
           (f_width f, f_height f)
           (insertion_sort entry_ltb
              (bucket_entries (fields_bucket f) (flat_map (taken_up fs re) files)))
           (f_frame f, p)); try assumption.
  now apply insertion_sort_in.
Qed.

Lemma unloadable_frame_file_raises_witness :
  exists w' e,
    wrap_json_frames (MkFs (fun _ => true) (fun _ => None))
      [tx "A_c_1x1_0_keypoints.json"] None FILENAME_OPFILE_RE false empty_world
    = (w', Raise e).
Proof.
  apply (unloadable_frame_file_raises (MkFs (fun _ => true) (fun _ => None))
           [tx "A_c_1x1_0_keypoints.json"] None FILENAME_OPFILE_RE false empty_world
           (MkFields (Some (tx "A")) (Some (tx "c")) (Some 1%Z) (Some 1%Z) (Some 0%Z))
           (tx "A_c_1x1_0_keypoints.json")).
  - repeat constructor; intros _ m Hm; vm_compute in Hm; inversion Hm; subst;
      eexists; vm_compute; reflexivity.
  - vm_compute. auto.
  - reflexivity.
Defined.

(** ** The matcher reports only what the pattern allows *)

Lemma star_loop_matches {A : Type}
      (body : nat -> text -> caps -> (nat -> text -> caps -> option A) -> option A)
      (M : nat -> text -> nat -> caps -> caps -> Prop) greedy
      (k : nat -> text -> caps -> option A) :
  (forall i s c k x, body i s c k = Some x ->
     exists n c', n <= List.length s /\ M i s n c c'
                  /\ k (i + n) (skipn n s) c' = Some x) ->
  forall fuel i s c x,
    star_loop body greedy k fuel i s c = Some x ->
    exists n c', n <= List.length s /\ iterated M i s n c c'
                 /\ k (i + n) (skipn n s) c' = Some x.
Proof.
  intros Hb fuel; induction fuel as [|fuel IH]; intros i s c x H; simpl in H.
  - exists 0, c. rewrite Nat.add_0_r. simpl. split; [lia|]. split; [constructor|assumption].
  - assert (Hhere : k i s c = Some x ->
              exists n c', n <= List.length s /\ iterated M i s n c c'
                           /\ k (i + n) (skipn n s) c' = Some x).
    { intros Hk. exists 0, c. rewrite Nat.add_0_r. simpl.
      split; [lia|]. split; [constructor|assumption]. }
    assert (Hiter : body i s c
             (fun i' s' c' => if i <? i' then star_loop body greedy k fuel i' s' c' else None)
             = Some x ->
              exists n c', n <= List.length s /\ iterated M i s n c c'
                           /\ k (i + n) (skipn n s) c' = Some x).
    { intros Hx. apply Hb in Hx. destruct Hx as (n1 & c1 & Hn1 & HM & Hk).
      cbv beta in Hk. destruct (Nat.ltb_spec i (i + n1)) as [Hlt|]; [|discriminate].
      apply IH in Hk. destruct Hk as (n2 & c2 & Hn2 & Hit & Hk).
      rewrite length_skipn in Hn2. rewrite skipn_skipn_add, <- Nat.add_assoc in Hk.
      exists (n1 + n2), c2. split; [lia|]. split; [|assumption].
      apply iterated_more with (c1 := c1); [lia|assumption|assumption]. }
    destruct greedy.
    + destruct (body i s c _) eqn:E.
      * inversion H; subst. now apply Hiter.
      * now apply Hhere.
    + destruct (k i s c) eqn:E.
      * inversion H; subst. now apply Hhere.
      * now apply Hiter.
Qed.

Lemma rmatch_matches {A : Type} (r : regex) :
  forall i s c (k : nat -> text -> caps -> option A) x,
    rmatch r i s c k = Some x ->
    exists n c', n <= List.length s /\ matches r i s n c c'
                 /\ k (i + n) (skipn n s) c' = Some x.
Proof.
  induction r as [|p|r1 IH1 r2 IH2|r1 IH1 r2 IH2|g r IH|name r IH| |];
    intros i s c k x H; simpl in H.
  - exists 0, c. rewrite Nat.add_0_r. simpl. auto with arith.
  - destruct s as [|a s']; [discriminate|].
    destruct (p a) eqn:Ep; [|discriminate].
    exists 1, c. simpl. rewrite Nat.add_1_r.
    split; [lia|]. split; [|assumption]. split; [reflexivity|]. split; [reflexivity|].
    exists a. auto.
  - apply IH1 in H. destruct H as (n1 & c1 & Hn1 & H1 & H).
    apply IH2 in H. destruct H as (n2 & c2 & Hn2 & H2 & H).
    rewrite length_skipn in Hn2. rewrite skipn_skipn_add, <- Nat.add_assoc in H.
    exists (n1 + n2), c2. split; [lia|]. split; [|assumption].
    simpl. exists n1, n2, c1. auto.
  - destruct (rmatch r1 i s c k) eqn:E.
    + inversion H; subst. apply IH1 in E. destruct E as (n & c' & Hn & H1 & Hk).
      exists n, c'. simpl. auto.
    + apply IH2 in H. destruct H as (n & c' & Hn & H2 & Hk).
      exists n, c'. simpl. auto.
  - exact (star_loop_matches (rmatch r) (matches r) g k IH (S (List.length s)) i s c x H).
  - apply IH in H. destruct H as (n & c1 & Hn & H1 & Hk).
    replace (i + n - i) with n in Hk by lia.
    exists n, (set_cap name (firstn n s) c1). split; [assumption|]. split; [|assumption].
    simpl. exists c1. auto.
  - destruct (Nat.eqb_spec i 0) as [->|]; [|discriminate].
    exists 0, c. simpl. auto with arith.
  - destruct s as [|a [|b s']].
    + exists 0, c. rewrite Nat.add_0_r. simpl. auto 6 with arith.
    + destruct (Ascii.eqb a LF) eqn:E; [|discriminate]. apply Ascii.eqb_eq in E. subst a.
      exists 0, c. rewrite Nat.add_0_r. simpl. split; [lia|]. auto 6.
    + discriminate.
Qed.

Lemma search_from_matches r : forall s i m,
  search_from r i s = Some m ->
  exists j t n, matches r j t n (init_caps r) (m_groups m).
Proof.
  assert (Hat : forall i s m, match_at r i s = Some m ->
                 exists j t n, matches r j t n (init_caps r) (m_groups m)).
  { intros i s m H. unfold match_at in H. apply rmatch_matches in H.
    destruct H as (n & c' & _ & Hm & E). inversion E; subst. simpl. eauto. }
  induction s as [|a s IH]; intros i m H; simpl in H.
  - destruct (match_at r i []) eqn:E; [|discriminate]. inversion H; subst. eauto.
  - destruct (match_at r i (a :: s)) eqn:E.
    + inversion H; subst. eauto.
    + eapply IH; eassumption.
Qed.

Lemma groupless_matches r : forall i s n c c',
  group_names r = [] -> matches r i s n c c' -> c' = c.
Proof.
  induction r as [|p|r1 IH1 r2 IH2|r1 IH1 r2 IH2|g r IH|name r IH| |];
    intros i s n c c' Hg H; simpl in *.
  - tauto.
  - tauto.
  - apply app_eq_nil in Hg. destruct Hg as [Hg1 Hg2].
    destruct H as (n1 & n2 & c1 & _ & H1 & H2).
    apply IH1 in H1; [|assumption]. apply IH2 in H2; [|assumption]. congruence.
  - apply app_eq_nil in Hg. destruct Hg as [Hg1 Hg2].
    destruct H as [H|H]; eauto.
  - induction H as [|i s n1 n2 c c1 c2 _ H1 _ IHit]; [reflexivity|].
    apply IH in H1; [|assumption]. congruence.
  - discriminate.
  - tauto.
  - tauto.
Qed.

Lemma chr_iterated p : forall i s n c c',
  iterated (matches (Chr p)) i s n c c' ->
  c' = c /\ n <= List.length s /\ forallb p (firstn n s) = true.
Proof.
  intros i s n c c' H.
  induction H as [|i s n1 n2 c c1 c2 _ H1 _ IH].
  - simpl. auto with arith.
  - simpl in H1. destruct H1 as (-> & -> & a & Ha & Hp).
    destruct s as [|a' s]; [discriminate|]. simpl in Ha. inversion Ha; subst a'.
    simpl in IH. destruct IH as (-> & Hn & Hall).
    split; [reflexivity|]. simpl. rewrite Hp, Hall. split; [lia|reflexivity].
Qed.

(** [p+] takes a non-empty run of characters of [p] and sets no group. *)
Lemma plus_chr_matches g p i s n c c' :
  matches (Plus g (Chr p)) i s n c c' ->
  c' = c /\ firstn n s <> [] /\ forallb p (firstn n s) = true.
Proof.
  unfold Plus. simpl. intros (n1 & n2 & c1 & -> & (-> & -> & a & Ha & Hp) & H).
  destruct s as [|a' s]; [discriminate|]. simpl in Ha. inversion Ha; subst a'.
  apply chr_iterated in H. simpl in H. destruct H as (-> & _ & Hall).
  simpl. rewrite Hp, Hall. split; [reflexivity|]. split; [discriminate|reflexivity].
Qed.

(** ** [int] on digits *)

Lemma digits_val_digits : forall s acc b,
  forallb is_digit s = true -> (0 <= acc)%Z -> s <> [] \/ b = true ->
  exists z, digits_val acc b s = Some z /\ (0 <= z)%Z.
Proof.
  induction s as [|a s IH]; intros acc b Hs Hacc Hne; cbn [digits_val].
  - destruct Hne as [Hne| ->]; [now elim Hne|]. exists acc. auto.
  - simpl in Hs. apply andb_true_iff in Hs. destruct Hs as [Ha Hs]. rewrite Ha.
    apply IH; [assumption|lia|auto].
Qed.

Lemma digit_not_space a : is_digit a = true -> is_space a = false.
Proof.
  intros H.
  assert (K : negb (is_digit a) || negb (is_space a) = true).
  { apply (all_chars_check (fun a => negb (is_digit a) || negb (is_space a))).
    vm_compute. reflexivity. }
  rewrite H in K. simpl in K. now destruct (is_space a).
Qed.

Lemma digit_not_sign a :
  is_digit a = true -> is_lit "+" a = false /\ is_lit "-" a = false.
Proof.
  intros H.
  assert (K : negb (is_digit a) || (negb (is_lit "+" a) && negb (is_lit "-" a)) = true).
  { apply (all_chars_check
             (fun a => negb (is_digit a) || (negb (is_lit "+" a) && negb (is_lit "-" a)))).
    vm_compute. reflexivity. }
  rewrite H in K. cbn [negb orb] in K.
  destruct (is_lit "+" a), (is_lit "-" a); simpl in K; try discriminate K; auto.
Qed.

Lemma strip_nonspace t :
  forallb (fun a => negb (is_space a)) t = true -> strip t = t.
Proof.
  intros H. unfold strip, rstrip. destruct t as [|a r]; [reflexivity|].
  rewrite forallb_forall in H.
  rewrite lstrip_nonspace.
  2:{ specialize (H a (or_introl eq_refl)). now destruct (is_space a). }
  destruct (rev (a :: r)) as [|x l] eqn:E.
  - apply (f_equal (@rev ascii)) in E. rewrite rev_involutive in E. discriminate.
  - rewrite lstrip_nonspace.
    + rewrite <- E. apply rev_involutive.
    + assert (Hx : In x (a :: r)) by (apply in_rev; rewrite E; now left).
      specialize (H x Hx). now destruct (is_space x).
Qed.

Lemma py_int_digits t :
  t <> [] -> forallb is_digit t = true -> exists z, py_int t = Some z /\ (0 <= z)%Z.
Proof.
  intros Hne Hd. unfold py_int. rewrite strip_nonspace.
  2:{ rewrite forallb_forall in *. intros a Ha. now rewrite (digit_not_space a (Hd a Ha)). }
  destruct t as [|a r]; [congruence|].
  assert (Ha : is_digit a = true) by (simpl in Hd; now apply andb_true_iff in Hd).
  destruct (digit_not_sign a Ha) as [-> ->].
  apply digits_val_digits; [assumption|lia|left; discriminate].
Qed.

(** ** The presets *)

(** What a match of the template has captured. *)
Lemma template_groups a b c j t n caps' :
  group_names a = [] -> group_names b = [] -> group_names c = [] ->
  matches (FILENAME_TEMPL a b c) j t n (init_caps (FILENAME_TEMPL a b c)) caps' ->
  exists sid cam wd ht fr,
    caps' = [("id", Some sid); ("camera", Some cam); ("width", Some wd);
             ("height", Some ht); ("frame", Some fr)]
    /\ sid <> [] /\ cam <> []
    /\ wd <> [] /\ forallb is_digit wd = true
    /\ ht <> [] /\ forallb is_digit ht = true
    /\ fr <> [] /\ forallb is_digit fr = true.
Proof.
  intros Ga Gb Gc H.
  assert (E0 : init_caps (FILENAME_TEMPL a b c)
               = [("id", None); ("camera", None); ("width", None);
                  ("height", None); ("frame", None)]).
  { unfold init_caps, FILENAME_TEMPL. cbn [Seq group_names Plus Lit Lit_list tx
      list_ascii_of_string app map]. rewrite Ga, Gb, Gc. reflexivity. }
  rewrite E0 in H. clear E0.
  unfold FILENAME_TEMPL in H. cbn [Seq] in H.
  cbn [matches] in H.
  destruct H as (k1 & r1 & c1 & -> & (_ & -> & _) & H).
  destruct H as (k2 & r2 & c2 & -> & Hdirs & H).
  apply (groupless_matches (Star true (Cat (Plus true (Chr dot)) (Lit "/")))) in Hdirs;
    [|reflexivity]. subst c2.
  destruct H as (nid & r3 & c3 & -> & (cid & Hid & ->) & H).
  apply plus_chr_matches in Hid. destruct Hid as (-> & Hid & _).
  destruct H as (k4 & r4 & c4 & -> & Hsep & H).
  apply (groupless_matches (Lit "_")) in Hsep; [|reflexivity]. subst c4.
  destruct H as (ncam & r5 & c5 & -> & (ccam & Hcam & ->) & H).
  apply plus_chr_matches in Hcam. destruct Hcam as (-> & Hcam & _).
  destruct H as (k6 & r6 & c6 & -> & Ha & H).
  apply (groupless_matches a) in Ha; [|assumption]. subst c6.
  destruct H as (nwd & r7 & c7 & -> & (cwd & Hwd & ->) & H).
  apply plus_chr_matches in Hwd. destruct Hwd as (-> & Hwd & Dwd).
  destruct H as (k8 & r8 & c8 & -> & Hx & H).
  apply (groupless_matches (Lit "x")) in Hx; [|reflexivity]. subst c8.
  destruct H as (nht & r9 & c9 & -> & (cht & Hht & ->) & H).
  apply plus_chr_matches in Hht. destruct Hht as (-> & Hht & Dht).
  destruct H as (k10 & r10 & c10 & -> & Hb & H).
  apply (groupless_matches b) in Hb; [|assumption]. subst c10.
  destruct H as (nfr & r11 & c11 & -> & (cfr & Hfr & ->) & H).
  apply plus_chr_matches in Hfr. destruct Hfr as (-> & Hfr & Dfr).
  destruct H as (k12 & r12 & c12 & -> & Hc & H).
  apply (groupless_matches c) in Hc; [|assumption]. subst c12.
  destruct H as (k13 & r13 & c13 & -> & Hk & (_ & -> & _)).
  apply (groupless_matches (Lit "keypoints.json")) in Hk; [|reflexivity]. subst c13.
  cbn [set_cap String.eqb Ascii.eqb Bool.eqb].
  repeat eexists; eassumption.
Qed.

Lemma template_extraction a b c p m :
  group_names a = [] -> group_names b = [] -> group_names c = [] ->
  re_search (FILENAME_TEMPL a b c) p = Some m ->
  exists sid cam wd ht fr,
    extract_regex_group_fields m
    = Ok (MkFields (Some sid) (Some cam) (Some wd) (Some ht) (Some fr))
    /\ sid <> [] /\ cam <> [] /\ (0 <= wd)%Z /\ (0 <= ht)%Z /\ (0 <= fr)%Z.
Proof.
  intros Ga Gb Gc H. unfold re_search in H. apply search_from_matches in H.
  destruct H as (j & t & n & H).
  apply template_groups in H; try assumption.
  destruct H as (sid & cam & wd & ht & fr & E & Hsid & Hcam & Hwd & Dwd & Hht & Dht & Hfr & Dfr).
  destruct (py_int_digits wd Hwd Dwd) as (zw & Ew & Pw).
  destruct (py_int_digits ht Hht Dht) as (zh & Eh & Ph).
  destruct (py_int_digits fr Hfr Dfr) as (zf & Ef & Pf).
  exists sid, cam, zw, zh, zf. split; [|auto].
  unfold extract_regex_group_fields, group_int, group_text, group. rewrite E.
  cbn [lookup_cap String.eqb Ascii.eqb Bool.eqb]. rewrite Ew, Eh, Ef. reflexivity.
Qed.

(** X12.  A file name that one of the three preset patterns matches
    gives all five fields: a non-empty session id and camera, and width,
    height and frame as integers that are not negative.  So with a preset
    the extraction never raises, and [group_files] returns an index for
    every list of inputs. *)
Theorem presets_give_all_fields :
  forall re,
    In re [FILENAME_OPFILE_RE; FILENAME_OPDIR_RE; FILENAME_EXTRACTOR_RE] ->
    (forall p m,
        re_search re p = Some m ->
        exists sid cam wd ht fr,
          extract_regex_group_fields m
          = Ok (MkFields (Some sid) (Some cam) (Some wd) (Some ht) (Some fr))
          /\ sid <> [] /\ cam <> [] /\ (0 <= wd)%Z /\ (0 <= ht)%Z /\ (0 <= fr)%Z)
    /\ (forall fs files verbose w,
           exists w' idx, group_files fs files re verbose w = (w', Ok idx)).
Proof.
  intros re Hre.
  assert (Hall : forall p m,
    re_search re p = Some m ->
    exists sid cam wd ht fr,
      extract_regex_group_fields m
      = Ok (MkFields (Some sid) (Some cam) (Some wd) (Some ht) (Some fr))
      /\ sid <> [] /\ cam <> [] /\ (0 <= wd)%Z /\ (0 <= ht)%Z /\ (0 <= fr)%Z).
  { destruct Hre as [<-|[<-|[<-|[]]]]; intros p m; apply template_extraction; reflexivity. }
  split; [exact Hall|].
  intros fs files verbose w.
  destruct (group_files_grouped fs re verbose files w) as (w' & idx & G & _); [|eauto].
  rewrite Forall_forall. intros p _ _ m Hm.
  destruct (Hall p m Hm) as (sid & cam & wd & ht & fr & E & _). eauto.
Qed.

Lemma presets_give_all_fields_witness :
  exists w' idx,
    group_files (fs_all JNull) three_files FILENAME_OPFILE_RE false empty_world = (w', Ok idx).
Proof.
  apply (presets_give_all_fields FILENAME_OPFILE_RE). simpl. auto.
Defined.

(** ** Invocations that return *)



Lemma join_keys_named keys :
  Forall (fun k : option text => k <> None) keys -> exists names, join_keys keys = Ok names.
Proof.
  induction 1 as [|k keys Hk _ IH]; simpl; [eauto|].
  destruct k as [k|]; [|congruence]. destruct IH as [names ->]. simpl. eauto.
Qed.








(** ** The default pattern on the names that OpenPose gives *)

Lemma rmatch_chr {A : Type} p i s c (k : nat -> text -> caps -> option A) :
  rmatch (Chr p) i s c k
  = match s with
    | a :: s' => if p a then k (S i) s' c else None
    | [] => None
    end.
Proof. reflexivity. Qed.

Lemma rmatch_cat {A : Type} r1 r2 i s c (k : nat -> text -> caps -> option A) :
  rmatch (Cat r1 r2) i s c k = rmatch r1 i s c (fun i' s' c' => rmatch r2 i' s' c' k).
Proof. reflexivity. Qed.

Lemma rmatch_star {A : Type} g r i s c (k : nat -> text -> caps -> option A) :
  rmatch (Star g r) i s c k = star_loop (rmatch r) g k (S (List.length s)) i s c.
Proof. reflexivity. Qed.

Lemma rmatch_group {A : Type} n r i s c (k : nat -> text -> caps -> option A) :
  rmatch (Group n r) i s c k
  = rmatch r i s c (fun i' s' c' => k i' s' (set_cap n (firstn (i' - i) s) c')).
Proof. reflexivity. Qed.

Lemma greedy_star_none {A : Type} p (k : nat -> text -> caps -> option A) c :
  forall fuel s i,
    (forall v v', s = v ++ v' -> forallb p v = true -> k (i + List.length v) v' c = None) ->
    star_loop (rmatch (Chr p)) true k fuel i s c = None.
Proof.
  induction fuel as [|fuel IH]; intros s i H; cbn [star_loop].
  - specialize (H [] s eq_refl eq_refl). simpl in H. now rewrite Nat.add_0_r in H.
  - assert (H0 : k i s c = None).
    { specialize (H [] s eq_refl eq_refl). simpl in H. now rewrite Nat.add_0_r in H. }
    rewrite rmatch_chr. destruct s as [|a s]; [exact H0|].
    destruct (p a) eqn:Pa; [|exact H0].
    assert (E : (i <? S i) = true) by (apply Nat.ltb_lt; lia). rewrite E.
    rewrite IH; [exact H0|].
    intros v v' E' Hv. specialize (H (a :: v) v'). simpl in H. rewrite Pa, Hv in H.
    rewrite Nat.add_succ_r in H. apply H; [now rewrite E'|reflexivity].
Qed.

Lemma greedy_star_intro {A : Type} p (k : nat -> text -> caps -> option A) c x s' :
  forall u fuel i,
    forallb p u = true ->
    k (i + List.length u) s' c = Some x ->
    (forall v v', s' = v ++ v' -> v <> [] -> forallb p v = true ->
                  k (i + List.length u + List.length v) v' c = None) ->
    List.length u <= fuel ->
    star_loop (rmatch (Chr p)) true k fuel i (u ++ s') c = Some x.
Proof.
  induction u as [|a u IH]; intros fuel i Hp Hk Hlong Hfuel.
  - cbn [app List.length] in *. rewrite Nat.add_0_r in Hk.
    destruct fuel; cbn [star_loop]; [exact Hk|].
    rewrite rmatch_chr. destruct s' as [|a s'']; [now rewrite Hk|].
    destruct (p a) eqn:Pa; [|now rewrite Hk].
    assert (E : (i <? S i) = true) by (apply Nat.ltb_lt; lia). rewrite E.
    rewrite greedy_star_none; [exact Hk|].
    intros v v' E' Hv. specialize (Hlong (a :: v) v'). simpl in Hlong.
    rewrite Pa, Hv, Nat.add_0_r, Nat.add_succ_r in Hlong.
    apply Hlong; [now rewrite E'|discriminate|reflexivity].
  - destruct fuel; [simpl in Hfuel; lia|].
    simpl in Hp. apply andb_true_iff in Hp. destruct Hp as [Pa Hp].
    cbn [star_loop app]. rewrite rmatch_chr, Pa.
    assert (E : (i <? S i) = true) by (apply Nat.ltb_lt; lia). rewrite E.
    rewrite (IH fuel (S i)); [reflexivity|assumption| | |simpl in Hfuel; lia].
    + simpl in Hk. now rewrite Nat.add_succ_r in Hk.
    + intros v v' E' Hne Hv. specialize (Hlong v v' E' Hne Hv). simpl in Hlong.
      now rewrite Nat.add_succ_r in Hlong.
Qed.

(** A greedy [p+] hands over after the longest run for which what
    follows succeeds. *)
Lemma greedy_plus_intro {A : Type} p (k : nat -> text -> caps -> option A) c x u s' i :
  u <> [] -> forallb p u = true ->
  k (i + List.length u) s' c = Some x ->
  (forall v v', s' = v ++ v' -> v <> [] -> forallb p v = true ->
                k (i + List.length u + List.length v) v' c = None) ->
  rmatch (Plus true (Chr p)) i (u ++ s') c k = Some x.
Proof.
  intros Hne Hp Hk Hlong. destruct u as [|a u]; [congruence|].
  simpl in Hp. apply andb_true_iff in Hp. destruct Hp as [Pa Hp].
  unfold Plus. cbn [app]. rewrite rmatch_cat, rmatch_chr, Pa, rmatch_star.
  apply greedy_star_intro; try assumption.
  - simpl in Hk. now rewrite Nat.add_succ_r in Hk.
  - intros v v' E' Hv Hd. specialize (Hlong v v' E' Hv Hd). simpl in Hlong.
    now rewrite Nat.add_succ_r in Hlong.
  - rewrite length_app. lia.
Qed.

Lemma group_plus_runs {A : Type} name p i t rest c
      (k : nat -> text -> caps -> option A) x :
  t <> [] -> forallb p t = true ->
  k (i + List.length t) rest (set_cap name t c) = Some x ->
  (forall v v' c', rest = v ++ v' -> v <> [] -> forallb p v = true ->
                   k (i + List.length t + List.length v) v' c' = None) ->
  rmatch (Group name (Plus true (Chr p))) i (t ++ rest) c k = Some x.
Proof.
  intros Hne Hp Hk Hlong. rewrite rmatch_group. apply greedy_plus_intro; try assumption.
  - replace (i + List.length t - i) with (List.length t) by lia.
    now rewrite firstn_length_app.
  - intros v v' E Hv Hd. now apply Hlong.
Qed.

Lemma rmatch_lit_app {A : Type} l rest i c (k : nat -> text -> caps -> option A) :
  rmatch (Lit_list l) i (l ++ rest) c k = k (i + List.length l) rest c.
Proof. now rewrite rmatch_lit, starts_with_app, skipn_length_app. Qed.

Lemma matches_lit_char ch i s n c c' :
  matches (Chr (is_lit ch)) i s n c c' -> exists s1, s = ch :: s1 /\ n = 1 /\ c' = c.
Proof.
  simpl. intros (-> & -> & a & Ha & E). destruct s as [|a' s1]; [discriminate|].
  simpl in Ha. inversion Ha; subst a'. unfold is_lit in E. apply Ascii.eqb_eq in E.
  subst a. eauto.
Qed.

Lemma underscores_app a b : underscores (a ++ b) = underscores a + underscores b.
Proof. unfold underscores. now rewrite filter_app, length_app. Qed.

Lemma underscores_skipn n : forall t, underscores (skipn n t) <= underscores t.
Proof.
  induction n as [|n IH]; intros t; [simpl; lia|]. destruct t as [|a t]; [simpl; lia|].
  cbn [skipn]. specialize (IH t). unfold underscores in *. cbn [filter].
  destruct (is_lit "_" a); cbn [List.length]; lia.
Qed.

Lemma underscores_none t : no_char "_" t = true -> underscores t = 0.
Proof.
  unfold no_char, underscores. induction t as [|a t IH]; cbn [forallb filter];
    [reflexivity|].
  intros H. apply andb_true_iff in H. destruct H as [Ha Ht].
  destruct (is_lit "_" a); [discriminate|]. now apply IH.
Qed.

Lemma digits_no_char ch t :
  is_digit ch = false -> forallb is_digit t = true -> no_char ch t = true.
Proof.
  intros Hch. unfold no_char. induction t as [|a t IH]; cbn [forallb]; [reflexivity|].
  intros H. apply andb_true_iff in H. destruct H as [Ha Ht]. rewrite (IH Ht), andb_true_r.
  unfold is_lit. destruct (Ascii.eqb ch a) eqn:E; [|reflexivity].
  apply Ascii.eqb_eq in E. subst a. congruence.
Qed.

Lemma digits_inv t : digits t = true -> t <> [] /\ forallb is_digit t = true.
Proof.
  unfold digits. intros H. apply andb_true_iff in H. destruct H as [Hn Hd].
  split; [|assumption]. intros ->. discriminate.
Qed.

Lemma no_char_app ch a b : no_char ch (a ++ b) = no_char ch a && no_char ch b.
Proof. unfold no_char. apply forallb_app. Qed.

Lemma no_char_in ch t : no_char ch t = true -> ~ In ch t.
Proof.
  unfold no_char. intros H Hin. rewrite forallb_forall in H. specialize (H ch Hin).
  unfold is_lit in H. now rewrite Ascii.eqb_refl in H.
Qed.

Lemma in_skipn {B : Type} (x : B) n : forall l, In x (skipn n l) -> In x l.
Proof.
  induction n as [|n IH]; intros l H; [exact H|]. destruct l as [|a l]; [exact H|].
  right. now apply IH.
Qed.

(** What follows the camera needs three underscores, what follows the
    session id four. *)
Lemma after_camera_underscores i t n c c' :
  matches opfile_after_camera i t n c c' -> 3 <= underscores t.
Proof.
  unfold opfile_after_camera. cbn [Seq]. cbn [matches].
  intros (k1 & r1 & c1 & _ & H1 & H).
  apply (matches_lit_char "_"%char) in H1. destruct H1 as (t1 & -> & -> & _).
  cbn [skipn] in H.
  destruct H as (nw & r2 & c2 & _ & _ & H).
  destruct H as (k3 & r3 & c3 & _ & H3 & H).
  apply (matches_lit_char "x"%char) in H3. destruct H3 as (t3 & E3 & -> & _).
  rewrite E3 in H. cbn [skipn] in H.
  destruct H as (nh & r4 & c4 & _ & _ & H).
  destruct H as (k5 & r5 & c5 & _ & H5 & H).
  apply (matches_lit_char "_"%char) in H5. destruct H5 as (t5 & E5 & -> & _).
  rewrite E5 in H. cbn [skipn] in H.
  destruct H as (nf & r6 & c6 & _ & _ & H).
  destruct H as (k7 & r7 & c7 & _ & H7 & _).
  apply (matches_lit_char "_"%char) in H7. destruct H7 as (t7 & E7 & _).
  pose proof (underscores_skipn nw t1) as U1. rewrite E3 in U1.
  pose proof (underscores_skipn nh t3) as U3. rewrite E5 in U3.
  pose proof (underscores_skipn nf t5) as U5. rewrite E7 in U5.
  change (3 <= underscores ([("_"%char)] ++ t1)).
  change (underscores ([("x"%char)] ++ t3) <= underscores t1) in U1.
  change (underscores ([("_"%char)] ++ t5) <= underscores t3) in U3.
  change (underscores ([("_"%char)] ++ t7) <= underscores t5) in U5.
  rewrite underscores_app in *.
  change (underscores [("_"%char)]) with 1 in *.
  change (underscores [("x"%char)]) with 0 in *. lia.
Qed.

Lemma after_id_underscores i t n c c' :
  matches opfile_after_id i t n c c' -> 4 <= underscores t.
Proof.
  unfold opfile_after_id. cbn [matches].
  intros (k1 & r1 & c1 & _ & H1 & H).
  apply (matches_lit_char "_"%char) in H1. destruct H1 as (t1 & -> & -> & _).
  cbn [skipn] in H.
  destruct H as (nc & r2 & c2 & _ & _ & H).
  apply after_camera_underscores in H.
  pose proof (underscores_skipn nc t1) as U.
  change (4 <= underscores ([("_"%char)] ++ t1)). rewrite underscores_app.
  change (underscores [("_"%char)]) with 1. lia.
Qed.

Lemma after_camera_fails {A : Type} i t c (k : nat -> text -> caps -> option A) :
  underscores t < 3 -> rmatch opfile_after_camera i t c k = None.
Proof.
  intros H. destruct (rmatch opfile_after_camera i t c k) eqn:E; [|reflexivity].
  apply rmatch_matches in E. destruct E as (n & c' & _ & E & _).
  apply after_camera_underscores in E. lia.
Qed.

Lemma after_id_fails {A : Type} i t c (k : nat -> text -> caps -> option A) :
  underscores t < 4 -> rmatch opfile_after_id i t c k = None.
Proof.
  intros H. destruct (rmatch opfile_after_id i t c k) eqn:E; [|reflexivity].
  apply rmatch_matches in E. destruct E as (n & c' & _ & E & _).
  apply after_id_underscores in E. lia.
Qed.

Lemma dirs_body_fails {A : Type} i t c (k : nat -> text -> caps -> option A) :
  no_char "/" t = true ->
  rmatch (Cat (Plus true (Chr dot)) (Lit "/")) i t c k = None.
Proof.
  intros H.
  destruct (rmatch (Cat (Plus true (Chr dot)) (Lit "/")) i t c k) eqn:E; [|reflexivity].
  apply rmatch_matches in E. destruct E as (n & c' & _ & E & _).
  cbn [matches] in E. destruct E as (n1 & n2 & c1 & _ & _ & E).
  apply (matches_lit_char "/"%char) in E. destruct E as (s1 & E & _).
  exfalso. apply (no_char_in _ _ H). apply (in_skipn _ n1). rewrite E. now left.
Qed.

Lemma dirs_stop {A : Type} (k : nat -> text -> caps -> option A) fuel i t c :
  no_char "/" t = true ->
  star_loop (rmatch (Cat (Plus true (Chr dot)) (Lit "/"))) true k fuel i t c = k i t c.
Proof.
  intros H. destruct fuel; cbn [star_loop]; [reflexivity|].
  now rewrite dirs_body_fails.
Qed.

Lemma dirs_none {A : Type} (k : nat -> text -> caps -> option A) i t c :
  no_char "/" t = true -> rmatch leading_dirs i t c k = k i t c.
Proof. intros H. unfold leading_dirs. rewrite rmatch_star. now apply dirs_stop. Qed.

Lemma dirs_one {A : Type} (k : nat -> text -> caps -> option A) d t i c x :
  d <> [] -> forallb dot d = true -> no_char "/" t = true ->
  k (i + List.length d + 1) t c = Some x ->
  rmatch leading_dirs i (d ++ "/"%char :: t) c k = Some x.
Proof.
  intros Hd Hdot Ht Hk. unfold leading_dirs. rewrite rmatch_star. cbn [star_loop].
  rewrite rmatch_cat.
  rewrite greedy_plus_intro with (x := x); try assumption; [reflexivity| |].
  - change (Lit "/") with (Chr (is_lit "/"%char)). rewrite rmatch_chr.
    unfold is_lit at 1. rewrite Ascii.eqb_refl.
    assert (E : (i <? S (i + List.length d)) = true) by (apply Nat.ltb_lt; lia).
    rewrite E, dirs_stop by assumption.
    now rewrite Nat.add_1_r in Hk.
  - intros v v' E Hv _. change (Lit "/") with (Chr (is_lit "/"%char)). rewrite rmatch_chr.
    destruct v as [|a v]; [congruence|]. simpl in E. inversion E; subst.
    destruct v' as [|b v']; [reflexivity|].
    rewrite no_char_app in Ht. apply andb_true_iff in Ht. destruct Ht as [_ Ht].
    unfold no_char in Ht. cbn [forallb] in Ht. apply andb_true_iff in Ht.
    destruct Ht as [Hb _]. now destruct (is_lit "/" b).
Qed.

Lemma opfile_pieces :
  FILENAME_OPFILE_RE
  = Cat Bol (Cat leading_dirs (Cat (Group "id" (Plus true (Chr dot))) opfile_after_id)).
Proof. reflexivity. Qed.

Lemma digit_props_more a :
  is_digit a = true -> is_lit "_" a = false /\ is_lit "/" a = false /\ is_lit "x" a = false.
Proof.
  intros H.
  assert (K : negb (is_digit a)
              || (negb (is_lit "_" a) && negb (is_lit "/" a) && negb (is_lit "x" a)) = true).
  { apply (all_chars_check
             (fun a => negb (is_digit a)
                       || (negb (is_lit "_" a) && negb (is_lit "/" a) && negb (is_lit "x" a)))).
    vm_compute. reflexivity. }
  rewrite H in K. cbn [negb orb] in K.
  destruct (is_lit "_" a), (is_lit "/" a), (is_lit "x" a); simpl in K;
    try discriminate K; auto.
Qed.

Lemma digits_free ch t :
  (forall a, is_digit a = true -> is_lit ch a = false) ->
  forallb is_digit t = true -> no_char ch t = true.
Proof.
  intros Hch. unfold no_char. induction t as [|a t IH]; cbn [forallb]; [reflexivity|].
  intros H. apply andb_true_iff in H. destruct H as [Ha Ht].
  now rewrite (Hch a Ha), (IH Ht).
Qed.

Lemma digits_end_at (t rest v v' : text) a r :
  rest = a :: r -> is_digit a = false ->
  rest = v ++ v' -> v <> [] -> forallb is_digit v = true -> False.
Proof.
  intros -> Ha E Hv Hd. destruct v as [|b v]; [congruence|].
  simpl in E. inversion E; subst b. simpl in Hd. rewrite Ha in Hd. discriminate.
Qed.

Lemma tail_underscores wd ht fr :
  forallb is_digit wd = true -> forallb is_digit ht = true -> forallb is_digit fr = true ->
  underscores (tx "_" ++ wd ++ tx "x" ++ ht ++ tx "_" ++ fr ++ tx "_keypoints.json") = 3.
Proof.
  intros Hw Hh Hf. rewrite !underscores_app.
  rewrite (underscores_none wd), (underscores_none ht), (underscores_none fr);
    try (apply digits_free; [intros a Ha; apply (digit_props_more a Ha)|assumption]).
  reflexivity.
Qed.

Lemma prefix_underscore (rest v v' : text) r :
  rest = "_"%char :: r -> rest = v ++ v' -> v <> [] ->
  underscores v' < underscores rest.
Proof.
  intros -> E Hv. destruct v as [|b v]; [congruence|].
  simpl in E. inversion E; subst.
  change ("_"%char :: v ++ v') with (["_"%char] ++ v ++ v'). rewrite !underscores_app.
  change (underscores ["_"%char]) with 1. lia.
Qed.

Lemma after_camera_runs i wd ht fr c :
  digits wd = true -> digits ht = true -> digits fr = true ->
  exists j,
    rmatch opfile_after_camera i
      (tx "_" ++ wd ++ tx "x" ++ ht ++ tx "_" ++ fr ++ tx "_keypoints.json") c
      (fun j s' c' => Some (MkMatch 0 j s' c'))
    = Some (MkMatch 0 j []
              (set_cap "frame" fr (set_cap "height" ht (set_cap "width" wd c)))).
Proof.
  intros Hw Hh Hf.
  apply digits_inv in Hw, Hh, Hf.
  destruct Hw as [Nw Dw], Hh as [Nh Dh], Hf as [Nf Df].
  eexists. unfold opfile_after_camera. cbn [Seq].
  change (tx "_keypoints.json") with (tx "_" ++ tx "keypoints.json" ++ []).
  rewrite rmatch_cat. unfold Lit at 1. rewrite rmatch_lit_app.
  rewrite rmatch_cat. apply group_plus_runs; try assumption.
  2:{ intros v v' c' E Hv Hd. exfalso.
      eapply (digits_end_at v (tx "x" ++ ht ++ tx "_" ++ fr ++ tx "_" ++ tx "keypoints.json" ++ []));
        [reflexivity| |exact E|exact Hv|exact Hd]. reflexivity. }
  rewrite rmatch_cat. unfold Lit at 1. rewrite rmatch_lit_app.
  rewrite rmatch_cat. apply group_plus_runs; try assumption.
  2:{ intros v v' c' E Hv Hd. exfalso.
      eapply (digits_end_at v (tx "_" ++ fr ++ tx "_" ++ tx "keypoints.json" ++ []));
        [reflexivity| |exact E|exact Hv|exact Hd]. reflexivity. }
  rewrite rmatch_cat. unfold Lit at 1. rewrite rmatch_lit_app.
  rewrite rmatch_cat. apply group_plus_runs; try assumption.
  2:{ intros v v' c' E Hv Hd. exfalso.
      eapply (digits_end_at v (tx "_" ++ tx "keypoints.json" ++ []));
        [reflexivity| |exact E|exact Hv|exact Hd]. reflexivity. }
  rewrite rmatch_cat. unfold Lit at 1. rewrite rmatch_lit_app.
  rewrite rmatch_cat. unfold Lit at 1. rewrite rmatch_lit_app.
  cbn [rmatch]. reflexivity.
Qed.

Lemma after_id_runs i cam wd ht fr c :
  cam <> [] -> forallb dot cam = true -> no_char "_" cam = true ->
  digits wd = true -> digits ht = true -> digits fr = true ->
  exists j,
    rmatch opfile_after_id i
      (tx "_" ++ cam ++ tx "_" ++ wd ++ tx "x" ++ ht ++ tx "_" ++ fr ++ tx "_keypoints.json") c
      (fun j s' c' => Some (MkMatch 0 j s' c'))
    = Some (MkMatch 0 j []
              (set_cap "frame" fr
                 (set_cap "height" ht (set_cap "width" wd (set_cap "camera" cam c))))).
Proof.
  intros Nc Dc Uc Hw Hh Hf.
  destruct (after_camera_runs (i + List.length (tx "_") + List.length cam) wd ht fr
              (set_cap "camera" cam c) Hw Hh Hf) as [j Hj].
  exists j. unfold opfile_after_id.
  rewrite rmatch_cat. unfold Lit at 1. rewrite rmatch_lit_app.
  rewrite rmatch_cat. apply group_plus_runs; try assumption.
  intros v v' c' E Hv _. apply after_camera_fails.
  apply digits_inv in Hw, Hh, Hf.
  destruct Hw as [_ Dw], Hh as [_ Dh], Hf as [_ Df].
  rewrite <- (tail_underscores wd ht fr Dw Dh Df).
  eapply prefix_underscore; [reflexivity|exact E|exact Hv].
Qed.

Lemma name_runs i sid cam wd ht fr c :
  sid <> [] -> forallb dot sid = true ->
  cam <> [] -> forallb dot cam = true -> no_char "_" cam = true ->
  digits wd = true -> digits ht = true -> digits fr = true ->
  exists j,
    rmatch (Cat (Group "id" (Plus true (Chr dot))) opfile_after_id) i
      (sid ++ tx "_" ++ cam ++ tx "_" ++ wd ++ tx "x" ++ ht ++ tx "_" ++ fr
       ++ tx "_keypoints.json") c
      (fun j s' c' => Some (MkMatch 0 j s' c'))
    = Some (MkMatch 0 j []
              (set_cap "frame" fr
                 (set_cap "height" ht
                    (set_cap "width" wd (set_cap "camera" cam (set_cap "id" sid c)))))).
Proof.
  intros Ns Ds Nc Dc Uc Hw Hh Hf.
  destruct (after_id_runs (i + List.length sid) cam wd ht fr (set_cap "id" sid c)
              Nc Dc Uc Hw Hh Hf) as [j Hj].
  exists j. rewrite rmatch_cat. apply group_plus_runs; try assumption.
  intros v v' c' E Hv _. apply after_id_fails.
  apply digits_inv in Hw, Hh, Hf.
  destruct Hw as [_ Dw], Hh as [_ Dh], Hf as [_ Df].
  assert (U : underscores (tx "_" ++ cam ++ tx "_" ++ wd ++ tx "x" ++ ht ++ tx "_" ++ fr
                           ++ tx "_keypoints.json") = 4).
  { rewrite underscores_app, (underscores_app cam), (underscores_none cam Uc),
      (tail_underscores wd ht fr Dw Dh Df). reflexivity. }
  rewrite <- U. eapply prefix_underscore; [reflexivity|exact E|exact Hv].
Qed.

Lemma search_from_hit r i s m : match_at r i s = Some m -> search_from r i s = Some m.
Proof. intros H. destruct s; simpl; now rewrite H. Qed.

(** X14.  The default pattern reads the name that OpenPose gives the file
    of a frame, [ID_CAMERA_WIDTHxHEIGHT_FRAME_keypoints.json] after any
    directory, as it is meant: the session id (which may itself hold
    underscores), the camera, and width, height and frame as numbers.  The
    id and the camera hold no slash and no line feed, the camera no
    underscore. *)
Theorem openpose_name_is_parsed :
  forall dir sid cam wd ht fr,
    (dir = [] \/ exists d, d <> [] /\ forallb dot d = true /\ dir = d ++ tx "/") ->
    sid <> [] -> forallb dot sid = true -> no_char "/" sid = true ->
    cam <> [] -> forallb dot cam = true -> no_char "/" cam = true ->
    no_char "_" cam = true ->
    digits wd = true -> digits ht = true -> digits fr = true ->
    exists m zw zh zf,
      re_search FILENAME_OPFILE_RE (openpose_name dir sid cam wd ht fr) = Some m
      /\ py_int wd = Some zw /\ py_int ht = Some zh /\ py_int fr = Some zf
      /\ extract_regex_group_fields m
         = Ok (MkFields (Some sid) (Some cam) (Some zw) (Some zh) (Some zf)).
Proof.
  intros dir sid cam wd ht fr Hdir Ns Ds Ss Nc Dc Sc Uc Hw Hh Hf.
  destruct (digits_inv _ Hw) as [Nw Dw], (digits_inv _ Hh) as [Nh Dh],
           (digits_inv _ Hf) as [Nf Df].
  destruct (py_int_digits wd Nw Dw) as (zw & Ew & _).
  destruct (py_int_digits ht Nh Dh) as (zh & Eh & _).
  destruct (py_int_digits fr Nf Df) as (zf & Ef & _).
  set (name := sid ++ tx "_" ++ cam ++ tx "_" ++ wd ++ tx "x" ++ ht ++ tx "_" ++ fr
               ++ tx "_keypoints.json").
  assert (Hslash : no_char "/" name = true).
  { unfold name. rewrite !no_char_app, Ss, Sc.
    rewrite (digits_free "/" wd), (digits_free "/" ht), (digits_free "/" fr);
      try assumption; try (intros a Ha; apply (digit_props_more a Ha)).
    reflexivity. }
  assert (Hrun : exists j,
    match_at FILENAME_OPFILE_RE 0 (dir ++ name)
    = Some (MkMatch 0 j []
              [("id", Some sid); ("camera", Some cam); ("width", Some wd);
               ("height", Some ht); ("frame", Some fr)])).
  { unfold match_at.
    change (init_caps FILENAME_OPFILE_RE)
      with [("id", @None text); ("camera", None); ("width", None);
            ("height", None); ("frame", None)].
    rewrite opfile_pieces, rmatch_cat.
    change (rmatch Bol 0 (dir ++ name) ?c ?k) with (k 0 (dir ++ name) c).
    cbv beta. rewrite rmatch_cat.
    destruct Hdir as [->|(d & Nd & Dd & ->)].
    - cbn [app]. rewrite dirs_none by assumption.
      destruct (name_runs 0 sid cam wd ht fr
                  [("id", @None text); ("camera", None); ("width", None);
                   ("height", None); ("frame", None)] Ns Ds Nc Dc Uc Hw Hh Hf) as [j Hj].
      exists j. exact Hj.
    - destruct (name_runs (0 + List.length d + 1) sid cam wd ht fr
                  [("id", @None text); ("camera", None); ("width", None);
                   ("height", None); ("frame", None)] Ns Ds Nc Dc Uc Hw Hh Hf) as [j Hj].
      exists j. rewrite <- app_assoc. cbn [tx list_ascii_of_string app].
      apply dirs_one; try assumption. }
  destruct Hrun as [j Hj].
  exists (MkMatch 0 j []
            [("id", Some sid); ("camera", Some cam); ("width", Some wd);
             ("height", Some ht); ("frame", Some fr)]), zw, zh, zf.
  split; [|split; [assumption|split; [assumption|split; [assumption|]]]].
  - unfold re_search. apply search_from_hit. exact Hj.
  - unfold extract_regex_group_fields, group_int, group_text, group.
    cbn [m_groups lookup_cap String.eqb Ascii.eqb Bool.eqb]. rewrite Ew, Eh, Ef. reflexivity.
Qed.

Lemma openpose_name_is_parsed_witness :
  exists m zw zh zf,
    re_search FILENAME_OPFILE_RE
      (openpose_name (tx "out/run1/") (tx "rec_01") (tx "a1") (tx "640") (tx "480")
         (tx "000000000012")) = Some m
    /\ py_int (tx "640") = Some zw /\ py_int (tx "480") = Some zh
    /\ py_int (tx "000000000012") = Some zf
    /\ extract_regex_group_fields m
       = Ok (MkFields (Some (tx "rec_01")) (Some (tx "a1")) (Some zw) (Some zh) (Some zf)).
Proof.
  apply (openpose_name_is_parsed (tx "out/run1/") (tx "rec_01") (tx "a1") (tx "640")
           (tx "480") (tx "000000000012")); try reflexivity; try discriminate.
  right. exists (tx "out/run1"). split; [discriminate|]. split; reflexivity.
Defined.

(** ** Verbose mode *)

Lemma same_uniform {A : Type} (m : M A) : uniform m -> same_outcome m m.
Proof.
  intros (dp & dw & df & r & H) w1 w2 Hw Hn. rewrite (H w1), (H w2). simpl.
  now rewrite Hw, Hn.
Qed.

Lemma same_bind {A B : Type} (m1 m2 : M A) (f1 f2 : A -> M B) :
  same_outcome m1 m2 ->
  (forall a w1 w1', m1 w1 = (w1', Ok a) -> same_outcome (f1 a) (f2 a)) ->
  same_outcome (mbind m1 f1) (mbind m2 f2).
Proof.
  intros Hm Hf w1 w2 Hw Hn. unfold mbind.
  specialize (Hm w1 w2 Hw Hn).
  destruct (m1 w1) as [w1' [a1|e1]] eqn:E1, (m2 w2) as [w2' [a2|e2]] eqn:E2;
    simpl in Hm; destruct Hm as (Er & Hw' & Hn'); try discriminate Er.
  - inversion Er; subst a2. apply (Hf a1 w1 w1' E1); assumption.
  - inversion Er; subst e2. simpl. repeat split; auto.
Qed.

Lemma same_when_print b1 b2 l1 l2 :
  same_outcome (when b1 (print l1)) (when b2 (print l2)).
Proof.
  intros w1 w2 Hw Hn. destruct b1, b2; simpl; auto.
Qed.

Lemma same_fold_m {A S : Type} (b1 b2 : S -> A -> M S) l :
  (forall st a, In a l -> same_outcome (b1 st a) (b2 st a)) ->
  forall st, same_outcome (fold_m b1 st l) (fold_m b2 st l).
Proof.
  induction l as [|a l IH]; intros H st; cbn [fold_m].
  - apply same_uniform, uniform_ret.
  - apply same_bind; [apply H; now left|].
    intros st' _ _ _. apply IH. intros st'' b Hb. apply H. now right.
Qed.

Lemma same_for_each {A : Type} (b1 b2 : A -> M unit) l :
  (forall a, In a l -> same_outcome (b1 a) (b2 a)) ->
  same_outcome (for_each l b1) (for_each l b2).
Proof.
  induction l as [|a l IH]; intros H; cbn [for_each].
  - apply same_uniform, uniform_ret.
  - apply same_bind; [apply H; now left|].
    intros _ _ _ _. apply IH. intros b Hb. apply H. now right.
Qed.

Lemma same_group_step fs re v1 v2 st p :
  same_outcome (group_step fs re v1 st p) (group_step fs re v2 st p).
Proof.
  unfold group_step. destruct (isfile fs p); [|apply same_uniform, uniform_ret].
  destruct (re_search re p).
  - apply same_uniform, uniform_bind; [apply uniform_lift|intros; apply uniform_lift].
  - apply same_bind; [apply same_when_print|].
    intros _ _ _ _. apply same_uniform, uniform_ret.
Qed.

Lemma same_group_files fs files re v1 v2 :
  same_outcome (group_files fs files re v1) (group_files fs files re v2).
Proof.
  unfold group_files. apply same_bind.
  - apply same_fold_m. intros st p _. apply same_group_step.
  - intros st _ _ _. apply same_uniform, uniform_bind; [apply uniform_lift|].
    intros store. apply uniform_ret.
Qed.

Lemma same_load_recording fs tuples sid cam wd ht v1 v2 :
  same_outcome (load_recording fs tuples sid cam wd ht v1)
               (load_recording fs tuples sid cam wd ht v2).
Proof.
  unfold load_recording. apply same_bind; [apply same_when_print|].
  intros _ _ _ _. apply same_uniform.
  apply uniform_bind; [apply uniform_lift|]. intros sorted.
  apply uniform_bind; [|intros; apply uniform_ret].
  apply uniform_fold_m. intros st e.
  destruct (load_json fs (snd e)); [apply uniform_ret|apply uniform_raise].
Qed.

Lemma same_write_wrapper name recordings v1 v2 :
  same_outcome (write_wrapper name recordings v1) (write_wrapper name recordings v2).
Proof.
  unfold write_wrapper. apply same_bind; [apply same_when_print|].
  intros _ _ _ _. apply same_uniform, uniform_write_file.
Qed.

Lemma same_wrap_session fs out s cams :
  Forall (fun k : option text => k <> None) (map fst cams) ->
  same_outcome (wrap_session fs out true (s, cams)) (wrap_session fs out false (s, cams)).
Proof.
  intros Hnamed. unfold wrap_session. cbn [fst snd].
  destruct (join_keys_named _ Hnamed) as [names En].
  apply same_bind.
  - intros w1 w2 Hw Hn. cbn [when]. unfold mbind, lift, print, ret.
    match goal with
    | |- context [join_keys ?l] => replace (join_keys l) with (@Ok (list text) names)
    end. simpl. auto.
  - intros _ _ _ _. apply same_bind; [apply same_uniform, uniform_lift|].
    intros cameras _ _ _. apply same_bind; [|intros; apply same_write_wrapper].
    apply same_fold_m. intros recs camera _. apply same_fold_m. intros recs' rl _.
    apply same_bind; [apply same_load_recording|].
    intros rec _ _ _. apply same_uniform, uniform_ret.
Qed.

(** Printing *)

Lemma silent_ret {A : Type} (a : A) : keeps_printed (ret a).
Proof. intros w w' r H. now inversion H. Qed.

Lemma silent_raise {A : Type} e : keeps_printed (@raise A e).
Proof. intros w w' r H. now inversion H. Qed.

Lemma silent_lift {A : Type} (x : result A) : keeps_printed (lift x).
Proof. intros w w' r H. now inversion H. Qed.

Lemma silent_warn msg : keeps_printed (warn msg).
Proof. intros w w' r H. now inversion H. Qed.

Lemma silent_write_file name content : keeps_printed (write_file name content).
Proof. intros w w' r H. now inversion H. Qed.

Lemma silent_bind {A B : Type} (m : M A) (f : A -> M B) :
  keeps_printed m -> (forall a, keeps_printed (f a)) -> keeps_printed (mbind m f).
Proof.
  intros Hm Hf w w' r H. apply mbind_inv in H.
  destruct H as [(w1 & a & H1 & H2)|(e & H1 & _)].
  - apply Hf in H2. apply Hm in H1. congruence.
  - now apply Hm in H1.
Qed.

Lemma silent_for_each {A : Type} (l : list A) body :
  (forall a, keeps_printed (body a)) -> keeps_printed (for_each l body).
Proof.
  intros H. induction l as [|a l IH]; simpl; [apply silent_ret|].
  apply silent_bind; auto.
Qed.

Lemma silent_fold_m {A S : Type} (body : S -> A -> M S) l :
  (forall st a, keeps_printed (body st a)) -> forall st, keeps_printed (fold_m body st l).
Proof.
  intros H. induction l as [|a l IH]; intros st; simpl; [apply silent_ret|].
  apply silent_bind; auto.
Qed.

Lemma silent_invocation fs files out re :
  keeps_printed (wrap_json_frames fs files out re false).
Proof.
  unfold wrap_json_frames. apply silent_bind.
  - unfold group_files. apply silent_bind.
    + apply silent_fold_m. intros st p. unfold group_step.
      destruct (isfile fs p); [|apply silent_ret].
      destruct (re_search re p).
      * apply silent_bind; [apply silent_lift|intros; apply silent_lift].
      * apply silent_bind; [apply silent_ret|intros; apply silent_ret].
    + intros st. apply silent_bind; [apply silent_lift|intros; apply silent_ret].
  - intros idx. apply silent_bind.
    + unfold sanity_check_groups. apply silent_for_each. intros sc.
      apply silent_for_each. intros cr.
      destruct (1 <? List.length (snd cr)); [apply silent_warn|apply silent_ret].
    + intros _. apply silent_for_each. intros sc. unfold wrap_session.
      apply silent_bind; [apply silent_ret|]. intros _.
      apply silent_bind; [apply silent_lift|]. intros cameras.
      apply silent_bind.
      * apply silent_fold_m. intros recs camera. apply silent_fold_m. intros recs' rl.
        apply silent_bind; [|intros; apply silent_ret].
        unfold load_recording. apply silent_bind; [apply silent_ret|]. intros _.
        apply silent_bind; [apply silent_lift|]. intros sorted.
        apply silent_bind; [|intros; apply silent_ret].
        apply silent_fold_m. intros st e.
        destruct (load_json fs (snd e)); [apply silent_ret|apply silent_raise].
      * intros recs. unfold write_wrapper.
        apply silent_bind; [apply silent_ret|intros; apply silent_write_file].
Qed.

(** X15.  Verbose mode changes the printing only, as long as every
    input taken up has a camera: the invocation ends in the same way, with
    the same files written and the same warnings.  Without verbose mode
    nothing is printed at all. *)
Theorem verbosity_changes_only_the_printing :
  forall fs files out re w,
    (forall f p, In (f, p) (flat_map (taken_up fs re) files) -> f_camera f <> None) ->
    snd (wrap_json_frames fs files out re true w)
    = snd (wrap_json_frames fs files out re false w)
    /\ written (fst (wrap_json_frames fs files out re true w))
       = written (fst (wrap_json_frames fs files out re false w))
    /\ warned (fst (wrap_json_frames fs files out re true w))
       = warned (fst (wrap_json_frames fs files out re false w))
    /\ printed (fst (wrap_json_frames fs files out re false w)) = printed w.
Proof.
  intros fs files out re w Hcam.
  assert (Hsame : same_outcome (wrap_json_frames fs files out re true)
                               (wrap_json_frames fs files out re false)).
  { unfold wrap_json_frames. apply same_bind; [apply same_group_files|].
    intros idx w1 w1' G. apply same_bind; [apply same_uniform, uniform_sanity_check|].
    intros _ _ _ _. apply same_for_each. intros [s cams] Hs.
    apply same_wrap_session.
    pose proof (group_files_ok _ _ _ _ _ _ _ G) as Hex.
    pose proof (group_files_full _ _ _ _ _ _ _ G) as Hfull.
    destruct (group_files_grouped fs re true files w1 Hex) as (w2 & idx' & G' & _ & _ & Hin).
    rewrite G in G'. inversion G'; subst w2 idx'. clear G'.
    unfold full_index in Hfull. rewrite Forall_forall in Hfull.
    destruct (Hfull _ Hs) as [_ Hfc]. simpl in Hfc. rewrite Forall_forall in Hfc.
    rewrite Forall_forall. intros k Hk. apply in_map_iff in Hk.
    destruct Hk as ([c ress] & <- & Hc). simpl.
    specialize (Hfc _ Hc). simpl in Hfc.
    destruct ress as [|[q l] ress]; [now elim Hfc|].
    assert (Hl : In ((s, c, q), l) (flat_index idx)).
    { apply in_flat_index. exists cams, ((q, l) :: ress). simpl. auto. }
    apply Hin in Hl. destruct Hl as [_ Hne].
    destruct (bucket_entries (s, c, q) (flat_map (taken_up fs re) files)) as [|e0 l0] eqn:Eb;
      [congruence|].
    assert (He0 : In e0 (bucket_entries (s, c, q) (flat_map (taken_up fs re) files)))
      by (rewrite Eb; now left).
    apply bucket_entries_in in He0. destruct He0 as (f & Hf & Hb & _).
    pose proof (Hcam _ _ Hf) as Hc'. unfold fields_bucket in Hb. inversion Hb; subst.
    assumption. }
  destruct (Hsame w w eq_refl eq_refl) as (H1 & H2 & H3).
  split; [assumption|]. split; [assumption|]. split; [assumption|].
  destruct (wrap_json_frames fs files out re false w) as [w' r] eqn:E.
  apply silent_invocation in E. exact E.
Qed.

Lemma verbosity_changes_only_the_printing_witness :
  snd (wrap_json_frames (fs_all JNull) three_files None FILENAME_OPFILE_RE true empty_world)
  = snd (wrap_json_frames (fs_all JNull) three_files None FILENAME_OPFILE_RE false empty_world).
Proof.
  apply (verbosity_changes_only_the_printing (fs_all JNull) three_files None
           FILENAME_OPFILE_RE empty_world).
  intros f p H. vm_compute in H.
  destruct H as [H|[H|[H|[]]]]; inversion H; subst; discriminate.
Defined.

(** ** One recording, from the file names to the wrapper file *)







(** ** The order of the index *)

Lemma dict_get_exists {K V : Type} (eqb : K -> K -> bool) (d : dict K V) k :
  existsb (eqb k) (map fst d)
  = match dict_get eqb d k with Some _ => true | None => false end.
Proof.
  induction d as [|[k' v] d IH]; simpl; [reflexivity|].
  destruct (eqb k k'); [reflexivity|exact IH].
Qed.

Lemma dict_set_keys_step {K V : Type} (eqb : K -> K -> bool) (d : dict K V) k v :
  map fst (dict_set eqb d k v)
  = if existsb (eqb k) (map fst d) then map fst d else map fst d ++ [k].
Proof.
  rewrite dict_set_keys, dict_get_exists. now destruct (dict_get eqb d k).
Qed.

Lemma setdefault_set {K V : Type} (eqb : K -> K -> bool) :
  (forall a b, eqb a b = true <-> a = b) ->
  forall (d : dict K V) k v k' dflt,
    setdefault_value eqb (dict_set eqb d k v) k' dflt
    = if eqb k' k then v else setdefault_value eqb d k' dflt.
Proof.
  intros eqb_eq d k v k' dflt. unfold setdefault_value.
  rewrite (dict_get_set eqb eqb_eq). now destruct (eqb k' k).
Qed.

Lemma first_seen_snoc {K : Type} (eqb : K -> K -> bool) (l : list K) k :
  first_seen eqb (l ++ [k])
  = if existsb (eqb k) (first_seen eqb l) then first_seen eqb l
    else first_seen eqb l ++ [k].
Proof. unfold first_seen. now rewrite fold_left_app. Qed.

Lemma key_eqb_sym a b : key_eqb a b = key_eqb b a.
Proof.
  destruct (key_eqb b a) eqn:E.
  - apply key_eqb_eq in E. subst. now apply key_eqb_eq.
  - destruct (key_eqb a b) eqn:E'; [|reflexivity].
    apply key_eqb_eq in E'. subst. now rewrite (proj2 (key_eqb_eq b b) eq_refl) in E.
Qed.

Lemma in_input_order_nil {L : Type} : in_input_order [] (@nil (option text * dict (option text) (dict resolution L))).
Proof. repeat split. Qed.

Lemma in_input_order_set {L : Type} fl (idx : session_index L) f p (v : L) :
  in_input_order fl idx ->
  in_input_order (fl ++ [(f, p)]) (index_set idx (fields_bucket f) v).
Proof.
  intros (I1 & I2 & I3). unfold index_set, fields_bucket. cbn [fst snd].
  set (s0 := f_session_id f). set (c0 := f_camera f).
  set (q0 := (f_width f, f_height f)).
  set (cams0 := setdefault_value key_eqb idx s0 []).
  set (ress0 := setdefault_value key_eqb cams0 c0 []).
  split; [|split].
  - rewrite dict_set_keys_step, I1. unfold sessions_of. rewrite map_app. cbn [map fst].
    fold (sessions_of fl). fold s0. now rewrite first_seen_snoc.
  - intros s. rewrite (setdefault_set key_eqb key_eqb_eq).
    unfold cameras_of. rewrite filter_app, map_app. cbn [filter fst]. fold s0.
    rewrite (key_eqb_sym s0 s). destruct (key_eqb s s0) eqn:Es.
    + apply key_eqb_eq in Es. subst s. cbn [map fst]. fold c0.
      fold (cameras_of s0 fl). rewrite first_seen_snoc, <- (I2 s0).
      fold cams0. apply dict_set_keys_step.
    + cbn [map]. rewrite app_nil_r. apply I2.
  - intros s c. rewrite (setdefault_set key_eqb key_eqb_eq).
    unfold resolutions_of. rewrite filter_app, map_app. cbn [filter fst]. fold s0 c0.
    rewrite (key_eqb_sym s0 s), (key_eqb_sym c0 c). destruct (key_eqb s s0) eqn:Es.
    + apply key_eqb_eq in Es. subst s.
      rewrite (setdefault_set key_eqb key_eqb_eq). fold cams0.
      destruct (key_eqb c c0) eqn:Ec; cbn [andb].
      * apply key_eqb_eq in Ec. subst c. cbn [map fst]. fold q0.
        fold (resolutions_of s0 c0 fl). rewrite first_seen_snoc, <- (I3 s0 c0).
        fold cams0. fold ress0. apply dict_set_keys_step.
      * cbn [map]. rewrite app_nil_r. apply I3.
    + cbn [andb map]. rewrite app_nil_r. apply I3.
Qed.

Lemma group_step_order fs re verbose st p w w' st' fl :
  in_input_order fl (g_index st) ->
  group_step fs re verbose st p w = (w', Ok st') ->
  in_input_order (fl ++ taken_up fs re p) (g_index st').
Proof.
  intros Hord H. unfold group_step, taken_up in *.
  destruct (isfile fs p).
  2:{ inversion H; subst. now rewrite app_nil_r. }
  destruct (re_search re p) as [m|].
  2:{ apply mbind_inv in H. destruct H as [(w1 & [] & _ & H)|(e & _ & ?)]; [|discriminate].
      inversion H; subst. now rewrite app_nil_r. }
  apply mbind_inv in H. destruct H as [(w1 & f & H1 & H)|(e & _ & ?)]; [|discriminate].
  unfold lift in H1. inversion H1; subst w1. rewrite H3.
  unfold lift in H. rewrite group_insert_eq in H. inversion H; subst w' st'. clear H.
  destruct (index_get (g_index st) (fields_bucket f)) as [r|] eqn:G; cbn [g_index].
  - rewrite <- (index_set_same _ _ _ G). now apply in_input_order_set.
  - now apply in_input_order_set.
Qed.

Lemma group_loop_order fs re verbose : forall files st w w' st' fl,
  in_input_order fl (g_index st) ->
  fold_m (group_step fs re verbose) st files w = (w', Ok st') ->
  in_input_order (fl ++ flat_map (taken_up fs re) files) (g_index st').
Proof.
  induction files as [|p files IH]; intros st w w' st' fl Hord H; cbn [fold_m] in H.
  - inversion H; subst. simpl. now rewrite app_nil_r.
  - apply mbind_inv in H. destruct H as [(w1 & st1 & H1 & H)|(e & _ & ?)]; [|discriminate].
    cbn [flat_map]. rewrite app_assoc. eapply IH; [|eassumption].
    eapply group_step_order; eassumption.
Qed.

Lemma setdefault_map {K V V' : Type} (eqb : K -> K -> bool) (g : V -> V')
      (d : dict K V) k dflt dflt' :
  g dflt = dflt' ->
  setdefault_value eqb (map (fun kv => (fst kv, g (snd kv))) d) k dflt'
  = g (setdefault_value eqb d k dflt).
Proof.
  intros <-. unfold setdefault_value. induction d as [|[k' v] d IH]; simpl; [reflexivity|].
  destruct (eqb k k'); [reflexivity|exact IH].
Qed.

Lemma keys_map {K V V' : Type} (g : V -> V') (d : dict K V) :
  map fst (map (fun kv => (fst kv, g (snd kv))) d) = map fst d.
Proof. rewrite map_map. reflexivity. Qed.

Lemma in_input_order_deref store fl idx :
  in_input_order fl idx -> in_input_order fl (deref_index store idx).
Proof.
  intros (I1 & I2 & I3). unfold deref_index.
  set (g3 := map (fun rl : resolution * nat => (fst rl, store_get store (snd rl)))).
  set (g2 := map (fun cr : option text * dict resolution nat => (fst cr, g3 (snd cr)))).
  split; [|split].
  - transitivity (map fst idx); [exact (keys_map g2 idx)|exact I1].
  - intros s.
    transitivity (map fst (g2 (setdefault_value key_eqb idx s []))).
    + apply (f_equal (map fst)).
      exact (setdefault_map key_eqb g2 idx s [] [] eq_refl).
    + transitivity (map fst (setdefault_value key_eqb idx s []));
        [exact (keys_map g3 _)|apply I2].
  - intros s c.
    transitivity
      (map fst (g3 (setdefault_value key_eqb (setdefault_value key_eqb idx s []) c []))).
    + apply (f_equal (map fst)).
      transitivity (setdefault_value key_eqb (g2 (setdefault_value key_eqb idx s [])) c []).
      * apply (f_equal (fun d => setdefault_value key_eqb d c [])).
        exact (setdefault_map key_eqb g2 idx s [] [] eq_refl).
      * exact (setdefault_map key_eqb g3 (setdefault_value key_eqb idx s []) c [] []
                 eq_refl).
    + transitivity
        (map fst (setdefault_value key_eqb (setdefault_value key_eqb idx s []) c []));
        [exact (keys_map (store_get store) _)|apply I3].
Qed.

(** X17.  The index that [group_files] returns has its keys in input
    order: the sessions in the order in which the inputs taken up bring
    them first, the cameras of a session and the resolutions of a camera
    likewise.  (The files of the sessions are written in that order, and
    the recordings of one camera follow the order of its resolutions.) *)
Theorem index_is_in_input_order :
  forall fs files re verbose w w' idx,
    group_files fs files re verbose w = (w', Ok idx) ->
    map fst idx = first_seen key_eqb (sessions_of (flat_map (taken_up fs re) files))
    /\ (forall s cams,
           In (s, cams) idx ->
           map fst cams
           = first_seen key_eqb (cameras_of s (flat_map (taken_up fs re) files)))
    /\ (forall s cams c ress,
           In (s, cams) idx -> In (c, ress) cams ->
           map fst ress
           = first_seen res_eqb (resolutions_of s c (flat_map (taken_up fs re) files))).
Proof.
  intros fs files re verbose w w' idx G.
  pose proof (group_files_ok _ _ _ _ _ _ _ G) as Hex.
  destruct (group_files_grouped fs re verbose files w Hex) as (w2 & idx' & G' & _ & Hwf & _).
  rewrite G in G'. inversion G'; subst w2 idx'. clear G'.
  assert (Hord : in_input_order (flat_map (taken_up fs re) files) idx).
  { unfold group_files in G.
    apply mbind_inv in G. destruct G as [(w1 & st & H1 & G)|(e & _ & ?)]; [|discriminate].
    apply mbind_inv in G. destruct G as [(w2 & store & _ & G)|(e & _ & ?)]; [|discriminate].
    inversion G; subst. apply in_input_order_deref.
    apply (group_loop_order fs re verbose files init_gstate w w1 st []);
      [exact in_input_order_nil|exact H1]. }
  destruct Hord as (I1 & I2 & I3). destruct Hwf as [Hnd Hall].
  rewrite Forall_forall in Hall.
  assert (Hcams : forall s cams, In (s, cams) idx ->
                                 setdefault_value key_eqb idx s [] = cams).
  { intros s cams Hs. unfold setdefault_value.
    now rewrite (in_dict_get key_eqb key_eqb_eq idx s cams Hnd Hs). }
  split; [exact I1|]. split.
  - intros s cams Hs. rewrite <- (Hcams s cams Hs). apply I2.
  - intros s cams c ress Hs Hc.
    destruct (Hall _ Hs) as [Hndc _]. simpl in Hndc.
    rewrite <- (I3 s c), (Hcams s cams Hs). unfold setdefault_value.
    now rewrite (in_dict_get key_eqb key_eqb_eq cams c ress Hndc Hc).
Qed.

Lemma index_is_in_input_order_witness :
  map fst
    [(Some (tx "A"),
      [(Some (tx "cam1"),
        [((Some 640%Z, Some 480%Z),
          [(Some 0%Z, tx "A_cam1_640x480_0_keypoints.json");
           (Some 1%Z, tx "A_cam1_640x480_1_keypoints.json")])]);
       (Some (tx "cam2"),
        [((Some 640%Z, Some 480%Z), [(Some 0%Z, tx "A_cam2_640x480_0_keypoints.json")])])])]
  = first_seen key_eqb
      (sessions_of (flat_map (taken_up (fs_all JNull) FILENAME_OPFILE_RE) three_files)).
Proof.
  apply (index_is_in_input_order (fs_all JNull) three_files FILENAME_OPFILE_RE false
           empty_world empty_world).
  vm_compute. reflexivity.
Defined.

(** ** The other two patterns on the names they are written for *)

Lemma occurrences_app ch a b : occurrences ch (a ++ b) = occurrences ch a + occurrences ch b.
Proof. unfold occurrences. now rewrite filter_app, length_app. Qed.

Lemma occurrences_cons ch a t :
  occurrences ch (a :: t) = (if is_lit ch a then 1 else 0) + occurrences ch t.
Proof. unfold occurrences. cbn [filter]. now destruct (is_lit ch a). Qed.

Lemma occurrences_skipn ch n : forall t, occurrences ch (skipn n t) <= occurrences ch t.
Proof.
  intros t. rewrite <- (firstn_skipn n t) at 2. rewrite occurrences_app. lia.
Qed.

Lemma occurrences_none ch t : no_char ch t = true -> occurrences ch t = 0.
Proof.
  unfold no_char, occurrences. induction t as [|a t IH]; cbn [forallb filter];
    [reflexivity|].
  intros H. apply andb_true_iff in H. destruct H as [Ha Ht].
  destruct (is_lit ch a); [discriminate|]. now apply IH.
Qed.

Lemma none_occurrences ch t : occurrences ch t = 0 -> no_char ch t = true.
Proof.
  unfold no_char. induction t as [|a t IH]; cbn [forallb]; [reflexivity|].
  rewrite occurrences_cons. destruct (is_lit ch a); [discriminate|].
  intros H. now rewrite IH.
Qed.

Lemma occurrences_digits ch t :
  is_digit ch = false -> forallb is_digit t = true -> occurrences ch t = 0.
Proof. intros Hc Hd. apply occurrences_none. now apply digits_no_char. Qed.

Lemma prefix_occurrence ch (rest v v' : text) r :
  rest = ch :: r -> rest = v ++ v' -> v <> [] ->
  occurrences ch v' < occurrences ch rest.
Proof.
  intros -> E Hv. destruct v as [|b v]; [congruence|].
  simpl in E. inversion E; subst. rewrite occurrences_cons, occurrences_app.
  unfold is_lit. rewrite Ascii.eqb_refl. lia.
Qed.

Lemma matches_lit_list u : forall i s n c c',
  matches (Lit_list u) i s n c c' -> s = u ++ skipn n s /\ n = List.length u /\ c' = c.
Proof.
  induction u as [|a u IH]; intros i s n c c' H.
  - simpl in H. destruct H as [-> ->]. repeat split.
  - destruct u as [|b u].
    + apply matches_lit_char in H. destruct H as (s1 & -> & -> & ->). repeat split.
    + change (Lit_list (a :: b :: u)) with (Cat (Chr (is_lit a)) (Lit_list (b :: u))) in H.
      cbn [matches] in H. destruct H as (n1 & n2 & c1 & -> & H1 & H2).
      apply (matches_lit_char a i s) in H1. destruct H1 as (s1 & -> & -> & ->).
      cbn [skipn] in H2. apply IH in H2. destruct H2 as (E & -> & ->).
      split; [|split; reflexivity]. change (a :: s1 = a :: ((b :: u) ++ skipn (List.length (b :: u)) s1)).
      now rewrite <- E.
Qed.

(** What a literal, or anything else, at the front of a pattern leaves of
    the occurrences of a character. *)
Lemma lit_then ch u r i s n c c' :
  matches (Cat (Lit_list u) r) i s n c c' ->
  exists i' s' n' c1,
    matches r i' s' n' c1 c'
    /\ occurrences ch s = occurrences ch u + occurrences ch s'.
Proof.
  cbn [matches]. intros (n1 & n2 & c1 & _ & H1 & H2).
  apply matches_lit_list in H1. destruct H1 as (E & _ & _).
  exists (i + n1), (skipn n1 s), n2, c1. split; [exact H2|].
  rewrite E at 1. apply occurrences_app.
Qed.

Lemma any_then ch r0 r i s n c c' :
  matches (Cat r0 r) i s n c c' ->
  exists i' s' n' c1,
    matches r i' s' n' c1 c' /\ occurrences ch s' <= occurrences ch s.
Proof.
  cbn [matches]. intros (n1 & n2 & c1 & _ & _ & H2).
  exists (i + n1), (skipn n1 s), n2, c1. split; [exact H2|]. apply occurrences_skipn.
Qed.

(** *** The files of the frame extractor *)

(** What follows the camera needs four full stops and an underscore, what
    follows the session id two underscores. *)
Lemma extractor_after_camera_needs ch k i t n c c' :
  matches extractor_after_camera i t n c c' ->
  occurrences ch (tx "..frame_.keypoints.json") = k ->
  occurrences ch (tx "x") = 0 ->
  k <= occurrences ch t.
Proof.
  unfold extractor_after_camera. cbn [Seq]. unfold Lit. intros H Hk Hx.
  apply (lit_then ch) in H. destruct H as (i1 & s1 & n1 & c1 & H & E1).
  apply (any_then ch) in H. destruct H as (i2 & s2 & n2 & c2 & H & E2).
  apply (lit_then ch) in H. destruct H as (i3 & s3 & n3 & c3 & H & E3).
  apply (any_then ch) in H. destruct H as (i4 & s4 & n4 & c4 & H & E4).
  apply (lit_then ch) in H. destruct H as (i5 & s5 & n5 & c5 & H & E5).
  apply (any_then ch) in H. destruct H as (i6 & s6 & n6 & c6 & H & E6).
  apply (lit_then ch) in H. destruct H as (i7 & s7 & n7 & c7 & H & E7).
  apply (lit_then ch) in H. destruct H as (i8 & s8 & n8 & c8 & H & E8).
  change (tx "..frame_.keypoints.json")
    with (tx "." ++ tx ".frame_" ++ tx "." ++ tx "keypoints.json") in Hk.
  rewrite !occurrences_app in Hk. lia.
Qed.

Lemma extractor_after_camera_fails {A : Type} i t c (k : nat -> text -> caps -> option A) :
  occurrences "." t < 4 -> rmatch extractor_after_camera i t c k = None.
Proof.
  intros H. destruct (rmatch extractor_after_camera i t c k) eqn:E; [|reflexivity].
  apply rmatch_matches in E. destruct E as (n & c' & _ & E & _).
  apply (extractor_after_camera_needs "." 4) in E; [lia|reflexivity|reflexivity].
Qed.

Lemma extractor_after_id_fails {A : Type} i t c (k : nat -> text -> caps -> option A) :
  occurrences "_" t < 2 -> rmatch extractor_after_id i t c k = None.
Proof.
  intros H. destruct (rmatch extractor_after_id i t c k) eqn:E; [|reflexivity].
  apply rmatch_matches in E. destruct E as (n & c' & _ & E & _).
  unfold extractor_after_id, Lit in E.
  apply (lit_then "_") in E. destruct E as (i1 & s1 & n1 & c1 & E & E1).
  apply (any_then "_") in E. destruct E as (i2 & s2 & n2 & c2 & E & E2).
  apply (extractor_after_camera_needs "_" 1) in E; [|reflexivity|reflexivity].
  change (occurrences "_" (tx "_")) with 1 in E1. lia.
Qed.

Lemma extractor_tail_occurrences ch wd ht fr :
  is_digit ch = false ->
  forallb is_digit wd = true -> forallb is_digit ht = true -> forallb is_digit fr = true ->
  occurrences ch (tx "." ++ wd ++ tx "x" ++ ht ++ tx ".frame_" ++ fr ++ tx ".keypoints.json")
  = occurrences ch (tx ".x.frame_.keypoints.json").
Proof.
  intros Hc Hw Hh Hf. rewrite !occurrences_app.
  rewrite (occurrences_digits ch wd), (occurrences_digits ch ht), (occurrences_digits ch fr)
    by assumption.
  change (tx ".x.frame_.keypoints.json")
    with (tx "." ++ tx "x" ++ tx ".frame_" ++ tx ".keypoints.json").
  rewrite !occurrences_app. lia.
Qed.

Lemma extractor_after_camera_runs i wd ht fr c :
  digits wd = true -> digits ht = true -> digits fr = true ->
  exists j,
    rmatch extractor_after_camera i
      (tx "." ++ wd ++ tx "x" ++ ht ++ tx ".frame_" ++ fr ++ tx ".keypoints.json") c
      (fun j s' c' => Some (MkMatch 0 j s' c'))
    = Some (MkMatch 0 j []
              (set_cap "frame" fr (set_cap "height" ht (set_cap "width" wd c)))).
Proof.
  intros Hw Hh Hf.
  apply digits_inv in Hw, Hh, Hf.
  destruct Hw as [Nw Dw], Hh as [Nh Dh], Hf as [Nf Df].
  eexists. unfold extractor_after_camera. cbn [Seq].
  change (tx ".keypoints.json") with (tx "." ++ tx "keypoints.json" ++ []).
  rewrite rmatch_cat. unfold Lit at 1. rewrite rmatch_lit_app.
  rewrite rmatch_cat. apply group_plus_runs; try assumption.
  2:{ intros v v' c' E Hv Hd. exfalso.
      eapply (digits_end_at v
                (tx "x" ++ ht ++ tx ".frame_" ++ fr ++ tx "." ++ tx "keypoints.json" ++ []));
        [reflexivity| |exact E|exact Hv|exact Hd]. reflexivity. }
  rewrite rmatch_cat. unfold Lit at 1. rewrite rmatch_lit_app.
  rewrite rmatch_cat. apply group_plus_runs; try assumption.
  2:{ intros v v' c' E Hv Hd. exfalso.
      eapply (digits_end_at v (tx ".frame_" ++ fr ++ tx "." ++ tx "keypoints.json" ++ []));
        [reflexivity| |exact E|exact Hv|exact Hd]. reflexivity. }
  rewrite rmatch_cat. unfold Lit at 1. rewrite rmatch_lit_app.
  rewrite rmatch_cat. apply group_plus_runs; try assumption.
  2:{ intros v v' c' E Hv Hd. exfalso.
      eapply (digits_end_at v (tx "." ++ tx "keypoints.json" ++ []));
        [reflexivity| |exact E|exact Hv|exact Hd]. reflexivity. }
  rewrite rmatch_cat. unfold Lit at 1. rewrite rmatch_lit_app.
  rewrite rmatch_cat. unfold Lit at 1. rewrite rmatch_lit_app.
  cbn [rmatch]. reflexivity.
Qed.

Lemma extractor_after_id_runs i cam wd ht fr c :
  cam <> [] -> forallb dot cam = true -> no_char "." cam = true ->
  digits wd = true -> digits ht = true -> digits fr = true ->
  exists j,
    rmatch extractor_after_id i
      (tx "_" ++ cam ++ tx "." ++ wd ++ tx "x" ++ ht ++ tx ".frame_" ++ fr
       ++ tx ".keypoints.json") c
      (fun j s' c' => Some (MkMatch 0 j s' c'))
    = Some (MkMatch 0 j []
              (set_cap "frame" fr
                 (set_cap "height" ht (set_cap "width" wd (set_cap "camera" cam c))))).
Proof.
  intros Nc Dc Uc Hw Hh Hf.
  destruct (extractor_after_camera_runs (i + List.length (tx "_") + List.length cam)
              wd ht fr (set_cap "camera" cam c) Hw Hh Hf) as [j Hj].
  exists j. unfold extractor_after_id.
  rewrite rmatch_cat. unfold Lit at 1. rewrite rmatch_lit_app.
  rewrite rmatch_cat. apply group_plus_runs; try assumption.
  intros v v' c' E Hv _. apply extractor_after_camera_fails.
  apply digits_inv in Hw, Hh, Hf.
  destruct Hw as [_ Dw], Hh as [_ Dh], Hf as [_ Df].
  change 4 with (occurrences "." (tx ".x.frame_.keypoints.json")).
  rewrite <- (extractor_tail_occurrences "." wd ht fr eq_refl Dw Dh Df).
  eapply prefix_occurrence; [reflexivity|exact E|exact Hv].
Qed.

Lemma extractor_name_runs i sid cam wd ht fr c :
  sid <> [] -> forallb dot sid = true ->
  cam <> [] -> forallb dot cam = true -> no_char "_" cam = true -> no_char "." cam = true ->
  digits wd = true -> digits ht = true -> digits fr = true ->
  exists j,
    rmatch (Cat (Group "id" (Plus true (Chr dot))) extractor_after_id) i
      (sid ++ tx "_" ++ cam ++ tx "." ++ wd ++ tx "x" ++ ht ++ tx ".frame_" ++ fr
       ++ tx ".keypoints.json") c
      (fun j s' c' => Some (MkMatch 0 j s' c'))
    = Some (MkMatch 0 j []
              (set_cap "frame" fr
                 (set_cap "height" ht
                    (set_cap "width" wd (set_cap "camera" cam (set_cap "id" sid c)))))).
Proof.
  intros Ns Ds Nc Dc Uc Pc Hw Hh Hf.
  destruct (extractor_after_id_runs (i + List.length sid) cam wd ht fr (set_cap "id" sid c)
              Nc Dc Pc Hw Hh Hf) as [j Hj].
  exists j. rewrite rmatch_cat. apply group_plus_runs; try assumption.
  intros v v' c' E Hv _. apply extractor_after_id_fails.
  apply digits_inv in Hw, Hh, Hf.
  destruct Hw as [_ Dw], Hh as [_ Dh], Hf as [_ Df].
  assert (U : occurrences "_" (tx "_" ++ cam ++ tx "." ++ wd ++ tx "x" ++ ht ++ tx ".frame_"
                               ++ fr ++ tx ".keypoints.json") = 2).
  { rewrite occurrences_app, (occurrences_app "_" cam), (occurrences_none "_" cam Uc),
      (extractor_tail_occurrences "_" wd ht fr eq_refl Dw Dh Df). reflexivity. }
  rewrite <- U. eapply prefix_occurrence; [reflexivity|exact E|exact Hv].
Qed.

Lemma extractor_pieces :
  FILENAME_EXTRACTOR_RE
  = Cat Bol (Cat leading_dirs (Cat (Group "id" (Plus true (Chr dot))) extractor_after_id)).
Proof. reflexivity. Qed.

Lemma digit_not_stop a : is_digit a = true -> is_lit "." a = false.
Proof.
  intros H. destruct (is_lit "." a) eqn:E; [|reflexivity].
  unfold is_lit in E. apply Ascii.eqb_eq in E. subst a. discriminate H.
Qed.

(** X18.  The pattern for the frame extractor reads the name
    [ID_CAMERA.WIDTHxHEIGHT.frame_FRAME.keypoints.json], after any
    directory, as it is meant: the session id (which may hold underscores
    and full stops), the camera, and width, height and frame as numbers.
    The id and the camera hold no slash and no line feed, the camera no
    underscore and no full stop. *)
Theorem extractor_name_is_parsed :
  forall dir sid cam wd ht fr,
    (dir = [] \/ exists d, d <> [] /\ forallb dot d = true /\ dir = d ++ tx "/") ->
    sid <> [] -> forallb dot sid = true -> no_char "/" sid = true ->
    cam <> [] -> forallb dot cam = true -> no_char "/" cam = true ->
    no_char "_" cam = true -> no_char "." cam = true ->
    digits wd = true -> digits ht = true -> digits fr = true ->
    exists m zw zh zf,
      re_search FILENAME_EXTRACTOR_RE (extractor_name dir sid cam wd ht fr) = Some m
      /\ py_int wd = Some zw /\ py_int ht = Some zh /\ py_int fr = Some zf
      /\ extract_regex_group_fields m
         = Ok (MkFields (Some sid) (Some cam) (Some zw) (Some zh) (Some zf)).
Proof.
  intros dir sid cam wd ht fr Hdir Ns Ds Ss Nc Dc Sc Uc Pc Hw Hh Hf.
  destruct (digits_inv _ Hw) as [Nw Dw], (digits_inv _ Hh) as [Nh Dh],
           (digits_inv _ Hf) as [Nf Df].
  destruct (py_int_digits wd Nw Dw) as (zw & Ew & _).
  destruct (py_int_digits ht Nh Dh) as (zh & Eh & _).
  destruct (py_int_digits fr Nf Df) as (zf & Ef & _).
  set (name := sid ++ tx "_" ++ cam ++ tx "." ++ wd ++ tx "x" ++ ht ++ tx ".frame_" ++ fr
               ++ tx ".keypoints.json").
  assert (Hslash : no_char "/" name = true).
  { unfold name. rewrite !no_char_app, Ss, Sc.
    rewrite (digits_free "/" wd), (digits_free "/" ht), (digits_free "/" fr);
      try assumption; try (intros a Ha; apply (digit_props_more a Ha)).
    reflexivity. }
  assert (Hrun : exists j,
    match_at FILENAME_EXTRACTOR_RE 0 (dir ++ name)
    = Some (MkMatch 0 j []
              [("id", Some sid); ("camera", Some cam); ("width", Some wd);
               ("height", Some ht); ("frame", Some fr)])).
  { unfold match_at.
    change (init_caps FILENAME_EXTRACTOR_RE)
      with [("id", @None text); ("camera", None); ("width", None);
            ("height", None); ("frame", None)].
    rewrite extractor_pieces, rmatch_cat.
    change (rmatch Bol 0 (dir ++ name) ?c ?k) with (k 0 (dir ++ name) c).
    cbv beta. rewrite rmatch_cat.
    destruct Hdir as [->|(d & Nd & Dd & ->)].
    - cbn [app]. rewrite dirs_none by assumption.
      destruct (extractor_name_runs 0 sid cam wd ht fr
                  [("id", @None text); ("camera", None); ("width", None);
                   ("height", None); ("frame", None)] Ns Ds Nc Dc Uc Pc Hw Hh Hf) as [j Hj].
      exists j. exact Hj.
    - destruct (extractor_name_runs (0 + List.length d + 1) sid cam wd ht fr
                  [("id", @None text); ("camera", None); ("width", None);
                   ("height", None); ("frame", None)] Ns Ds Nc Dc Uc Pc Hw Hh Hf) as [j Hj].
      exists j. rewrite <- app_assoc. cbn [tx list_ascii_of_string app].
      apply dirs_one; try assumption. }
  destruct Hrun as [j Hj].
  exists (MkMatch 0 j []
            [("id", Some sid); ("camera", Some cam); ("width", Some wd);
             ("height", Some ht); ("frame", Some fr)]), zw, zh, zf.
  split; [|split; [assumption|split; [assumption|split; [assumption|]]]].
  - unfold re_search. apply search_from_hit. exact Hj.
  - unfold extract_regex_group_fields, group_int, group_text, group.
    cbn [m_groups lookup_cap String.eqb Ascii.eqb Bool.eqb]. rewrite Ew, Eh, Ef. reflexivity.
Qed.

Lemma extractor_name_is_parsed_witness :
  exists m zw zh zf,
    re_search FILENAME_EXTRACTOR_RE
      (extractor_name (tx "frames/") (tx "rec_0.1") (tx "a1") (tx "640") (tx "480")
         (tx "12")) = Some m
    /\ py_int (tx "640") = Some zw /\ py_int (tx "480") = Some zh
    /\ py_int (tx "12") = Some zf
    /\ extract_regex_group_fields m
       = Ok (MkFields (Some (tx "rec_0.1")) (Some (tx "a1")) (Some zw) (Some zh) (Some zf)).
Proof.
  apply (extractor_name_is_parsed (tx "frames/") (tx "rec_0.1") (tx "a1") (tx "640")
           (tx "480") (tx "12")); try reflexivity; try discriminate.
  right. exists (tx "frames"). split; [discriminate|]. split; reflexivity.
Defined.

(** *** One directory for each recording *)

Lemma matches_cat r1 r2 i s n c c' :
  matches (Cat r1 r2) i s n c c' ->
  exists n1 n2 c1,
    n = n1 + n2 /\ matches r1 i s n1 c c1 /\ matches r2 (i + n1) (skipn n1 s) n2 c1 c'.
Proof. intros H. exact H. Qed.

Lemma unique_split ch : forall a b x y : text,
  no_char ch a = true -> no_char ch b = true ->
  a ++ ch :: b = x ++ ch :: y -> x = a /\ y = b.
Proof.
  induction a as [|e a IH]; intros b x y Ha Hb E; destruct x as [|e' x]; cbn [app] in E.
  - inversion E. auto.
  - inversion E; subst. exfalso. apply (no_char_in _ _ Hb). apply in_or_app. right. now left.
  - inversion E; subst. exfalso. apply (no_char_in _ _ Ha). now left.
  - inversion E; subst. unfold no_char in Ha. cbn [forallb] in Ha.
    apply andb_true_iff in Ha. destruct Ha as [_ Ha].
    destruct (IH b x y Ha Hb H1) as [-> ->]. auto.
Qed.

Lemma opdir_after_height_shape i t n c c' :
  matches opdir_after_height i t n c c' -> exists tb, t = "/"%char :: tb.
Proof.
  unfold opdir_after_height. cbn [Seq]. intros H.
  apply matches_cat in H. destruct H as (n1 & n2 & c1 & _ & H & _).
  apply matches_cat in H. destruct H as (n3 & n4 & c3 & _ & H & _).
  apply (matches_lit_char "/"%char) in H. destruct H as (tb & -> & _). eauto.
Qed.

(** What follows the camera has an underscore before a slash, what follows
    the session id two. *)
Lemma opdir_after_camera_shape i t n c c' :
  matches opdir_after_camera i t n c c' ->
  exists ta tb, t = ta ++ "/"%char :: tb /\ 1 <= occurrences "_" ta.
Proof.
  unfold opdir_after_camera. intros H.
  apply matches_cat in H. destruct H as (k1 & k2 & c1 & _ & H1 & H).
  apply (matches_lit_char "_"%char) in H1. destruct H1 as (t1 & -> & -> & _).
  cbn [skipn] in H.
  apply matches_cat in H. destruct H as (nw & k3 & c2 & _ & _ & H).
  apply matches_cat in H. destruct H as (k4 & k5 & c3 & _ & H3 & H).
  apply (matches_lit_char "x"%char) in H3. destruct H3 as (t3 & E3 & -> & _).
  rewrite E3 in H. cbn [skipn] in H.
  apply matches_cat in H. destruct H as (nh & k6 & c4 & _ & _ & H).
  apply opdir_after_height_shape in H. destruct H as (tb & E4).
  assert (T1 : t1 = firstn nw t1 ++ "x"%char :: t3)
    by (rewrite <- E3; symmetry; apply firstn_skipn).
  assert (T3 : t3 = firstn nh t3 ++ "/"%char :: tb)
    by (rewrite <- E4; symmetry; apply firstn_skipn).
  remember (firstn nw t1) as w eqn:Ew. remember (firstn nh t3) as h eqn:Eh.
  clear Ew Eh E3 E4. subst t1 t3.
  exists ("_"%char :: w ++ "x"%char :: h), tb. split.
  - cbn [app]. now rewrite <- app_assoc.
  - rewrite occurrences_cons. unfold is_lit at 1. rewrite Ascii.eqb_refl. lia.
Qed.

Lemma opdir_after_id_shape i t n c c' :
  matches opdir_after_id i t n c c' ->
  exists ta tb, t = ta ++ "/"%char :: tb /\ 2 <= occurrences "_" ta.
Proof.
  unfold opdir_after_id. intros H.
  apply matches_cat in H. destruct H as (k1 & k2 & c1 & _ & H1 & H).
  apply (matches_lit_char "_"%char) in H1. destruct H1 as (t1 & -> & -> & _).
  cbn [skipn] in H.
  apply matches_cat in H. destruct H as (nc & k3 & c2 & _ & _ & H).
  apply opdir_after_camera_shape in H. destruct H as (ta & tb & E & U).
  assert (T1 : t1 = firstn nc t1 ++ ta ++ "/"%char :: tb)
    by (rewrite <- E; symmetry; apply firstn_skipn).
  remember (firstn nc t1) as w eqn:Ew. clear Ew E. subst t1.
  exists ("_"%char :: w ++ ta), tb. split.
  - cbn [app]. now rewrite <- app_assoc.
  - rewrite occurrences_cons, occurrences_app. unfold is_lit at 1.
    rewrite Ascii.eqb_refl. lia.
Qed.

Lemma opdir_name_needs_slash {A : Type} i t c (k : nat -> text -> caps -> option A) :
  no_char "/" t = true ->
  rmatch (Cat (Group "id" (Plus true (Chr dot))) opdir_after_id) i t c k = None.
Proof.
  intros H.
  destruct (rmatch (Cat (Group "id" (Plus true (Chr dot))) opdir_after_id) i t c k) eqn:E;
    [|reflexivity].
  apply rmatch_matches in E. destruct E as (n & c' & _ & E & _).
  apply matches_cat in E. destruct E as (n1 & n2 & c1 & _ & _ & E).
  apply opdir_after_id_shape in E. destruct E as (ta & tb & E & _).
  exfalso. apply (no_char_in _ _ H). apply (in_skipn _ n1). rewrite E.
  apply in_or_app. right. now left.
Qed.

(** A later start of what follows leaves too few underscores before the
    slash. *)
Lemma later_start_short (a b v v' ta tb r : text) m :
  no_char "/" a = true -> no_char "/" b = true -> a = "_"%char :: r ->
  a ++ "/"%char :: b = v ++ v' -> v <> [] ->
  v' = ta ++ "/"%char :: tb -> m <= occurrences "_" ta -> occurrences "_" a <= m -> False.
Proof.
  intros Ha Hb Er E Hv E' Hm Hle. subst v'. rewrite app_assoc in E.
  destruct (unique_split "/"%char a b (v ++ ta) tb Ha Hb E) as [Ev _].
  destruct v as [|e v]; [congruence|]. subst a. cbn [app] in Ev. inversion Ev; subst.
  rewrite occurrences_cons, occurrences_app in Hle. unfold is_lit in Hle at 1.
  rewrite Ascii.eqb_refl in Hle. lia.
Qed.

Lemma opdir_after_camera_fails {A : Type} i (a b v v' r : text) c
      (k : nat -> text -> caps -> option A) :
  no_char "/" a = true -> no_char "/" b = true -> a = "_"%char :: r ->
  occurrences "_" a <= 1 ->
  a ++ "/"%char :: b = v ++ v' -> v <> [] ->
  rmatch opdir_after_camera i v' c k = None.
Proof.
  intros Ha Hb Er Hle E Hv.
  destruct (rmatch opdir_after_camera i v' c k) eqn:R; [|reflexivity].
  apply rmatch_matches in R. destruct R as (n & c' & _ & R & _).
  apply opdir_after_camera_shape in R. destruct R as (ta & tb & E' & U).
  exfalso. exact (later_start_short a b v v' ta tb r 1 Ha Hb Er E Hv E' U Hle).
Qed.

Lemma opdir_after_id_fails {A : Type} i (a b v v' r : text) c
      (k : nat -> text -> caps -> option A) :
  no_char "/" a = true -> no_char "/" b = true -> a = "_"%char :: r ->
  occurrences "_" a <= 2 ->
  a ++ "/"%char :: b = v ++ v' -> v <> [] ->
  rmatch opdir_after_id i v' c k = None.
Proof.
  intros Ha Hb Er Hle E Hv.
  destruct (rmatch opdir_after_id i v' c k) eqn:R; [|reflexivity].
  apply rmatch_matches in R. destruct R as (n & c' & _ & R & _).
  apply opdir_after_id_shape in R. destruct R as (ta & tb & E' & U).
  exfalso. exact (later_start_short a b v v' ta tb r 2 Ha Hb Er E Hv E' U Hle).
Qed.

(** The leading directories give way where what follows needs a slash and
    the text has one only. *)
Lemma dirs_give_way {A : Type} (k : nat -> text -> caps -> option A) :
  (forall i t c, no_char "/" t = true -> k i t c = None) ->
  forall fuel i t c,
    occurrences "/" t <= 1 ->
    star_loop (rmatch (Cat (Plus true (Chr dot)) (Lit "/"))) true k fuel i t c = k i t c.
Proof.
  intros Hk fuel i t c Ht. destruct fuel; cbn [star_loop]; [reflexivity|].
  match goal with |- match ?b with _ => _ end = _ => destruct b eqn:E end; [|reflexivity].
  exfalso. apply rmatch_matches in E. destruct E as (n & c' & _ & M & K).
  apply matches_cat in M. destruct M as (n1 & n2 & c1 & -> & _ & M2).
  apply (matches_lit_char "/"%char) in M2. destruct M2 as (s1 & E1 & -> & _).
  assert (E2 : skipn (n1 + 1) t = s1).
  { replace (n1 + 1) with (1 + n1) by lia. rewrite <- skipn_skipn, E1. reflexivity. }
  rewrite E2 in K.
  assert (N : no_char "/" s1 = true).
  { apply none_occurrences. rewrite <- (firstn_skipn n1 t), E1, occurrences_app,
      occurrences_cons in Ht. unfold is_lit in Ht at 1. rewrite Ascii.eqb_refl in Ht. lia. }
  destruct (i <? i + (n1 + 1)); [|discriminate K].
  rewrite dirs_stop in K by assumption. rewrite Hk in K by assumption. discriminate K.
Qed.

Lemma dirs_none_more {A : Type} (k : nat -> text -> caps -> option A) i t c :
  (forall i t c, no_char "/" t = true -> k i t c = None) ->
  occurrences "/" t <= 1 ->
  rmatch leading_dirs i t c k = k i t c.
Proof.
  intros Hk Ht. unfold leading_dirs. rewrite rmatch_star. now apply dirs_give_way.
Qed.

Lemma dirs_one_more {A : Type} (k : nat -> text -> caps -> option A) d t i c x :
  (forall i t c, no_char "/" t = true -> k i t c = None) ->
  d <> [] -> forallb dot d = true -> occurrences "/" t <= 1 ->
  k (i + List.length d + 1) t c = Some x ->
  rmatch leading_dirs i (d ++ "/"%char :: t) c k = Some x.
Proof.
  intros Hk Hd Hdot Ht Hx. unfold leading_dirs. rewrite rmatch_star. cbn [star_loop].
  rewrite rmatch_cat.
  rewrite greedy_plus_intro with (x := x); try assumption; [reflexivity| |].
  - change (Lit "/") with (Chr (is_lit "/"%char)). rewrite rmatch_chr.
    unfold is_lit at 1. rewrite Ascii.eqb_refl.
    assert (E : (i <? S (i + List.length d)) = true) by (apply Nat.ltb_lt; lia).
    rewrite E, dirs_give_way by assumption.
    now rewrite Nat.add_1_r in Hx.
  - intros v v' E Hv _. change (Lit "/") with (Chr (is_lit "/"%char)). rewrite rmatch_chr.
    destruct v as [|a v]; [congruence|]. simpl in E. inversion E; subst.
    destruct v' as [|b v']; [reflexivity|].
    destruct (is_lit "/" b) eqn:Eb; [|reflexivity].
    match goal with |- (if ?q then _ else _) = _ => destruct q end; [|reflexivity].
    assert (N : no_char "/" v' = true).
    { apply none_occurrences. rewrite occurrences_app, occurrences_cons, Eb in Ht. lia. }
    rewrite dirs_stop by assumption. now apply Hk.
Qed.

Lemma opdir_after_video_fails {A : Type} i t c (k : nat -> text -> caps -> option A) :
  occurrences "_" t < 2 ->
  rmatch (Cat (Lit "_")
            (Cat (Group "frame" (Plus true (Chr is_digit)))
               (Cat (Lit "_") (Cat (Lit "keypoints.json") Eol)))) i t c k = None.
Proof.
  intros H.
  match goal with |- ?l = None => destruct l eqn:E end; [|reflexivity].
  apply rmatch_matches in E. destruct E as (n & c' & _ & E & _). unfold Lit in E.
  apply (lit_then "_") in E. destruct E as (i1 & s1 & n1 & c1 & E & E1).
  apply (any_then "_") in E. destruct E as (i2 & s2 & n2 & c2 & E & E2).
  apply (lit_then "_") in E. destruct E as (i3 & s3 & n3 & c3 & E & E3).
  change (occurrences "_" (tx "_")) with 1 in *. lia.
Qed.

Lemma opdir_after_height_runs i video fr c :
  forallb dot video = true -> digits fr = true ->
  exists j,
    rmatch opdir_after_height i
      (tx "/" ++ video ++ tx "_" ++ fr ++ tx "_keypoints.json") c
      (fun j s' c' => Some (MkMatch 0 j s' c'))
    = Some (MkMatch 0 j [] (set_cap "frame" fr c)).
Proof.
  intros Dv Hf. destruct (digits_inv _ Hf) as [Nf Df].
  eexists. unfold opdir_after_height. cbn [Seq].
  change (tx "_keypoints.json") with (tx "_" ++ tx "keypoints.json" ++ []).
  rewrite rmatch_cat, rmatch_cat. unfold Lit at 1. rewrite rmatch_lit_app.
  rewrite rmatch_cat, rmatch_star. apply greedy_star_intro.
  - exact Dv.
  - unfold Lit at 1. rewrite rmatch_lit_app.
    rewrite rmatch_cat. apply group_plus_runs; try assumption.
    2:{ intros v v' c' E Hv Hd. exfalso.
        eapply (digits_end_at v (tx "_" ++ tx "keypoints.json" ++ []));
          [reflexivity| |exact E|exact Hv|exact Hd]. reflexivity. }
    rewrite rmatch_cat. unfold Lit at 1. rewrite rmatch_lit_app.
    rewrite rmatch_cat. unfold Lit at 1. rewrite rmatch_lit_app.
    cbn [rmatch]. reflexivity.
  - intros v v' E Hv _.
    change (rmatch (Cat (Lit "_")
                      (Cat (Group "frame" (Plus true (Chr is_digit)))
                         (Cat (Lit "_") (Cat (Lit "keypoints.json") Eol))))
              (i + List.length (tx "/") + List.length video + List.length v) v' c
              (fun j s' c' => Some (MkMatch 0 j s' c')) = None).
    apply opdir_after_video_fails.
    assert (U : occurrences "_" (tx "_" ++ fr ++ tx "_" ++ tx "keypoints.json" ++ []) = 2).
    { rewrite !occurrences_app, (occurrences_digits "_" fr eq_refl Df). reflexivity. }
    rewrite <- U. eapply prefix_occurrence; [reflexivity|exact E|exact Hv].
  - rewrite length_app. lia.
Qed.

Lemma digits_no_slash t : forallb is_digit t = true -> no_char "/" t = true.
Proof. intros H. now apply digits_no_char. Qed.

Lemma opdir_after_camera_runs i wd ht video fr c :
  digits wd = true -> digits ht = true -> forallb dot video = true -> digits fr = true ->
  exists j,
    rmatch opdir_after_camera i
      (tx "_" ++ wd ++ tx "x" ++ ht ++ tx "/" ++ video ++ tx "_" ++ fr
       ++ tx "_keypoints.json") c
      (fun j s' c' => Some (MkMatch 0 j s' c'))
    = Some (MkMatch 0 j []
              (set_cap "frame" fr (set_cap "height" ht (set_cap "width" wd c)))).
Proof.
  intros Hw Hh Dv Hf.
  destruct (opdir_after_height_runs
              (i + List.length (tx "_") + List.length wd + List.length (tx "x")
               + List.length ht)
              video fr (set_cap "height" ht (set_cap "width" wd c)) Dv Hf) as [j Hj].
  apply digits_inv in Hw, Hh. destruct Hw as [Nw Dw], Hh as [Nh Dh].
  exists j. unfold opdir_after_camera.
  rewrite rmatch_cat. unfold Lit at 1. rewrite rmatch_lit_app.
  rewrite rmatch_cat. apply group_plus_runs; try assumption.
  2:{ intros v v' c' E Hv Hd. exfalso.
      eapply (digits_end_at v
                (tx "x" ++ ht ++ tx "/" ++ video ++ tx "_" ++ fr ++ tx "_keypoints.json"));
        [reflexivity| |exact E|exact Hv|exact Hd]. reflexivity. }
  rewrite rmatch_cat. unfold Lit at 1. rewrite rmatch_lit_app.
  rewrite rmatch_cat. apply group_plus_runs; try assumption.
  intros v v' c' E Hv Hd. exfalso.
  eapply (digits_end_at v (tx "/" ++ video ++ tx "_" ++ fr ++ tx "_keypoints.json"));
    [reflexivity| |exact E|exact Hv|exact Hd]. reflexivity.
Qed.

Lemma opdir_split (a rest : text) : a ++ tx "/" ++ rest = a ++ "/"%char :: rest.
Proof. reflexivity. Qed.

Lemma opdir_after_id_runs i cam wd ht video fr c :
  cam <> [] -> forallb dot cam = true ->
  digits wd = true -> digits ht = true ->
  forallb dot video = true -> no_char "/" video = true -> digits fr = true ->
  exists j,
    rmatch opdir_after_id i
      (tx "_" ++ cam ++ tx "_" ++ wd ++ tx "x" ++ ht ++ tx "/" ++ video ++ tx "_" ++ fr
       ++ tx "_keypoints.json") c
      (fun j s' c' => Some (MkMatch 0 j s' c'))
    = Some (MkMatch 0 j []
              (set_cap "frame" fr
                 (set_cap "height" ht (set_cap "width" wd (set_cap "camera" cam c))))).
Proof.
  intros Nc Dc Hw Hh Dv Sv Hf.
  destruct (opdir_after_camera_runs (i + List.length (tx "_") + List.length cam)
              wd ht video fr (set_cap "camera" cam c) Hw Hh Dv Hf) as [j Hj].
  exists j. unfold opdir_after_id.
  rewrite rmatch_cat. unfold Lit at 1. rewrite rmatch_lit_app.
  rewrite rmatch_cat. apply group_plus_runs; try assumption.
  intros v v' c' E Hv _.
  apply digits_inv in Hw, Hh, Hf.
  destruct Hw as [_ Dw], Hh as [_ Dh], Hf as [_ Df].
  apply (opdir_after_camera_fails _ (tx "_" ++ wd ++ tx "x" ++ ht)
           (video ++ tx "_" ++ fr ++ tx "_keypoints.json") v v' (wd ++ tx "x" ++ ht)).
  - rewrite !no_char_app, (digits_no_slash wd Dw), (digits_no_slash ht Dh). reflexivity.
  - rewrite !no_char_app, Sv, (digits_no_slash fr Df). reflexivity.
  - reflexivity.
  - rewrite !occurrences_app, (occurrences_digits "_" wd eq_refl Dw),
      (occurrences_digits "_" ht eq_refl Dh). cbn. lia.
  - rewrite <- E, <- opdir_split, <- !app_assoc. reflexivity.
  - exact Hv.
Qed.

Lemma opdir_name_runs i sid cam wd ht video fr c :
  sid <> [] -> forallb dot sid = true ->
  cam <> [] -> forallb dot cam = true -> no_char "/" cam = true -> no_char "_" cam = true ->
  digits wd = true -> digits ht = true ->
  forallb dot video = true -> no_char "/" video = true -> digits fr = true ->
  exists j,
    rmatch (Cat (Group "id" (Plus true (Chr dot))) opdir_after_id) i
      (sid ++ tx "_" ++ cam ++ tx "_" ++ wd ++ tx "x" ++ ht ++ tx "/" ++ video ++ tx "_"
       ++ fr ++ tx "_keypoints.json") c
      (fun j s' c' => Some (MkMatch 0 j s' c'))
    = Some (MkMatch 0 j []
              (set_cap "frame" fr
                 (set_cap "height" ht
                    (set_cap "width" wd (set_cap "camera" cam (set_cap "id" sid c)))))).
Proof.
  intros Ns Ds Nc Dc Sc Uc Hw Hh Dv Sv Hf.
  destruct (opdir_after_id_runs (i + List.length sid) cam wd ht video fr
              (set_cap "id" sid c) Nc Dc Hw Hh Dv Sv Hf) as [j Hj].
  exists j. rewrite rmatch_cat. apply group_plus_runs; try assumption.
  intros v v' c' E Hv _.
  apply digits_inv in Hw, Hh, Hf.
  destruct Hw as [_ Dw], Hh as [_ Dh], Hf as [_ Df].
  apply (opdir_after_id_fails _ (tx "_" ++ cam ++ tx "_" ++ wd ++ tx "x" ++ ht)
           (video ++ tx "_" ++ fr ++ tx "_keypoints.json") v v'
           (cam ++ tx "_" ++ wd ++ tx "x" ++ ht)).
  - rewrite !no_char_app, Sc, (digits_no_slash wd Dw), (digits_no_slash ht Dh). reflexivity.
  - rewrite !no_char_app, Sv, (digits_no_slash fr Df). reflexivity.
  - reflexivity.
  - rewrite !occurrences_app, (occurrences_none "_" cam Uc),
      (occurrences_digits "_" wd eq_refl Dw), (occurrences_digits "_" ht eq_refl Dh).
    cbn. lia.
  - rewrite <- E, <- opdir_split, <- !app_assoc. reflexivity.
  - exact Hv.
Qed.

Lemma opdir_pieces :
  FILENAME_OPDIR_RE
  = Cat Bol (Cat leading_dirs (Cat (Group "id" (Plus true (Chr dot))) opdir_after_id)).
Proof. reflexivity. Qed.

(** X19.  The pattern for one directory for each recording reads the path
    [ID_CAMERA_WIDTHxHEIGHT/VIDEO_FRAME_keypoints.json], after any
    directory, as it is meant: the session id (which may hold underscores),
    the camera, and width, height and frame as numbers; the name of the
    video, which may hold underscores too, is not kept.  The id, the camera
    and the video name hold no slash and no line feed, the camera no
    underscore. *)
Theorem opdir_name_is_parsed :
  forall dir sid cam wd ht video fr,
    (dir = [] \/ exists d, d <> [] /\ forallb dot d = true /\ dir = d ++ tx "/") ->
    sid <> [] -> forallb dot sid = true -> no_char "/" sid = true ->
    cam <> [] -> forallb dot cam = true -> no_char "/" cam = true ->
    no_char "_" cam = true ->
    digits wd = true -> digits ht = true ->
    forallb dot video = true -> no_char "/" video = true ->
    digits fr = true ->
    exists m zw zh zf,
      re_search FILENAME_OPDIR_RE (opdir_name dir sid cam wd ht video fr) = Some m
      /\ py_int wd = Some zw /\ py_int ht = Some zh /\ py_int fr = Some zf
      /\ extract_regex_group_fields m
         = Ok (MkFields (Some sid) (Some cam) (Some zw) (Some zh) (Some zf)).
Proof.
  intros dir sid cam wd ht video fr Hdir Ns Ds Ss Nc Dc Sc Uc Hw Hh Dv Sv Hf.
  destruct (digits_inv _ Hw) as [Nw Dw], (digits_inv _ Hh) as [Nh Dh],
           (digits_inv _ Hf) as [Nf Df].
  destruct (py_int_digits wd Nw Dw) as (zw & Ew & _).
  destruct (py_int_digits ht Nh Dh) as (zh & Eh & _).
  destruct (py_int_digits fr Nf Df) as (zf & Ef & _).
  set (name := sid ++ tx "_" ++ cam ++ tx "_" ++ wd ++ tx "x" ++ ht ++ tx "/" ++ video
               ++ tx "_" ++ fr ++ tx "_keypoints.json").
  assert (Hslash : occurrences "/" name <= 1).
  { unfold name. rewrite !occurrences_app.
    rewrite (occurrences_none "/" sid Ss), (occurrences_none "/" cam Sc),
      (occurrences_none "/" video Sv), (occurrences_digits "/" wd eq_refl Dw),
      (occurrences_digits "/" ht eq_refl Dh), (occurrences_digits "/" fr eq_refl Df).
    cbn. lia. }
  assert (Hrun : exists j,
    match_at FILENAME_OPDIR_RE 0 (dir ++ name)
    = Some (MkMatch 0 j []
              [("id", Some sid); ("camera", Some cam); ("width", Some wd);
               ("height", Some ht); ("frame", Some fr)])).
  { unfold match_at.
    change (init_caps FILENAME_OPDIR_RE)
      with [("id", @None text); ("camera", None); ("width", None);
            ("height", None); ("frame", None)].
    rewrite opdir_pieces, rmatch_cat.
    change (rmatch Bol 0 (dir ++ name) ?c ?k) with (k 0 (dir ++ name) c).
    cbv beta. rewrite rmatch_cat.
    destruct Hdir as [->|(d & Nd & Dd & ->)].
    - cbn [app]. rewrite dirs_none_more;
        [|intros i t c Ht; now apply opdir_name_needs_slash|assumption].
      destruct (opdir_name_runs 0 sid cam wd ht video fr
                  [("id", @None text); ("camera", None); ("width", None);
                   ("height", None); ("frame", None)] Ns Ds Nc Dc Sc Uc Hw Hh Dv Sv Hf)
        as [j Hj].
      exists j. exact Hj.
    - destruct (opdir_name_runs (0 + List.length d + 1) sid cam wd ht video fr
                  [("id", @None text); ("camera", None); ("width", None);
                   ("height", None); ("frame", None)] Ns Ds Nc Dc Sc Uc Hw Hh Dv Sv Hf)
        as [j Hj].
      exists j. rewrite <- app_assoc. cbn [tx list_ascii_of_string app].
      apply dirs_one_more; try assumption.
      intros i t c Ht. now apply opdir_name_needs_slash. }
  destruct Hrun as [j Hj].
  exists (MkMatch 0 j []
            [("id", Some sid); ("camera", Some cam); ("width", Some wd);
             ("height", Some ht); ("frame", Some fr)]), zw, zh, zf.
  split; [|split; [assumption|split; [assumption|split; [assumption|]]]].
  - unfold re_search. apply search_from_hit. exact Hj.
  - unfold extract_regex_group_fields, group_int, group_text, group.
    cbn [m_groups lookup_cap String.eqb Ascii.eqb Bool.eqb]. rewrite Ew, Eh, Ef. reflexivity.
Qed.

Lemma opdir_name_is_parsed_witness :
  exists m zw zh zf,
    re_search FILENAME_OPDIR_RE
      (opdir_name (tx "data/") (tx "rec_01") (tx "a1") (tx "640") (tx "480")
         (tx "clip_b") (tx "000000000012")) = Some m
    /\ py_int (tx "640") = Some zw /\ py_int (tx "480") = Some zh
    /\ py_int (tx "000000000012") = Some zf
    /\ extract_regex_group_fields m
       = Ok (MkFields (Some (tx "rec_01")) (Some (tx "a1")) (Some zw) (Some zh) (Some zf)).
Proof.
  apply (opdir_name_is_parsed (tx "data/") (tx "rec_01") (tx "a1") (tx "640") (tx "480")
           (tx "clip_b") (tx "000000000012")); try reflexivity; try discriminate.
  right. exists (tx "data"). split; [discriminate|]. split; reflexivity.
Defined.
